(** * Modular pipeline system: monitor, bounded queue, stage runtime, controller

    A shallow embedding of the concurrency substrate of the pipeline
    (plugins/sync/monitor.c, plugins/sync/consumer_producer.c,
    plugins/plugin_common.c and the attach stage of main.c).

    Conventions of the embedding.
    - A C [int] is a [Z]; increments and decrements go through [wrap_int],
      the 32-bit two's complement wrap-around, and [%] is [Z.rem].
    - A [char*] is an address in [Z]; [NULL] is 0.
    - Every region of code that runs between [pthread_mutex_lock] and
      [pthread_mutex_unlock] of the queue lock is one atomic step of the
      calling thread; every monitor operation (which takes the monitor's own
      mutex) is one atomic step; an unlocked read is a step of its own.
      A thread that sits in [monitor_wait] on a monitor whose flag is clear
      has no step: it is blocked.
    - The pthread primitives themselves are assumed not to fail. *)

From Stdlib Require Import Ascii.
From stdpp Require Import base numbers list gmap strings.

Local Open Scope Z_scope.

(** ** C integers and pointers *)

Definition INT_MAX : Z := 2147483647.
Definition INT_MIN : Z := -2147483648.

(** 32-bit two's complement wrap-around of an [int] result. *)
Definition wrap_int (z : Z) : Z := (z + 2 ^ 31) mod 2 ^ 32 - 2 ^ 31.

(** Size of a [char] pointer on the LP64 targets the project builds for. *)
Definition sizeof_char_ptr : Z := 8.

Abbreviation NULL := 0 (only parsing).

(** ** plugins/sync/monitor.c *)

Module Monitor.

Record monitor_t := Build_monitor {
  signaled : Z;
  initialized : Z
}.

(** A monitor that was never initialised (zeroed storage). *)
Definition zeroed : monitor_t := {| signaled := 0; initialized := 0 |}.

Definition monitor_init (m : monitor_t) : Z * monitor_t :=
  if initialized m =? 1 then (-1, m)
  else (0, {| signaled := 0; initialized := 1 |}).

Definition monitor_destroy (m : monitor_t) : monitor_t :=
  if initialized m =? 0 then m
  else {| signaled := 0; initialized := 0 |}.

Definition monitor_signal (m : monitor_t) : monitor_t :=
  if initialized m =? 0 then m
  else {| signaled := 1; initialized := initialized m |}.

Definition monitor_reset (m : monitor_t) : monitor_t :=
  if initialized m =? 0 then m
  else {| signaled := 0; initialized := initialized m |}.

(** [monitor_wait] either returns a code or keeps the caller asleep. *)
Inductive wait_outcome := WaitBlocked | WaitReturn (rc : Z).

Definition monitor_wait (m : monitor_t) : wait_outcome :=
  if initialized m =? 0 then WaitReturn (-1)
  else if signaled m =? 0 then WaitBlocked
  else WaitReturn 0.

(** A caller's use of a monitor between two waits: a sequence of
    [monitor_signal] and [monitor_reset] calls. *)
Inductive monitor_op := MSignal | MReset.

Definition monitor_apply (m : monitor_t) (op : monitor_op) : monitor_t :=
  match op with
  | MSignal => monitor_signal m
  | MReset => monitor_reset m
  end.

Definition monitor_ops (ops : list monitor_op) (m : monitor_t) : monitor_t :=
  foldl monitor_apply m ops.

End Monitor.

(** ** plugins/sync/consumer_producer.c *)

Module ConsumerProducer.
Import Monitor.

Record consumer_producer_t := Build_queue {
  items : list Z;                 (* char** items; [] stands for NULL *)
  capacity : Z;
  count : Z;
  head : Z;
  tail : Z;
  not_full_monitor : monitor_t;
  not_empty_monitor : monitor_t;
  finished_monitor : monitor_t;
  initialized : Z;
  finished_flag : Z
}.

(** Storage before [consumer_producer_init] ever ran. *)
Definition zeroed : consumer_producer_t :=
  {| items := []; capacity := 0; count := 0; head := 0; tail := 0;
     not_full_monitor := Monitor.zeroed;
     not_empty_monitor := Monitor.zeroed;
     finished_monitor := Monitor.zeroed;
     initialized := 0; finished_flag := 0 |}.

Definition set_not_full (m : monitor_t) (q : consumer_producer_t) :=
  {| items := items q; capacity := capacity q; count := count q;
     head := head q; tail := tail q;
     not_full_monitor := m;
     not_empty_monitor := not_empty_monitor q;
     finished_monitor := finished_monitor q;
     initialized := initialized q; finished_flag := finished_flag q |}.

Definition set_not_empty (m : monitor_t) (q : consumer_producer_t) :=
  {| items := items q; capacity := capacity q; count := count q;
     head := head q; tail := tail q;
     not_full_monitor := not_full_monitor q;
     not_empty_monitor := m;
     finished_monitor := finished_monitor q;
     initialized := initialized q; finished_flag := finished_flag q |}.

Definition set_finished_monitor (m : monitor_t) (q : consumer_producer_t) :=
  {| items := items q; capacity := capacity q; count := count q;
     head := head q; tail := tail q;
     not_full_monitor := not_full_monitor q;
     not_empty_monitor := not_empty_monitor q;
     finished_monitor := m;
     initialized := initialized q; finished_flag := finished_flag q |}.

Definition set_finished_flag (f : Z) (q : consumer_producer_t) :=
  {| items := items q; capacity := capacity q; count := count q;
     head := head q; tail := tail q;
     not_full_monitor := not_full_monitor q;
     not_empty_monitor := not_empty_monitor q;
     finished_monitor := finished_monitor q;
     initialized := initialized q; finished_flag := f |}.

(** The three monitors of a queue, as named in ghost events. *)
Inductive monitor_id := NotFull | NotEmpty | Finished.

(** Ghost events: what a step did to the queue.  [EvEnq] and [EvDeq] are
    emitted inside the critical sections that insert and remove an item. *)
Inductive event :=
| EvEnq (item : Z)
| EvDeq (item : Z)
| EvSignal (m : monitor_id)
| EvReset (m : monitor_id).

(** Result of one atomic step of a thread that is inside a queue call. *)
Inductive outcome (PC R : Type) :=
| Blocked
| Next (pc : PC) (q : consumer_producer_t) (evs : list event)
| Return (r : R) (q : consumer_producer_t) (evs : list event).
Arguments Blocked {PC R}.
Arguments Next {PC R} pc q evs.
Arguments Return {PC R} r q evs.

Definition queue_is_full (q : consumer_producer_t) : bool :=
  count q =? capacity q.

Definition queue_is_empty (q : consumer_producer_t) : bool :=
  count q =? 0.

(** *** consumer_producer_init *)

Definition consumer_producer_init (q : consumer_producer_t) (cap : Z)
  : option string * consumer_producer_t :=
  if cap <=? 0 then (Some "Invalid queue capacity"%string, q)
  else if initialized q =? 1 then (Some "Queue already initialized"%string, q)
  else if cap >? Z.quot INT_MAX sizeof_char_ptr
       then (Some "Queue capacity too large"%string, q)
  else
    let base :=
      {| items := replicate (Z.to_nat cap) NULL;       (* calloc *)
         capacity := cap; count := 0; head := 0; tail := 0;
         not_full_monitor := not_full_monitor q;
         not_empty_monitor := not_empty_monitor q;
         finished_monitor := finished_monitor q;
         initialized := 0; finished_flag := 0 |} in
    let '(r1, m1) := monitor_init (not_full_monitor q) in
    if negb (r1 =? 0) then
      (Some "Failed to initialize monitors"%string,
       {| items := []; capacity := cap; count := 0; head := 0; tail := 0;
          not_full_monitor := m1;
          not_empty_monitor := not_empty_monitor q;
          finished_monitor := finished_monitor q;
          initialized := 0; finished_flag := 0 |})
    else
    let '(r2, m2) := monitor_init (not_empty_monitor q) in
    if negb (r2 =? 0) then
      (Some "Failed to initialize monitors"%string,
       {| items := []; capacity := cap; count := 0; head := 0; tail := 0;
          not_full_monitor := monitor_destroy m1;
          not_empty_monitor := m2;
          finished_monitor := finished_monitor q;
          initialized := 0; finished_flag := 0 |})
    else
    let '(r3, m3) := monitor_init (finished_monitor q) in
    if negb (r3 =? 0) then
      (Some "Failed to initialize monitors"%string,
       {| items := []; capacity := cap; count := 0; head := 0; tail := 0;
          not_full_monitor := monitor_destroy m1;
          not_empty_monitor := monitor_destroy m2;
          finished_monitor := m3;
          initialized := 0; finished_flag := 0 |})
    else
      (None,
       {| items := items base; capacity := cap; count := 0; head := 0; tail := 0;
          not_full_monitor := m1;
          not_empty_monitor := m2;
          finished_monitor := m3;
          initialized := 1; finished_flag := 0 |}).

(** *** consumer_producer_put *)

Inductive put_pc :=
| PutEntry     (* unlocked validation of the arguments and of [finished_flag] *)
| PutLock      (* first acquisition of the lock: re-check, then the loop test *)
| PutWait      (* asleep in [monitor_wait(&not_full_monitor)], lock released *)
| PutRelock    (* woken: re-acquire the lock and test the loop condition *)
| PutSignal.   (* item inserted, lock released: signal [not_empty_monitor] *)

Definition err_after_finished : string :=
  "Cannot add item after finished signal".

(** The insertion proper: the three statements under the lock. *)
Definition put_insert (item : Z) (q : consumer_producer_t) : consumer_producer_t :=
  {| items := <[Z.to_nat (tail q) := item]> (items q);
     capacity := capacity q;
     count := wrap_int (count q + 1);
     head := head q;
     tail := Z.rem (wrap_int (tail q + 1)) (capacity q);
     not_full_monitor := not_full_monitor q;
     not_empty_monitor := not_empty_monitor q;
     finished_monitor := finished_monitor q;
     initialized := initialized q; finished_flag := finished_flag q |}.

(** One evaluation of [while (queue_is_full(queue))] with the lock held,
    up to the next release of the lock. *)
Definition put_loop (item : Z) (q : consumer_producer_t)
  : outcome put_pc (option string) :=
  if queue_is_full q then
    Next PutWait (set_not_full (monitor_reset (not_full_monitor q)) q)
         [EvReset NotFull]
  else
    Next PutSignal (put_insert item q) [EvEnq item].

Definition put_step (item : Z) (pc : put_pc) (q : consumer_producer_t)
  : outcome put_pc (option string) :=
  match pc with
  | PutEntry =>
      if item =? NULL then Return (Some "Item pointer is NULL"%string) q []
      else if negb (initialized q =? 1)
           then Return (Some "Queue not initialized"%string) q []
      else if finished_flag q =? 1 then Return (Some err_after_finished) q []
      else Next PutLock q []
  | PutLock =>
      if finished_flag q =? 1 then Return (Some err_after_finished) q []
      else put_loop item q
  | PutWait =>
      match monitor_wait (not_full_monitor q) with
      | WaitBlocked => Blocked
      | WaitReturn rc =>
          if negb (rc =? 0)
          then Return (Some "Failed during monitor operation (wait)"%string) q []
          else Next PutRelock q []
      end
  | PutRelock => put_loop item q
  | PutSignal =>
      Return None (set_not_empty (monitor_signal (not_empty_monitor q)) q)
             [EvSignal NotEmpty]
  end.

(** *** consumer_producer_get *)

Inductive get_pc :=
| GetEntry     (* validation, first acquisition of the lock, loop test *)
| GetWait      (* asleep in [monitor_wait(&not_empty_monitor)] *)
| GetRelock    (* woken: re-acquire the lock and test the loop condition *)
| GetSignalNotFull (item : Z) (became_empty : bool)
| GetSignalFinished (item : Z).

(** The removal proper: the statements under the lock after the loop. *)
Definition get_dequeue (q : consumer_producer_t) : Z * consumer_producer_t :=
  let old_head := head q in
  let item := default NULL (items q !! Z.to_nat old_head) in
  (item,
   {| items := <[Z.to_nat old_head := NULL]> (items q);
      capacity := capacity q;
      count := wrap_int (count q - 1);
      head := Z.rem (wrap_int (head q + 1)) (capacity q);
      tail := tail q;
      not_full_monitor := not_full_monitor q;
      not_empty_monitor := not_empty_monitor q;
      finished_monitor := finished_monitor q;
      initialized := initialized q; finished_flag := finished_flag q |}).

Definition get_loop (q : consumer_producer_t) : outcome get_pc Z :=
  if queue_is_empty q && (finished_flag q =? 0) then
    Next GetWait (set_not_empty (monitor_reset (not_empty_monitor q)) q)
         [EvReset NotEmpty]
  else if queue_is_empty q && (finished_flag q =? 1) then
    Return NULL q []
  else
    let '(item, q') := get_dequeue q in
    let became_empty := (count q' =? 0) && (finished_flag q' =? 1) in
    Next (GetSignalNotFull item became_empty) q' [EvDeq item].

Definition get_step (pc : get_pc) (q : consumer_producer_t) : outcome get_pc Z :=
  match pc with
  | GetEntry =>
      if negb (initialized q =? 1) then Return NULL q []
      else get_loop q
  | GetWait =>
      match monitor_wait (not_empty_monitor q) with
      | WaitBlocked => Blocked
      | WaitReturn rc =>
          if negb (rc =? 0) then Return NULL q [] else Next GetRelock q []
      end
  | GetRelock => get_loop q
  | GetSignalNotFull item became_empty =>
      let q' := set_not_full (monitor_signal (not_full_monitor q)) q in
      if became_empty then Next (GetSignalFinished item) q' [EvSignal NotFull]
      else Return item q' [EvSignal NotFull]
  | GetSignalFinished item =>
      Return item (set_finished_monitor (monitor_signal (finished_monitor q)) q)
             [EvSignal Finished]
  end.

(** *** consumer_producer_signal_finished *)

Inductive sf_pc :=
| SfEntry            (* validation and the critical section *)
| SfSignalFinished   (* lock released: signal [finished_monitor] *)
| SfSignalNotEmpty.  (* then signal [not_empty_monitor] *)

Definition sf_step (pc : sf_pc) (q : consumer_producer_t) : outcome sf_pc unit :=
  match pc with
  | SfEntry =>
      if negb (initialized q =? 1) then Return () q []
      else if finished_flag q =? 1 then Return () q []
      else Next SfSignalFinished (set_finished_flag 1 q) []
  | SfSignalFinished =>
      Next SfSignalNotEmpty
           (set_finished_monitor (monitor_signal (finished_monitor q)) q)
           [EvSignal Finished]
  | SfSignalNotEmpty =>
      Return () (set_not_empty (monitor_signal (not_empty_monitor q)) q)
             [EvSignal NotEmpty]
  end.

(** *** consumer_producer_wait_finished *)

Inductive wf_pc :=
| WfEntry      (* validation, lock, fast path, then phase 1 *)
| WfWait1      (* phase 1: asleep in [monitor_wait(&finished_monitor)] *)
| WfRelock1    (* phase 1: re-acquire and re-test [finished_flag == 0] *)
| WfWait2      (* phase 2: asleep in [monitor_wait(&finished_monitor)] *)
| WfRelock2.   (* phase 2: re-acquire and re-test [count > 0] *)

(** Phase 2 loop test with the lock held. *)
Definition wf_phase2 (q : consumer_producer_t) : outcome wf_pc Z :=
  if count q >? 0 then
    Next WfWait2 (set_finished_monitor (monitor_reset (finished_monitor q)) q)
         [EvReset Finished]
  else Return 0 q [].

(** Phase 1 loop test with the lock held; falls through to phase 2. *)
Definition wf_phase1 (q : consumer_producer_t) : outcome wf_pc Z :=
  if finished_flag q =? 0 then
    Next WfWait1 (set_finished_monitor (monitor_reset (finished_monitor q)) q)
         [EvReset Finished]
  else wf_phase2 q.

Definition wf_wait (resume : wf_pc) (q : consumer_producer_t) : outcome wf_pc Z :=
  match monitor_wait (finished_monitor q) with
  | WaitBlocked => Blocked
  | WaitReturn rc =>
      if negb (rc =? 0) then Return (-1) q [] else Next resume q []
  end.

Definition wf_step (pc : wf_pc) (q : consumer_producer_t) : outcome wf_pc Z :=
  match pc with
  | WfEntry =>
      if negb (initialized q =? 1) then Return (-1) q []
      else if (finished_flag q =? 1) && (count q =? 0) then Return 0 q []
      else wf_phase1 q
  | WfWait1 => wf_wait WfRelock1 q
  | WfRelock1 => wf_phase1 q
  | WfWait2 => wf_wait WfRelock2 q
  | WfRelock2 => wf_phase2 q
  end.

(** *** A call run on its own *)

(** A thread that runs a call with nobody else scheduled in between: the
    steps are taken one after the other until the call returns.  The result
    is [None] when the call blocks or the fuel runs out. *)
Fixpoint solo {PC R} (step : PC → consumer_producer_t → outcome PC R)
    (fuel : nat) (pc : PC) (q : consumer_producer_t) (acc : list event)
  : option (R * consumer_producer_t * list event) :=
  match fuel with
  | O => None
  | S n =>
      match step pc q with
      | Blocked => None
      | Next pc' q' evs => solo step n pc' q' (acc ++ evs)
      | Return r q' evs => Some (r, q', acc ++ evs)
      end
  end.

(** [consumer_producer_signal_finished] never waits: three steps at most. *)
Definition consumer_producer_signal_finished (q : consumer_producer_t)
  : option (unit * consumer_producer_t * list event) :=
  solo sf_step 3 SfEntry q [].

(** [consumer_producer_put] and [consumer_producer_get] run on their own
    return within four steps unless they have to wait. *)
Definition consumer_producer_put (q : consumer_producer_t) (item : Z)
  : option (option string * consumer_producer_t * list event) :=
  solo (put_step item) 4 PutEntry q [].

Definition consumer_producer_get (q : consumer_producer_t)
  : option (Z * consumer_producer_t * list event) :=
  solo get_step 4 GetEntry q [].

Definition consumer_producer_wait_finished (q : consumer_producer_t)
  : option (Z * consumer_producer_t * list event) :=
  solo wf_step 4 WfEntry q [].

(** *** Abstract view and representation invariant *)

(** Slot of the [i]-th live item, counted from the head of the ring. *)
Definition slot (q : consumer_producer_t) (i : nat) : nat :=
  Z.to_nat ((head q + Z.of_nat i) mod capacity q).

(** The live items in the order in which [get] will hand them out. *)
Definition contents (q : consumer_producer_t) : list Z :=
  (λ i, default NULL (items q !! slot q i)) <$> seq 0 (Z.to_nat (count q)).

Definition monitors_ready (q : consumer_producer_t) : Prop :=
  Monitor.initialized (not_full_monitor q) = 1 ∧
  Monitor.initialized (not_empty_monitor q) = 1 ∧
  Monitor.initialized (finished_monitor q) = 1.

(** What [consumer_producer_init] establishes and every call maintains. *)
Record wf (q : consumer_producer_t) : Prop := Build_wf {
  wf_initialized : initialized q = 1;
  wf_capacity : 1 ≤ capacity q ≤ Z.quot INT_MAX sizeof_char_ptr;
  wf_items : Z.of_nat (length (items q)) = capacity q;
  wf_count : 0 ≤ count q ≤ capacity q;
  wf_head : 0 ≤ head q < capacity q;
  wf_tail : tail q = (head q + count q) mod capacity q;
  wf_finished : finished_flag q = 0 ∨ finished_flag q = 1;
  wf_monitors : monitors_ready q;
  wf_live : Forall (λ x, x ≠ NULL) (contents q)
}.

(** *** Threads calling into one queue *)

Inductive call :=
| CallPut (item : Z)
| CallGet
| CallSignalFinished
| CallWaitFinished.

Inductive op_pc :=
| InPut (item : Z) (pc : put_pc)
| InGet (pc : get_pc)
| InSignalFinished (pc : sf_pc)
| InWaitFinished (pc : wf_pc).

Inductive retval :=
| RetPut (err : option string)
| RetGet (item : Z)
| RetSignalFinished
| RetWaitFinished (rc : Z).

Definition entry (c : call) : op_pc :=
  match c with
  | CallPut item => InPut item PutEntry
  | CallGet => InGet GetEntry
  | CallSignalFinished => InSignalFinished SfEntry
  | CallWaitFinished => InWaitFinished WfEntry
  end.

Definition lift {PC R} (inj : PC → op_pc) (ret : R → retval)
    (o : outcome PC R) : outcome op_pc retval :=
  match o with
  | Blocked => Blocked
  | Next pc q evs => Next (inj pc) q evs
  | Return r q evs => Return (ret r) q evs
  end.

Definition op_step (pc : op_pc) (q : consumer_producer_t)
  : outcome op_pc retval :=
  match pc with
  | InPut item pc => lift (InPut item) RetPut (put_step item pc q)
  | InGet pc => lift InGet RetGet (get_step pc q)
  | InSignalFinished pc => lift InSignalFinished (λ _, RetSignalFinished) (sf_step pc q)
  | InWaitFinished pc => lift InWaitFinished RetWaitFinished (wf_step pc q)
  end.

(** The trace of a system: queue events and returns, tagged by thread. *)
Inductive sys_event :=
| Did (t : nat) (e : event)
| Returned (t : nat) (c : op_pc) (r : retval).

Record sys := Build_sys {
  queue : consumer_producer_t;
  threads : gmap nat op_pc;       (* threads inside a call; absent = idle *)
  trace : list sys_event          (* oldest first *)
}.

(** A scheduler decision: an idle thread enters a call, or a thread inside
    a call takes its next atomic step (nothing happens if it is blocked). *)
Inductive action :=
| Invoke (t : nat) (c : call)
| Step (t : nat).

Definition sys_step (a : action) (s : sys) : sys :=
  match a with
  | Invoke t c =>
      match threads s !! t with
      | Some _ => s
      | None =>
          {| queue := queue s; threads := <[t := entry c]> (threads s);
             trace := trace s |}
      end
  | Step t =>
      match threads s !! t with
      | None => s
      | Some pc =>
          match op_step pc (queue s) with
          | Blocked => s
          | Next pc' q' evs =>
              {| queue := q'; threads := <[t := pc']> (threads s);
                 trace := trace s ++ (Did t <$> evs) |}
          | Return r q' evs =>
              {| queue := q'; threads := delete t (threads s);
                 trace := trace s ++ (Did t <$> evs) ++ [Returned t pc r] |}
          end
      end
  end.

Definition run (sched : list action) (s : sys) : sys :=
  foldl (λ s a, sys_step a s) s sched.

(** The system right after [consumer_producer_init] ran on storage [q0]:
    no thread is inside a call yet. *)
Definition boot (q0 : consumer_producer_t) (cap : Z) : sys :=
  {| queue := (consumer_producer_init q0 cap).2;
     threads := ∅; trace := [] |}.

(** Items inserted, in the order of the critical sections that inserted. *)
Definition enqueued (tr : list sys_event) : list Z :=
  omap (λ e, match e with Did _ (EvEnq x) => Some x | _ => None end) tr.

(** Items removed, in the order of the critical sections that removed. *)
Definition dequeued (tr : list sys_event) : list Z :=
  omap (λ e, match e with Did _ (EvDeq x) => Some x | _ => None end) tr.

Definition thread_of (e : sys_event) : nat :=
  match e with Did t _ => t | Returned t _ _ => t end.

(** The part of a trace that belongs to thread [t]. *)
Definition by_thread (t : nat) (tr : list sys_event) : list sys_event :=
  filter (λ e, thread_of e = t) tr.

(** Items of the [put] calls that returned success, in return order. *)
Definition put_returns (tr : list sys_event) : list Z :=
  omap (λ e, match e with
             | Returned _ (InPut x _) (RetPut None) => Some x
             | _ => None
             end) tr.

(** Items handed out by the [get] calls that returned an item, in return
    order. *)
Definition get_returns (tr : list sys_event) : list Z :=
  omap (λ e, match e with
             | Returned _ (InGet _) (RetGet x) =>
                 if decide (x = NULL) then None else Some x
             | _ => None
             end) tr.

(** The item a thread has already inserted (resp. removed) inside a call
    that has not returned yet. *)
Definition pending_enq (pc : option op_pc) : list Z :=
  match pc with
  | Some (InPut x PutSignal) => [x]
  | _ => []
  end.

Definition pending_deq (pc : option op_pc) : list Z :=
  match pc with
  | Some (InGet (GetSignalNotFull x _)) => [x]
  | Some (InGet (GetSignalFinished x)) => [x]
  | _ => []
  end.

Definition ev_enq (evs : list event) : list Z :=
  omap (λ e, match e with EvEnq x => Some x | _ => None end) evs.

Definition ev_deq (evs : list event) : list Z :=
  omap (λ e, match e with EvDeq x => Some x | _ => None end) evs.

(** What one atomic step may do to a well-formed queue: it keeps the
    representation invariant and the capacity, never clears [finished_flag],
    and changes the live items only as its ghost events say. *)
Definition step_ok (q : consumer_producer_t) (evs : list event)
    (q' : consumer_producer_t) : Prop :=
  wf q' ∧ capacity q' = capacity q ∧
  (finished_flag q = 1 → finished_flag q' = 1) ∧
  contents q ++ ev_enq evs = ev_deq evs ++ contents q'.

(** What a thread at a given point of a call relies on. *)
Definition pc_inv (q : consumer_producer_t) (pc : op_pc) : Prop :=
  match pc with
  | InPut item PutEntry => True
  | InPut item _ => item ≠ NULL
  | InGet (GetSignalNotFull item _) => item ≠ NULL
  | InGet (GetSignalFinished item) => item ≠ NULL
  | InWaitFinished WfWait2 => finished_flag q = 1
  | InWaitFinished WfRelock2 => finished_flag q = 1
  | _ => True
  end.

(** What the outcome of one step of a call must satisfy. *)
Definition outcome_ok {PC R} (inj : PC → op_pc) (q : consumer_producer_t)
    (o : outcome PC R) : Prop :=
  match o with
  | Blocked => True
  | Next pc' q' evs => step_ok q evs q' ∧ pc_inv q' (inj pc')
  | Return _ q' evs => step_ok q evs q'
  end.

(** A [put] is refused with the after-finished error, and a [get] or a
    [wait_finished] returns, only from these points of the call. *)
Definition return_ok (e : sys_event) : Prop :=
  match e with
  | Returned _ (InPut _ pc) (RetPut (Some _)) => pc = PutEntry ∨ pc = PutLock
  | Returned _ (InPut _ pc) (RetPut None) => pc = PutSignal
  | Returned _ (InGet pc) (RetGet x) =>
      if decide (x = NULL) then pc = GetEntry ∨ pc = GetRelock
      else pc = GetSignalNotFull x false ∨ pc = GetSignalFinished x
  | Returned _ (InWaitFinished pc) (RetWaitFinished rc) =>
      rc = 0 ∧ pc ≠ WfWait1 ∧ pc ≠ WfWait2
  | _ => True
  end.

(** What a step adds to the pending insertion or removal of its thread. *)
Definition link_ok (t : nat) (pc : op_pc) (o : outcome op_pc retval) : Prop :=
  match o with
  | Blocked => True
  | Next pc' _ evs =>
      pending_enq (Some pc) ++ ev_enq evs = pending_enq (Some pc') ∧
      pending_deq (Some pc) ++ ev_deq evs = pending_deq (Some pc')
  | Return r _ evs =>
      pending_enq (Some pc) ++ ev_enq evs = put_returns [Returned t pc r] ∧
      pending_deq (Some pc) ++ ev_deq evs = get_returns [Returned t pc r] ∧
      return_ok (Returned t pc r)
  end.

Record sys_inv (s : sys) : Prop := Build_sys_inv {
  inv_wf : wf (queue s);
  inv_threads : map_Forall (λ _ pc, pc_inv (queue s) pc) (threads s);
  inv_fifo : enqueued (trace s) = dequeued (trace s) ++ contents (queue s);
  inv_puts : ∀ t, enqueued (by_thread t (trace s)) =
                  put_returns (by_thread t (trace s)) ++ pending_enq (threads s !! t);
  inv_gets : ∀ t, dequeued (by_thread t (trace s)) =
                  get_returns (by_thread t (trace s)) ++ pending_deq (threads s !! t);
  inv_returns : Forall return_ok (trace s)
}.

(** The queue with [finished_monitor] reset: what a waiter leaves behind
    when it goes to sleep. *)
Definition asleep (q : consumer_producer_t) : consumer_producer_t :=
  set_finished_monitor (monitor_reset (finished_monitor q)) q.

(** A queue that holds exactly the item [p] and is not finished. *)
Definition holds_one (p : Z) (q : consumer_producer_t) : Prop :=
  ConsumerProducer.initialized q = 1 ∧ finished_flag q = 0 ∧ count q = 1 ∧
  default NULL (items q !! Z.to_nat (head q)) = p ∧ monitors_ready q.

(** An empty queue that is not finished and has room. *)
Definition empty_open (q : consumer_producer_t) : Prop :=
  ConsumerProducer.initialized q = 1 ∧ finished_flag q = 0 ∧ count q = 0 ∧
  1 ≤ capacity q ∧ tail q = head q ∧ 0 ≤ head q ∧
  (Z.to_nat (head q) < length (items q))%nat ∧ monitors_ready q.

(** A queue on which [signal_finished] has work to do. *)
Definition open_queue (q : consumer_producer_t) : Prop :=
  ConsumerProducer.initialized q = 1 ∧ finished_flag q = 0.

(** A producer (thread 0) and a consumer (thread 1) on one queue. *)
Definition fifo_demo : list action :=
  [Invoke 0 (CallPut 5); Step 0; Step 0; Step 0;
   Invoke 0 (CallPut 6); Step 0; Step 0; Step 0;
   Invoke 1 CallGet; Step 1; Step 1;
   Invoke 0 (CallPut 7); Step 0; Step 0; Step 0;
   Invoke 1 CallGet; Step 1; Step 1;
   Invoke 1 CallGet; Step 1; Step 1].

(** A waiter in phase 2: the queue is finished and still holds an item. *)
Definition wait_demo : list action :=
  [Invoke 0 (CallPut 7); Step 0; Step 0; Step 0;
   Invoke 2 CallSignalFinished; Step 2; Step 2; Step 2;
   Invoke 4 CallWaitFinished; Step 4].

(** *** consumer_producer_destroy *)

(** The drain loop [for (i = 0; i < remaining; ++i)] with [n] iterations
    left: the slots after [head] are passed to [free] and cleared.  The
    second component lists the pointers passed to [free], in order. *)
Fixpoint destroy_drain (n : nat) (i : Z) (hd cap : Z) (its : list Z)
    (frees : list Z) : list Z * list Z :=
  match n with
  | O => (its, frees)
  | S n' =>
      let idx := Z.to_nat (Z.rem (wrap_int (hd + i)) cap) in
      destroy_drain n' (wrap_int (i + 1)) hd cap
        (<[idx := NULL]> its) (frees ++ [default NULL (its !! idx)])
  end.

(** The queue after the call and the item pointers it passed to [free]. *)
Definition consumer_producer_destroy (q : consumer_producer_t)
  : consumer_producer_t * list Z :=
  if negb (initialized q =? 1) then (q, [])
  else
    let '(_, frees) :=
      if negb (bool_decide (items q = [])) && (count q >? 0) && (capacity q >? 0)
      then destroy_drain (Z.to_nat (count q)) 0 (head q) (capacity q) (items q) []
      else (items q, []) in
    ({| items := []; capacity := 0; count := 0; head := 0; tail := 0;
        not_full_monitor := monitor_destroy (not_full_monitor q);
        not_empty_monitor := monitor_destroy (not_empty_monitor q);
        finished_monitor := monitor_destroy (finished_monitor q);
        initialized := 0; finished_flag := 0 |}, frees).

(** *** Sleepers and the threads that will wake them *)

Definition monitor_of (m : monitor_id) (q : consumer_producer_t) : monitor_t :=
  match m with
  | NotFull => not_full_monitor q
  | NotEmpty => not_empty_monitor q
  | Finished => finished_monitor q
  end.

(** The monitor a thread is inside [monitor_wait] of, if any. *)
Definition sleeps_on (pc : op_pc) : option monitor_id :=
  match pc with
  | InPut _ PutWait => Some NotFull
  | InGet GetWait => Some NotEmpty
  | InWaitFinished WfWait1 | InWaitFinished WfWait2 => Some Finished
  | _ => None
  end.

(** The thread has left its critical section and has a [monitor_signal] of
    monitor [m] ahead of it. *)
Definition will_signal (m : monitor_id) (pc : op_pc) : bool :=
  match m, pc with
  | NotFull, InGet (GetSignalNotFull _ _) => true
  | NotEmpty, InPut _ PutSignal => true
  | NotEmpty, InSignalFinished SfSignalFinished => true
  | NotEmpty, InSignalFinished SfSignalNotEmpty => true
  | Finished, InGet (GetSignalNotFull _ true) => true
  | Finished, InGet (GetSignalFinished _) => true
  | Finished, InSignalFinished SfSignalFinished => true
  | _, _ => false
  end.

(** The state of the queue in which a thread that waits on [m] has nothing
    to do yet: full for a producer, empty and open for a consumer, not yet
    finished and drained for [wait_finished]. *)
Definition must_wait (m : monitor_id) (q : consumer_producer_t) : bool :=
  match m with
  | NotFull => queue_is_full q
  | NotEmpty => queue_is_empty q && (finished_flag q =? 0)
  | Finished => negb ((finished_flag q =? 1) && (count q =? 0))
  end.

(** Every sleeper on an unsignaled monitor has a reason to sleep or a
    thread on its way to wake it. *)
Definition wake_inv (s : sys) : Prop :=
  ∀ m t pc,
    threads s !! t = Some pc → sleeps_on pc = Some m →
    signaled (monitor_of m (queue s)) = 0 →
    must_wait m (queue s) = true ∨
    ∃ t' pc', threads s !! t' = Some pc' ∧ will_signal m pc' = true.

(** A queue of capacity 2 that holds the items 5 and 6. *)
Definition two_items : consumer_producer_t :=
  queue (run (take 8 fifo_demo) (boot ConsumerProducer.zeroed 2)).

(** Where a step leaves its thread ([None]: the call has returned) and the
    queue; nothing for a blocked thread. *)
Definition after_step (o : outcome op_pc retval)
  : option (option op_pc * consumer_producer_t) :=
  match o with
  | Blocked => None
  | Next pc' q' _ => Some (Some pc', q')
  | Return _ q' _ => Some (None, q')
  end.

(** A consumer goes to sleep on the empty queue; a producer inserts an item
    and has not signaled yet. *)
Definition sleeper_demo : list action :=
  [Invoke 1 CallGet; Step 1; Invoke 0 (CallPut 5); Step 0; Step 0].

(** *** Waking a sleeper *)

(** Thread [t'] calls [get] and runs it up to its signal of [not_full];
    then thread [t] takes three steps. *)
Definition get_then (t' t : nat) : list action :=
  [Invoke t' CallGet; Step t'; Step t'; Step t; Step t; Step t].

(** Thread [t'] runs a whole [put(item)]; then thread [t] takes three
    steps. *)
Definition put_then (t' : nat) (item : Z) (t : nat) : list action :=
  [Invoke t' (CallPut item); Step t'; Step t'; Step t';
   Step t; Step t; Step t].

(** Thread [t'] runs a whole [signal_finished]; then thread [t] takes two
    steps. *)
Definition finish_then (t' t : nat) : list action :=
  [Invoke t' CallSignalFinished; Step t'; Step t'; Step t'; Step t; Step t].

(** A queue of capacity 1: thread 0 fills it, thread 1 goes to sleep in
    [put], thread 2 signals finished. *)
Definition finished_while_asleep : list action :=
  [Invoke 0 (CallPut 7); Step 0; Step 0; Step 0;
   Invoke 1 (CallPut 8); Step 1; Step 1;
   Invoke 2 CallSignalFinished; Step 2; Step 2; Step 2].

(** A consumer asleep on the empty queue. *)
Definition asleep_get_demo : list action := [Invoke 1 CallGet; Step 1].

(** *** Where a call run on its own ends *)

(** The call has returned, or it is asleep in the [monitor_wait] of the
    program point [pc] (its step there is [Blocked]), or the steps allowed
    were used up before either happened. *)
Inductive ending (PC R : Type) :=
| Ended (r : R) (q : consumer_producer_t) (evs : list event)
| Asleep (pc : PC) (q : consumer_producer_t) (evs : list event)
| Unfinished (pc : PC) (q : consumer_producer_t) (evs : list event).
Arguments Ended {PC R} r q evs.
Arguments Asleep {PC R} pc q evs.
Arguments Unfinished {PC R} pc q evs.

Fixpoint solo_ending {PC R} (step : PC → consumer_producer_t → outcome PC R)
    (fuel : nat) (pc : PC) (q : consumer_producer_t) (acc : list event)
  : ending PC R :=
  match fuel with
  | O => Unfinished pc q acc
  | S n =>
      match step pc q with
      | Blocked => Asleep pc q acc
      | Next pc' q' evs => solo_ending step n pc' q' (acc ++ evs)
      | Return r q' evs => Ended r q' (acc ++ evs)
      end
  end.

End ConsumerProducer.

(** ** plugins/plugin_common.c *)

Module PluginCommon.
Import ConsumerProducer.

(** *** The heap of string buffers *)

(** [malloc] hands out fresh addresses and is assumed to succeed; a buffer
    keeps its contents after [free], and every [free] of a non-null pointer
    is recorded, so a second [free] of the same buffer shows in [freed]. *)
Record heap := Build_heap {
  cells : gmap Z string;
  next_addr : Z;
  freed : list Z
}.

Definition empty_heap : heap := {| cells := ∅; next_addr := 1; freed := [] |}.

Definition alloc (s : string) (h : heap) : Z * heap :=
  (next_addr h,
   {| cells := <[next_addr h := s]> (cells h);
      next_addr := next_addr h + 1;
      freed := freed h |}).

Definition free (p : Z) (h : heap) : heap :=
  if p =? NULL then h
  else {| cells := cells h; next_addr := next_addr h; freed := freed h ++ [p] |}.

Definition load (p : Z) (h : heap) : string := default ""%string (cells h !! p).

(** How often [free] was called on [p]. *)
Definition times_freed (p : Z) (h : heap) : nat :=
  length (filter (λ x, x = p) (freed h)).

Definition END_SENTINEL : string := "<END>".

Definition is_end (h : heap) (s : Z) : bool :=
  negb (s =? NULL) && String.eqb (load s h) END_SENTINEL.

(** *** Transforms *)

(** What a [process_function] hands back: the pointer it was given, a newly
    allocated buffer, or NULL. *)
Inductive transformed := Same | Fresh (s : string) | Failed.

(** A [process_function]: its result and the lines it printed. *)
Definition transform := string → transformed * list string.

(** [out = ctx->process_function(in)]. *)
Definition apply_transform (f : transform) (in_ : Z) (h : heap)
  : Z * heap * list string :=
  let '(r, printed) := f (load in_ h) in
  match r with
  | Same => (in_, h, printed)
  | Fresh s => let '(out, h') := alloc s h in (out, h', printed)
  | Failed => (NULL, h, printed)
  end.

(** plugins/logger.c *)
Definition logger_transform : transform := λ input,
  if String.eqb input END_SENTINEL then (Same, [])
  else (Same, [("[logger] " ++ input)%string]).

Definition to_upper (ch : ascii) : ascii :=
  let n := nat_of_ascii ch in
  if (97 <=? n)%nat && (n <=? 122)%nat then ascii_of_nat (n - 32) else ch.

Fixpoint string_map (f : ascii → ascii) (s : string) : string :=
  match s with
  | EmptyString => EmptyString
  | String ch s' => String (f ch) (string_map f s')
  end.

(** plugins/uppercaser.c *)
Definition uppercaser_transform : transform := λ input,
  if String.eqb input END_SENTINEL then (Same, [])
  else if (String.length input =? 0)%nat then (Same, [])
  else (Fresh (string_map to_upper input), []).

(** *** The plugin context *)

Record plugin_context_t := Build_ctx {
  name : option string;
  queue : option consumer_producer_t;   (* the malloc'ed queue; None = NULL *)
  next_place_work : option nat;         (* whose [plugin_place_work]; None = NULL *)
  process_function : option transform;  (* None = NULL *)
  initialized : Z;
  finished : Z;
  attached : Z;
  worker_joined : Z
}.

(** The zero-initialised [g_plugin_context] of a freshly loaded plugin. *)
Definition zeroed_ctx : plugin_context_t :=
  {| name := None; queue := None; next_place_work := None;
     process_function := None;
     initialized := 0; finished := 0; attached := 0; worker_joined := 0 |}.

Definition set_queue (q : consumer_producer_t) (g : plugin_context_t) :=
  {| name := name g; queue := Some q; next_place_work := next_place_work g;
     process_function := process_function g;
     initialized := initialized g; finished := finished g;
     attached := attached g; worker_joined := worker_joined g |}.

Definition set_finished (f : Z) (g : plugin_context_t) :=
  {| name := name g; queue := queue g; next_place_work := next_place_work g;
     process_function := process_function g;
     initialized := initialized g; finished := f;
     attached := attached g; worker_joined := worker_joined g |}.

(** *** common_plugin_init *)

(** [fresh] is what the storage returned by [malloc] for the queue holds.
    On success the worker thread has been created. *)
Definition common_plugin_init (f : option transform) (nm : option string)
    (queue_size : Z) (fresh : consumer_producer_t) (g : plugin_context_t)
  : option string * plugin_context_t :=
  match f with
  | None => (Some "invalid process function"%string, g)
  | Some _ =>
  match nm with
  | None | Some EmptyString => (Some "invalid plugin name"%string, g)
  | Some _ =>
  if queue_size <=? 0 then (Some "invalid queue size"%string, g)
  else if initialized g =? 1 then (Some "plugin already initialized"%string, g)
  else
    let '(qerr, q) := consumer_producer_init fresh queue_size in
    match qerr with
    | Some e =>
        (Some e,
         {| name := nm; queue := None; next_place_work := None;
            process_function := f;
            initialized := 0; finished := 0; attached := 0;
            worker_joined := 0 |})
    | None =>
        (None,
         {| name := nm; queue := Some q; next_place_work := None;
            process_function := f;
            initialized := 1; finished := 0; attached := 0;
            worker_joined := 0 |})
    end
  end
  end.

(** *** plugin_attach *)

(** Returns the context and what [log_error] wrote, if anything. *)
Definition plugin_attach (next : option nat) (g : plugin_context_t)
  : plugin_context_t * list string :=
  if negb (initialized g =? 1) then (g, ["attach called before init"%string])
  else if finished g =? 1 then (g, ["attach after finish"%string])
  else if attached g =? 1 then (g, ["attach called twice"%string])
  else
    ({| name := name g; queue := queue g; next_place_work := next;
        process_function := process_function g;
        initialized := initialized g; finished := finished g;
        attached := 1; worker_joined := worker_joined g |}, []).

(** *** Threads and their events *)

Inductive tid := Worker (i : nat) | Feeder (k : nat).

Inductive pevent :=
| PLogError (stage : nat) (msg : string)
| PPrinted (stage : nat) (line : string)
| PGot (stage : nat) (p : Z)                    (* [get] returned [p] *)
| PSentinel (stage : nat) (p : Z)               (* [is_end(in)] held *)
| PTransform (stage : nat) (p : Z) (s : string) (* [process_function(in)] *)
| PForwardEnd (stage : nat) (p : Z)             (* [next_place_work(in)], END *)
| PForward (stage : nat) (p : Z)                (* [next_place_work(out)] *)
| PFree (who : tid) (p : Z)
| PPlaced (k : nat) (stage : nat) (err : option string)
| PExit (stage : nat).

(** *** plugin_place_work *)

Inductive pw_pc :=
| PwEntry                          (* validation and [strdup] *)
| PwPut (dup : Z) (pc : put_pc).   (* inside [consumer_producer_put] *)

Inductive pw_outcome :=
| PwBlocked
| PwNext (pc : pw_pc) (g : plugin_context_t) (h : heap) (evs : list pevent)
| PwReturn (err : option string) (g : plugin_context_t) (h : heap)
           (evs : list pevent).

(** One step of [plugin_place_work(str)] of stage [j], run by thread [who].
    [str] is the string the argument points to, [None] for NULL. *)
Definition plugin_place_work_step (j : nat) (who : tid) (str : option string)
    (pc : pw_pc) (g : plugin_context_t) (h : heap) : pw_outcome :=
  match pc with
  | PwEntry =>
      match str with
      | None =>
          PwReturn (Some "invalid input"%string) g h
            [PLogError j "plugin_place_work: invalid input (NULL)"]
      | Some s =>
          if negb (initialized g =? 1) then
            PwReturn (Some "plugin not initialized"%string) g h
              [PLogError j "plugin_place_work: plugin not initialized"]
          else
            let '(dup, h') := alloc s h in
            PwNext (PwPut dup PutEntry) g h' []
      end
  | PwPut dup pc =>
      match queue g with
      | None =>
          PwReturn (Some "Queue pointer is NULL"%string) g (free dup h)
            [PFree who dup; PLogError j "Queue pointer is NULL"]
      | Some q =>
          match put_step dup pc q with
          | Blocked => PwBlocked
          | Next pc' q' _ => PwNext (PwPut dup pc') (set_queue q' g) h []
          | Return None q' _ => PwReturn None (set_queue q' g) h []
          | Return (Some e) q' _ =>
              PwReturn (Some e) (set_queue q' g) (free dup h)
                [PFree who dup; PLogError j e]
          end
      end
  end.

(** *** The pipeline: contexts, worker threads, feeders, heap *)

Inductive worker_pc :=
| WStart                                 (* the null checks on entry *)
| WGet (pc : get_pc)                     (* inside [consumer_producer_get] *)
| WGot (in_ : Z)                         (* [in] fetched: decide what it is *)
| WForwardEnd (in_ : Z) (pc : pw_pc)     (* inside [next_place_work(in)], END *)
| WSignalFinished (pc : sf_pc)           (* inside [signal_finished] *)
| WForward (in_ out : Z) (pc : pw_pc)    (* inside [next_place_work(out)] *)
| WExit.

Record pipeline := Build_pipeline {
  ctxs : list plugin_context_t;
  workers : list worker_pc;
  feeders : gmap nat (nat * option string * pw_pc);
  mem : heap;
  log : list pevent
}.

Definition set_worker (i : nat) (pc : worker_pc) (P : pipeline) : pipeline :=
  {| ctxs := ctxs P; workers := <[i := pc]> (workers P);
     feeders := feeders P; mem := mem P; log := log P |}.

Definition upd_ctx (i : nat) (f : plugin_context_t → plugin_context_t)
    (P : pipeline) : pipeline :=
  {| ctxs := alter f i (ctxs P); workers := workers P;
     feeders := feeders P; mem := mem P; log := log P |}.

Definition set_mem (h : heap) (P : pipeline) : pipeline :=
  {| ctxs := ctxs P; workers := workers P;
     feeders := feeders P; mem := h; log := log P |}.

Definition emit (evs : list pevent) (P : pipeline) : pipeline :=
  {| ctxs := ctxs P; workers := workers P;
     feeders := feeders P; mem := mem P; log := log P ++ evs |}.

Definition do_free (who : tid) (p : Z) (P : pipeline) : pipeline :=
  emit [PFree who p] (set_mem (free p (mem P)) P).

(** One step of stage [j]'s [plugin_place_work] on behalf of [who]. *)
Definition pw_run (who : tid) (j : nat) (str : option string) (pc : pw_pc)
    (P : pipeline) : option ((pw_pc + option string) * pipeline) :=
  match ctxs P !! j with
  | None => None
  | Some g =>
      match plugin_place_work_step j who str pc g (mem P) with
      | PwBlocked => None
      | PwNext pc' g' h' evs =>
          Some (inl pc', emit evs (set_mem h' (upd_ctx j (λ _, g') P)))
      | PwReturn err g' h' evs =>
          Some (inr err, emit evs (set_mem h' (upd_ctx j (λ _, g') P)))
      end
  end.

(** [ctx->attached && ctx->next_place_work] *)
Definition wired (g : plugin_context_t) : bool :=
  negb (attached g =? 0) && bool_decide (is_Some (next_place_work g)).

(** *** plugin_consumer_thread *)

(** One atomic step of the worker of stage [i]; [None] if it is blocked,
    has exited, or does not exist. *)
Definition worker_step (i : nat) (P : pipeline) : option pipeline :=
  match workers P !! i, ctxs P !! i with
  | Some pc, Some g =>
      match pc with
      | WStart =>
          match queue g, process_function g with
          | Some _, Some _ => Some (set_worker i (WGet GetEntry) P)
          | _, _ => Some (set_worker i WExit P)
          end
      | WGet gpc =>
          match queue g with
          | None => None
          | Some q =>
              match get_step gpc q with
              | Blocked => None
              | Next gpc' q' _ =>
                  Some (set_worker i (WGet gpc') (upd_ctx i (set_queue q') P))
              | Return in_ q' _ =>
                  Some (set_worker i (WGot in_)
                          (emit [PGot i in_] (upd_ctx i (set_queue q') P)))
              end
          end
      | WGot in_ =>
          if in_ =? NULL then Some (set_worker i (WGet GetEntry) P)
          else if is_end (mem P) in_ then
            if wired g then
              Some (set_worker i (WForwardEnd in_ PwEntry)
                      (emit [PSentinel i in_; PForwardEnd i in_] P))
            else
              Some (set_worker i (WSignalFinished SfEntry)
                      (upd_ctx i (set_finished 1)
                         (do_free (Worker i) in_ (emit [PSentinel i in_] P))))
          else
            match process_function g with
            | None => None
            | Some f =>
                let '(out, h', printed) := apply_transform f in_ (mem P) in
                let P1 :=
                  emit (PTransform i in_ (load in_ (mem P))
                          :: (PPrinted i <$> printed))
                       (set_mem h' P) in
                if out =? NULL then
                  Some (set_worker i (WGet GetEntry)
                          (do_free (Worker i) in_
                             (emit [PLogError i "transform failed"] P1)))
                else if wired g then
                  Some (set_worker i (WForward in_ out PwEntry)
                          (emit [PForward i out] P1))
                else if negb (out =? in_) then
                  Some (set_worker i (WGet GetEntry)
                          (do_free (Worker i) in_ (do_free (Worker i) out P1)))
                else
                  Some (set_worker i (WGet GetEntry)
                          (do_free (Worker i) in_ P1))
            end
      | WForwardEnd in_ ppc =>
          match next_place_work g with
          | None => None
          | Some j =>
              match pw_run (Worker i) j (Some (load in_ (mem P))) ppc P with
              | None => None
              | Some (inl ppc', P') =>
                  Some (set_worker i (WForwardEnd in_ ppc') P')
              | Some (inr err, P') =>
                  let P'' :=
                    match err with
                    | Some e => do_free (Worker i) in_ (emit [PLogError i e] P')
                    | None => P'
                    end in
                  Some (set_worker i (WSignalFinished SfEntry)
                          (upd_ctx i (set_finished 1) P''))
              end
          end
      | WSignalFinished spc =>
          match queue g with
          | None => Some (set_worker i WExit (emit [PExit i] P))
          | Some q =>
              match sf_step spc q with
              | Blocked => None
              | Next spc' q' _ =>
                  Some (set_worker i (WSignalFinished spc')
                          (upd_ctx i (set_queue q') P))
              | Return _ q' _ =>
                  Some (set_worker i WExit
                          (emit [PExit i] (upd_ctx i (set_queue q') P)))
              end
          end
      | WForward in_ out ppc =>
          match next_place_work g with
          | None => None
          | Some j =>
              match pw_run (Worker i) j (Some (load out (mem P))) ppc P with
              | None => None
              | Some (inl ppc', P') =>
                  Some (set_worker i (WForward in_ out ppc') P')
              | Some (inr None, P') =>
                  Some (set_worker i (WGet GetEntry)
                          (if negb (out =? in_) then do_free (Worker i) in_ P'
                           else P'))
              | Some (inr (Some e), P') =>
                  let P1 := emit [PLogError i e] P' in
                  Some (set_worker i (WGet GetEntry)
                          (if negb (out =? in_)
                           then do_free (Worker i) in_ (do_free (Worker i) out P1)
                           else do_free (Worker i) in_ P1))
              end
          end
      | WExit => None
      end
  | _, _ => None
  end.

(** *** Scheduling *)

Inductive paction :=
| Place (k : nat) (j : nat) (str : option string)  (* feeder [k] calls stage [j]'s place_work *)
| StepFeeder (k : nat)
| StepWorker (i : nat).

Definition pstep (a : paction) (P : pipeline) : pipeline :=
  match a with
  | Place k j str =>
      match feeders P !! k with
      | Some _ => P
      | None =>
          {| ctxs := ctxs P; workers := workers P;
             feeders := <[k := (j, str, PwEntry)]> (feeders P);
             mem := mem P; log := log P |}
      end
  | StepFeeder k =>
      match feeders P !! k with
      | None => P
      | Some (j, str, pc) =>
          match pw_run (Feeder k) j str pc P with
          | None => P
          | Some (inl pc', P') =>
              {| ctxs := ctxs P'; workers := workers P';
                 feeders := <[k := (j, str, pc')]> (feeders P');
                 mem := mem P'; log := log P' |}
          | Some (inr err, P') =>
              {| ctxs := ctxs P'; workers := workers P';
                 feeders := delete k (feeders P');
                 mem := mem P'; log := log P' ++ [PPlaced k j err] |}
          end
      end
  | StepWorker i => default P (worker_step i P)
  end.

Definition prun (sched : list paction) (P : pipeline) : pipeline :=
  foldl (λ P a, pstep a P) P sched.

(** *** What the worker loop maintains *)

(** The worker found its context usable on entry. *)
Definition ctx_ready (g : plugin_context_t) : bool :=
  bool_decide (is_Some (queue g)) && bool_decide (is_Some (process_function g)).

(** The worker has taken the END branch. *)
Definition past_end (pc : worker_pc) : bool :=
  match pc with
  | WForwardEnd _ _ | WSignalFinished _ | WExit => true
  | _ => false
  end.

Definition count_ev (f : pevent → bool) (l : list pevent) : nat :=
  length (List.filter f l).

Definition is_sentinel_of (i : nat) (e : pevent) : bool :=
  match e with PSentinel j _ => bool_decide (j = i) | _ => false end.

Definition is_forward_end_of (i : nat) (e : pevent) : bool :=
  match e with PForwardEnd j _ => bool_decide (j = i) | _ => false end.

(** How many sentinels stage [i] has fetched, and how many it forwarded. *)
Definition sentinels_seen (i : nat) (l : list pevent) : nat :=
  count_ev (is_sentinel_of i) l.

Definition sentinels_forwarded (i : nat) (l : list pevent) : nat :=
  count_ev (is_forward_end_of i) l.

Definition transform_ok (e : pevent) : Prop :=
  match e with
  | PTransform _ _ s => s ≠ END_SENTINEL
  | _ => True
  end.

(** Steps never rewire a stage nor take its queue or transform away. *)
Definition same_wiring (g g' : plugin_context_t) : Prop :=
  attached g' = attached g ∧ next_place_work g' = next_place_work g ∧
  process_function g' = process_function g ∧
  initialized g' = initialized g ∧
  (is_Some (queue g) → is_Some (queue g')).

(** Events that concern neither a sentinel nor a transform. *)
Definition quiet (e : pevent) : bool :=
  match e with
  | PSentinel _ _ | PForwardEnd _ _ | PTransform _ _ _ => false
  | _ => true
  end.

Definition b2n (b : bool) : nat := if b then 1%nat else 0%nat.


(** The effect of one worker step on what the invariant talks about. *)
Inductive worker_effect (i : nat) (P P' : pipeline) : Prop :=
| Build_effect (pc pc' : worker_pc) (g : plugin_context_t) (evs : list pevent)
    (we_worker : workers P !! i = Some pc)
    (we_ctx : ctxs P !! i = Some g)
    (we_workers : workers P' = <[i := pc']> (workers P))
    (we_feeders : feeders P' = feeders P)
    (we_log : log P' = log P ++ evs)
    (we_wiring : Forall2 same_wiring (ctxs P) (ctxs P'))
    (we_mono : past_end pc = true → past_end pc' = true)
    (we_seen : ∀ k, sentinels_seen k evs =
                 b2n (bool_decide (k = i) && past_end pc' && negb (past_end pc)))
    (we_fwd : ∀ k, sentinels_forwarded k evs =
                b2n (bool_decide (k = i) && wired g && past_end pc'
                     && negb (past_end pc)))
    (we_transform : Forall transform_ok evs).

Record pinv (P : pipeline) : Prop := Build_pinv {
  pi_ready : Forall (λ g, ctx_ready g = true) (ctxs P);
  pi_sentinel : ∀ i pc,
    workers P !! i = Some pc →
    sentinels_seen i (log P) = if past_end pc then 1%nat else 0%nat;
  pi_forward : ∀ i pc g,
    workers P !! i = Some pc → ctxs P !! i = Some g →
    sentinels_forwarded i (log P) =
      if wired g && past_end pc then 1%nat else 0%nat;
  pi_transform : Forall transform_ok (log P)
}.

(** A pipeline in which no worker has met a sentinel yet. *)
Definition fresh_pipeline (P : pipeline) : bool :=
  forallb ctx_ready (ctxs P) && forallb (λ pc, negb (past_end pc)) (workers P)
  && bool_decide (log P = []).

(** *** plugin_get_name *)

Definition plugin_get_name (g : plugin_context_t) : string :=
  match name g with
  | Some (String c s) => if initialized g =? 1 then String c s else "unknown"%string
  | _ => "unknown"%string
  end.

(** *** plugin_place_work run on its own *)

(** The call with no other thread scheduled in between; [None] when it
    blocks or the fuel runs out.  The result is the error, the context, the
    heap and the events. *)
Fixpoint place_work_solo (fuel : nat) (j : nat) (who : tid) (str : option string)
    (pc : pw_pc) (g : plugin_context_t) (h : heap) (acc : list pevent)
  : option (option string * plugin_context_t * heap * list pevent) :=
  match fuel with
  | O => None
  | S n =>
      match plugin_place_work_step j who str pc g h with
      | PwBlocked => None
      | PwNext pc' g' h' evs => place_work_solo n j who str pc' g' h' (acc ++ evs)
      | PwReturn err g' h' evs => Some (err, g', h', acc ++ evs)
      end
  end.

(** One step for the validation and [strdup], four for the [put]. *)
Definition plugin_place_work (j : nat) (who : tid) (str : option string)
    (g : plugin_context_t) (h : heap)
  : option (option string * plugin_context_t * heap * list pevent) :=
  place_work_solo 5 j who str PwEntry g h [].

(** Where the call run on its own ends: it has returned, or it is asleep
    inside [consumer_producer_put] at the program point [pc] (its step there
    is [PwBlocked]), or the steps allowed were used up before. *)
Inductive pw_ending :=
| PwEnded (err : option string) (g : plugin_context_t) (h : heap)
          (evs : list pevent)
| PwAsleep (pc : pw_pc) (g : plugin_context_t) (h : heap) (evs : list pevent)
| PwUnfinished (pc : pw_pc) (g : plugin_context_t) (h : heap)
               (evs : list pevent).

Fixpoint place_work_ending (fuel : nat) (j : nat) (who : tid)
    (str : option string) (pc : pw_pc) (g : plugin_context_t) (h : heap)
    (acc : list pevent) : pw_ending :=
  match fuel with
  | O => PwUnfinished pc g h acc
  | S n =>
      match plugin_place_work_step j who str pc g h with
      | PwBlocked => PwAsleep pc g h acc
      | PwNext pc' g' h' evs =>
          place_work_ending n j who str pc' g' h' (acc ++ evs)
      | PwReturn err g' h' evs => PwEnded err g' h' (acc ++ evs)
      end
  end.

(** The context after a sequence of [plugin_attach] calls. *)
Definition attach_all (nexts : list (option nat)) (g : plugin_context_t)
  : plugin_context_t :=
  foldl (λ g next, (plugin_attach next g).1) g nexts.

(** The logger's context after [plugin_init(8)]. *)
Definition initialized_ctx_of (f : transform) : plugin_context_t :=
  (common_plugin_init (Some f) (Some "logger"%string) 8
     ConsumerProducer.zeroed zeroed_ctx).2.

(** *** Who holds which buffer *)

(** The buffer a [put] of [dup] has not handed to the queue yet. *)
Definition put_holds (dup : Z) (pc : put_pc) : list Z :=
  match pc with
  | PutSignal => []
  | _ => [dup]
  end.

(** The copy a [plugin_place_work] call has made and not enqueued yet. *)
Definition pw_holds (pc : pw_pc) : list Z :=
  match pc with
  | PwEntry => []
  | PwPut dup pc => put_holds dup pc
  end.

(** The item a [get] has taken out of the queue. *)
Definition get_holds (pc : get_pc) : list Z :=
  match pc with
  | GetSignalNotFull x _ | GetSignalFinished x => [x]
  | _ => []
  end.

(** The buffers in the local variables [in] and [out] of a worker, and the
    copy made by the [place_work] it is inside of. *)
Definition worker_holds (pc : worker_pc) : list Z :=
  match pc with
  | WGet gpc => get_holds gpc
  | WGot in_ => if in_ =? NULL then [] else [in_]
  | WForwardEnd in_ ppc => in_ :: pw_holds ppc
  | WForward in_ out ppc =>
      (if out =? in_ then [in_] else [in_; out]) ++ pw_holds ppc
  | _ => []
  end.

Definition queue_holds (g : plugin_context_t) : list Z :=
  from_option contents [] (queue g).

Definition feeder_holds (f : nat * (nat * option string * pw_pc)) : list Z :=
  pw_holds f.2.2.

(** Every buffer that a queue or a thread of the pipeline still refers to,
    with multiplicity. *)
Definition owned (P : pipeline) : list Z :=
  mjoin (queue_holds <$> ctxs P) ++ mjoin (worker_holds <$> workers P) ++
  mjoin (feeder_holds <$> map_to_list (feeders P)).

(** The memory discipline of a pipeline: the queues are well formed; the
    buffers referred to are allocated, pairwise distinct and not freed; no
    buffer was freed twice. *)
Record mem_inv (P : pipeline) : Prop := Build_mem_inv {
  mi_queues : Forall (λ g, ∀ q, queue g = Some q → wf q) (ctxs P);
  mi_next : 1 ≤ next_addr (mem P);
  mi_nodup : NoDup (owned P ++ freed (mem P));
  mi_range : Forall (λ p, 1 ≤ p < next_addr (mem P)) (owned P ++ freed (mem P))
}.

(** *** When a stage stops accepting work *)

(** The [finished_flag] of each stage's queue; [None] for a null queue. *)
Definition finished_flags (P : pipeline) : list (option Z) :=
  (λ g, finished_flag <$> queue g) <$> ctxs P.

(** What the shutdown protocol reads of a context: the finished flag of
    its queue and whether its worker has been joined. *)
Definition ctx_flags (g : plugin_context_t) : option Z * Z :=
  (finished_flag <$> queue g, worker_joined g).

(** The worker has set the finished flag of its queue, or has exited. *)
Definition late (pc : worker_pc) : bool :=
  match pc with
  | WSignalFinished SfSignalFinished | WSignalFinished SfSignalNotEmpty
  | WExit => true
  | _ => false
  end.

(** Every plugin is initialised; a queue is marked finished only when its
    own worker is past the sentinel; and a [plugin_place_work] issued from
    outside was refused only for a null string or by such a queue. *)
Record open_inv (P : pipeline) : Prop := Build_open_inv {
  oi_init : Forall (λ g, initialized g = 1) (ctxs P);
  oi_flag : ∀ i,
    finished_flags P !! i = Some (Some 1) →
    ∃ pc, workers P !! i = Some pc ∧ past_end pc = true;
  oi_placed : ∀ k j e,
    PPlaced k j (Some e) ∈ log P →
    e = "invalid input"%string ∨
    ∃ pc, workers P !! j = Some pc ∧ past_end pc = true
}.

End PluginCommon.

(** ** main.c: the attach stage of the controller *)

Module Main.
Import ConsumerProducer PluginCommon.

(** The function pointers the loader resolved for one plugin: [Some k]
    stands for the function of that name exported by plugin [k], [None] for
    a null pointer. *)
Record plugin_handle_t := Build_handle {
  init : option nat;
  fini : option nat;
  place_work : option nat;
  attach : option nat;
  wait_finished : option nat
}.

(** What stage 2 leaves for plugin [k] when loading succeeded. *)
Definition loaded (k : nat) : plugin_handle_t :=
  {| init := Some k; fini := Some k; place_work := Some k;
     attach := Some k; wait_finished := Some k |}.

(** A startup stage goes on, ends the process with an exit code, or hands
    over to [stage4_cleanup_and_exit], which calls [fini] of every plugin
    before it reaches [exit(code)]. *)
Inductive startup (A : Type) :=
| Exit (code : Z)
| CleanupExit (code : Z)
| Continue (a : A).
Arguments Exit {A} code.
Arguments CleanupExit {A} code.
Arguments Continue {A} a.

(** The loop [for (i = 0; i < plugin_count - 1; ++i)]; [fuel] is the number
    of iterations left.  On a null [attach] or [place_work] pointer the
    loop calls [stage4_cleanup_and_exit] for all the plugins. *)
Fixpoint attach_loop (plugins : list plugin_handle_t) (fuel : nat) (i : nat)
    (gs : list plugin_context_t) : startup (list plugin_context_t) :=
  match fuel with
  | O => Continue gs
  | S fuel' =>
      match plugins !! i, plugins !! S i with
      | Some hi, Some hn =>
          match attach hi, place_work hn with
          | Some a, Some pw =>
              attach_loop plugins fuel' (S i)
                (alter (λ g, (plugin_attach (Some pw) g).1) a gs)
          | _, _ => CleanupExit 2
          end
      | _, _ => CleanupExit 2
      end
  end.

(** [gs !! k] is the [g_plugin_context] of plugin [k].  With no plugin
    the cleanup has no [fini] to call and the process exits. *)
Definition stage4_attach_plugins (plugins : list plugin_handle_t)
    (gs : list plugin_context_t) : startup (list plugin_context_t) :=
  match length plugins with
  | O => Exit 2
  | S O => Continue gs
  | S n => attach_loop plugins n 0 gs
  end.

(** Stage 3 for plugins that all use transform [f]: every context is the
    result of a successful [common_plugin_init]. *)
Definition stage3_contexts (fs : list transform) (queue_size : Z)
  : list plugin_context_t :=
  (λ f, (common_plugin_init (Some f) (Some "plugin"%string) queue_size
           ConsumerProducer.zeroed zeroed_ctx).2) <$> fs.

(** The pipeline as the controller has it when it starts to feed input:
    contexts initialised and attached, one worker per stage at its entry. *)
Definition started (fs : list transform) (queue_size : Z) : option pipeline :=
  match stage4_attach_plugins (loaded <$> seq 0 (length fs))
          (stage3_contexts fs queue_size) with
  | Exit _ | CleanupExit _ => None
  | Continue gs =>
      Some {| ctxs := gs; workers := replicate (length fs) WStart;
              feeders := ∅; mem := empty_heap; log := [] |}
  end.

(** A context right after a successful [common_plugin_init]. *)
Definition just_initialized (g : plugin_context_t) : Prop :=
  initialized g = 1 ∧ finished g = 0 ∧ attached g = 0 ∧
  next_place_work g = None.

(** The context [plugin_attach(next)] leaves when it accepts the call. *)
Definition attached_to (next : option nat) (g : plugin_context_t)
  : plugin_context_t :=
  {| name := name g; queue := queue g;
     next_place_work := next; process_function := process_function g;
     initialized := initialized g;
     finished := finished g; attached := 1; worker_joined := worker_joined g |}.

(** What [common_plugin_init] builds for a plugin with transform [f]. *)
Definition initialized_ctx (f : transform) (c : Z) : plugin_context_t :=
  {| name := Some "plugin"%string;
     queue := Some (consumer_producer_init ConsumerProducer.zeroed c).2;
     next_place_work := None; process_function := Some f;
     initialized := 1; finished := 0; attached := 0;
     worker_joined := 0 |}.

(** The sentinel fed by the controller, then every worker in turn. *)
Definition feed_end : list paction :=
  Place 0 0 (Some END_SENTINEL) :: replicate 4 (StepFeeder 0).



(** The state of an [n]-stage chain in which the sentinel has reached the
    queue of stage [i]: the stages before [i] have exited, the others have
    not started, and the only live buffer is the sentinel at [i + 1]. *)
Record chain_at (n i : nat) (P : pipeline) : Prop := Build_chain_at {
  ca_workers : length (workers P) = n;
  ca_done : ∀ k, (k < i)%nat → workers P !! k = Some WExit;
  ca_todo : ∀ k, (i ≤ k < n)%nat → workers P !! k = Some WStart;
  ca_ctx : ∀ k, (i ≤ k < n)%nat →
    ∃ g q f, ctxs P !! k = Some g ∧
             queue g = Some q ∧ process_function g = Some f ∧
             initialized g = 1 ∧
             wired g = bool_decide (S k < n)%nat ∧
             ((S k < n)%nat → next_place_work g = Some (S k)) ∧
             (k = i → holds_one (Z.of_nat (S i)) q) ∧
             ((i < k)%nat → empty_open q);
  ca_next : next_addr (mem P) = Z.of_nat (i + 2);
  ca_cell : cells (mem P) !! Z.of_nat (S i) = Some END_SENTINEL;
  ca_freed : freed (mem P) = []
}.


Definition empty_pipeline : pipeline :=
  {| ctxs := []; workers := []; feeders := ∅; mem := empty_heap; log := [] |}.

(** The chain [uppercaser, logger] with queues of capacity 8, started. *)
Definition upper_log : pipeline :=
  default empty_pipeline (started [uppercaser_transform; logger_transform] 8).

Definition round_robin (n : nat) : list paction :=
  mjoin (replicate n [StepFeeder 0; StepWorker 0; StepWorker 1]).

(** The controller feeds [hello] and then the sentinel. *)
Definition hello_end : list paction :=
  [Place 0 0 (Some "hello"%string)] ++ round_robin 6 ++
  [Place 0 0 (Some END_SENTINEL)] ++ round_robin 30.

(** Startup of a three-stage chain of loggers. *)
Definition three_loggers : list plugin_context_t :=
  stage3_contexts [logger_transform; logger_transform; logger_transform] 8.

End Main.

(** ** plugins/rotator.c, flipper.c, expander.c, typewriter.c *)

Module Plugins.
Import PluginCommon.

(** [input[i]] of a C string given by its characters; the terminating NUL
    beyond them. *)
Definition char_at (input : list ascii) (i : nat) : ascii :=
  default Ascii.zero (input !! i).

(** The buffer the rotator fills: [out[0] = input[len - 1]] and
    [out[i + 1] = input[i]] for [i < len - 1]. *)
Definition rotate_right (input : list ascii) : list ascii :=
  let len := length input in
  char_at input (len - 1) :: ((λ i, char_at input i) <$> seq 0 (len - 1)).

Definition rotator_transform : transform := λ input,
  if String.eqb input END_SENTINEL then (Same, [])
  else if (String.length input <=? 1)%nat then (Same, [])
  else (Fresh (String.string_of_list_ascii (rotate_right (String.list_ascii_of_string input))), []).

(** The text of the buffer the rotator returns for [input]: the input
    itself where it returns the same pointer. *)
Definition rotated (input : string) : string :=
  match (rotator_transform input).1 with
  | Fresh out => out
  | _ => input
  end.

(** The buffer the flipper fills: [out[i] = input[j]] with [j] running down
    from [len - 1]. *)
Definition flip (input : list ascii) : list ascii :=
  let len := length input in
  (λ i, char_at input (len - 1 - i)) <$> seq 0 len.

Definition flipper_transform : transform := λ input,
  if String.eqb input END_SENTINEL then (Same, [])
  else if (String.length input <=? 1)%nat then (Same, [])
  else (Fresh (String.string_of_list_ascii (flip (String.list_ascii_of_string input))), []).

(** The buffer the expander fills: each character, followed by a space
    unless it is the last. *)
Definition expand (input : list ascii) : list ascii :=
  let len := length input in
  mjoin ((λ i, if (i <? len - 1)%nat then [char_at input i; " "%char]
               else [char_at input i]) <$> seq 0 len).

Definition expander_transform : transform := λ input,
  if String.eqb input END_SENTINEL then (Same, [])
  else if (String.length input <=? 1)%nat then (Same, [])
  else (Fresh (String.string_of_list_ascii (expand (String.list_ascii_of_string input))), []).

(** The typewriter writes the prefix and the input one character at a time
    and ends the line; the delays between the characters are not part of
    the model. *)
Definition typewriter_transform : transform := λ input,
  if String.eqb input END_SENTINEL then (Same, [])
  else (Same, [("[typewriter] " ++ input)%string]).

(** The transforms of the six plugins of the project. *)
Definition shipped_transforms : list transform :=
  [logger_transform; typewriter_transform; uppercaser_transform;
   rotator_transform; flipper_transform; expander_transform].

Definition is_lower (ch : ascii) : bool :=
  let n := nat_of_ascii ch in (97 <=? n)%nat && (n <=? 122)%nat.

End Plugins.

(** ** main.c and stage2_loader.c: arguments and input *)

(** C strings are given by their characters, which are taken not to hold a
    NUL; [malloc] and [strdup] are taken to succeed. *)

Module Controller.
Import PluginCommon Plugins Main.

Definition LONG_MAX : Z := 9223372036854775807.
Definition LONG_MIN : Z := -9223372036854775808.

(** [isspace] in the C locale: space, and the controls from tab to
    carriage return. *)
Definition isspace (ch : ascii) : bool :=
  let n := nat_of_ascii ch in
  (n =? 32)%nat || ((9 <=? n)%nat && (n <=? 13)%nat).

Definition isdigit (ch : ascii) : bool :=
  let n := nat_of_ascii ch in (48 <=? n)%nat && (n <=? 57)%nat.

Definition digit_value (ch : ascii) : Z := Z.of_nat (nat_of_ascii ch) - 48.

(** [while ( *p && isspace( *p)) p++] *)
Fixpoint skip_spaces (p : list ascii) : list ascii :=
  match p with
  | ch :: p' => if isspace ch then skip_spaces p' else p
  | [] => []
  end.

(** The digits at the start of [p]: their value on top of [acc] and their
    number. *)
Fixpoint read_digits (acc : Z) (p : list ascii) : Z * nat :=
  match p with
  | ch :: p' =>
      if isdigit ch then
        let '(v, n) := read_digits (10 * acc + digit_value ch) p' in (v, S n)
      else (acc, O)
  | [] => (acc, O)
  end.

(** [strtol(nptr, &endptr, 10)] with a 64-bit [long]: the value returned,
    the number of characters before [endptr] (0 when no conversion was
    done), and whether [errno] was set to [ERANGE]. *)
Record strtol_result := Build_strtol {
  value : Z;
  consumed : nat;
  erange : bool
}.

Definition strtol (nptr : list ascii) : strtol_result :=
  let p := skip_spaces nptr in
  let ws := (length nptr - length p)%nat in
  let '(neg, sgn, p1) :=
    match p with
    | ch :: r =>
        if Ascii.eqb ch "-" then (true, 1%nat, r)
        else if Ascii.eqb ch "+" then (false, 1%nat, r)
        else (false, O, p)
    | [] => (false, O, p)
    end in
  let '(v, n) := read_digits 0 p1 in
  match n with
  | O => {| value := 0; consumed := O; erange := false |}
  | S _ =>
      let v' := if neg then - v else v in
      let k := (ws + sgn + n)%nat in
      if LONG_MAX <? v' then {| value := LONG_MAX; consumed := k; erange := true |}
      else if v' <? LONG_MIN then {| value := LONG_MIN; consumed := k; erange := true |}
      else {| value := v'; consumed := k; erange := false |}
  end.

(** [parse_queue_size(s, &out_size, errbuf, errsz)]: the size written to
    [out_size], or the message written to [errbuf]; [s] is [None] for a
    null pointer. *)
Definition parse_queue_size (s : option string) : Z + string :=
  match s with
  | None => inr "missing queue_size"%string
  | Some s =>
      let p := skip_spaces (String.list_ascii_of_string s) in
      match p with
      | [] => inr "missing queue_size"%string
      | _ :: _ =>
          let r := strtol p in
          if erange r then inr "queue_size out of range"%string
          else if (consumed r =? 0)%nat then inr "queue_size has no digits"%string
          else
            match skip_spaces (drop (consumed r) p) with
            | _ :: _ => inr "invalid queue_size: trailing characters"%string
            | [] =>
                if value r >? INT_MAX
                then inr "queue_size out of range (>INT_MAX)"%string
                else if value r <=? 0
                then inr "queue_size must be a positive integer"%string
                else inl (value r)
            end
      end
  end.

(** [while (e > s && isspace(e[-1])) e--], with [e] as an offset in [s]. *)
Fixpoint scan_back (s : list ascii) (e : nat) : nat :=
  match e with
  | O => O
  | S e' => if isspace (char_at s e') then scan_back s e' else e
  end.

Definition trim_and_dup (raw : string) : string :=
  let s := skip_spaces (String.list_ascii_of_string raw) in
  String.string_of_list_ascii (take (scan_back s (length s)) s).

Definition ends_with_dot_so (s : string) : bool :=
  let l := String.list_ascii_of_string s in
  let n := length l in
  (3 <=? n)%nat && Ascii.eqb (char_at l (n - 3)) "." &&
  Ascii.eqb (char_at l (n - 2)) "s" && Ascii.eqb (char_at l (n - 1)) "o".

(** stage2_loader.c *)
Definition build_so_filename (name : string) : string := (name ++ ".so")%string.

(** The loop of [collect_plugin_names] over the remaining arguments. *)
Fixpoint collect_loop (raws : list string) : list string + string :=
  match raws with
  | [] => inl []
  | raw :: rest =>
      match raw with
      | EmptyString => inr "invalid plugin name: empty"%string
      | _ =>
          let name := trim_and_dup raw in
          match name with
          | EmptyString => inr "invalid plugin name: empty"%string
          | _ =>
              if ends_with_dot_so name
              then inr "invalid plugin name: should not include .so"%string
              else match collect_loop rest with
                   | inl names => inl (name :: names)
                   | inr e => inr e
                   end
          end
      end
  end.

(** [collect_plugin_names(argc, argv, start_idx, ...)] with [argc] the
    length of [argv]: the list of names, or the message in [errbuf]. *)
Definition collect_plugin_names (argv : list string) (start_idx : nat)
  : list string + string :=
  if (length argv <=? start_idx)%nat then inr "missing plugin names"%string
  else collect_loop (drop start_idx argv).


(** *** Stage 5 *)

Definition INPUT_BUF_SZ : nat := 1026.

Definition newline : ascii := "010".
Definition carriage_return : ascii := "013".

(** [fgets] reads until it has [room] characters or has read a newline:
    what it stores and what is left of the stream. *)
Fixpoint fgets_go (room : nat) (stream : list ascii) : list ascii * list ascii :=
  match room, stream with
  | S room', ch :: rest =>
      if Ascii.eqb ch newline then ([ch], rest)
      else let '(l, r) := fgets_go room' rest in (ch :: l, r)
  | _, _ => ([], stream)
  end.

(** [fgets(buf, size, stdin)]: [None] at the end of the stream. *)
Definition fgets (size : nat) (stream : list ascii)
  : option (list ascii * list ascii) :=
  match stream with
  | [] => None
  | _ :: _ => Some (fgets_go (size - 1) stream)
  end.

(** The C string a buffer holds: its characters up to the first NUL.
    [strlen], [strcmp] and [strdup] see no more of the buffer. *)
Fixpoint c_string (buf : list ascii) : list ascii :=
  match buf with
  | [] => []
  | ch :: rest => if Ascii.eqb ch Ascii.zero then [] else ch :: c_string rest
  end.

Definition strip_newline_cr (s : list ascii) : list ascii :=
  let n := length s in
  let s1 := if (0 <? n)%nat && Ascii.eqb (char_at s (n - 1)) newline
            then take (n - 1) s else s in
  let n1 := length s1 in
  if (0 <? n1)%nat && Ascii.eqb (char_at s1 (n1 - 1)) carriage_return
  then take (n1 - 1) s1 else s1.

(** The loop of stage 5: the strings passed to the first plugin's
    [place_work], in order.  The buffer [fgets] filled is used as a C
    string, so a NUL byte read from the input ends the line for the
    program.  What [place_work] returns only decides what is written to
    [stderr]. *)
Fixpoint stage5_loop (fuel : nat) (stream : list ascii) : list string :=
  match fuel with
  | O => []
  | S fuel' =>
      match fgets INPUT_BUF_SZ stream with
      | None => []
      | Some (buf, rest) =>
          let line :=
            String.string_of_list_ascii (strip_newline_cr (c_string buf)) in
          if String.eqb line END_SENTINEL then [END_SENTINEL]
          else line :: stage5_loop fuel' rest
      end
  end.

(** Every call of [fgets] takes at least one character, so the length of
    the stream bounds the number of iterations. *)
Definition stage5_read_and_feed (stream : list ascii) : list string :=
  stage5_loop (length stream) stream.

(** The value of a decimal numeral. *)
Definition decimal (ds : list ascii) : Z :=
  fold_left (λ acc ch, 10 * acc + digit_value ch) ds 0.

(** What stage 5 is meant to feed for a list of input lines: the lines up
    to and including the first sentinel. *)
Fixpoint until_end (lines : list string) : list string :=
  match lines with
  | [] => []
  | l :: rest =>
      if String.eqb l END_SENTINEL then [END_SENTINEL] else l :: until_end rest
  end.

End Controller.

(** ** plugin_common.c and main.c: waiting for the plugins and shutting down *)

Module Shutdown.
Import ConsumerProducer PluginCommon Main.

(** *** plugin_wait_finished *)

Inductive pwf_pc :=
| PwfEntry                 (* the [initialized] check *)
| PwfWait (pc : wf_pc).    (* inside [consumer_producer_wait_finished] *)

(** One step of a call into a plugin: blocked, at its next point, or
    returned with NULL ([None]) or an error string. *)
Inductive call_outcome (PC : Type) :=
| CBlocked
| CNext (pc : PC) (g : plugin_context_t) (evs : list pevent)
| CReturn (err : option string) (g : plugin_context_t) (evs : list pevent).
Arguments CBlocked {PC}.
Arguments CNext {PC} pc g evs.
Arguments CReturn {PC} err g evs.

(** [consumer_producer_wait_finished] returns -1 for a null queue. *)
Definition plugin_wait_finished_step (i : nat) (pc : pwf_pc)
    (g : plugin_context_t) : call_outcome pwf_pc :=
  match pc with
  | PwfEntry =>
      if negb (initialized g =? 1) then
        CReturn (Some "plugin not initialized"%string) g
          [PLogError i "plugin_wait_finished: plugin not initialized"]
      else CNext (PwfWait WfEntry) g []
  | PwfWait wpc =>
      match queue g with
      | None =>
          CReturn (Some "wait finished failed"%string) g
            [PLogError i "plugin_wait_finished: wait finished failed"]
      | Some q =>
          match wf_step wpc q with
          | Blocked => CBlocked
          | Next wpc' q' _ => CNext (PwfWait wpc') (set_queue q' g) []
          | Return rc q' _ =>
              if negb (rc =? 0) then
                CReturn (Some "wait finished failed"%string) (set_queue q' g)
                  [PLogError i "plugin_wait_finished: wait finished failed"]
              else CReturn None (set_queue q' g) []
          end
      end
  end.

(** *** plugin_fini *)

Inductive fini_pc :=
| FiniEntry               (* the checks on entry *)
| FiniWait (pc : pwf_pc)  (* inside [plugin_wait_finished] *)
| FiniJoin                (* [pthread_join], once *)
| FiniDestroy.            (* destroy and free the queue, reset the context *)

Definition set_worker_joined (j : Z) (g : plugin_context_t) : plugin_context_t :=
  {| name := name g; queue := queue g; next_place_work := next_place_work g;
     process_function := process_function g;
     initialized := initialized g; finished := finished g;
     attached := attached g; worker_joined := j |}.

(** The context as [plugin_fini] leaves it; [worker_joined] is kept. *)
Definition fini_reset (g : plugin_context_t) : plugin_context_t :=
  {| name := None; queue := None; next_place_work := None;
     process_function := None;
     initialized := 0; finished := 0; attached := 0;
     worker_joined := worker_joined g |}.

(** [pthread_equal(pthread_self(), consumer_thread)] in plugin [i]. *)
Definition is_worker_of (i : nat) (who : tid) : bool :=
  match who with
  | Worker j => bool_decide (j = i)
  | Feeder _ => false
  end.

(** One step of [plugin_fini] of stage [i], called by thread [who]; [None]
    when the call is blocked or the stage does not exist.  [pthread_join]
    returns once the worker has returned from its thread function, and is
    assumed not to fail on an existing thread.  The queue is destroyed in
    one step: the theorems show that no other thread is inside an operation
    on it at that point. *)
Definition plugin_fini_step (who : tid) (i : nat) (pc : fini_pc) (P : pipeline)
  : option ((fini_pc + option string) * pipeline) :=
  match ctxs P !! i with
  | None => None
  | Some g =>
      match pc with
      | FiniEntry =>
          if negb (initialized g =? 1) then
            Some (inr (Some "plugin not initialized"%string),
                  emit [PLogError i "plugin_fini: plugin not initialized"] P)
          else if is_worker_of i who then
            Some (inr (Some "cannot join self"%string),
                  emit [PLogError i "plugin_fini: cannot join self"] P)
          else Some (inl (FiniWait PwfEntry), P)
      | FiniWait wpc =>
          match plugin_wait_finished_step i wpc g with
          | CBlocked => None
          | CNext wpc' g' evs =>
              Some (inl (FiniWait wpc'), emit evs (upd_ctx i (λ _, g') P))
          | CReturn None g' evs =>
              Some (inl FiniJoin, emit evs (upd_ctx i (λ _, g') P))
          | CReturn (Some e) g' evs =>
              Some (inr (Some e),
                    emit (evs ++ [PLogError i e]) (upd_ctx i (λ _, g') P))
          end
      | FiniJoin =>
          if worker_joined g =? 0 then
            match workers P !! i with
            | Some WExit =>
                Some (inl FiniDestroy, upd_ctx i (set_worker_joined 1) P)
            | Some _ => None
            | None =>
                Some (inr (Some "join failed"%string),
                      emit [PLogError i "plugin_fini: join failed"] P)
            end
          else Some (inl FiniDestroy, P)
      | FiniDestroy =>
          let frees :=
            match queue g with
            | Some q => (consumer_producer_destroy q).2
            | None => []
            end in
          Some (inr None,
                emit (PFree who <$> frees)
                  (set_mem (foldl (λ h p, free p h) (mem P) frees)
                     (upd_ctx i (λ _, fini_reset g) P)))
      end
  end.

(** *** Stages 6, 7 and 8 of the controller *)

(** What the controller writes to stderr in these stages. *)
Inductive main_event :=
| NoPlugins                          (* no plugins to wait for *)
| NoWaitFinished (i : nat)           (* [wait_finished] is NULL *)
| WaitError (i : nat) (e : string)   (* [wait_finished] returned [e] *)
| NoFini (i : nat)                   (* [fini] is NULL *)
| FiniError (i : nat) (e : string).  (* [fini] returned [e] *)

Inductive main_pc :=
| Stage6                             (* entry of [stage6_wait_for_plugins] *)
| WaitLoop (i : nat)                 (* its loop, at the test [i < plugin_count] *)
| InWait (i k : nat) (pc : pwf_pc)   (* inside [plugins[i].wait_finished()], plugin [k] *)
| FiniLoop (n : nat)                 (* stage 7's loop, at the test [i >= 0], [i = n - 1] *)
| InFini (i k : nat) (pc : fini_pc)  (* inside [plugins[i].fini()], plugin [k] *)
| Stage8.                            (* the final message *)

Record shutdown := Build_shutdown {
  pipe : pipeline;
  at_main : main_pc;
  reported : list main_event
}.

(** The controller is the thread that fed the first stage. *)
Definition main_thread : tid := Feeder 0.

Definition report (err : option string) (ev : string → main_event)
    (l : list main_event) : list main_event :=
  match err with
  | Some e => l ++ [ev e]
  | None => l
  end.

(** One step of the controller; [None] when it is blocked.  Unloading the
    shared objects and freeing the name strings, which follow the [fini]
    loop, do not touch the pipeline and are left out. *)
Definition main_step (plugins : list plugin_handle_t) (s : shutdown)
  : option shutdown :=
  let P := pipe s in
  match at_main s with
  | Stage6 =>
      if (length plugins =? 0)%nat then
        Some {| pipe := P; at_main := FiniLoop 0;
                reported := reported s ++ [NoPlugins] |}
      else Some {| pipe := P; at_main := WaitLoop 0; reported := reported s |}
  | WaitLoop i =>
      match plugins !! i with
      | None =>
          Some {| pipe := P; at_main := FiniLoop (length plugins);
                  reported := reported s |}
      | Some h =>
          match wait_finished h with
          | None =>
              Some {| pipe := P; at_main := WaitLoop (S i);
                      reported := reported s ++ [NoWaitFinished i] |}
          | Some k =>
              Some {| pipe := P; at_main := InWait i k PwfEntry;
                      reported := reported s |}
          end
      end
  | InWait i k pc =>
      match ctxs P !! k with
      | None => None
      | Some g =>
          match plugin_wait_finished_step k pc g with
          | CBlocked => None
          | CNext pc' g' evs =>
              Some {| pipe := emit evs (upd_ctx k (λ _, g') P);
                      at_main := InWait i k pc'; reported := reported s |}
          | CReturn err g' evs =>
              Some {| pipe := emit evs (upd_ctx k (λ _, g') P);
                      at_main := WaitLoop (S i);
                      reported := report err (WaitError i) (reported s) |}
          end
      end
  | FiniLoop n =>
      match n with
      | O => Some {| pipe := P; at_main := Stage8; reported := reported s |}
      | S i =>
          match plugins !! i with
          | None => None
          | Some h =>
              match fini h with
              | None =>
                  Some {| pipe := P; at_main := FiniLoop i;
                          reported := reported s ++ [NoFini i] |}
              | Some k =>
                  Some {| pipe := P; at_main := InFini i k FiniEntry;
                          reported := reported s |}
              end
          end
      end
  | InFini i k pc =>
      match plugin_fini_step main_thread k pc P with
      | None => None
      | Some (inl pc', P') =>
          Some {| pipe := P'; at_main := InFini i k pc'; reported := reported s |}
      | Some (inr err, P') =>
          Some {| pipe := P'; at_main := FiniLoop i;
                  reported := report err (FiniError i) (reported s) |}
      end
  | Stage8 => None
  end.

(** The workers run on while the controller waits and cleans up. *)
Inductive saction :=
| StepMain
| StepStage (i : nat).   (* the worker of stage [i] *)

Definition sstep (plugins : list plugin_handle_t) (a : saction) (s : shutdown)
  : shutdown :=
  match a with
  | StepMain => default s (main_step plugins s)
  | StepStage i =>
      {| pipe := default (pipe s) (worker_step i (pipe s));
         at_main := at_main s; reported := reported s |}
  end.

Definition srun (plugins : list plugin_handle_t) (ss : list saction)
    (s : shutdown) : shutdown :=
  foldl (λ s a, sstep plugins a s) s ss.

(** Stage 5 has returned and the controller enters stage 6. *)
Definition enter_stage6 (P : pipeline) : shutdown :=
  {| pipe := P; at_main := Stage6; reported := [] |}.

(** The controller has returned from [wait_finished] of the plugin at
    index [i]. *)
Definition waited (n : nat) (i : nat) (pc : main_pc) : bool :=
  match pc with
  | Stage6 => false
  | WaitLoop j | InWait j _ _ => bool_decide (i < j)%nat
  | _ => bool_decide (i < n)%nat
  end.

(** *** What holds while the controller waits and cleans up *)

(** The pipeline as long as every plugin is initialised: what the worker
    loop, the buffers and the queues maintain, no worker joined yet, one
    worker per stage, and a finished flag set only by a worker that will
    not call [plugin_place_work] again. *)
Record live (n : nat) (P : pipeline) : Prop := Build_live {
  lv_pinv : pinv P;
  lv_mem : mem_inv P;
  lv_open : open_inv P;
  lv_joined : Forall (λ g, worker_joined g = 0) (ctxs P);
  lv_ctxs : length (ctxs P) = n;
  lv_workers : length (workers P) = n;
  lv_late : ∀ k,
    finished_flags P !! k = Some (Some 1) →
    ∃ pc, workers P !! k = Some pc ∧ late pc = true
}.

(** Phase 2 of [consumer_producer_wait_finished]. *)
Definition in_phase2 (pc : pwf_pc) : bool :=
  match pc with
  | PwfWait WfWait2 | PwfWait WfRelock2 => true
  | _ => false
  end.

(** Stage 6 with [n] plugins. *)
Record wait_inv (n : nat) (s : shutdown) : Prop := Build_wait_inv {
  wi_live : live n (pipe s);
  wi_feeders : feeders (pipe s) = ∅;
  wi_reported : reported s = [];
  wi_waited : ∀ j,
    waited n j (at_main s) = true →
    finished_flags (pipe s) !! j = Some (Some 1);
  wi_at :
    match at_main s with
    | Stage6 => True
    | WaitLoop i => (i ≤ n)%nat
    | InWait i k pc =>
        k = i ∧ (i < n)%nat ∧
        (in_phase2 pc = true → finished_flags (pipe s) !! i = Some (Some 1))
    | _ => False
    end
}.

(** The number of plugins stage 7 has not finalised yet. *)
Definition left_to_fini (pc : main_pc) : nat :=
  match pc with
  | FiniLoop m => m
  | InFini i _ _ => S i
  | _ => 0
  end.

(** Stage 7 with [n] plugins: every worker is past its last
    [plugin_place_work]; the plugins not finalised yet are as stage 6 left
    them, the others are reset and their workers have exited. *)
Record fini_inv (n : nat) (s : shutdown) : Prop := Build_fini_inv {
  fi_mem : mem_inv (pipe s);
  fi_feeders : feeders (pipe s) = ∅;
  fi_reported : reported s = [];
  fi_ctxs : length (ctxs (pipe s)) = n;
  fi_workers : length (workers (pipe s)) = n;
  fi_late : ∀ k pc, workers (pipe s) !! k = Some pc → late pc = true;
  fi_seen : ∀ k, (k < n)%nat → sentinels_seen k (log (pipe s)) = 1%nat;
  fi_left : (left_to_fini (at_main s) ≤ n)%nat;
  fi_alive : ∀ k g,
    (k < left_to_fini (at_main s))%nat → ctxs (pipe s) !! k = Some g →
    ctx_ready g = true ∧ initialized g = 1 ∧
    (∀ q, queue g = Some q → finished_flag q = 1) ∧
    (worker_joined g = 0 ∨ at_main s = InFini k k FiniDestroy);
  fi_gone : ∀ k g,
    (left_to_fini (at_main s) ≤ k)%nat → ctxs (pipe s) !! k = Some g →
    queue g = None ∧ initialized g = 0;
  fi_exited : ∀ k,
    (left_to_fini (at_main s) ≤ k < n)%nat → workers (pipe s) !! k = Some WExit;
  fi_at :
    match at_main s with
    | FiniLoop _ | Stage8 => True
    | InFini i k pc =>
        k = i ∧ (pc = FiniDestroy → workers (pipe s) !! i = Some WExit)
    | _ => False
    end
}.

(** *** Cleaning up after a failed [init] *)

(** The pipeline when stage 3 has initialised the plugins [fs], each with
    its worker thread created; stage 4 has not run and nothing was fed. *)
Definition initialised_only (fs : list transform) (c : Z) : pipeline :=
  {| ctxs := stage3_contexts fs c; workers := replicate (length fs) WStart;
     feeders := ∅; mem := empty_heap; log := [] |}.

(** [cleanup_after_init_failure_and_exit] with [initialized] plugins to
    finalise: its [fini] loop is the one of stage 7 over the first
    [initialized] plugins, and [Stage8] then stands for its unloading loop
    and [exit(2)]. *)
Definition cleanup_after_init_failure (initialized : nat) (P : pipeline)
  : shutdown :=
  {| pipe := P; at_main := FiniLoop initialized; reported := [] |}.

(** The worker is at the top of its loop or inside [get], holding nothing. *)
Definition idle_worker (pc : worker_pc) : bool :=
  match pc with
  | WStart | WGet GetEntry | WGet GetWait | WGet GetRelock => true
  | _ => false
  end.

(** [plugin_fini] has not got past phase 1 of its wait. *)
Definition waiting_fini (pc : fini_pc) : bool :=
  match pc with
  | FiniEntry | FiniWait PwfEntry | FiniWait (PwfWait WfEntry)
  | FiniWait (PwfWait WfWait1) | FiniWait (PwfWait WfRelock1) => true
  | _ => false
  end.

(** A plugin nobody has fed: initialised, its queue empty and open. *)
Definition unfed (g : plugin_context_t) : Prop :=
  initialized g = 1 ∧ is_Some (process_function g) ∧
  ∃ q, queue g = Some q ∧ wf q ∧ contents q = [] ∧ finished_flag q = 0.

Record idle_inv (n : nat) (s : shutdown) : Prop := Build_idle_inv {
  id_ctxs : Forall unfed (ctxs (pipe s));
  id_workers : Forall (λ pc, idle_worker pc = true) (workers (pipe s));
  id_len : length (ctxs (pipe s)) = n;
  id_at :
    at_main s = FiniLoop n ∨
    ∃ pc, at_main s = InFini (n - 1) (n - 1) pc ∧ waiting_fini pc = true
}.

End Shutdown.

(** ** main.c: stage 3, initialising the plugins *)

Module Startup.
Import Monitor ConsumerProducer PluginCommon Main.

(** How [stage3_initialize_plugins] ends: with [exit(2)] at once, with a
    call of [cleanup_after_init_failure_and_exit(initialized)] after the
    error [err] ([None] for a null [init] pointer), or by returning. *)
Inductive stage3_outcome :=
| Stage3NoPlugins
| Stage3Cleanup (initialized : nat) (err : option string)
                (gs : list plugin_context_t)
| Stage3Done (gs : list plugin_context_t).

(** [plugin_init(queue_size)] of a plugin with the given name and
    transform: [return common_plugin_init(plugin_transform, name,
    queue_size)], on the plugin's own context.  [fresh] is what the storage
    that [malloc] returns for the queue holds: the code does not clear it
    before [consumer_producer_init] reads its flags. *)
Definition plugin_init (impl : string * transform) (c : Z)
    (fresh : consumer_producer_t) (g : plugin_context_t)
  : option string * plugin_context_t :=
  common_plugin_init (Some impl.2) (Some impl.1) c fresh g.

(** The loop of stage 3 from index [i] on; [impl !! k] is the name and the
    transform of plugin [k], [gs !! k] its context, and [fresh i] what the
    storage holds that [malloc] returns in the [init] call of iteration
    [i].  [None] when a handle refers to a plugin that does not exist.  An
    error is a non-null, non-empty string. *)
Fixpoint init_loop (impl : list (string * transform)) (c : Z)
    (fresh : nat → consumer_producer_t)
    (plugins : list plugin_handle_t) (fuel i : nat)
    (gs : list plugin_context_t) : option stage3_outcome :=
  match fuel with
  | O => Some (Stage3Done gs)
  | S fuel' =>
      match plugins !! i with
      | None => Some (Stage3Done gs)
      | Some h =>
          match init h with
          | None => Some (Stage3Cleanup i None gs)
          | Some k =>
              match impl !! k, gs !! k with
              | Some im, Some g =>
                  let '(err, g') := plugin_init im c (fresh i) g in
                  match err with
                  | Some (String ch e) =>
                      Some (Stage3Cleanup i (Some (String ch e)) (<[k := g']> gs))
                  | _ => init_loop impl c fresh plugins fuel' (S i) (<[k := g']> gs)
                  end
              | _, _ => None
              end
          end
      end
  end.

Definition stage3_initialize_plugins (impl : list (string * transform)) (c : Z)
    (fresh : nat → consumer_producer_t)
    (plugins : list plugin_handle_t) (gs : list plugin_context_t)
  : option stage3_outcome :=
  if (length plugins =? 0)%nat then Some Stage3NoPlugins
  else init_loop impl c fresh plugins (length plugins) 0 gs.

(** Storage in which none of the [initialized] flags that
    [consumer_producer_init] and [monitor_init] read happens to be 1. *)
Definition no_flag_set (q : consumer_producer_t) : Prop :=
  ConsumerProducer.initialized q ≠ 1 ∧
  Monitor.initialized (not_full_monitor q) ≠ 1 ∧
  Monitor.initialized (not_empty_monitor q) ≠ 1 ∧
  Monitor.initialized (finished_monitor q) ≠ 1.

(** The queue [consumer_producer_init] leaves when it succeeds. *)
Definition new_queue (c : Z) : consumer_producer_t :=
  {| items := replicate (Z.to_nat c) NULL; capacity := c; count := 0;
     head := 0; tail := 0;
     not_full_monitor := {| signaled := 0; Monitor.initialized := 1 |};
     not_empty_monitor := {| signaled := 0; Monitor.initialized := 1 |};
     finished_monitor := {| signaled := 0; Monitor.initialized := 1 |};
     ConsumerProducer.initialized := 1; finished_flag := 0 |}.

(** The context of a plugin after a successful [plugin_init]. *)
Definition initialised_as (im : string * transform) (c : Z) : plugin_context_t :=
  {| name := Some im.1;
     PluginCommon.queue := Some (new_queue c);
     next_place_work := None; process_function := Some im.2;
     PluginCommon.initialized := 1; finished := 0; attached := 0;
     worker_joined := 0 |}.

(** The contexts when exactly the plugins [done] have been initialised. *)
Definition contexts_after (impl : list (string * transform)) (c : Z)
    (done : list nat) (gs : list plugin_context_t) : Prop :=
  length gs = length impl ∧
  ∀ k im, impl !! k = Some im →
    gs !! k = Some (if bool_decide (k ∈ done) then initialised_as im c
                    else zeroed_ctx).

(** Storage whose queue flag happens to be set. *)
Definition stale_storage : consumer_producer_t :=
  {| items := []; capacity := 0; count := 0; head := 0; tail := 0;
     not_full_monitor := Monitor.zeroed;
     not_empty_monitor := Monitor.zeroed;
     finished_monitor := Monitor.zeroed;
     ConsumerProducer.initialized := 1; finished_flag := 0 |}.

End Startup.

(** ** What one stage hands to the next *)

Module Flow.
Import ConsumerProducer PluginCommon Main Shutdown.

(** The string stage [i] classified at this event: the sentinel, or a
    string it gave to its transform. *)
Definition classify (i : nat) (e : pevent) : option string :=
  match e with
  | PTransform j _ s => if bool_decide (j = i) then Some s else None
  | PSentinel j _ => if bool_decide (j = i) then Some END_SENTINEL else None
  | _ => None
  end.

(** The strings stage [i] has taken out of its queue and looked at, in
    order. *)
Definition classified (i : nat) (l : list pevent) : list string :=
  omap (classify i) l.

(** What a wired stage hands downstream for a string it classified: the
    sentinel as it is, otherwise the result of its transform, nothing when
    the transform returns NULL. *)
Definition made_of (f : transform) (s : string) : option string :=
  if String.eqb s END_SENTINEL then Some s
  else
    match (f s).1 with
    | Same => Some s
    | Fresh s' => Some s'
    | Failed => None
    end.

(** The buffer a worker has dequeued and not looked at yet. *)
Definition held_in (pc : worker_pc) : list Z :=
  match pc with
  | WGet gpc => get_holds gpc
  | WGot in_ => if in_ =? NULL then [] else [in_]
  | _ => []
  end.

(** The buffer a worker classifies in its next step. *)
Definition looked_at (pc : worker_pc) : list Z :=
  match pc with
  | WGot in_ => if in_ =? NULL then [] else [in_]
  | _ => []
  end.

(** What a [plugin_place_work(x)] call has still to enqueue: [x] is copied
    first, then the copy is put. *)
Definition to_enqueue (x : Z) (pc : pw_pc) : list Z :=
  match pc with
  | PwEntry => [x]
  | PwPut dup pc => put_holds dup pc
  end.

(** The buffer a worker is handing downstream. *)
Definition in_flight (pc : worker_pc) : list Z :=
  match pc with
  | WForwardEnd in_ ppc => to_enqueue in_ ppc
  | WForward _ out ppc => to_enqueue out ppc
  | _ => []
  end.

Definition worker_at (i : nat) (P : pipeline) : worker_pc :=
  default WExit (workers P !! i).

Definition queue_at (j : nat) (P : pipeline) : list Z :=
  from_option queue_holds [] (ctxs P !! j).

Definition strings (P : pipeline) (l : list Z) : list string :=
  (λ p, load p (mem P)) <$> l.

(** Between stage [i] and the next stage [j], in order: the string [j] has
    dequeued and not looked at yet, those in the queue of [j], and the one
    [i] is handing over. *)
Definition pending (i j : nat) (P : pipeline) : list string :=
  strings P (held_in (worker_at j P) ++ queue_at j P ++ in_flight (worker_at i P)).

(** A chain of the stages [fs] fed at its first stage only. *)
Record chain_inv (fs : list transform) (P : pipeline) : Prop := Build_chain_inv {
  ch_live : live (length fs) P;
  ch_ctx : ∀ i g,
    ctxs P !! i = Some g →
    process_function g = fs !! i ∧
    next_place_work g =
      (if bool_decide (S i < length fs)%nat then Some (S i) else None) ∧
    wired g = bool_decide (S i < length fs)%nat;
  ch_feeders : ∀ k j str pc, feeders P !! k = Some (j, str, pc) → j = 0%nat;
  ch_flags : ∀ k o, finished_flags P !! k = Some o → o = Some 0 ∨ o = Some 1;
  ch_flow : ∀ i f,
    (S i < length fs)%nat → fs !! i = Some f →
    classified (S i) (log P) `prefix_of` omap (made_of f) (classified i (log P)) ∧
    (finished_flags P !! S i = Some (Some 0) →
     omap (made_of f) (classified i (log P)) =
       classified (S i) (log P) ++ pending i (S i) P)
}.

(** The schedules in which the controller feeds the first stage only, as
    [stage5_read_and_feed] does. *)
Definition feeds_first (a : paction) : bool :=
  match a with
  | Place _ j _ => bool_decide (j = 0%nat)
  | _ => true
  end.

End Flow.

(** * Verification *)

(** ** C integer arithmetic *)

Lemma wrap_int_small z : INT_MIN ≤ z ≤ INT_MAX → wrap_int z = z.
Proof.
  unfold wrap_int, INT_MIN, INT_MAX. intros Hz.
  rewrite Z.mod_small; lia.
Qed.

Lemma ring_next x c : 0 ≤ x < c → Z.rem (x + 1) c = (x + 1) mod c.
Proof. intros Hx. apply Z.rem_mod_nonneg; lia. Qed.

Lemma mod_ring x c :
  0 < c → 0 ≤ x < 2 * c → x mod c = if decide (x < c) then x else x - c.
Proof.
  intros Hc Hx. case_decide.
  - apply Z.mod_small; lia.
  - symmetry. apply (Z.mod_unique_pos _ _ 1); lia.
Qed.

Section QueueFacts.
Import Monitor ConsumerProducer.

Lemma capacity_bound q : wf q → 1 ≤ capacity q ≤ 268435455.
Proof. intros [? Hc]. exact Hc. Qed.

Lemma cap_max : Z.quot INT_MAX sizeof_char_ptr = 268435455.
Proof. reflexivity. Qed.

Lemma slot_lt q i :
  wf q → (slot q i < length (items q))%nat.
Proof.
  intros Hq. destruct Hq. unfold slot.
  pose proof (Z.mod_pos_bound (head q + Z.of_nat i) (capacity q)). lia.
Qed.

Lemma slot_inj q i j :
  wf q → (Z.of_nat i < capacity q) → (Z.of_nat j < capacity q) →
  slot q i = slot q j → i = j.
Proof.
  intros Hq Hi Hj. destruct Hq. unfold slot. intros Heq.
  apply Z2Nat.inj in Heq; try (apply Z.mod_pos_bound; lia).
  rewrite !mod_ring in Heq by lia.
  repeat case_decide; lia.
Qed.

Lemma contents_length q : length (contents q) = Z.to_nat (count q).
Proof. unfold contents. by rewrite length_fmap, length_seq. Qed.

Lemma contents_lookup q i :
  (i < Z.to_nat (count q))%nat →
  contents q !! i = Some (default 0 (items q !! slot q i)).
Proof.
  intros Hi. unfold contents. rewrite list_lookup_fmap, lookup_seq_lt by done.
  done.
Qed.

Lemma tail_slot q : wf q → Z.to_nat (tail q) = slot q (Z.to_nat (count q)).
Proof. intros []. unfold slot. rewrite Z2Nat.id by lia. congruence. Qed.

Lemma put_insert_contents item q :
  wf q → count q < capacity q →
  contents (put_insert item q) = contents q ++ [item].
Proof.
  intros Hq Hlt. pose proof Hq as [].
  rewrite cap_max in *.
  apply list_eq. intros i.
  assert (Hn : count (put_insert item q) = count q + 1).
  { cbn. apply wrap_int_small. unfold INT_MIN, INT_MAX; lia. }
  destruct (decide (i < Z.to_nat (count q) + 1)%nat) as [Hi|Hi].
  - rewrite contents_lookup by lia.
    change (slot (put_insert item q) i) with (slot q i).
    cbn [items put_insert]. rewrite tail_slot by done.
    destruct (decide (i = Z.to_nat (count q))) as [->|Hne].
    + rewrite list_lookup_insert_eq by by apply slot_lt.
      rewrite lookup_app_r by (rewrite contents_length; lia).
      by rewrite contents_length, Nat.sub_diag.
    + rewrite list_lookup_insert_ne.
      2:{ intros Heq. apply slot_inj in Heq; [lia|done|lia..]. }
      rewrite lookup_app_l by (rewrite contents_length; lia).
      rewrite contents_lookup by lia. done.
  - rewrite !lookup_ge_None_2; [done|..].
    + rewrite length_app, contents_length. cbn. lia.
    + rewrite contents_length. lia.
Qed.

Lemma put_insert_wf item q :
  wf q → count q < capacity q → item ≠ 0 → wf (put_insert item q).
Proof.
  intros Hq Hlt Hitem. pose proof (put_insert_contents item q Hq Hlt) as Hc.
  pose proof Hq as []. rewrite cap_max in *.
  assert (Hn : count (put_insert item q) = count q + 1).
  { cbn. apply wrap_int_small. unfold INT_MIN, INT_MAX; lia. }
  constructor; rewrite ?Hc, ?Hn, ?cap_max; cbn [put_insert initialized capacity items head tail finished_flag]; try done; try lia.
  - by rewrite length_insert.
  - rewrite wrap_int_small by (unfold INT_MIN, INT_MAX;
      pose proof (Z.mod_pos_bound (head q + count q) (capacity q)); lia).
    rewrite ring_next, wf_tail0 by (rewrite ?wf_tail0; apply Z.mod_pos_bound; lia).
    rewrite Zplus_mod_idemp_l. f_equal. lia.
  - apply Forall_app. split; [done|]. by constructor.
Qed.

Lemma get_dequeue_contents q :
  wf q → 0 < count q →
  contents q = (get_dequeue q).1 :: contents (get_dequeue q).2.
Proof.
  intros Hq Hlt. pose proof Hq as [].
  rewrite cap_max in *.
  assert (Hn : count (get_dequeue q).2 = count q - 1).
  { cbn. apply wrap_int_small. unfold INT_MIN, INT_MAX; lia. }
  assert (Hh : head (get_dequeue q).2 = (head q + 1) mod capacity q).
  { cbn. rewrite wrap_int_small by (unfold INT_MIN, INT_MAX; lia).
    by apply ring_next. }
  assert (Hs0 : slot q 0 = Z.to_nat (head q)).
  { unfold slot. rewrite Z.add_0_r, Z.mod_small; lia. }
  apply list_eq. intros [|i].
  - rewrite contents_lookup by lia. cbn. by rewrite Hs0.
  - rewrite (lookup_cons_ne_0 _ _ (S i)) by done. cbn [Nat.pred].
    destruct (decide (S i < Z.to_nat (count q))%nat) as [Hi|Hi].
    + rewrite !contents_lookup by lia.
      assert (Hsl : slot (get_dequeue q).2 i = slot q (S i)).
      { unfold slot. rewrite Hh. cbn [capacity get_dequeue snd].
        rewrite Zplus_mod_idemp_l. do 2 f_equal. lia. }
      rewrite Hsl. cbn [items get_dequeue snd].
      rewrite list_lookup_insert_ne; [done|].
      rewrite <- Hs0. intros Heq. apply slot_inj in Heq; [lia|done|lia..].
    + rewrite (lookup_ge_None_2 (contents q)) by (rewrite contents_length; lia).
      rewrite lookup_ge_None_2; [done|]. rewrite contents_length; lia.
Qed.

Lemma get_dequeue_wf q :
  wf q → 0 < count q → wf (get_dequeue q).2 ∧ (get_dequeue q).1 ≠ 0.
Proof.
  intros Hq Hlt. pose proof (get_dequeue_contents q Hq Hlt) as Hc.
  pose proof Hq as []. rewrite cap_max in *.
  rewrite Hc in wf_live0. apply Forall_cons in wf_live0 as [Hx Hlive].
  split; [|done].
  assert (Hn : count (get_dequeue q).2 = count q - 1).
  { cbn. apply wrap_int_small. unfold INT_MIN, INT_MAX; lia. }
  assert (Hh : head (get_dequeue q).2 = (head q + 1) mod capacity q).
  { cbn. rewrite wrap_int_small by (unfold INT_MIN, INT_MAX; lia).
    by apply ring_next. }
  constructor; rewrite ?Hn, ?Hh, ?cap_max; try done; cbn [get_dequeue snd initialized capacity items head tail finished_flag]; try done; try lia.
  - by rewrite length_insert.
  - apply Z.mod_pos_bound. lia.
  - rewrite wf_tail0, Zplus_mod_idemp_l. f_equal. lia.
Qed.

Lemma signal_initialized m :
  Monitor.initialized (monitor_signal m) = Monitor.initialized m.
Proof. unfold monitor_signal. by destruct (_ =? _). Qed.

Lemma reset_initialized m :
  Monitor.initialized (monitor_reset m) = Monitor.initialized m.
Proof. unfold monitor_reset. by destruct (_ =? _). Qed.

Lemma step_ok_refl q : wf q → step_ok q [] q.
Proof. intros Hq. unfold step_ok. split_and!; try done. exact (app_nil_r _). Qed.

Lemma step_ok_not_full m q :
  wf q → Monitor.initialized m = Monitor.initialized (not_full_monitor q) →
  ∀ evs, ev_enq evs = [] → ev_deq evs = [] →
  step_ok q evs (set_not_full m q).
Proof.
  intros Hq Hm evs He Hd. pose proof Hq as [? ? ? ? ? ? ? (?&?&?) ?].
  unfold step_ok. split_and!; try done.
  - constructor; try done. split_and!; cbn; congruence.
  - by rewrite He, Hd, app_nil_r.
Qed.

Lemma step_ok_not_empty m q :
  wf q → Monitor.initialized m = Monitor.initialized (not_empty_monitor q) →
  ∀ evs, ev_enq evs = [] → ev_deq evs = [] →
  step_ok q evs (set_not_empty m q).
Proof.
  intros Hq Hm evs He Hd. pose proof Hq as [? ? ? ? ? ? ? (?&?&?) ?].
  unfold step_ok. split_and!; try done.
  - constructor; try done. split_and!; cbn; congruence.
  - by rewrite He, Hd, app_nil_r.
Qed.

Lemma step_ok_finished_monitor m q :
  wf q → Monitor.initialized m = Monitor.initialized (finished_monitor q) →
  ∀ evs, ev_enq evs = [] → ev_deq evs = [] →
  step_ok q evs (set_finished_monitor m q).
Proof.
  intros Hq Hm evs He Hd. pose proof Hq as [? ? ? ? ? ? ? (?&?&?) ?].
  unfold step_ok. split_and!; try done.
  - constructor; try done. split_and!; cbn; congruence.
  - by rewrite He, Hd, app_nil_r.
Qed.

Lemma step_ok_finished_flag q : wf q → step_ok q [] (set_finished_flag 1 q).
Proof.
  intros Hq. pose proof Hq as [].
  unfold step_ok. split_and!; try done.
  - constructor; try done. by right.
  - exact (app_nil_r _).
Qed.

Lemma step_ok_put_insert item q :
  wf q → count q < capacity q → item ≠ 0 →
  step_ok q [EvEnq item] (put_insert item q).
Proof.
  intros Hq Hlt Hi. split; [by apply put_insert_wf|].
  split_and!; try done. by rewrite put_insert_contents.
Qed.

Lemma step_ok_get_dequeue q :
  wf q → 0 < count q →
  step_ok q [EvDeq (get_dequeue q).1] (get_dequeue q).2 ∧ (get_dequeue q).1 ≠ 0.
Proof.
  intros Hq Hlt. destruct (get_dequeue_wf q Hq Hlt) as [Hwf Hx].
  split; [|done]. split; [done|].
  split_and!; try done. rewrite app_nil_r. by apply get_dequeue_contents.
Qed.

Lemma put_step_ok item pc q :
  wf q → pc_inv q (InPut item pc) →
  outcome_ok (InPut item) q (put_step item pc q).
Proof.
  intros Hq Hpc. pose proof Hq as [].
  assert (Hloop : item ≠ 0 → outcome_ok (InPut item) q (put_loop item q)).
  { intros Hi. unfold put_loop, queue_is_full.
    destruct (Z.eqb_spec (count q) (capacity q)); cbn.
    - split; [|done]. apply step_ok_not_full; by rewrite ?reset_initialized.
    - split; [|done]. apply step_ok_put_insert; [done|lia|done]. }
  destruct pc; cbn in Hpc |- *.
  - destruct (Z.eqb_spec item 0); cbn; [by apply step_ok_refl|].
    destruct (initialized q =? 1); cbn; [|by apply step_ok_refl].
    destruct (finished_flag q =? 1); cbn; [by apply step_ok_refl|].
    split; [by apply step_ok_refl|done].
  - destruct (finished_flag q =? 1); cbn; [by apply step_ok_refl|]. by apply Hloop.
  - destruct (monitor_wait _); cbn; [done|].
    destruct (rc =? 0); cbn; [|by apply step_ok_refl].
    split; [by apply step_ok_refl|done].
  - by apply Hloop.
  - apply step_ok_not_empty; by rewrite ?signal_initialized.
Qed.

Lemma get_step_ok pc q :
  wf q → pc_inv q (InGet pc) → outcome_ok InGet q (get_step pc q).
Proof.
  intros Hq Hpc. pose proof Hq as [].
  assert (Hloop : outcome_ok InGet q (get_loop q)).
  { unfold get_loop, queue_is_empty.
    destruct (Z.eqb_spec (count q) 0); cbn [andb].
    - destruct (Z.eqb_spec (finished_flag q) 0); cbn.
      + split; [|done]. apply step_ok_not_empty; by rewrite ?reset_initialized.
      + destruct (Z.eqb_spec (finished_flag q) 1); cbn; [by apply step_ok_refl|].
        lia.
    - destruct (step_ok_get_dequeue q Hq) as [Hs Hx]; [lia|].
      destruct (get_dequeue q) as [x q'] eqn:Hd. cbn in Hs, Hx. cbn. done. }
  destruct pc; cbn in Hpc |- *.
  - destruct (initialized q =? 1); cbn; [done|by apply step_ok_refl].
  - destruct (monitor_wait _); cbn; [done|].
    destruct (rc =? 0); cbn; [|by apply step_ok_refl].
    split; [by apply step_ok_refl|done].
  - done.
  - destruct became_empty; cbn.
    + split; [|done]. apply step_ok_not_full; by rewrite ?signal_initialized.
    + apply step_ok_not_full; by rewrite ?signal_initialized.
  - apply step_ok_finished_monitor; by rewrite ?signal_initialized.
Qed.

Lemma sf_step_ok pc q :
  wf q → outcome_ok InSignalFinished q (sf_step pc q).
Proof.
  intros Hq. destruct pc; cbn.
  - destruct (initialized q =? 1); cbn; [|by apply step_ok_refl].
    destruct (finished_flag q =? 1); cbn; [by apply step_ok_refl|].
    split; [|done]. by apply step_ok_finished_flag.
  - split; [|done]. apply step_ok_finished_monitor; by rewrite ?signal_initialized.
  - apply step_ok_not_empty; by rewrite ?signal_initialized.
Qed.

Lemma wf_step_ok pc q :
  wf q → pc_inv q (InWaitFinished pc) →
  outcome_ok InWaitFinished q (wf_step pc q).
Proof.
  intros Hq Hpc. pose proof Hq as [].
  assert (H2 : finished_flag q = 1 → outcome_ok InWaitFinished q (wf_phase2 q)).
  { intros Hf. unfold wf_phase2. destruct (count q >? 0); cbn.
    - split; [|done]. apply step_ok_finished_monitor; by rewrite ?reset_initialized.
    - by apply step_ok_refl. }
  assert (H1 : outcome_ok InWaitFinished q (wf_phase1 q)).
  { unfold wf_phase1. destruct (Z.eqb_spec (finished_flag q) 0); cbn.
    - split; [|done]. apply step_ok_finished_monitor; by rewrite ?reset_initialized.
    - apply H2. lia. }
  assert (Hw : ∀ r, pc_inv q (InWaitFinished r) →
                 outcome_ok InWaitFinished q (wf_wait r q)).
  { intros r Hr. unfold wf_wait. destruct (monitor_wait _); cbn; [done|].
    destruct (rc =? 0); cbn; [|by apply step_ok_refl].
    split; [by apply step_ok_refl|done]. }
  destruct pc; cbn in Hpc |- *; try done.
  - destruct (initialized q =? 1); cbn; [|by apply step_ok_refl].
    destruct (_ && _); cbn; [by apply step_ok_refl|done].
  - by apply Hw.
  - by apply Hw.
  - by apply H2.
Qed.

Lemma op_step_ok pc q :
  wf q → pc_inv q pc → outcome_ok id q (op_step pc q).
Proof.
  intros Hq Hpc. destruct pc as [item pc|pc|pc|pc]; cbn [op_step].
  - pose proof (put_step_ok item pc q Hq Hpc). by destruct (put_step _ _ _).
  - pose proof (get_step_ok pc q Hq Hpc). by destruct (get_step _ _).
  - pose proof (sf_step_ok pc q Hq). by destruct (sf_step _ _).
  - pose proof (wf_step_ok pc q Hq Hpc). by destruct (wf_step _ _).
Qed.

Lemma init_ok q0 cap :
  (consumer_producer_init q0 cap).1 = None →
  wf (consumer_producer_init q0 cap).2 ∧
  capacity (consumer_producer_init q0 cap).2 = cap ∧
  contents (consumer_producer_init q0 cap).2 = [] ∧
  finished_flag (consumer_producer_init q0 cap).2 = 0.
Proof.
  unfold consumer_producer_init, monitor_init.
  destruct (Z.leb_spec cap 0); [done|].
  destruct (initialized q0 =? 1); [done|].
  destruct (Z.gtb_spec cap (Z.quot INT_MAX sizeof_char_ptr)); [done|].
  destruct (Monitor.initialized (not_full_monitor q0) =? 1); [done|].
  destruct (Monitor.initialized (not_empty_monitor q0) =? 1); [done|].
  destruct (Monitor.initialized (finished_monitor q0) =? 1); [done|].
  cbn. intros _. split; [|done].
  constructor; cbn; try done; try lia.
  rewrite length_replicate. lia.
Qed.

Lemma wait_ready m :
  Monitor.initialized m = 1 →
  monitor_wait m = WaitBlocked ∨ monitor_wait m = WaitReturn 0.
Proof.
  intros Hm. unfold monitor_wait. rewrite Hm. cbn.
  destruct (signaled m =? 0); auto.
Qed.

Lemma op_step_link t pc q :
  wf q → pc_inv q pc → link_ok t pc (op_step pc q).
Proof.
  intros Hq Hpc. pose proof Hq as [Hi _ _ _ _ _ _ (Hm1 & Hm2 & Hm3) _].
  destruct pc as [item pc|pc|pc|pc]; cbn [op_step].
  - destruct pc; cbn in Hpc |- *;
      unfold put_loop, queue_is_full; rewrite ?Hi; cbn;
      try destruct (wait_ready _ Hm1) as [-> | ->];
      repeat case_match; cbn in *; try done; auto.
  - destruct pc; cbn in Hpc |- *;
      unfold get_loop, queue_is_empty; rewrite ?Hi; cbn;
      try destruct (wait_ready _ Hm2) as [-> | ->];
      repeat case_match; simplify_eq; cbn in *; try done;
      rewrite ?decide_True, ?decide_False by done; auto.
  - destruct pc; cbn; rewrite ?Hi; cbn; repeat case_match; cbn; auto.
  - destruct pc; cbn in Hpc |- *;
      unfold wf_wait, wf_phase1, wf_phase2; rewrite ?Hi; cbn;
      try destruct (wait_ready _ Hm3) as [-> | ->];
      repeat case_match; cbn in *; try done; auto.
Qed.
Lemma pc_inv_mono q evs q' pc : step_ok q evs q' → pc_inv q pc → pc_inv q' pc.
Proof.
  intros (_ & _ & Hf & _).
  destruct pc as [item []|[]|[]|[]]; cbn; auto.
Qed.

Lemma enqueued_app tr1 tr2 : enqueued (tr1 ++ tr2) = enqueued tr1 ++ enqueued tr2.
Proof. apply omap_app. Qed.

Lemma dequeued_app tr1 tr2 : dequeued (tr1 ++ tr2) = dequeued tr1 ++ dequeued tr2.
Proof. apply omap_app. Qed.

Lemma enqueued_did t evs : enqueued (Did t <$> evs) = ev_enq evs.
Proof.
  unfold enqueued, ev_enq.
  induction evs as [|[] evs IH]; cbn in *; by rewrite ?IH.
Qed.

Lemma dequeued_did t evs : dequeued (Did t <$> evs) = ev_deq evs.
Proof.
  unfold dequeued, ev_deq.
  induction evs as [|[] evs IH]; cbn in *; by rewrite ?IH.
Qed.

Lemma fifo_extend tr q evs q' :
  enqueued tr = dequeued tr ++ contents q →
  step_ok q evs q' →
  enqueued tr ++ ev_enq evs = (dequeued tr ++ ev_deq evs) ++ contents q'.
Proof.
  intros Hf (_ & _ & _ & Hc). by rewrite Hf, <- !app_assoc, Hc.
Qed.


Lemma by_thread_app t tr1 tr2 :
  by_thread t (tr1 ++ tr2) = by_thread t tr1 ++ by_thread t tr2.
Proof. apply filter_app. Qed.

Lemma by_thread_did t t' evs :
  by_thread t' (Did t <$> evs) = if decide (t = t') then Did t <$> evs else [].
Proof.
  unfold by_thread. induction evs as [|e evs IH]; [by case_decide|].
  rewrite fmap_cons, filter_cons, IH. cbn [thread_of]. by repeat case_decide.
Qed.

Lemma by_thread_returned t t' pc r :
  by_thread t' [Returned t pc r] = if decide (t = t') then [Returned t pc r] else [].
Proof.
  unfold by_thread. rewrite filter_cons, filter_nil. cbn [thread_of].
  by repeat case_decide.
Qed.

Lemma put_returns_app tr1 tr2 :
  put_returns (tr1 ++ tr2) = put_returns tr1 ++ put_returns tr2.
Proof. apply omap_app. Qed.

Lemma get_returns_app tr1 tr2 :
  get_returns (tr1 ++ tr2) = get_returns tr1 ++ get_returns tr2.
Proof. apply omap_app. Qed.

Lemma put_returns_did t evs : put_returns (Did t <$> evs) = [].
Proof. unfold put_returns. induction evs as [|e evs IH]; cbn in *; done. Qed.

Lemma get_returns_did t evs : get_returns (Did t <$> evs) = [].
Proof. unfold get_returns. induction evs as [|e evs IH]; cbn in *; done. Qed.

Lemma return_ok_did t evs : Forall return_ok (Did t <$> evs).
Proof. induction evs; constructor; done. Qed.

Lemma run_cons a sched s : run (a :: sched) s = run sched (sys_step a s).
Proof. reflexivity. Qed.

Lemma run_app s1 s2 s : run (s1 ++ s2) s = run s2 (run s1 s).
Proof. apply foldl_app. Qed.

Lemma sys_step_inv a s : sys_inv s → sys_inv (sys_step a s).
Proof.
  intros [Hwf Hth Hfifo Hputs Hgets Hret]. destruct a as [t c|t]; cbn [sys_step].
  - destruct (threads s !! t) eqn:Ht; [done|].
    constructor; cbn [queue threads trace]; try done.
    + apply map_Forall_insert_2; [|done]. by destruct c.
    + intros t'. rewrite Hputs. destruct (decide (t = t')) as [->|Hne].
      * rewrite lookup_insert_eq, Ht. by destruct c.
      * by rewrite lookup_insert_ne.
    + intros t'. rewrite Hgets. destruct (decide (t = t')) as [->|Hne].
      * rewrite lookup_insert_eq, Ht. by destruct c.
      * by rewrite lookup_insert_ne.
  - destruct (threads s !! t) as [pc|] eqn:Ht; [|done].
    pose proof (op_step_ok pc (queue s) Hwf (Hth _ _ Ht)) as Hok.
    pose proof (op_step_link t pc (queue s) Hwf (Hth _ _ Ht)) as Hlink.
    destruct (op_step pc (queue s)) as [|pc' q' evs|r q' evs]; [done|..];
      cbn [outcome_ok link_ok id] in Hok, Hlink.
    + destruct Hok as [Hs Hpc]. destruct Hlink as [Hle Hld].
      constructor; cbn [queue threads trace].
      * apply Hs.
      * apply map_Forall_insert_2; [done|].
        intros t' pc'' Ht'. eapply pc_inv_mono; [done|]. by eapply Hth.
      * rewrite enqueued_app, dequeued_app, enqueued_did, dequeued_did.
        by eapply fifo_extend.
      * intros t'. rewrite by_thread_app, by_thread_did, enqueued_app, put_returns_app.
        rewrite Hputs. destruct (decide (t = t')) as [<-|Hne].
        -- rewrite lookup_insert_eq, enqueued_did, put_returns_did, Ht, app_nil_r.
           by rewrite <- app_assoc, Hle.
        -- rewrite lookup_insert_ne by done. cbn. by rewrite !app_nil_r.
      * intros t'. rewrite by_thread_app, by_thread_did, dequeued_app, get_returns_app.
        rewrite Hgets. destruct (decide (t = t')) as [<-|Hne].
        -- rewrite lookup_insert_eq, dequeued_did, get_returns_did, Ht, app_nil_r.
           by rewrite <- app_assoc, Hld.
        -- rewrite lookup_insert_ne by done. cbn. by rewrite !app_nil_r.
      * apply Forall_app. split; [done|apply return_ok_did].
    + destruct Hlink as (Hle & Hld & Hr).
      constructor; cbn [queue threads trace].
      * apply Hok.
      * apply map_Forall_delete.
        intros t' pc'' Ht'. eapply pc_inv_mono; [done|]. by eapply Hth.
      * rewrite !enqueued_app, !dequeued_app, enqueued_did, dequeued_did.
        cbn. rewrite !app_nil_r. by eapply fifo_extend.
      * intros t'.
        rewrite !by_thread_app, by_thread_did, by_thread_returned.
        rewrite !enqueued_app, !put_returns_app, Hputs.
        destruct (decide (t = t')) as [<-|Hne].
        -- rewrite lookup_delete_eq, enqueued_did, put_returns_did, Ht.
           change (pending_enq None) with (@nil Z).
           change (enqueued [Returned t pc r]) with (@nil Z).
           by rewrite !app_nil_r, <- app_assoc, Hle.
        -- rewrite lookup_delete_ne by done. cbn. by rewrite !app_nil_r.
      * intros t'.
        rewrite !by_thread_app, by_thread_did, by_thread_returned.
        rewrite !dequeued_app, !get_returns_app, Hgets.
        destruct (decide (t = t')) as [<-|Hne].
        -- rewrite lookup_delete_eq, dequeued_did, get_returns_did, Ht.
           change (pending_deq None) with (@nil Z).
           change (dequeued [Returned t pc r]) with (@nil Z).
           by rewrite !app_nil_r, <- app_assoc, Hld.
        -- rewrite lookup_delete_ne by done. cbn. by rewrite !app_nil_r.
      * apply Forall_app. split; [done|]. apply Forall_app. split; [apply return_ok_did|].
        by constructor.
Qed.

Lemma run_inv sched s : sys_inv s → sys_inv (run sched s).
Proof.
  revert s. induction sched as [|a sched IH]; intros s Hs; [done|].
  rewrite run_cons. apply IH. by apply sys_step_inv.
Qed.

Lemma boot_inv q0 cap :
  (consumer_producer_init q0 cap).1 = None → sys_inv (boot q0 cap).
Proof.
  intros Hc. destruct (init_ok q0 cap Hc) as (Hwf & _ & Hcont & _).
  constructor; cbn; rewrite ?Hcont; done.
Qed.

Lemma sys_step_capacity a s :
  sys_inv s → capacity (queue (sys_step a s)) = capacity (queue s).
Proof.
  intros Hs. pose proof (inv_wf _ Hs) as Hwf. pose proof (inv_threads _ Hs) as Hth.
  destruct a as [t c|t]; cbn.
  - by destruct (threads s !! t).
  - destruct (threads s !! t) as [pc|] eqn:Ht; [|done].
    pose proof (op_step_ok pc (queue s) Hwf (Hth _ _ Ht)) as Hok.
    destruct (op_step pc (queue s)) as [|pc' q' evs|r q' evs]; [done|..]; cbn in *;
      apply Hok.
Qed.

Lemma sys_step_finished a s :
  sys_inv s → finished_flag (queue s) = 1 →
  finished_flag (queue (sys_step a s)) = 1.
Proof.
  intros Hs. pose proof (inv_wf _ Hs) as Hwf. pose proof (inv_threads _ Hs) as Hth.
  destruct a as [t c|t]; cbn.
  - by destruct (threads s !! t).
  - destruct (threads s !! t) as [pc|] eqn:Ht; [|done].
    pose proof (op_step_ok pc (queue s) Hwf (Hth _ _ Ht)) as Hok.
    destruct (op_step pc (queue s)) as [|pc' q' evs|r q' evs]; [done|..]; cbn in *;
      apply Hok.
Qed.

Lemma run_capacity sched s :
  sys_inv s → capacity (queue (run sched s)) = capacity (queue s).
Proof.
  revert s. induction sched as [|a sched IH]; intros s Hs; [done|].
  rewrite run_cons, IH by by apply sys_step_inv. by apply sys_step_capacity.
Qed.

Lemma run_finished sched s :
  sys_inv s → finished_flag (queue s) = 1 →
  finished_flag (queue (run sched s)) = 1.
Proof.
  revert s. induction sched as [|a sched IH]; intros s Hs Hf; [done|].
  rewrite run_cons. apply IH; [by apply sys_step_inv|by apply sys_step_finished].
Qed.

Lemma init_capacity_range q0 c :
  (consumer_producer_init q0 c).1 = None → 1 ≤ c ≤ Z.quot INT_MAX sizeof_char_ptr.
Proof.
  intros Hc. destruct (init_ok q0 c Hc) as ([] & Hcap & _). lia.
Qed.

(** C9: from a queue initialised with capacity [c], in every execution of
    any number of threads calling [put], [get], [signal_finished] and
    [wait_finished] in any interleaving, [c ≥ 1], the capacity stays [c],
    [0 ≤ count ≤ c] holds in every state, [finished_flag] is 0 or 1, and
    once it is 1 it is 1 in every later state. *)
Theorem count_bounded_finished_monotonic
    (q0 : consumer_producer_t) (c : Z) (before after : list action) :
  (consumer_producer_init q0 c).1 = None →
  let s1 := run before (boot q0 c) in
  let s2 := run after s1 in
  1 ≤ c ∧ capacity (queue s1) = c ∧ 0 ≤ count (queue s1) ≤ c ∧
  (finished_flag (queue s1) = 0 ∨ finished_flag (queue s1) = 1) ∧
  (finished_flag (queue s1) = 1 → finished_flag (queue s2) = 1).
Proof.
  intros Hc s1 s2. subst s1 s2.
  pose proof (boot_inv q0 c Hc) as Hb.
  pose proof (run_inv before _ Hb) as H1.
  assert (Hcap : capacity (queue (run before (boot q0 c))) = c).
  { rewrite run_capacity by done. by destruct (init_ok q0 c Hc) as (_&?&_). }
  pose proof (wf_count _ (inv_wf _ H1)).
  pose proof (init_capacity_range q0 c Hc).
  split_and!; [lia|done|lia|lia|apply (wf_finished _ (inv_wf _ H1))|by apply run_finished].
Qed.

Lemma count_bounded_finished_monotonic_witness :
  (consumer_producer_init ConsumerProducer.zeroed 1).1 = None ∧
  let s1 := run [Invoke 0 (CallPut 7); Step 0; Step 0; Step 0;
                 Invoke 1 (CallPut 8); Step 1; Step 1; Step 1;
                 Invoke 2 CallSignalFinished; Step 2; Step 2; Step 2]
                (boot ConsumerProducer.zeroed 1) in
  let s2 := run [Invoke 3 CallGet; Step 3; Step 3; Step 3; Step 1; Step 1; Step 1;
                 Invoke 4 CallWaitFinished; Step 4]
                s1 in
  1 ≤ 1 ∧ capacity (queue s1) = 1 ∧ 0 ≤ count (queue s1) ≤ 1 ∧
  (finished_flag (queue s1) = 0 ∨ finished_flag (queue s1) = 1) ∧
  (finished_flag (queue s1) = 1 → finished_flag (queue s2) = 1).
Proof.
  split; [reflexivity|].
  apply (count_bounded_finished_monotonic ConsumerProducer.zeroed 1). reflexivity.
Defined.

(** C1: FIFO.  From an initialised queue, in every execution of any number
    of threads: the items inserted by the successful [put]s, in the order in
    which the state mutex serialised the insertions, are the items removed
    by the [get]s, in the order of the removals, followed by the items still
    in the queue; so the i-th removal is the i-th insertion.  For each
    thread, the items of its [put]s that returned success are its
    insertions (up to the one of a [put] that has inserted and not returned
    yet), and the items its [get]s returned are its removals, in the same
    order.  Hence with one producer thread [p] and one consumer thread [g]
    the i-th item returned by a [get] of [g] is the item of the i-th
    successful [put] of [p]. *)
Theorem fifo_order (q0 : consumer_producer_t) (c : Z) (sched : list action) :
  (consumer_producer_init q0 c).1 = None →
  let s := run sched (boot q0 c) in
  enqueued (trace s) = dequeued (trace s) ++ contents (queue s) ∧
  (∀ i x, dequeued (trace s) !! i = Some x → enqueued (trace s) !! i = Some x) ∧
  (∀ t, enqueued (by_thread t (trace s)) =
        put_returns (by_thread t (trace s)) ++ pending_enq (threads s !! t)) ∧
  (∀ t, dequeued (by_thread t (trace s)) =
        get_returns (by_thread t (trace s)) ++ pending_deq (threads s !! t)) ∧
  (∀ p g,
     enqueued (by_thread p (trace s)) = enqueued (trace s) →
     dequeued (by_thread g (trace s)) = dequeued (trace s) →
     ∀ i x, get_returns (by_thread g (trace s)) !! i = Some x →
            (put_returns (by_thread p (trace s)) ++ pending_enq (threads s !! p)) !! i
            = Some x).
Proof.
  intros Hc s. destruct (run_inv sched _ (boot_inv q0 c Hc)) as [_ _ Hf Hp Hg _].
  fold s in Hf, Hp, Hg. split_and!; try done.
  - rewrite Hf. intros i x. apply lookup_app_l_Some.
  - intros p g Hpe Hgd i x Hi.
    rewrite <- Hp, Hpe, Hf, <- Hgd, Hg.
    by do 2 apply lookup_app_l_Some.
Qed.

Lemma fifo_order_witness :
  (consumer_producer_init ConsumerProducer.zeroed 2).1 = None ∧
  get_returns (by_thread 1 (trace (run fifo_demo (boot ConsumerProducer.zeroed 2)))) = [5; 6; 7] ∧
  put_returns (by_thread 0 (trace (run fifo_demo (boot ConsumerProducer.zeroed 2)))) = [5; 6; 7] ∧
  ∀ i x, dequeued (trace (run fifo_demo (boot ConsumerProducer.zeroed 2))) !! i = Some x →
         enqueued (trace (run fifo_demo (boot ConsumerProducer.zeroed 2))) !! i = Some x.
Proof.
  split; [reflexivity|]. split; [vm_compute; reflexivity|].
  split; [vm_compute; reflexivity|].
  exact (proj1 (proj2 (fifo_order ConsumerProducer.zeroed 2 fifo_demo eq_refl))).
Defined.

Lemma reset_signaled m :
  Monitor.initialized m = 1 → signaled (monitor_reset m) = 0.
Proof. intros Hm. unfold monitor_reset. by rewrite Hm. Qed.

Lemma signal_signaled m :
  Monitor.initialized m = 1 → signaled (monitor_signal m) = 1.
Proof. intros Hm. unfold monitor_signal. by rewrite Hm. Qed.

Lemma wait_blocked m :
  Monitor.initialized m = 1 → signaled m = 0 → monitor_wait m = WaitBlocked.
Proof. intros Hm Hs. unfold monitor_wait. by rewrite Hm, Hs. Qed.

Lemma wait_returns m :
  Monitor.initialized m = 1 → signaled m ≠ 0 → monitor_wait m = WaitReturn 0.
Proof.
  intros Hm Hs. unfold monitor_wait. rewrite Hm. cbn.
  by destruct (Z.eqb_spec (signaled m) 0).
Qed.

Ltac eqb_prop :=
  repeat match goal with
  | H : (_ =? _) = true |- _ => apply Z.eqb_eq in H
  | H : (_ =? _) = false |- _ => apply Z.eqb_neq in H
  | H : (_ >? _) = true |- _ => apply Z.gtb_gt in H
  | H : (_ >? _) = false |- _ => rewrite Z.gtb_ltb, Z.ltb_ge in H
  | H : negb _ = true |- _ => apply negb_true_iff in H
  | H : negb _ = false |- _ => apply negb_false_iff in H
  | H : _ && _ = true |- _ => apply andb_true_iff in H; destruct H
  end.

Lemma get_loop_spec q :
  wf q →
  (count q = 0 → finished_flag q = 1 → get_loop q = Return NULL q []) ∧
  (count q = 0 → finished_flag q = 0 →
   get_loop q = Next GetWait
                  (set_not_empty (monitor_reset (not_empty_monitor q)) q)
                  [EvReset NotEmpty]) ∧
  (count q ≠ 0 →
   get_loop q = Next (GetSignalNotFull (get_dequeue q).1
                        ((count (get_dequeue q).2 =? 0) && (finished_flag q =? 1)))
                     (get_dequeue q).2 [EvDeq (get_dequeue q).1]).
Proof.
  intros Hq. unfold get_loop, queue_is_empty. split_and!.
  - intros -> ->. done.
  - intros -> ->. done.
  - intros Hc. destruct (Z.eqb_spec (count q) 0); [done|]. done.
Qed.

(** Facts about [put] in a well-formed queue. *)
Lemma put_facts q :
  wf q →
  (∀ item pc q' evs,
     put_step item pc q = Return (Some err_after_finished) q' evs ↔
     ((pc = PutEntry ∧ item ≠ NULL) ∨ pc = PutLock) ∧
     finished_flag q = 1 ∧ q' = q ∧ evs = []) ∧
  (∀ item pc e q' evs,
     pc = PutWait ∨ pc = PutRelock ∨ pc = PutSignal →
     put_step item pc q ≠ Return (Some e) q' evs) ∧
  (∀ item,
     count q = capacity q →
     put_step item PutRelock q =
       Next PutWait (set_not_full (monitor_reset (not_full_monitor q)) q)
            [EvReset NotFull] ∧
     (signaled (not_full_monitor q) = 0 → put_step item PutWait q = Blocked) ∧
     (signaled (not_full_monitor q) ≠ 0 →
      put_step item PutWait q = Next PutRelock q [])) ∧
  (∀ item,
     item ≠ NULL → count q < capacity q →
     put_step item PutRelock q = Next PutSignal (put_insert item q) [EvEnq item] ∧
     contents (put_insert item q) = contents q ++ [item] ∧
     put_step item PutSignal (put_insert item q) =
       Return None
         (set_not_empty (monitor_signal (not_empty_monitor q)) (put_insert item q))
         [EvSignal NotEmpty]).
Proof.
  intros Hq. pose proof Hq as [Hi _ _ _ _ _ _ (Hm1 & Hm2 & Hm3) _].
  split_and!.
  - intros item pc q' evs. split.
    + destruct pc; cbn; unfold put_loop, queue_is_full; rewrite ?Hi; cbn;
        try destruct (wait_ready _ Hm1) as [-> | ->];
        repeat case_match; cbn in *; try done;
        intros [= <- <-]; eqb_prop; split_and!; auto; lia.
    + intros ([[-> Hitem]| ->] & Hf & -> & ->); cbn; rewrite ?Hi, Hf; cbn; [|done].
      by destruct (Z.eqb_spec item 0).
  - intros item pc e q' evs [->|[->| ->]]; cbn; unfold put_loop;
      try destruct (wait_ready _ Hm1) as [-> | ->];
      repeat case_match; done.
  - intros item Hfull. unfold put_step, put_loop, queue_is_full.
    rewrite Hfull, Z.eqb_refl. split_and!; [done|..].
    + intros Hs. by rewrite wait_blocked.
    + intros Hs. by rewrite wait_returns.
  - intros item Hitem Hlt. unfold put_step, put_loop, queue_is_full.
    destruct (Z.eqb_spec (count q) (capacity q)); [lia|].
    split_and!; [done| by apply put_insert_contents|done].
Qed.

Lemma sys_invoke_idle t c s :
  threads s !! t = None →
  sys_step (Invoke t c) s =
    {| queue := queue s; threads := <[t := entry c]> (threads s);
       trace := trace s |}.
Proof. intros H. cbn. by rewrite H. Qed.

Lemma sys_step_next t pc pc' q' evs s :
  threads s !! t = Some pc → op_step pc (queue s) = Next pc' q' evs →
  sys_step (Step t) s =
    {| queue := q'; threads := <[t := pc']> (threads s);
       trace := trace s ++ (Did t <$> evs) |}.
Proof. intros Ht Hs. cbn. by rewrite Ht, Hs. Qed.

Lemma sys_step_return t pc r q' evs s :
  threads s !! t = Some pc → op_step pc (queue s) = Return r q' evs →
  sys_step (Step t) s =
    {| queue := q'; threads := delete t (threads s);
       trace := trace s ++ (Did t <$> evs) ++ [Returned t pc r] |}.
Proof. intros Ht Hs. cbn. by rewrite Ht, Hs. Qed.

(** The three steps of a [put] that wakes up with room in the queue. *)
Lemma put_wakes s t item :
  wf (queue s) → item ≠ NULL →
  threads s !! t = Some (InPut item PutWait) →
  signaled (not_full_monitor (queue s)) ≠ 0 →
  count (queue s) < capacity (queue s) →
  let s' := run [Step t; Step t; Step t] s in
  contents (queue s') = contents (queue s) ++ [item] ∧
  threads s' !! t = None ∧
  last (trace s') = Some (Returned t (InPut item PutSignal) (RetPut None)) ∧
  finished_flag (queue s') = finished_flag (queue s).
Proof.
  intros Hq Hitem Ht Hsig Hroom s'. subst s'.
  destruct (put_facts _ Hq) as (_ & _ & _ & Hins).
  destruct (Hins item Hitem Hroom) as (Hrelock & Hcont & Hsignal).
  destruct (wf_monitors _ Hq) as (Hm1 & _).
  rewrite run_cons, (sys_step_next t _ (InPut item PutRelock) (queue s) [] s Ht)
    by (cbn; by rewrite (wait_returns _ Hm1 Hsig)).
  rewrite run_cons, (sys_step_next t (InPut item PutRelock) (InPut item PutSignal)
             (put_insert item (queue s)) [EvEnq item])
    by (cbn [queue threads op_step lift]; by rewrite ?lookup_insert_eq, ?Hrelock).
  rewrite run_cons, (sys_step_return t (InPut item PutSignal) (RetPut None)
             (set_not_empty (monitor_signal (not_empty_monitor (queue s)))
                (put_insert item (queue s))) [EvSignal NotEmpty])
    by (cbn [queue threads op_step lift]; by rewrite ?lookup_insert_eq, ?Hsignal).
  cbn [run foldl queue threads trace]. split_and!.
  - exact Hcont.
  - by rewrite lookup_delete_eq.
  - rewrite <- !app_assoc. by rewrite !app_assoc, last_snoc.
  - done.
Qed.

(** A consumer takes an item out of the queue and signals [not_full]; the
    producer that was asleep wakes up, finds room, appends its item and
    returns success. *)
Lemma asleep_put_completes s t item t' :
  sys_inv s →
  threads s !! t = Some (InPut item PutWait) → threads s !! t' = None →
  count (queue s) ≠ 0 →
  let s' := run (get_then t' t) s in
  ∃ x rest,
    contents (queue s) = x :: rest ∧
    contents (queue s') = rest ++ [item] ∧
    threads s' !! t = None ∧
    last (trace s') = Some (Returned t (InPut item PutSignal) (RetPut None)) ∧
    finished_flag (queue s') = finished_flag (queue s).
Proof.
  intros Hs Ht Ht' Hne s'. subst s'.
  pose proof (inv_wf _ Hs) as Hq.
  pose proof (inv_threads _ Hs t _ Ht) as Hitem. cbn in Hitem.
  assert (Htt : t' ≠ t) by congruence.
  assert (Hpos : 0 < count (queue s)) by (pose proof (wf_count _ Hq); lia).
  pose proof (get_dequeue_contents _ Hq Hpos) as Hcont.
  destruct (get_dequeue_wf _ Hq Hpos) as [Hwf1 _].
  destruct (get_loop_spec _ Hq) as (_ & _ & Hloop). specialize (Hloop Hne).
  destruct (wf_monitors _ Hq) as (Hm1 & _).
  set (q1 := (get_dequeue (queue s)).2) in *.
  set (x := (get_dequeue (queue s)).1) in *.
  set (q2 := set_not_full (monitor_signal (not_full_monitor q1)) q1).
  assert (Hcount : count q1 = count (queue s) - 1).
  { pose proof (contents_length (queue s)) as H1.
    pose proof (contents_length q1) as H2. rewrite Hcont in H1. cbn [length] in H1.
    pose proof (wf_count _ Hwf1). lia. }
  exists x, (contents q1). split; [done|].
  change (get_then t' t) with ([Invoke t' CallGet; Step t'; Step t'] ++
                               [Step t; Step t; Step t]).
  rewrite run_app.
  set (s1 := run [Invoke t' CallGet; Step t'; Step t'] s).
  assert (Hs1 : sys_inv s1) by by apply run_inv.
  assert (Hmid : queue s1 = q2 ∧ threads s1 !! t = Some (InPut item PutWait)).
  { subst s1. rewrite run_cons, (sys_invoke_idle _ _ _ Ht').
    rewrite run_cons, (sys_step_next t' (InGet GetEntry)
               (InGet (GetSignalNotFull x
                  ((count q1 =? 0) && (finished_flag (queue s) =? 1)))) q1 [EvDeq x])
      by (cbn [queue threads op_step lift get_step];
          by rewrite ?lookup_insert_eq, ?(wf_initialized _ Hq), ?Hloop).
    rewrite run_cons.
    destruct ((count q1 =? 0) && (finished_flag (queue s) =? 1)).
    - rewrite (sys_step_next t' (InGet (GetSignalNotFull x true))
                 (InGet (GetSignalFinished x)) q2 [EvSignal NotFull])
        by (cbn [queue threads op_step lift get_step];
            by rewrite ?lookup_insert_eq).
      cbn [run foldl queue threads]. split; [done|].
      by rewrite !lookup_insert_ne.
    - rewrite (sys_step_return t' (InGet (GetSignalNotFull x false)) (RetGet x)
                 q2 [EvSignal NotFull])
        by (cbn [queue threads op_step lift get_step];
            by rewrite ?lookup_insert_eq).
      cbn [run foldl queue threads]. split; [done|].
      by rewrite lookup_delete_ne, !lookup_insert_ne. }
  destruct Hmid as [Hq2 Ht2].
  destruct (put_wakes s1 t item) as (Hc & Hth & Hlast & Hfl); try done.
  - by apply inv_wf.
  - rewrite Hq2. cbn [q2 not_full_monitor set_not_full].
    rewrite signal_signaled; [done|]. exact Hm1.
  - rewrite Hq2. cbn [q2 count capacity set_not_full].
    change (capacity q1) with (capacity (queue s)).
    pose proof (wf_count _ Hq). lia.
  - rewrite Hc, Hth, Hlast, Hfl, Hq2. done.
Qed.

(** A [put] that finds the queue full resets [not_full] and is then
    blocked in its wait. *)
Lemma put_sleeps q item pc :
  wf q → pc = PutLock ∧ finished_flag q = 0 ∨ pc = PutRelock →
  count q = capacity q →
  let q1 := set_not_full (monitor_reset (not_full_monitor q)) q in
  put_step item pc q = Next PutWait q1 [EvReset NotFull] ∧
  signaled (not_full_monitor q1) = 0 ∧
  put_step item PutWait q1 = Blocked.
Proof.
  intros Hq Hpc Hfull q1. destruct (wf_monitors _ Hq) as (Hm1 & _).
  assert (Hsig : signaled (not_full_monitor q1) = 0) by by apply reset_signaled.
  split_and!; [|done|].
  - destruct Hpc as [[-> Hf]| ->]; cbn [put_step]; rewrite ?Hf; cbn [Z.eqb];
      unfold put_loop, queue_is_full; by rewrite Hfull, Z.eqb_refl.
  - cbn [put_step]. rewrite wait_blocked; [done| |done].
    cbn. by rewrite reset_initialized.
Qed.

(** C3: [consumer_producer_put] against the finished flag.  In every
    reachable state of an initialised queue: a step of [put] returns the
    after-finished error exactly when it is one of the two initial checks
    (the unlocked entry check of a non-null item, or the re-check under the
    state lock) and [finished_flag] is 1, and it leaves the queue as it was;
    no step from the full-wait loop on returns an error, whatever the flag
    says.  A [put] that has passed the checks and finds the queue full
    resets [not_full] and goes to sleep: the monitor is then clear and its
    wait is blocked.  When another thread then takes an item out with
    [get], up to the signal of [not_full] that follows the removal, the
    sleeping [put] wakes up, appends its item behind the items that are
    left and returns success, also when [finished_flag] has been set in the
    meantime.  Once there is room the loop appends the item at the end of
    the contents and the next step signals [not_empty] and returns success;
    and every [put] that returned an error in the execution returned it
    from one of the initial checks. *)
Theorem put_rejected_only_at_initial_checks
    (q0 : consumer_producer_t) (c : Z) (sched : list action) :
  (consumer_producer_init q0 c).1 = None →
  let s := run sched (boot q0 c) in
  let q := queue s in
  (∀ item pc q' evs,
     put_step item pc q = Return (Some err_after_finished) q' evs ↔
     ((pc = PutEntry ∧ item ≠ NULL) ∨ pc = PutLock) ∧
     finished_flag q = 1 ∧ q' = q ∧ evs = []) ∧
  (∀ item pc e q' evs,
     pc = PutWait ∨ pc = PutRelock ∨ pc = PutSignal →
     put_step item pc q ≠ Return (Some e) q' evs) ∧
  (∀ item,
     count q = capacity q →
     put_step item PutRelock q =
       Next PutWait (set_not_full (monitor_reset (not_full_monitor q)) q)
            [EvReset NotFull] ∧
     (signaled (not_full_monitor q) = 0 → put_step item PutWait q = Blocked) ∧
     (signaled (not_full_monitor q) ≠ 0 →
      put_step item PutWait q = Next PutRelock q [])) ∧
  (∀ item,
     item ≠ NULL → count q < capacity q →
     put_step item PutRelock q = Next PutSignal (put_insert item q) [EvEnq item] ∧
     contents (put_insert item q) = contents q ++ [item] ∧
     put_step item PutSignal (put_insert item q) =
       Return None
         (set_not_empty (monitor_signal (not_empty_monitor q)) (put_insert item q))
         [EvSignal NotEmpty]) ∧
  (∀ t item pc e,
     Returned t (InPut item pc) (RetPut (Some e)) ∈ trace s →
     pc = PutEntry ∨ pc = PutLock) ∧
  1 ≤ capacity q ∧
  (∀ item pc,
     pc = PutLock ∧ finished_flag q = 0 ∨ pc = PutRelock →
     count q = capacity q →
     let q1 := set_not_full (monitor_reset (not_full_monitor q)) q in
     put_step item pc q = Next PutWait q1 [EvReset NotFull] ∧
     signaled (not_full_monitor q1) = 0 ∧
     put_step item PutWait q1 = Blocked) ∧
  (∀ t item t',
     threads s !! t = Some (InPut item PutWait) → threads s !! t' = None →
     count q ≠ 0 →
     let s' := run (get_then t' t) s in
     ∃ x rest,
       contents q = x :: rest ∧
       contents (queue s') = rest ++ [item] ∧
       threads s' !! t = None ∧
       last (trace s') = Some (Returned t (InPut item PutSignal) (RetPut None)) ∧
       finished_flag (queue s') = finished_flag q).
Proof.
  intros Hc s q. pose proof (run_inv sched _ (boot_inv q0 c Hc)) as Hs.
  fold s in Hs. destruct (put_facts q (inv_wf _ Hs)) as (H1 & H2 & H3 & H4).
  split_and!; try done.
  - intros t item pc e Hin.
    pose proof (inv_returns _ Hs) as Hr. rewrite Forall_forall in Hr.
    apply (Hr _ Hin).
  - apply (wf_capacity _ (inv_wf _ Hs)).
  - intros item pc Hpc Hfull. by apply put_sleeps; [apply (inv_wf _ Hs)|..].
  - intros t item t' Ht Ht' Hne. by apply asleep_put_completes.
Qed.

Lemma get_facts q :
  wf q →
  (∀ pc, pc = GetEntry ∨ pc = GetRelock →
     ((∃ q' evs, get_step pc q = Return NULL q' evs) ↔
      count q = 0 ∧ finished_flag q = 1) ∧
     (count q = 0 → finished_flag q = 1 → get_step pc q = Return NULL q []) ∧
     (count q = 0 → finished_flag q = 0 →
      get_step pc q = Next GetWait
                        (set_not_empty (monitor_reset (not_empty_monitor q)) q)
                        [EvReset NotEmpty]) ∧
     (count q ≠ 0 →
      ∃ x be q', get_step pc q = Next (GetSignalNotFull x be) q' [EvDeq x] ∧
                 x ≠ NULL ∧
                 items q !! Z.to_nat (head q) = Some x ∧
                 items q' !! Z.to_nat (head q) = Some NULL ∧
                 contents q = x :: contents q' ∧
                 count q' = count q - 1)) ∧
  (signaled (not_empty_monitor q) = 0 → get_step GetWait q = Blocked) ∧
  (signaled (not_empty_monitor q) ≠ 0 → get_step GetWait q = Next GetRelock q []) ∧
  (∀ x, get_step (GetSignalNotFull x false) q =
          Return x (set_not_full (monitor_signal (not_full_monitor q)) q)
                 [EvSignal NotFull]) ∧
  (∀ x, get_step (GetSignalNotFull x true) q =
          Next (GetSignalFinished x)
               (set_not_full (monitor_signal (not_full_monitor q)) q)
               [EvSignal NotFull]) ∧
  (∀ x, get_step (GetSignalFinished x) q =
          Return x (set_finished_monitor (monitor_signal (finished_monitor q)) q)
                 [EvSignal Finished]).
Proof.
  intros Hq. pose proof Hq as [Hi Hcap Hlen Hcnt Hhd _ Hfin (Hm1 & Hm2 & Hm3) _].
  destruct (get_loop_spec q Hq) as (L1 & L2 & L3).
  assert (Hstep : ∀ pc, pc = GetEntry ∨ pc = GetRelock → get_step pc q = get_loop q).
  { intros pc [-> | ->]; cbn; by rewrite ?Hi. }
  split_and!; try done.
  - intros pc Hpc. rewrite (Hstep pc Hpc). split_and!; try done.
    + split.
      * intros (q' & evs & Hr).
        destruct (decide (count q = 0)) as [Hz|Hnz].
        -- destruct Hfin as [Hf|Hf]; [|done]. rewrite (L2 Hz Hf) in Hr. done.
        -- rewrite (L3 Hnz) in Hr. done.
      * intros [Hz Hf]. eauto.
    + intros Hnz. rewrite (L3 Hnz).
      assert (0 < count q) as Hpos by lia.
      destruct (get_dequeue_wf q Hq Hpos) as [Hwf' Hx].
      pose proof (get_dequeue_contents q Hq Hpos) as Hcont.
      eexists _, _, _. split; [done|]. split; [done|].
      assert (Hlt : (Z.to_nat (head q) < length (items q))%nat) by lia.
      split_and!; try done.
      * cbn. destruct (lookup_lt_is_Some_2 _ _ Hlt) as [y Hy]. by rewrite Hy.
      * cbn. by apply list_lookup_insert_eq.
      * cbn. rewrite cap_max in Hcap. apply wrap_int_small. unfold INT_MIN, INT_MAX. lia.
  - intros Hs. cbn. by rewrite wait_blocked.
  - intros Hs. cbn. by rewrite wait_returns.
Qed.

(** A [get] that finds the queue empty and open resets [not_empty] and is
    then blocked in its wait. *)
Lemma get_sleeps q pc :
  wf q → pc = GetEntry ∨ pc = GetRelock →
  count q = 0 → finished_flag q = 0 →
  let q1 := set_not_empty (monitor_reset (not_empty_monitor q)) q in
  get_step pc q = Next GetWait q1 [EvReset NotEmpty] ∧
  signaled (not_empty_monitor q1) = 0 ∧
  get_step GetWait q1 = Blocked.
Proof.
  intros Hq Hpc Hz Hf q1. destruct (wf_monitors _ Hq) as (_ & Hm2 & _).
  assert (Hsig : signaled (not_empty_monitor q1) = 0) by by apply reset_signaled.
  destruct (get_loop_spec q Hq) as (_ & Hloop & _).
  split_and!; [|done|].
  - destruct Hpc as [-> | ->]; cbn [get_step]; rewrite ?(wf_initialized _ Hq);
      by apply Hloop.
  - cbn [get_step]. rewrite wait_blocked; [done| |done].
    cbn. by rewrite reset_initialized.
Qed.

(** The steps of a [get] that wakes up and finds an item in an open queue. *)
Lemma get_wakes_item s t :
  wf (queue s) →
  threads s !! t = Some (InGet GetWait) →
  signaled (not_empty_monitor (queue s)) ≠ 0 →
  count (queue s) ≠ 0 → finished_flag (queue s) = 0 →
  let s' := run [Step t; Step t; Step t] s in
  ∃ x rest,
    contents (queue s) = x :: rest ∧ contents (queue s') = rest ∧
    threads s' !! t = None ∧
    last (trace s') =
      Some (Returned t (InGet (GetSignalNotFull x false)) (RetGet x)).
Proof.
  intros Hq Ht Hsig Hne Hf s'. subst s'.
  assert (Hpos : 0 < count (queue s)) by (pose proof (wf_count _ Hq); lia).
  pose proof (get_dequeue_contents _ Hq Hpos) as Hcont.
  destruct (get_loop_spec _ Hq) as (_ & _ & Hloop). specialize (Hloop Hne).
  destruct (wf_monitors _ Hq) as (_ & Hm2 & _).
  set (q1 := (get_dequeue (queue s)).2) in *.
  set (x := (get_dequeue (queue s)).1) in *.
  rewrite Hf in Hloop. rewrite andb_false_r in Hloop.
  exists x, (contents q1). split; [done|].
  rewrite run_cons, (sys_step_next t _ (InGet GetRelock) (queue s) [] s Ht)
    by (cbn; by rewrite (wait_returns _ Hm2 Hsig)).
  rewrite run_cons, (sys_step_next t (InGet GetRelock)
             (InGet (GetSignalNotFull x false)) q1 [EvDeq x])
    by (cbn [queue threads op_step lift get_step];
        by rewrite ?lookup_insert_eq, ?Hloop).
  rewrite run_cons, (sys_step_return t (InGet (GetSignalNotFull x false)) (RetGet x)
             (set_not_full (monitor_signal (not_full_monitor q1)) q1)
             [EvSignal NotFull])
    by (cbn [queue threads op_step lift get_step]; by rewrite ?lookup_insert_eq).
  cbn [run foldl queue threads trace]. split_and!.
  - done.
  - by rewrite lookup_delete_eq.
  - by rewrite !app_assoc, last_snoc.
Qed.

(** The steps of a [get] that wakes up and finds the queue empty and
    finished. *)
Lemma get_wakes_null s t :
  wf (queue s) →
  threads s !! t = Some (InGet GetWait) →
  signaled (not_empty_monitor (queue s)) ≠ 0 →
  count (queue s) = 0 → finished_flag (queue s) = 1 →
  let s' := run [Step t; Step t] s in
  queue s' = queue s ∧ threads s' !! t = None ∧
  last (trace s') = Some (Returned t (InGet GetRelock) (RetGet NULL)).
Proof.
  intros Hq Ht Hsig Hz Hf s'. subst s'.
  destruct (get_loop_spec _ Hq) as (Hloop & _). specialize (Hloop Hz Hf).
  destruct (wf_monitors _ Hq) as (_ & Hm2 & _).
  rewrite run_cons, (sys_step_next t _ (InGet GetRelock) (queue s) [] s Ht)
    by (cbn; by rewrite (wait_returns _ Hm2 Hsig)).
  rewrite run_cons, (sys_step_return t (InGet GetRelock) (RetGet NULL) (queue s) [])
    by (cbn [queue threads op_step lift get_step];
        by rewrite ?lookup_insert_eq, ?Hloop).
  cbn [run foldl queue threads trace]. split_and!.
  - done.
  - by rewrite lookup_delete_eq.
  - by rewrite !app_assoc, last_snoc.
Qed.

(** A producer puts an item into the empty queue and signals [not_empty];
    the consumer that was asleep wakes up and returns that item. *)
Lemma asleep_get_gets_item s t t' item :
  sys_inv s →
  threads s !! t = Some (InGet GetWait) → threads s !! t' = None →
  item ≠ NULL → count (queue s) = 0 → finished_flag (queue s) = 0 →
  let s' := run (put_then t' item t) s in
  threads s' !! t = None ∧ contents (queue s') = [] ∧
  last (trace s') =
    Some (Returned t (InGet (GetSignalNotFull item false)) (RetGet item)).
Proof.
  intros Hs Ht Ht' Hitem Hz Hf s'. subst s'.
  pose proof (inv_wf _ Hs) as Hq.
  assert (Htt : t' ≠ t) by congruence.
  assert (Hroom : count (queue s) < capacity (queue s)).
  { pose proof (wf_capacity _ Hq). lia. }
  destruct (put_facts _ Hq) as (_ & _ & _ & Hins).
  destruct (Hins item Hitem Hroom) as (Hrelock & Hcont & Hsignal).
  destruct (wf_monitors _ Hq) as (_ & Hm2 & _).
  set (q1 := put_insert item (queue s)) in *.
  set (q2 := set_not_empty (monitor_signal (not_empty_monitor (queue s))) q1) in *.
  change (put_then t' item t)
    with ([Invoke t' (CallPut item); Step t'; Step t'; Step t'] ++
          [Step t; Step t; Step t]).
  rewrite run_app.
  set (s1 := run [Invoke t' (CallPut item); Step t'; Step t'; Step t'] s).
  assert (Hs1 : sys_inv s1) by by apply run_inv.
  assert (Hmid : queue s1 = q2 ∧ threads s1 !! t = Some (InGet GetWait)).
  { subst s1. rewrite run_cons, (sys_invoke_idle _ _ _ Ht').
    rewrite run_cons, (sys_step_next t' (InPut item PutEntry) (InPut item PutLock)
                         (queue s) [])
      by (cbn [queue threads op_step lift put_step entry];
          by rewrite ?lookup_insert_eq, ?(proj2 (Z.eqb_neq _ _) Hitem),
               ?(wf_initialized _ Hq), ?Hf).
    rewrite run_cons, (sys_step_next t' (InPut item PutLock) (InPut item PutSignal)
                         q1 [EvEnq item])
      by (cbn [queue threads op_step lift put_step];
          rewrite ?lookup_insert_eq, ?Hf; cbn [Z.eqb]; try done;
          change (put_loop item (queue s))
            with (put_step item PutRelock (queue s)); by rewrite Hrelock).
    rewrite run_cons, (sys_step_return t' (InPut item PutSignal) (RetPut None)
                         q2 [EvSignal NotEmpty])
      by (cbn [queue threads op_step lift]; by rewrite ?lookup_insert_eq, ?Hsignal).
    cbn [run foldl queue threads]. split; [done|].
    by rewrite lookup_delete_ne, !lookup_insert_ne. }
  destruct Hmid as [Hq2 Ht2].
  assert (Hc2 : contents (queue s1) = [item]).
  { rewrite Hq2. change (contents q2) with (contents q1). rewrite Hcont.
    replace (contents (queue s)) with (@nil Z); [done|]. symmetry.
    apply length_zero_iff_nil. by rewrite contents_length, Hz. }
  destruct (get_wakes_item s1 t) as (x & rest & Hx & Hc & Hth & Hlast); try done.
  - by apply inv_wf.
  - rewrite Hq2. cbn [q2 not_empty_monitor set_not_empty].
    change (not_empty_monitor q1) with (not_empty_monitor (queue s)).
    rewrite signal_signaled; [done|]. exact Hm2.
  - intros H0. pose proof (contents_length (queue s1)) as Hl.
    rewrite Hc2, H0 in Hl. done.
  - by rewrite Hq2.
  - rewrite Hc2 in Hx. injection Hx as <- <-. by rewrite Hth, Hc, Hlast.
Qed.

(** [signal_finished] sets the flag and signals [not_empty]; the consumer
    that was asleep on the empty queue wakes up and returns NULL. *)
Lemma asleep_get_sees_finished s t t' :
  sys_inv s →
  threads s !! t = Some (InGet GetWait) → threads s !! t' = None →
  count (queue s) = 0 → finished_flag (queue s) = 0 →
  let s' := run (finish_then t' t) s in
  threads s' !! t = None ∧ finished_flag (queue s') = 1 ∧
  last (trace s') = Some (Returned t (InGet GetRelock) (RetGet NULL)).
Proof.
  intros Hs Ht Ht' Hz Hf s'. subst s'.
  pose proof (inv_wf _ Hs) as Hq.
  assert (Htt : t' ≠ t) by congruence.
  destruct (wf_monitors _ Hq) as (_ & Hm2 & _).
  set (q1 := set_finished_flag 1 (queue s)).
  set (q2 := set_finished_monitor (monitor_signal (finished_monitor q1)) q1).
  set (q3 := set_not_empty (monitor_signal (not_empty_monitor q2)) q2).
  change (finish_then t' t)
    with ([Invoke t' CallSignalFinished; Step t'; Step t'; Step t'] ++
          [Step t; Step t]).
  rewrite run_app.
  set (s1 := run [Invoke t' CallSignalFinished; Step t'; Step t'; Step t'] s).
  assert (Hs1 : sys_inv s1) by by apply run_inv.
  assert (Hmid : queue s1 = q3 ∧ threads s1 !! t = Some (InGet GetWait)).
  { subst s1. rewrite run_cons, (sys_invoke_idle _ _ _ Ht').
    rewrite run_cons, (sys_step_next t' (InSignalFinished SfEntry)
                         (InSignalFinished SfSignalFinished) q1 [])
      by (cbn [queue threads op_step lift sf_step entry];
          by rewrite ?lookup_insert_eq, ?(wf_initialized _ Hq), ?Hf).
    rewrite run_cons, (sys_step_next t' (InSignalFinished SfSignalFinished)
                         (InSignalFinished SfSignalNotEmpty) q2 [EvSignal Finished])
      by (cbn [queue threads op_step lift sf_step]; by rewrite ?lookup_insert_eq).
    rewrite run_cons, (sys_step_return t' (InSignalFinished SfSignalNotEmpty)
                         RetSignalFinished q3 [EvSignal NotEmpty])
      by (cbn [queue threads op_step lift sf_step]; by rewrite ?lookup_insert_eq).
    cbn [run foldl queue threads]. split; [done|].
    by rewrite lookup_delete_ne, !lookup_insert_ne. }
  destruct Hmid as [Hq3 Ht3].
  destruct (get_wakes_null s1 t) as (Hsame & Hth & Hlast); try done.
  - by apply inv_wf.
  - rewrite Hq3. cbn [q3 not_empty_monitor set_not_empty].
    change (not_empty_monitor q2) with (not_empty_monitor (queue s)).
    rewrite signal_signaled; [done|]. exact Hm2.
  - by rewrite Hq3.
  - by rewrite Hq3.
  - by rewrite Hsame, Hth, Hlast, Hq3.
Qed.

(** C4: [consumer_producer_get] on an initialised queue.  In every reachable
    state, at the two points where [get] decides under the state lock (on
    entry and after a wait): it returns NULL exactly when the queue is empty
    and finished, leaving the queue as it was; when the queue is empty and
    not finished it resets [not_empty] and goes to sleep: the monitor is
    then clear and its wait is blocked; otherwise it removes the item at
    [head], which is not NULL and is the first item of the contents, and
    clears the slot.  A [get] asleep on the empty open queue is woken by
    the [put] of another thread and returns the item that was put, and is
    woken by [signal_finished] and returns NULL.  A [get] between the
    removal and its return holds a non-null item and returns that item
    after its signals; every [get] that returned in the execution returned
    NULL from a deciding point or its removed item. *)
Theorem get_no_item_iff_empty_and_finished
    (q0 : consumer_producer_t) (c : Z) (sched : list action) :
  (consumer_producer_init q0 c).1 = None →
  let s := run sched (boot q0 c) in
  let q := queue s in
  (∀ pc, pc = GetEntry ∨ pc = GetRelock →
     ((∃ q' evs, get_step pc q = Return NULL q' evs) ↔
      count q = 0 ∧ finished_flag q = 1) ∧
     (count q = 0 → finished_flag q = 1 → get_step pc q = Return NULL q []) ∧
     (count q = 0 → finished_flag q = 0 →
      get_step pc q = Next GetWait
                        (set_not_empty (monitor_reset (not_empty_monitor q)) q)
                        [EvReset NotEmpty]) ∧
     (count q ≠ 0 →
      ∃ x be q', get_step pc q = Next (GetSignalNotFull x be) q' [EvDeq x] ∧
                 x ≠ NULL ∧
                 items q !! Z.to_nat (head q) = Some x ∧
                 items q' !! Z.to_nat (head q) = Some NULL ∧
                 contents q = x :: contents q' ∧
                 count q' = count q - 1)) ∧
  (signaled (not_empty_monitor q) = 0 → get_step GetWait q = Blocked) ∧
  (signaled (not_empty_monitor q) ≠ 0 → get_step GetWait q = Next GetRelock q []) ∧
  (∀ t pc, threads s !! t = Some (InGet pc) →
     pc ≠ GetEntry → pc ≠ GetRelock →
     ∀ x q' evs, get_step pc q = Return x q' evs →
       x ≠ NULL ∧
       (pc = GetSignalNotFull x false ∨ pc = GetSignalFinished x)) ∧
  (∀ t x be, threads s !! t = Some (InGet (GetSignalNotFull x be)) →
     x ≠ NULL ∧
     ∃ q' evs, get_step (GetSignalNotFull x be) q =
                 (if be then Next (GetSignalFinished x) q' evs
                  else Return x q' evs)) ∧
  (∀ t x, threads s !! t = Some (InGet (GetSignalFinished x)) →
     x ≠ NULL ∧ ∃ q' evs, get_step (GetSignalFinished x) q = Return x q' evs) ∧
  (∀ t pc x, Returned t (InGet pc) (RetGet x) ∈ trace s →
     if decide (x = NULL) then pc = GetEntry ∨ pc = GetRelock
     else pc = GetSignalNotFull x false ∨ pc = GetSignalFinished x) ∧
  (∀ pc, pc = GetEntry ∨ pc = GetRelock →
     count q = 0 → finished_flag q = 0 →
     let q1 := set_not_empty (monitor_reset (not_empty_monitor q)) q in
     get_step pc q = Next GetWait q1 [EvReset NotEmpty] ∧
     signaled (not_empty_monitor q1) = 0 ∧
     get_step GetWait q1 = Blocked) ∧
  (∀ t t' item,
     threads s !! t = Some (InGet GetWait) → threads s !! t' = None →
     item ≠ NULL → count q = 0 → finished_flag q = 0 →
     let s' := run (put_then t' item t) s in
     threads s' !! t = None ∧ contents (queue s') = [] ∧
     last (trace s') =
       Some (Returned t (InGet (GetSignalNotFull item false)) (RetGet item))) ∧
  (∀ t t',
     threads s !! t = Some (InGet GetWait) → threads s !! t' = None →
     count q = 0 → finished_flag q = 0 →
     let s' := run (finish_then t' t) s in
     threads s' !! t = None ∧ finished_flag (queue s') = 1 ∧
     last (trace s') = Some (Returned t (InGet GetRelock) (RetGet NULL))).
Proof.
  intros Hc s q. pose proof (run_inv sched _ (boot_inv q0 c Hc)) as Hs.
  fold s in Hs. pose proof (inv_wf _ Hs) as Hq. fold q in Hq.
  destruct (get_facts q Hq) as (H1 & H2 & H3 & H4 & H5 & H6).
  pose proof Hq as [Hi _ _ _ _ _ _ (Hm1 & Hm2 & Hm3) _].
  split_and!; try done.
  - intros t pc Ht Hne1 Hne2 x q' evs Hr.
    pose proof (inv_threads _ Hs t _ Ht) as Hpc. fold q in Hpc.
    destruct pc; try done; cbn in Hpc, Hr.
    + destruct (wait_ready _ Hm2) as [Hw | Hw]; rewrite Hw in Hr; done.
    + destruct became_empty; [done|]. injection Hr as <- _ _. auto.
    + injection Hr as <- _ _. auto.
  - intros t x be Ht. pose proof (inv_threads _ Hs t _ Ht) as Hpc.
    split; [done|]. cbn. destruct be; eauto.
  - intros t x Ht. pose proof (inv_threads _ Hs t _ Ht) as Hpc.
    split; [done|]. cbn. eauto.
  - intros t pc x Hin.
    pose proof (inv_returns _ Hs) as Hr. rewrite Forall_forall in Hr.
    apply (Hr _ Hin).
  - intros pc Hpc Hz Hf. by apply get_sleeps.
  - intros t t' item Ht Ht' Hitem Hz Hf. by apply asleep_get_gets_item.
  - intros t t' Ht Ht' Hz Hf. by apply asleep_get_sees_finished.
Qed.

Lemma wf_facts q pc :
  wf q → pc_inv q (InWaitFinished pc) →
  (∀ rc q' evs, wf_step pc q = Return rc q' evs →
     rc = 0 ∧ finished_flag q = 1 ∧ count q = 0 ∧ q' = q ∧ evs = []) ∧
  (pc = WfEntry ∨ pc = WfRelock1 ∨ pc = WfRelock2 →
     (finished_flag q = 1 ∧ count q = 0 → wf_step pc q = Return 0 q []) ∧
     (finished_flag q = 0 →
      wf_step pc q = Next WfWait1 (asleep q) [EvReset Finished]) ∧
     (finished_flag q = 1 → count q ≠ 0 →
      wf_step pc q = Next WfWait2 (asleep q) [EvReset Finished]) ∧
     signaled (finished_monitor (asleep q)) = 0) ∧
  (pc = WfWait1 ∨ pc = WfWait2 →
     (signaled (finished_monitor q) = 0 → wf_step pc q = Blocked) ∧
     (signaled (finished_monitor q) ≠ 0 →
      wf_step pc q = Next (match pc with WfWait1 => WfRelock1 | _ => WfRelock2 end) q [])).
Proof.
  intros Hq Hpc. pose proof Hq as [Hi _ _ Hcnt _ _ Hfin (Hm1 & Hm2 & Hm3) _].
  split_and!.
  - intros rc q' evs.
    destruct pc; cbn in Hpc |- *; unfold wf_wait, wf_phase1, wf_phase2;
      rewrite ?Hi; cbn;
      try destruct (wait_ready _ Hm3) as [-> | ->];
      repeat case_match; cbn in *; try done;
      intros [= <- <- <-]; eqb_prop; split_and!; auto; lia.
  - intros Hlock. split_and!.
    + intros [Hf Hz].
      destruct Hlock as [-> | [-> | ->]]; cbn; unfold wf_phase1, wf_phase2;
        rewrite ?Hi, ?Hf, ?Hz; done.
    + intros Hf.
      destruct Hlock as [-> | [-> | ->]]; cbn in Hpc |- *; unfold wf_phase1, wf_phase2;
        rewrite ?Hi, ?Hf; try done. lia.
    + intros Hf Hz.
      destruct Hlock as [-> | [-> | ->]]; cbn; unfold wf_phase1, wf_phase2;
        rewrite ?Hi, ?Hf; cbn;
        destruct (Z.eqb_spec (count q) 0); try done;
        destruct (Z.gtb_spec (count q) 0); try done; lia.
    + cbn. by apply reset_signaled.
  - intros Hw. split.
    + intros Hs. destruct Hw as [-> | ->]; cbn; unfold wf_wait; by rewrite wait_blocked.
    + intros Hs. destruct Hw as [-> | ->]; cbn; unfold wf_wait; by rewrite wait_returns.
Qed.

(** C7: [consumer_producer_wait_finished] on an initialised queue.  For a
    call at any of its program points in any reachable state: a step that
    returns returns 0, in a state with [finished_flag = 1] and [count = 0],
    and changes nothing; at a deciding point (entry or after a wait) the
    call returns when finished and drained, and otherwise resets the
    finished monitor and waits in phase 1 while [finished_flag = 0], in
    phase 2 when finished with items left; a wait is blocked while the
    monitor is not signaled and then re-decides in its own phase; a call in
    phase 2 has seen the flag set. *)
Theorem wait_finished_two_phase
    (q0 : consumer_producer_t) (c : Z) (sched : list action) (t : nat) (pc : wf_pc) :
  (consumer_producer_init q0 c).1 = None →
  let s := run sched (boot q0 c) in
  let q := queue s in
  pc = WfEntry ∨ threads s !! t = Some (InWaitFinished pc) →
  (∀ rc q' evs, wf_step pc q = Return rc q' evs →
     rc = 0 ∧ finished_flag q = 1 ∧ count q = 0 ∧ q' = q ∧ evs = []) ∧
  (pc = WfEntry ∨ pc = WfRelock1 ∨ pc = WfRelock2 →
     (finished_flag q = 1 ∧ count q = 0 → wf_step pc q = Return 0 q []) ∧
     (finished_flag q = 0 →
      wf_step pc q = Next WfWait1 (asleep q) [EvReset Finished]) ∧
     (finished_flag q = 1 → count q ≠ 0 →
      wf_step pc q = Next WfWait2 (asleep q) [EvReset Finished]) ∧
     signaled (finished_monitor (asleep q)) = 0) ∧
  (pc = WfWait1 ∨ pc = WfWait2 →
     (signaled (finished_monitor q) = 0 → wf_step pc q = Blocked) ∧
     (signaled (finished_monitor q) ≠ 0 →
      wf_step pc q = Next (match pc with WfWait1 => WfRelock1 | _ => WfRelock2 end) q [])) ∧
  (pc = WfWait2 ∨ pc = WfRelock2 → finished_flag q = 1) ∧
  (finished_flag q = 0 ∨ finished_flag q = 1) ∧ 0 ≤ count q.
Proof.
  intros Hc s q Hpc. pose proof (run_inv sched _ (boot_inv q0 c Hc)) as Hs.
  fold s in Hs. pose proof (inv_wf _ Hs) as Hq. fold q in Hq.
  assert (Hinv : pc_inv q (InWaitFinished pc)).
  { destruct Hpc as [-> | Ht]; [done|]. apply (inv_threads _ Hs t _ Ht). }
  destruct (wf_facts q pc Hq Hinv) as (H1 & H2 & H3).
  split_and!; try done.
  - intros [-> | ->]; exact Hinv.
  - apply (wf_finished _ Hq).
  - apply (wf_count _ Hq).
Qed.

(** C8: [consumer_producer_signal_finished] is idempotent.  On an
    initialised queue the first call succeeds and leaves [finished_flag = 1];
    a second call returns the very same queue state (so [count], [head],
    [tail], [items] and the monitors are as the first call left them) and
    performs no monitor signal; the same holds for every later call, in any
    initialised state whose flag is set. *)
Theorem signal_finished_idempotent (q : consumer_producer_t) :
  initialized q = 1 →
  ∃ q1 evs1,
    consumer_producer_signal_finished q = Some ((), q1, evs1) ∧
    finished_flag q1 = 1 ∧
    consumer_producer_signal_finished q1 = Some ((), q1, []) ∧
    (∀ q2, initialized q2 = 1 → finished_flag q2 = 1 →
           sf_step SfEntry q2 = Return () q2 [] ∧
           consumer_producer_signal_finished q2 = Some ((), q2, [])).
Proof.
  intros Hi.
  assert (Hagain : ∀ q2, initialized q2 = 1 → finished_flag q2 = 1 →
           sf_step SfEntry q2 = Return () q2 [] ∧
           consumer_producer_signal_finished q2 = Some ((), q2, [])).
  { intros q2 Hi2 Hf2. unfold consumer_producer_signal_finished. cbn.
    by rewrite Hi2, Hf2. }
  destruct (decide (finished_flag q = 1)) as [Hf|Hf].
  - exists q, []. destruct (Hagain q Hi Hf) as [_ Hr]. by rewrite Hr.
  - unfold consumer_producer_signal_finished at 1. cbn. rewrite Hi. cbn.
    destruct (Z.eqb_spec (finished_flag q) 1); [done|]. cbn.
    eexists _, _. split; [done|]. split; [done|].
    split; [|done]. by apply Hagain.
Qed.

Lemma put_rejected_only_at_initial_checks_witness :
  (consumer_producer_init ConsumerProducer.zeroed 1).1 = None ∧
  let s := run finished_while_asleep (boot ConsumerProducer.zeroed 1) in
  threads s !! 1%nat = Some (InPut 8 PutWait) ∧
  threads s !! 3%nat = None ∧
  finished_flag (ConsumerProducer.queue s) = 1 ∧
  put_step 8 PutWait (ConsumerProducer.queue s) = Blocked ∧
  let s' := run (get_then 3 1) s in
  ∃ x rest,
    contents (ConsumerProducer.queue s) = x :: rest ∧
    contents (ConsumerProducer.queue s') = rest ++ [8] ∧
    threads s' !! 1%nat = None ∧
    last (trace s') = Some (Returned 1 (InPut 8 PutSignal) (RetPut None)) ∧
    finished_flag (ConsumerProducer.queue s') =
      finished_flag (ConsumerProducer.queue s).
Proof.
  split; [reflexivity|]. cbn zeta.
  assert (H1 : threads (run finished_while_asleep (boot ConsumerProducer.zeroed 1))
                 !! 1%nat = Some (InPut 8 PutWait)) by (vm_compute; reflexivity).
  assert (H3 : threads (run finished_while_asleep (boot ConsumerProducer.zeroed 1))
                 !! 3%nat = None) by (vm_compute; reflexivity).
  split; [exact H1|]. split; [exact H3|].
  split; [vm_compute; reflexivity|]. split; [vm_compute; reflexivity|].
  refine (proj2 (proj2 (proj2 (proj2 (proj2 (proj2 (proj2
            (put_rejected_only_at_initial_checks ConsumerProducer.zeroed 1
               finished_while_asleep eq_refl))))))) 1%nat 8 3%nat H1 H3 _).
  vm_compute. discriminate.
Defined.

Lemma get_no_item_iff_empty_and_finished_witness :
  (consumer_producer_init ConsumerProducer.zeroed 2).1 = None ∧
  let s := run asleep_get_demo (boot ConsumerProducer.zeroed 2) in
  threads s !! 1%nat = Some (InGet GetWait) ∧
  threads s !! 0%nat = None ∧
  get_step GetWait (ConsumerProducer.queue s) = Blocked ∧
  let s' := run (put_then 0 5 1) s in
  threads s' !! 1%nat = None ∧ contents (ConsumerProducer.queue s') = [] ∧
  last (trace s') =
    Some (Returned 1 (InGet (GetSignalNotFull 5 false)) (RetGet 5)).
Proof.
  split; [reflexivity|]. cbn zeta.
  assert (H1 : threads (run asleep_get_demo (boot ConsumerProducer.zeroed 2))
                 !! 1%nat = Some (InGet GetWait)) by (vm_compute; reflexivity).
  assert (H0 : threads (run asleep_get_demo (boot ConsumerProducer.zeroed 2))
                 !! 0%nat = None) by (vm_compute; reflexivity).
  split; [exact H1|]. split; [exact H0|]. split; [vm_compute; reflexivity|].
  refine (proj1 (proj2 (proj2 (proj2 (proj2 (proj2 (proj2 (proj2 (proj2
            (get_no_item_iff_empty_and_finished ConsumerProducer.zeroed 2
               asleep_get_demo eq_refl))))))))) 1%nat 0%nat 5 H1 H0 _ _ _).
  - discriminate.
  - vm_compute. reflexivity.
  - vm_compute. reflexivity.
Defined.

Lemma wait_finished_two_phase_witness :
  (consumer_producer_init ConsumerProducer.zeroed 1).1 = None ∧
  let s := run wait_demo (boot ConsumerProducer.zeroed 1) in
  threads s !! 4%nat = Some (InWaitFinished WfWait2) ∧
  wf_step WfWait2 (ConsumerProducer.queue s) = Blocked.
Proof.
  split; [reflexivity|]. cbn zeta.
  assert (H : threads (run wait_demo (boot ConsumerProducer.zeroed 1)) !! 4%nat
              = Some (InWaitFinished WfWait2)) by (vm_compute; reflexivity).
  split; [exact H|].
  refine (proj1 (proj1 (proj2 (proj2
            (wait_finished_two_phase ConsumerProducer.zeroed 1 wait_demo 4 WfWait2
               eq_refl (or_intror H)))) (or_intror eq_refl)) _).
  vm_compute. reflexivity.
Defined.

Lemma signal_finished_idempotent_witness :
  ConsumerProducer.initialized (consumer_producer_init ConsumerProducer.zeroed 2).2 = 1 ∧
  ∃ q1 evs1,
    consumer_producer_signal_finished
      (consumer_producer_init ConsumerProducer.zeroed 2).2 = Some ((), q1, evs1) ∧
    finished_flag q1 = 1 ∧
    consumer_producer_signal_finished q1 = Some ((), q1, []) ∧
    (∀ q2, ConsumerProducer.initialized q2 = 1 → finished_flag q2 = 1 →
           sf_step SfEntry q2 = Return () q2 [] ∧
           consumer_producer_signal_finished q2 = Some ((), q2, [])).
Proof.
  split; [reflexivity|].
  exact (signal_finished_idempotent (consumer_producer_init ConsumerProducer.zeroed 2).2 eq_refl).
Defined.

End QueueFacts.

(** ** The stage runtime *)

Section PipelineFacts.
Import Monitor ConsumerProducer PluginCommon Main.

Lemma same_wiring_refl g : same_wiring g g.
Proof. by repeat split. Qed.

Lemma same_wiring_trans g1 g2 g3 :
  same_wiring g1 g2 → same_wiring g2 g3 → same_wiring g1 g3.
Proof.
  intros (?&?&?&?&?) (?&?&?&?&?). repeat split; try congruence. auto.
Qed.

Lemma same_wiring_set_queue q g : same_wiring g (set_queue q g).
Proof. repeat split; cbn; eauto. Qed.

Lemma same_wiring_set_finished f g : same_wiring g (set_finished f g).
Proof. repeat split; cbn; eauto. Qed.

Lemma same_wiring_wired g g' : same_wiring g g' → wired g' = wired g.
Proof. intros (Ha & Hn & _). unfold wired. by rewrite Ha, Hn. Qed.

Lemma same_wiring_ready g g' :
  same_wiring g g' → ctx_ready g = true → ctx_ready g' = true.
Proof.
  intros (_ & _ & Hp & _ & Hq). unfold ctx_ready. rewrite Hp.
  rewrite !andb_true_iff, !bool_decide_eq_true. intros [? ?]. auto.
Qed.

Lemma wiring_refl (gs : list plugin_context_t) : Forall2 same_wiring gs gs.
Proof. apply Forall_Forall2_diag, Forall_forall. intros. apply same_wiring_refl. Qed.

Lemma wiring_alter (f : plugin_context_t → plugin_context_t) i gs gs' :
  (∀ g, same_wiring g (f g)) →
  Forall2 same_wiring gs gs' → Forall2 same_wiring gs (alter f i gs').
Proof.
  intros Hf H. apply Forall2_alter_r; [done|].
  intros g g' _ _ Hgg. eapply same_wiring_trans; [done|apply Hf].
Qed.

Lemma wiring_const g' i gs gs0 :
  gs !! i = Some g' ∨ (∀ g, gs !! i = Some g → same_wiring g g') →
  Forall2 same_wiring gs0 gs →
  Forall2 same_wiring gs0 (alter (λ _, g') i gs).
Proof.
  intros Hg H. apply Forall2_alter_r; [done|].
  intros g0 g Hg0 Hgi Hgg. eapply same_wiring_trans; [done|].
  destruct Hg as [Hg|Hg]; [|by apply Hg].
  rewrite Hg in Hgi. injection Hgi as <-. apply same_wiring_refl.
Qed.

Lemma count_ev_app f l1 l2 : count_ev f (l1 ++ l2) = (count_ev f l1 + count_ev f l2)%nat.
Proof. unfold count_ev. by rewrite List.filter_app, length_app. Qed.

Lemma count_ev_quiet f l :
  (∀ e, quiet e = true → f e = false) → forallb quiet l = true → count_ev f l = 0%nat.
Proof.
  intros Hf. unfold count_ev. induction l as [|e l IH]; [done|]. cbn.
  rewrite andb_true_iff. intros [He Hl]. rewrite (Hf e He). auto.
Qed.

Lemma sentinel_quiet k e : quiet e = true → is_sentinel_of k e = false.
Proof. by destruct e. Qed.

Lemma forward_quiet k e : quiet e = true → is_forward_end_of k e = false.
Proof. by destruct e. Qed.

Lemma transform_quiet l : forallb quiet l = true → Forall transform_ok l.
Proof.
  induction l as [|e l IH]; [constructor|]. cbn. rewrite andb_true_iff.
  intros [He Hl]. constructor; [by destruct e|auto].
Qed.

(** [plugin_place_work] touches the target's queue, the heap and the log. *)
Lemma place_work_step_spec j who str pc g h :
  match plugin_place_work_step j who str pc g h with
  | PwBlocked => True
  | PwNext _ g' _ evs | PwReturn _ g' _ evs =>
      same_wiring g g' ∧ forallb quiet evs = true
  end.
Proof.
  destruct pc as [|dup pc]; cbn.
  - destruct str; [|by split; [apply same_wiring_refl|]].
    destruct (negb _); [by split; [apply same_wiring_refl|]|].
    by split; [apply same_wiring_refl|].
  - destruct (PluginCommon.queue g) as [q|]; [|by split; [apply same_wiring_refl|]].
    destruct (put_step dup pc q) as [|pc' q' evs|[e|] q' evs]; try done;
      by split; [apply same_wiring_set_queue|].
Qed.

Lemma pw_run_spec who j str pc P r P' :
  pw_run who j str pc P = Some (r, P') →
  workers P' = workers P ∧ feeders P' = feeders P ∧
  Forall2 same_wiring (ctxs P) (ctxs P') ∧
  ∃ evs, log P' = log P ++ evs ∧ forallb quiet evs = true.
Proof.
  unfold pw_run. destruct (ctxs P !! j) as [g|] eqn:Hg; [|done].
  pose proof (place_work_step_spec j who str pc g (mem P)) as Hs.
  destruct (plugin_place_work_step j who str pc g (mem P)) as [|pc' g' h' evs|e g' h' evs];
    [done|..]; destruct Hs as [Hw Hq]; intros [= <- <-]; cbn;
    (split_and!; [done|done| |eauto]);
    (apply wiring_const; [right; intros g0 Hg0; by simplify_eq|apply wiring_refl]).
Qed.

Lemma count_ev_cons f e l :
  count_ev f (e :: l) = (b2n (f e) + count_ev f l)%nat.
Proof. unfold count_ev. cbn. by destruct (f e). Qed.

Lemma count_ev_nil f : count_ev f [] = 0%nat.
Proof. done. Qed.

Lemma count_ev_printed f i l :
  (∀ s, f (PPrinted i s) = false) → count_ev f (PPrinted i <$> l) = 0%nat.
Proof.
  intros Hf. induction l as [|s l IH]; [done|].
  rewrite fmap_cons, count_ev_cons, Hf, IH. done.
Qed.

Lemma transform_ok_printed i l : Forall transform_ok (PPrinted i <$> l).
Proof. induction l; constructor; done. Qed.

Lemma not_end_load h p :
  (p =? 0) = false → is_end h p = false → load p h ≠ END_SENTINEL.
Proof.
  unfold is_end. intros ->. cbn. intros Hne Heq. by rewrite Heq in Hne.
Qed.

Ltac solve_counts i :=
  intros k; unfold sentinels_seen, sentinels_forwarded;
  repeat first [rewrite count_ev_app | rewrite count_ev_cons
               | rewrite count_ev_nil | rewrite count_ev_printed by done
               | match goal with
                 | H : ∀ k, count_ev _ _ = 0%nat |- _ => rewrite H
                 end];
  cbn;
  destruct (decide (k = i)) as [->|?];
  [rewrite ?bool_decide_eq_true_2 by done
  |rewrite ?(bool_decide_eq_false_2 (i = k)), ?(bool_decide_eq_false_2 (k = i)) by done];
  cbn; rewrite ?andb_false_r; try done.

Ltac psimpl :=
  cbn [workers feeders log ctxs mem set_worker upd_ctx set_mem emit do_free].

Ltac wiring :=
  repeat first
    [ apply wiring_refl
    | apply wiring_alter; [first [apply same_wiring_set_queue
                                 |apply same_wiring_set_finished]|] ].

Lemma worker_step_spec i P P' :
  Forall (λ g, ctx_ready g = true) (ctxs P) →
  worker_step i P = Some P' → worker_effect i P P'.
Proof.
  intros Hready. unfold worker_step.
  destruct (workers P !! i) as [pc|] eqn:Hpc; [|done].
  destruct (ctxs P !! i) as [g|] eqn:Hg; [|done].
  assert (Hrg : ctx_ready g = true).
  { rewrite Forall_forall in Hready. apply Hready. by eapply list_elem_of_lookup_2. }
  unfold ctx_ready in Hrg. rewrite andb_true_iff, !bool_decide_eq_true in Hrg.
  destruct Hrg as [[q Hq] [f Hf]].
  destruct pc.
  - rewrite Hq, Hf. intros [= <-].
    eapply (Build_effect i _ _ WStart (WGet GetEntry) g []); try done; psimpl;
      rewrite ?app_nil_r; try done; [wiring|solve_counts i..].
  - rewrite Hq. destruct (get_step pc q) as [|pc' q' evs|x q' evs]; [done|..];
      intros [= <-].
    + eapply (Build_effect i _ _ (WGet pc) (WGet pc') g []); try done; psimpl;
        rewrite ?app_nil_r; try done; [wiring|solve_counts i..].
    + eapply (Build_effect i _ _ (WGet pc) (WGot x) g [PGot i x]); try done; psimpl;
        [wiring|solve_counts i..|by repeat constructor].
  - destruct (in_ =? 0) eqn:Hnull.
    { intros [= <-].
      eapply (Build_effect i _ _ (WGot in_) (WGet GetEntry) g []); try done; psimpl;
        rewrite ?app_nil_r; try done; [wiring|solve_counts i..]. }
    destruct (is_end (mem P) in_) eqn:Hend.
    { destruct (wired g) eqn:Hw; intros [= <-].
      - eapply (Build_effect i _ _ (WGot in_) (WForwardEnd in_ PwEntry) g
                  [PSentinel i in_; PForwardEnd i in_]); try done; psimpl;
          [wiring|solve_counts i; by rewrite Hw..|by repeat constructor].
      - eapply (Build_effect i _ _ (WGot in_) (WSignalFinished SfEntry) g
                  [PSentinel i in_; PFree (Worker i) in_]); try done; psimpl;
          [by rewrite <- app_assoc|wiring|solve_counts i; by rewrite ?Hw..
          |by repeat constructor]. }
    rewrite Hf. destruct (apply_transform f in_ (mem P)) as [[out h'] printed].
    pose proof (not_end_load _ _ Hnull Hend) as Hload.
    destruct (out =? 0).
    { intros [= <-].
      eapply (Build_effect i _ _ (WGot in_) (WGet GetEntry) g
                (PTransform i in_ (load in_ (mem P)) :: (PPrinted i <$> printed)
                 ++ [PLogError i "transform failed"; PFree (Worker i) in_]));
        try done; psimpl;
        [by rewrite <- !app_assoc|wiring|solve_counts i..|].
      constructor; [done|]. apply Forall_app. split; [apply transform_ok_printed|].
      by repeat constructor. }
    destruct (wired g) eqn:Hw.
    { intros [= <-].
      eapply (Build_effect i _ _ (WGot in_) (WForward in_ out PwEntry) g
                (PTransform i in_ (load in_ (mem P)) :: (PPrinted i <$> printed)
                 ++ [PForward i out]));
        try done; psimpl;
        [by rewrite <- !app_assoc|wiring|solve_counts i..|].
      constructor; [done|]. apply Forall_app. split; [apply transform_ok_printed|].
      by repeat constructor. }
    destruct (negb (out =? in_)); intros [= <-].
    + eapply (Build_effect i _ _ (WGot in_) (WGet GetEntry) g
                (PTransform i in_ (load in_ (mem P)) :: (PPrinted i <$> printed)
                 ++ [PFree (Worker i) out; PFree (Worker i) in_]));
        try done; psimpl;
        [by rewrite <- !app_assoc|wiring|solve_counts i..|].
      constructor; [done|]. apply Forall_app. split; [apply transform_ok_printed|].
      by repeat constructor.
    + eapply (Build_effect i _ _ (WGot in_) (WGet GetEntry) g
                (PTransform i in_ (load in_ (mem P)) :: (PPrinted i <$> printed)
                 ++ [PFree (Worker i) in_]));
        try done; psimpl;
        [by rewrite <- !app_assoc|wiring|solve_counts i..|].
      constructor; [done|]. apply Forall_app. split; [apply transform_ok_printed|].
      by repeat constructor.
  - destruct (next_place_work g) as [j|] eqn:Hn; [|done].
    destruct (pw_run _ _ _ _ _) as [[r P'']|] eqn:Hrun; [|done].
    destruct (pw_run_spec _ _ _ _ _ _ _ Hrun) as (Hw & Hfd & Hwir & evs0 & Hlog & Hquiet).
    pose proof (λ k, count_ev_quiet _ _ (sentinel_quiet k) Hquiet) as Hs0.
    pose proof (λ k, count_ev_quiet _ _ (forward_quiet k) Hquiet) as Hf0.
    pose proof (transform_quiet _ Hquiet) as Ht0.
    destruct r as [ppc'|[e|]]; intros [= <-].
    + eapply (Build_effect i _ _ (WForwardEnd in_ pc) (WForwardEnd in_ ppc') g evs0);
        try done; psimpl; rewrite ?Hw, ?Hfd, ?Hlog; try done; solve_counts i.
    + eapply (Build_effect i _ _ (WForwardEnd in_ pc) (WSignalFinished SfEntry) g
                (evs0 ++ [PLogError i e; PFree (Worker i) in_]));
        try done; psimpl; rewrite ?Hw, ?Hfd, ?Hlog, <- ?app_assoc; try done;
        [by wiring|solve_counts i..|].
      apply Forall_app. split; [done|by repeat constructor].
    + eapply (Build_effect i _ _ (WForwardEnd in_ pc) (WSignalFinished SfEntry) g evs0);
        try done; psimpl; rewrite ?Hw, ?Hfd, ?Hlog; try done;
        [by wiring|solve_counts i..].
  - rewrite Hq. destruct (sf_step pc q) as [|pc' q' evs|x q' evs]; [done|..];
      intros [= <-].
    + eapply (Build_effect i _ _ (WSignalFinished pc) (WSignalFinished pc') g []);
        try done; psimpl; rewrite ?app_nil_r; try done; [wiring|solve_counts i..].
    + eapply (Build_effect i _ _ (WSignalFinished pc) WExit g [PExit i]);
        try done; psimpl; [wiring|solve_counts i..|by repeat constructor].
  - destruct (next_place_work g) as [j|] eqn:Hn; [|done].
    destruct (pw_run _ _ _ _ _) as [[r P'']|] eqn:Hrun; [|done].
    destruct (pw_run_spec _ _ _ _ _ _ _ Hrun) as (Hw & Hfd & Hwir & evs0 & Hlog & Hquiet).
    pose proof (λ k, count_ev_quiet _ _ (sentinel_quiet k) Hquiet) as Hs0.
    pose proof (λ k, count_ev_quiet _ _ (forward_quiet k) Hquiet) as Hf0.
    pose proof (transform_quiet _ Hquiet) as Ht0.
    destruct r as [ppc'|[e|]]; [|destruct (negb (out =? in_))..]; intros [= <-].
    + eapply (Build_effect i _ _ (WForward in_ out pc) (WForward in_ out ppc') g evs0);
        try done; psimpl; rewrite ?Hw, ?Hfd, ?Hlog; try done; solve_counts i.
    + eapply (Build_effect i _ _ (WForward in_ out pc) (WGet GetEntry) g
                (evs0 ++ [PLogError i e; PFree (Worker i) out; PFree (Worker i) in_]));
        try done; psimpl; rewrite ?Hw, ?Hfd, ?Hlog, <- ?app_assoc; try done;
        [solve_counts i..|].
      apply Forall_app. split; [done|by repeat constructor].
    + eapply (Build_effect i _ _ (WForward in_ out pc) (WGet GetEntry) g
                (evs0 ++ [PLogError i e; PFree (Worker i) in_]));
        try done; psimpl; rewrite ?Hw, ?Hfd, ?Hlog, <- ?app_assoc; try done;
        [solve_counts i..|].
      apply Forall_app. split; [done|by repeat constructor].
    + eapply (Build_effect i _ _ (WForward in_ out pc) (WGet GetEntry) g
                (evs0 ++ [PFree (Worker i) in_]));
        try done; psimpl; rewrite ?Hw, ?Hfd, ?Hlog, <- ?app_assoc; try done;
        [solve_counts i..|].
      apply Forall_app. split; [done|by repeat constructor].
    + eapply (Build_effect i _ _ (WForward in_ out pc) (WGet GetEntry) g evs0);
        try done; psimpl; rewrite ?Hw, ?Hfd, ?Hlog; try done; solve_counts i.
  - done.
Qed.

Lemma b2n_step (i_is : bool) (w a b : bool) :
  (b = true → a = true) →
  (b2n b + b2n (i_is && a && negb b))%nat = b2n (if i_is then a else b).
Proof. destruct i_is, a, b; cbn; try done. intros H. by specialize (H eq_refl). Qed.

Lemma ready_preserved gs gs' :
  Forall2 same_wiring gs gs' →
  Forall (λ g, ctx_ready g = true) gs → Forall (λ g, ctx_ready g = true) gs'.
Proof.
  induction 1 as [|g g' gs gs' Hg _ IH]; [done|].
  rewrite !Forall_cons. intros [? ?]. split; [by eapply same_wiring_ready|auto].
Qed.

Lemma wired_preserved gs gs' i g' :
  Forall2 same_wiring gs gs' → gs' !! i = Some g' →
  ∃ g, gs !! i = Some g ∧ wired g' = wired g.
Proof.
  intros H Hi. destruct (Forall2_lookup_r _ _ _ _ _ H Hi) as (g & Hg & Hw).
  exists g. split; [done|]. by apply same_wiring_wired.
Qed.

Lemma worker_step_inv i P P' : pinv P → worker_step i P = Some P' → pinv P'.
Proof.
  intros [Hready Hseen Hfwd Htr] Hstep.
  destruct (worker_step_spec i P P' Hready Hstep)
    as [pc pc' g evs Hpc Hg Hws Hfd Hlog Hwir Hmono Hs Hf Ht].
  assert (Hlen : (i < length (workers P))%nat) by by eapply lookup_lt_Some.
  constructor.
  - by eapply ready_preserved.
  - intros k pck. rewrite Hws, Hlog. unfold sentinels_seen.
    rewrite count_ev_app. fold (sentinels_seen k (log P)) (sentinels_seen k evs).
    rewrite Hs. destruct (decide (k = i)) as [->|Hne].
    + rewrite list_lookup_insert_eq by done. intros [= <-].
      rewrite (Hseen i pc Hpc), bool_decide_eq_true_2 by done.
      destruct (past_end pc) eqn:E; [by rewrite Hmono|]. cbn.
      by destruct (past_end pc').
    + rewrite list_lookup_insert_ne by done. intros Hk.
      rewrite (Hseen k pck Hk), bool_decide_eq_false_2 by done. cbn. lia.
  - intros k pck gk. rewrite Hws, Hlog. unfold sentinels_forwarded.
    rewrite count_ev_app.
    fold (sentinels_forwarded k (log P)) (sentinels_forwarded k evs).
    rewrite Hf. intros Hk Hgk.
    destruct (wired_preserved _ _ _ _ Hwir Hgk) as (g0 & Hg0 & ->).
    destruct (decide (k = i)) as [->|Hne].
    + rewrite list_lookup_insert_eq in Hk by done. injection Hk as <-.
      assert (g0 = g) as -> by congruence.
      rewrite (Hfwd i pc g Hpc Hg), bool_decide_eq_true_2 by done.
      destruct (wired g); cbn; [|done].
      destruct (past_end pc) eqn:E; [by rewrite Hmono|]. cbn.
      by destruct (past_end pc').
    + rewrite list_lookup_insert_ne in Hk by done.
      rewrite (Hfwd k pck g0 Hk Hg0), bool_decide_eq_false_2 by done. cbn. lia.
  - rewrite Hlog. by apply Forall_app.
Qed.

Lemma feeder_step_inv who j str pc P r P' :
  pinv P → pw_run who j str pc P = Some (r, P') → pinv P'.
Proof.
  intros [Hready Hseen Hfwd Htr] Hrun.
  destruct (pw_run_spec _ _ _ _ _ _ _ Hrun) as (Hw & Hfd & Hwir & evs0 & Hlog & Hquiet).
  constructor.
  - by eapply ready_preserved.
  - intros k pck. rewrite Hw, Hlog. unfold sentinels_seen.
    rewrite count_ev_app, (count_ev_quiet _ evs0 (sentinel_quiet k) Hquiet), Nat.add_0_r.
    apply Hseen.
  - intros k pck gk. rewrite Hw, Hlog. unfold sentinels_forwarded.
    rewrite count_ev_app, (count_ev_quiet _ evs0 (forward_quiet k) Hquiet), Nat.add_0_r.
    intros Hk Hgk. destruct (wired_preserved _ _ _ _ Hwir Hgk) as (g0 & Hg0 & ->).
    by apply Hfwd.
  - rewrite Hlog. apply Forall_app. split; [done|by apply transform_quiet].
Qed.

Lemma pinv_log_quiet P evs cs ws fd h :
  pinv P → forallb quiet evs = true →
  cs = ctxs P → ws = workers P →
  pinv {| ctxs := cs; workers := ws; feeders := fd; mem := h; log := log P ++ evs |}.
Proof.
  intros [Hready Hseen Hfwd Htr] Hquiet -> ->.
  constructor; cbn [ctxs workers log]; try done.
  - intros k pck. unfold sentinels_seen.
    rewrite count_ev_app, (count_ev_quiet _ evs (sentinel_quiet k) Hquiet), Nat.add_0_r.
    apply Hseen.
  - intros k pck gk. unfold sentinels_forwarded.
    rewrite count_ev_app, (count_ev_quiet _ evs (forward_quiet k) Hquiet), Nat.add_0_r.
    apply Hfwd.
  - apply Forall_app. split; [done|by apply transform_quiet].
Qed.

Lemma pstep_inv a P : pinv P → pinv (pstep a P).
Proof.
  intros HP. destruct a as [k j str|k|i]; cbn.
  - destruct (feeders P !! k); [done|].
    rewrite <- (app_nil_r (log P)). by apply pinv_log_quiet.
  - destruct (feeders P !! k) as [[[j str] pc]|]; [|done].
    destruct (pw_run _ _ _ _ _) as [[[pc'|err] P']|] eqn:Hrun; [| |done].
    + pose proof (feeder_step_inv _ _ _ _ _ _ _ HP Hrun) as HP'.
      rewrite <- (app_nil_r (log P')). by apply pinv_log_quiet.
    + pose proof (feeder_step_inv _ _ _ _ _ _ _ HP Hrun) as HP'.
      by apply pinv_log_quiet.
  - destruct (worker_step i P) as [P'|] eqn:Hstep; [|done].
    by eapply worker_step_inv.
Qed.

Lemma prun_cons a sched P : prun (a :: sched) P = prun sched (pstep a P).
Proof. reflexivity. Qed.


Lemma prun_inv sched P : pinv P → pinv (prun sched P).
Proof.
  revert P. induction sched as [|a sched IH]; intros P HP; [done|].
  rewrite prun_cons. apply IH. by apply pstep_inv.
Qed.

Lemma fresh_inv P : fresh_pipeline P = true → pinv P.
Proof.
  unfold fresh_pipeline. rewrite !andb_true_iff, bool_decide_eq_true.
  intros [[Hr Hw] Hl]. rewrite forallb_forall in Hr, Hw.
  constructor.
  - rewrite Forall_forall. intros g Hg. apply Hr. by apply list_elem_of_In.
  - intros i pc Hpc. rewrite Hl. cbn.
    assert (negb (past_end pc) = true) as Hn.
    { apply Hw, list_elem_of_In. by eapply list_elem_of_lookup_2. }
    by destruct (past_end pc).
  - intros i pc g Hpc Hg. rewrite Hl. cbn.
    assert (negb (past_end pc) = true) as Hn.
    { apply Hw, list_elem_of_In. by eapply list_elem_of_lookup_2. }
    destruct (past_end pc); [done|]. by rewrite andb_false_r.
  - rewrite Hl. constructor.
Qed.


Lemma put_one item q :
  empty_open q → item ≠ NULL →
  put_step item PutEntry q = Next PutLock q [] ∧
  put_step item PutLock q = Next PutSignal (put_insert item q) [EvEnq item] ∧
  ∃ q', put_step item PutSignal (put_insert item q) = Return None q' [EvSignal NotEmpty] ∧
        holds_one item q'.
Proof.
  intros (Hi & Hf & Hc & Hcap & Ht & Hh & Hlen & Hm) Hitem.
  unfold put_step, put_loop, queue_is_full. rewrite Hi, Hf, Hc.
  assert ((0 =? capacity q) = false) as -> by (apply Z.eqb_neq; lia).
  assert ((item =? 0) = false) as -> by (by apply Z.eqb_neq). cbn.
  split; [done|]. split; [done|]. eexists. split; [done|].
  unfold holds_one. cbn. rewrite Hi, Hf, Hc, Ht. split_and!; try done.
  - by rewrite list_lookup_insert_eq.
  - destruct Hm as (?&?&?). split_and!; cbn; rewrite ?signal_initialized; done.
Qed.


(** *** Rules for single worker steps *)




Lemma ws_get_return i P g q gpc x q' evs  :
  ctxs P !! i = Some g →
  workers P !! i = Some (WGet gpc) → PluginCommon.queue g = Some q →
  get_step gpc q = Return x q' evs →
  worker_step i P =
    Some (set_worker i (WGot x) (emit [PGot i x] (upd_ctx i (set_queue q') P))).
Proof. intros Hg Hw Hq Hs. unfold worker_step. by rewrite Hw, Hg, Hq, Hs. Qed.

Lemma ws_got_null i P g  :
  ctxs P !! i = Some g →
  workers P !! i = Some (WGot NULL) →
  worker_step i P = Some (set_worker i (WGet GetEntry) P).
Proof. intros Hg Hw. unfold worker_step. by rewrite Hw, Hg. Qed.








Lemma list_alter_at {A} (f : A → A) i (l : list A) x :
  l !! i = Some x → alter f i l = <[i := f x]> l.
Proof.
  intros Hx. apply list_eq. intros k. destruct (decide (k = i)) as [->|Hne].
  - rewrite list_lookup_alter_eq, Hx, list_lookup_insert_eq; [done|].
    by eapply lookup_lt_Some.
  - by rewrite list_lookup_alter_ne, list_lookup_insert_ne.
Qed.

Ltac pnorm :=
  unfold set_worker, upd_ctx, do_free, emit, set_mem;
  cbn [workers feeders log ctxs mem
       PluginCommon.queue set_queue set_finished next_place_work process_function
       PluginCommon.initialized attached].

Ltac side :=
  cbn [default from_option id]; pnorm;
  rewrite ?list_lookup_insert_eq by (rewrite ?length_insert, ?length_alter; done);
  repeat first [rewrite list_lookup_alter_eq
               |rewrite list_lookup_alter_ne by congruence];
  try done.

Ltac unwrap :=
  cbn [default from_option id]; pnorm;
  rewrite ?list_insert_insert_eq, ?list_alter_alter_eq, ?app_nil_r.


(** *** Rules for single steps of [plugin_place_work] *)

Lemma pw_entry who j s P g' :
  ctxs P !! j = Some g' → PluginCommon.initialized g' = 1 →
  pw_run who j (Some s) PwEntry P =
    Some (inl (PwPut (next_addr (mem P)) PutEntry),
          emit [] (set_mem (alloc s (mem P)).2 (upd_ctx j (λ _, g') P))).
Proof. intros Hg Hi. unfold pw_run. rewrite Hg. cbn. by rewrite Hi. Qed.

Lemma pw_put_next who j str dup pc pc' P g' q' q'' evs :
  ctxs P !! j = Some g' → PluginCommon.queue g' = Some q' →
  put_step dup pc q' = Next pc' q'' evs →
  pw_run who j str (PwPut dup pc) P =
    Some (inl (PwPut dup pc'),
          emit [] (set_mem (mem P) (upd_ctx j (λ _, set_queue q'' g') P))).
Proof. intros Hg Hq Hs. unfold pw_run. rewrite Hg. cbn. by rewrite Hq, Hs. Qed.

Lemma pw_put_ok who j str dup pc P g' q' q'' evs :
  ctxs P !! j = Some g' → PluginCommon.queue g' = Some q' →
  put_step dup pc q' = Return None q'' evs →
  pw_run who j str (PwPut dup pc) P =
    Some (inr None,
          emit [] (set_mem (mem P) (upd_ctx j (λ _, set_queue q'' g') P))).
Proof. intros Hg Hq Hs. unfold pw_run. rewrite Hg. cbn. by rewrite Hq, Hs. Qed.

Lemma is_end_load h p : is_end h p = true → p ≠ NULL ∧ load p h = END_SENTINEL.
Proof.
  unfold is_end. rewrite andb_true_iff, negb_true_iff, Z.eqb_neq, String.eqb_eq. done.
Qed.



Lemma plugin_attach_fresh next g :
  just_initialized g → plugin_attach next g = (attached_to next g, []).
Proof.
  intros (Hi & Hf & Ha & _). unfold plugin_attach, attached_to.
  rewrite Hi, Hf, Ha. reflexivity.
Qed.

Lemma loaded_lookup n k :
  (k < n)%nat → (loaded <$> seq 0 n) !! k = Some (loaded k).
Proof. intros Hk. by rewrite list_lookup_fmap, lookup_seq_lt. Qed.

Lemma attach_loop_spec n fuel i gs :
  (i + fuel < n)%nat → length gs = n →
  (∀ k g, (i ≤ k)%nat → gs !! k = Some g → just_initialized g) →
  ∃ gs', attach_loop (loaded <$> seq 0 n) fuel i gs = Continue gs' ∧
         length gs' = n ∧
         ∀ k, gs' !! k =
              if bool_decide (i ≤ k < i + fuel)%nat
              then attached_to (Some (S k)) <$> gs !! k
              else gs !! k.
Proof.
  revert i gs. induction fuel as [|fuel IH]; intros i gs Hlt Hlen Hfresh.
  - exists gs. split; [done|]. split; [done|]. intros k.
    rewrite bool_decide_eq_false_2; [done|lia].
  - cbn [attach_loop].
    rewrite !loaded_lookup by lia. cbn [attach place_work loaded].
    destruct (lookup_lt_is_Some_2 gs i) as [g Hg]; [lia|].
    pose proof (Hfresh i g (Nat.le_refl _) Hg) as Hgi.
    rewrite (list_alter_at _ _ _ _ Hg), (plugin_attach_fresh _ _ Hgi). cbn [fst].
    destruct (IH (S i) (<[i := attached_to (Some (S i)) g]> gs)) as (gs' & Hrun & Hlen' & Hgs').
    + lia.
    + by rewrite length_insert.
    + intros k g0 Hk. rewrite list_lookup_insert_ne by lia. apply Hfresh. lia.
    + exists gs'. split; [done|]. split; [done|]. intros k. rewrite Hgs'.
      destruct (decide (k = i)) as [->|Hne].
      * rewrite bool_decide_eq_false_2 by lia.
        rewrite bool_decide_eq_true_2 by lia.
        rewrite list_lookup_insert_eq by lia. by rewrite Hg.
      * rewrite list_lookup_insert_ne by done.
        destruct (decide (S i ≤ k < S i + fuel)%nat).
        -- rewrite !bool_decide_eq_true_2 by lia. done.
        -- rewrite !bool_decide_eq_false_2 by lia. done.
Qed.

(** What stage 4 leaves in each context: stage [i] is wired to stage [i+1]
    when there is one, and untouched otherwise. *)
Lemma stage4_spec (gs : list plugin_context_t) :
  (1 ≤ length gs)%nat →
  Forall just_initialized gs →
  ∃ gs',
    stage4_attach_plugins (loaded <$> seq 0 (length gs)) gs = Continue gs' ∧
    length gs' = length gs ∧
    ∀ i g, gs !! i = Some g →
      gs' !! i = Some (if bool_decide (S i < length gs)%nat
                       then attached_to (Some (S i)) g else g).
Proof.
  intros Hn Hfresh. unfold stage4_attach_plugins.
  rewrite length_fmap, length_seq.
  destruct (length gs) as [|[|n]] eqn:Hlen; [lia| |].
  - exists gs. split; [done|]. split; [done|]. intros i g Hg.
    assert (i = 0)%nat as -> by (apply lookup_lt_Some in Hg; lia).
    by rewrite bool_decide_eq_false_2 by lia.
  - destruct (attach_loop_spec (S (S n)) (S n) 0 gs) as (gs' & Hrun & Hlen' & Hgs');
      [lia|done| |].
    { intros k g _ Hg. rewrite Forall_forall in Hfresh. apply Hfresh.
      by eapply list_elem_of_lookup_2. }
    exists gs'. split; [done|]. split; [done|]. intros i g Hg.
    assert (Hi : (i < S (S n))%nat) by (apply lookup_lt_Some in Hg; lia).
    rewrite Hgs', Hg.
    destruct (decide (S i < S (S n))%nat) as [Hlt|Hge].
    + by rewrite !bool_decide_eq_true_2 by lia.
    + by rewrite !bool_decide_eq_false_2 by lia.
Qed.

(** C6, as the code has it: [stage4_attach_plugins] over a chain of N ≥ 1
    freshly initialised stages wires stage i to the [place_work] of stage
    i+1 for every i with i+1 < N, setting [attached = 1] there, and leaves
    the last stage exactly as [init] left it: [attached = 0] and
    [next_place_work] NULL. *)
Theorem stage4_attaches_all_but_last (gs : list plugin_context_t) :
  (1 ≤ length gs)%nat →
  Forall just_initialized gs →
  ∃ gs',
    stage4_attach_plugins (loaded <$> seq 0 (length gs)) gs = Continue gs' ∧
    length gs' = length gs ∧
    ∀ i g, gs !! i = Some g →
      gs' !! i = Some (if bool_decide (S i < length gs)%nat
                       then attached_to (Some (S i)) g else g) ∧
      ((S i < length gs)%nat →
       ∃ g', gs' !! i = Some g' ∧ attached g' = 1 ∧
             next_place_work g' = Some (S i)) ∧
      (S i = length gs →
       ∃ g', gs' !! i = Some g' ∧ attached g' = 0 ∧ next_place_work g' = None).
Proof.
  intros Hn Hfresh.
  destruct (stage4_spec gs Hn Hfresh) as (gs' & Hrun & Hlen & Hgs').
  exists gs'. split; [done|]. split; [done|]. intros i g Hg.
  rewrite (Hgs' i g Hg). split; [done|]. split.
  - intros Hlt. rewrite bool_decide_eq_true_2 by done. eauto.
  - intros Hlast. rewrite bool_decide_eq_false_2 by lia. exists g.
    rewrite Forall_forall in Hfresh.
    destruct (Hfresh g) as (_ & _ & Ha & Hnx); [by eapply list_elem_of_lookup_2|].
    done.
Qed.

Lemma holds_one_open p q : holds_one p q → open_queue q.
Proof. intros (?&?&_). by split. Qed.








Lemma feed_sentinel P g0 q0 :
  feeders P !! 0%nat = None → ctxs P !! 0%nat = Some g0 →
  PluginCommon.initialized g0 = 1 → PluginCommon.queue g0 = Some q0 →
  empty_open q0 → next_addr (mem P) ≠ NULL →
  ∃ q'' fd, holds_one (next_addr (mem P)) q'' ∧
    prun feed_end P =
      {| ctxs := <[0%nat := set_queue q'' g0]> (ctxs P);
         workers := workers P; feeders := fd;
         mem := (alloc END_SENTINEL (mem P)).2;
         log := log P ++ [PPlaced 0 0 None] |}.
Proof.
  intros Hfd Hg Hi Hq Hempty Hfresh.
  destruct (put_one (next_addr (mem P)) q0 Hempty Hfresh)
    as (Hp1 & Hp2 & q'' & Hp3 & Hone).
  exists q''. eexists. split; [done|].
  unfold feed_end. cbn [replicate].
  rewrite prun_cons. cbn [pstep]. rewrite Hfd.
  rewrite prun_cons. cbn [pstep feeders]. rewrite lookup_insert_eq.
  erewrite (pw_entry (Feeder 0) 0 _ _ g0); [|side..]. unwrap.
  rewrite prun_cons. cbn [pstep feeders]. rewrite lookup_insert_eq.
  erewrite (pw_put_next (Feeder 0) 0 _ _ PutEntry PutLock _ g0 q0 q0 []);
    [|side; by rewrite ?Hg..]. unwrap.
  rewrite prun_cons. cbn [pstep feeders]. rewrite lookup_insert_eq.
  erewrite (pw_put_next (Feeder 0) 0 _ _ PutLock PutSignal _ (set_queue q0 g0) q0
              (put_insert (next_addr (mem P)) q0) [EvEnq (next_addr (mem P))]);
    [|side; by rewrite ?Hg..]. unwrap.
  rewrite prun_cons. cbn [pstep feeders]. rewrite lookup_insert_eq.
  erewrite (pw_put_ok (Feeder 0) 0 _ _ PutSignal _
              (set_queue (put_insert (next_addr (mem P)) q0) g0)
              (put_insert (next_addr (mem P)) q0) q'' [EvSignal NotEmpty]);
    [|side; by rewrite ?Hg..]. unwrap.
  cbn [prun foldl]. rewrite (list_alter_at _ _ _ _ Hg). cbn [set_queue].
  reflexivity.
Qed.

Lemma common_plugin_init_ok f c :
  (consumer_producer_init ConsumerProducer.zeroed c).1 = None →
  common_plugin_init (Some f) (Some "plugin"%string) c ConsumerProducer.zeroed zeroed_ctx
  = (None, initialized_ctx f c).
Proof.
  intros Hc. pose proof (init_capacity_range _ _ Hc) as Hr.
  unfold common_plugin_init, initialized_ctx.
  destruct (Z.leb_spec c 0); [lia|]. cbn [zeroed_ctx PluginCommon.initialized].
  destruct (consumer_producer_init ConsumerProducer.zeroed c) as [qerr q].
  cbn in Hc. subst qerr. reflexivity.
Qed.

Lemma init_empty_open c :
  (consumer_producer_init ConsumerProducer.zeroed c).1 = None →
  empty_open (consumer_producer_init ConsumerProducer.zeroed c).2.
Proof.
  intros Hc. destruct (init_ok _ _ Hc) as (Hwf & Hcap & _ & Hfin).
  pose proof Hwf as [Hi Hrange Hlen Hcnt Hhd Htl _ Hm _].
  revert Hc Hi Hrange Hlen Hcnt Hhd Htl Hm Hcap Hfin.
  unfold consumer_producer_init, monitor_init. cbn.
  destruct (c <=? 0); [done|]. destruct (c >? _); [done|]. cbn.
  intros. unfold empty_open. cbn. split_and!; try done; lia.
Qed.

Lemma stage3_lookup fs c k f :
  (consumer_producer_init ConsumerProducer.zeroed c).1 = None →
  fs !! k = Some f → stage3_contexts fs c !! k = Some (initialized_ctx f c).
Proof.
  intros Hc Hf. unfold stage3_contexts.
  rewrite list_lookup_fmap, Hf. cbn [fmap option_fmap option_map].
  by rewrite common_plugin_init_ok.
Qed.

Lemma stage3_fresh fs c :
  (consumer_producer_init ConsumerProducer.zeroed c).1 = None →
  Forall just_initialized (stage3_contexts fs c).
Proof.
  intros Hc. unfold stage3_contexts. rewrite Forall_fmap. apply Forall_forall.
  intros f _. unfold compose. by rewrite common_plugin_init_ok.
Qed.

Lemma started_chain fs c :
  (1 ≤ length fs)%nat →
  (consumer_producer_init ConsumerProducer.zeroed c).1 = None →
  ∃ P0, started fs c = Some P0 ∧ fresh_pipeline P0 = true ∧
        length (workers P0) = length fs ∧
        chain_at (length fs) 0 (prun feed_end P0).
Proof.
  intros Hn Hc. unfold started.
  assert (Hlen3 : length (stage3_contexts fs c) = length fs).
  { unfold stage3_contexts. by rewrite length_fmap. }
  destruct (stage4_spec (stage3_contexts fs c))
    as (gs' & Hrun & Hlen & Hgs'); [lia|by apply stage3_fresh|].
  rewrite Hlen3 in Hrun, Hlen, Hgs'. rewrite Hrun.
  assert (Hctx : ∀ k, (k < length fs)%nat →
            ∃ f, fs !! k = Some f ∧
                 gs' !! k = Some (if bool_decide (S k < length fs)%nat
                                  then attached_to (Some (S k)) (initialized_ctx f c)
                                  else initialized_ctx f c)).
  { intros k Hk. destruct (lookup_lt_is_Some_2 fs k Hk) as [f Hf].
    exists f. split; [done|].
    by rewrite (Hgs' k _ (stage3_lookup fs c k f Hc Hf)). }
  eexists. split; [done|].
  pose proof (init_empty_open c Hc) as Hempty.
  split_and!.
  - unfold fresh_pipeline. cbn [ctxs workers log].
    rewrite !andb_true_iff, bool_decide_eq_true. split_and!; [| |done].
    + apply forallb_forall. intros g Hg. apply list_elem_of_In in Hg.
      apply list_elem_of_lookup in Hg as [k Hk].
      destruct (Hctx k) as (f & _ & Hgk).
      { apply lookup_lt_Some in Hk. lia. }
      rewrite Hgk in Hk. injection Hk as <-. by case_bool_decide.
    + apply forallb_forall. intros pc Hpc. apply list_elem_of_In in Hpc.
      by apply elem_of_replicate in Hpc as [-> _].
  - cbn. by rewrite length_replicate.
  - destruct (Hctx 0%nat Hn) as (f0 & Hf0 & Hg0).
    match goal with
    | |- chain_at _ _ (prun feed_end ?P) =>
        destruct (feed_sentinel P _ (consumer_producer_init ConsumerProducer.zeroed c).2
                    eq_refl Hg0) as (q'' & fd & Hone & ->)
    end.
    { by case_bool_decide. }
    { by case_bool_decide. }
    { done. }
    { done. }
    constructor; cbn [workers ctxs mem log feeders].
    + by rewrite length_replicate.
    + intros k Hk. lia.
    + intros k Hk. apply lookup_replicate_2. lia.
    + intros k Hk. destruct (Hctx k) as (f & Hf & Hgk); [lia|].
      destruct (decide (k = 0%nat)) as [->|Hne].
      * eexists _, q'', f. rewrite list_lookup_insert_eq by (rewrite Hlen; lia).
        assert (f = f0) as -> by congruence.
        split; [done|]. case_bool_decide; split_and!; try done; try lia.
      * eexists _, _, f. rewrite list_lookup_insert_ne by done.
        split; [done|]. case_bool_decide; split_and!; try done; lia.
    + reflexivity.
    + cbn. apply lookup_insert_eq.
    + reflexivity.
Qed.

(** C6 as stated does not hold: after stage 4 on a chain of three loggers
    the terminal stage has [attached = 0], so not every stage is attached. *)
Lemma stage4_leaves_terminal_unattached :
  ∃ gs',
    stage4_attach_plugins (loaded <$> seq 0 3) three_loggers = Continue gs' ∧
    (λ g, (attached g, next_place_work g)) <$> gs'
      = [(1, Some 1%nat); (1, Some 2%nat); (0, None)] ∧
    ¬ Forall (λ g, attached g = 1) gs'.
Proof.
  eexists. split; [vm_compute; reflexivity|]. split; [reflexivity|].
  intros H. do 2 apply Forall_cons in H as [_ H]. apply Forall_cons in H as [H _].
  discriminate H.
Qed.

Lemma stage4_attaches_all_but_last_witness :
  (1 ≤ length three_loggers)%nat ∧ Forall just_initialized three_loggers ∧
  ∃ gs',
    stage4_attach_plugins (loaded <$> seq 0 (length three_loggers)) three_loggers
      = Continue gs' ∧
    length gs' = length three_loggers ∧
    ∀ i g, three_loggers !! i = Some g →
      gs' !! i = Some (if bool_decide (S i < length three_loggers)%nat
                       then attached_to (Some (S i)) g else g) ∧
      ((S i < length three_loggers)%nat →
       ∃ g', gs' !! i = Some g' ∧ attached g' = 1 ∧
             next_place_work g' = Some (S i)) ∧
      (S i = length three_loggers →
       ∃ g', gs' !! i = Some g' ∧ attached g' = 0 ∧ next_place_work g' = None).
Proof.
  assert (H1 : (1 ≤ length three_loggers)%nat) by (vm_compute; lia).
  assert (H2 : Forall just_initialized three_loggers).
  { repeat constructor. }
  split; [exact H1|]. split; [exact H2|].
  exact (stage4_attaches_all_but_last three_loggers H1 H2).
Defined.


Lemma pstep_wiring a P : pinv P → Forall2 same_wiring (ctxs P) (ctxs (pstep a P)).
Proof.
  intros HP. destruct a as [k j str|k|i]; cbn [pstep].
  - destruct (feeders P !! k); apply wiring_refl.
  - destruct (feeders P !! k) as [[[j str] pc]|]; [|apply wiring_refl].
    destruct (pw_run _ _ _ _ _) as [[[pc'|err] P']|] eqn:Hrun; [| |apply wiring_refl];
      by destruct (pw_run_spec _ _ _ _ _ _ _ Hrun) as (_ & _ & Hw & _).
  - destruct (worker_step i P) as [P'|] eqn:Hstep; [|apply wiring_refl].
    by destruct (worker_step_spec i P P' (pi_ready _ HP) Hstep).
Qed.


Lemma set_queue_id q g : PluginCommon.queue g = Some q → set_queue q g = g.
Proof. destruct g. cbn. by intros ->. Qed.

Lemma list_alter_fix {A} (f : A → A) i (l : list A) x :
  l !! i = Some x → f x = x → alter f i l = l.
Proof.
  intros Hx Hf. rewrite (list_alter_at _ _ _ _ Hx), Hf. by apply list_insert_id.
Qed.

(** On a finished and empty queue [get] hands the worker no item and the
    worker asks again: two steps that lead back to the same state, but for
    the log. *)
Lemma worker_spins i P g q n :
  ctxs P !! i = Some g → PluginCommon.queue g = Some q →
  ConsumerProducer.initialized q = 1 → count q = 0 → finished_flag q = 1 →
  workers P !! i = Some (WGet GetEntry) ∨ workers P !! i = Some (WGot NULL) →
  let P' := prun (replicate n (StepWorker i)) P in
  (workers P' !! i = Some (WGet GetEntry) ∨ workers P' !! i = Some (WGot NULL)) ∧
  is_Some (worker_step i P') ∧ mem P' = mem P ∧ ctxs P' = ctxs P ∧
  feeders P' = feeders P.
Proof.
  intros Hg Hq Hi Hc Hf.
  assert (Hget : get_step GetEntry q = Return NULL q []).
  { unfold get_step, get_loop, queue_is_empty. by rewrite Hi, Hc, Hf. }
  revert P Hg. induction n as [|n IH]; intros P Hg Hw; cbn zeta.
  - cbn [replicate prun foldl]. split; [done|]. split_and!; try done.
    destruct Hw as [Hw|Hw].
    + erewrite ws_get_return; eauto.
    + erewrite ws_got_null; eauto.
  - cbn [replicate]. rewrite prun_cons. cbn [pstep].
    assert (Hlen : (i < length (workers P))%nat).
    { destruct Hw as [Hw|Hw]; by eapply lookup_lt_Some. }
    destruct Hw as [Hw|Hw].
    + rewrite (ws_get_return i P g q GetEntry NULL q [] Hg Hw Hq Hget).
      cbn [default from_option id].
      match goal with |- context [prun _ ?P1] =>
        destruct (IH P1) as (H1 & H2 & H3 & H4 & H5) end.
      * cbn. by rewrite (list_alter_fix _ _ _ _ Hg (set_queue_id _ _ Hq)).
      * right. cbn. by apply list_lookup_insert_eq.
      * split; [done|]. split; [done|]. rewrite H3, H4, H5. cbn.
        by rewrite (list_alter_fix _ _ _ _ Hg (set_queue_id _ _ Hq)).
    + rewrite (ws_got_null i P g Hg Hw). cbn [default from_option id].
      match goal with |- context [prun _ ?P1] =>
        destruct (IH P1) as (H1 & H2 & H3 & H4 & H5) end.
      * done.
      * left. cbn. by apply list_lookup_insert_eq.
      * split; [done|]. split; [done|]. by rewrite H3, H4, H5.
Qed.



(** C10: the worker leaves its loop only through the sentinel.  In every
    reachable state of a pipeline: a worker that got NULL from [get] goes
    back to calling [get]; a [get] of the worker that returns NULL leads to
    that retry; on a queue that is finished and empty the worker therefore
    keeps alternating between the two for any number of its steps, is never
    stuck, and changes neither the heap (so it frees nothing) nor any
    context; and a worker that has exited has dequeued the sentinel, once. *)
Theorem worker_exits_only_on_sentinel
    (P0 : pipeline) (sched : list paction) (i : nat) :
  fresh_pipeline P0 = true →
  let P := prun sched P0 in
  (∀ g, workers P !! i = Some (WGot NULL) → ctxs P !! i = Some g →
     worker_step i P = Some (set_worker i (WGet GetEntry) P)) ∧
  (∀ g q gpc q' evs,
     workers P !! i = Some (WGet gpc) → ctxs P !! i = Some g →
     PluginCommon.queue g = Some q → get_step gpc q = Return NULL q' evs →
     worker_step i P =
       Some (set_worker i (WGot NULL)
               (emit [PGot i NULL] (upd_ctx i (set_queue q') P)))) ∧
  (∀ g q,
     workers P !! i = Some (WGet GetEntry) → ctxs P !! i = Some g →
     PluginCommon.queue g = Some q →
     ConsumerProducer.initialized q = 1 → count q = 0 → finished_flag q = 1 →
     ∀ n, let P' := prun (replicate n (StepWorker i)) P in
          (workers P' !! i = Some (WGet GetEntry) ∨
           workers P' !! i = Some (WGot NULL)) ∧
          is_Some (worker_step i P') ∧
          mem P' = mem P ∧ ctxs P' = ctxs P) ∧
  (workers P !! i = Some WExit → sentinels_seen i (log P) = 1%nat) ∧
  (sentinels_seen i (log P) = 0%nat → workers P !! i ≠ Some WExit).
Proof.
  intros Hfresh P. pose proof (prun_inv sched _ (fresh_inv _ Hfresh)) as HP.
  fold P in HP. split_and!.
  - intros g Hw Hg. by eapply ws_got_null.
  - intros g q gpc q' evs Hw Hg Hq Hs. by eapply ws_get_return.
  - intros g q Hw Hg Hq Hi Hc Hf n.
    destruct (worker_spins i P g q n Hg Hq Hi Hc Hf (or_introl Hw))
      as (H1 & H2 & H3 & H4 & _).
    done.
  - intros Hw. by rewrite (pi_sentinel _ HP i _ Hw).
  - intros H0 Hw. rewrite (pi_sentinel _ HP i _ Hw) in H0. done.
Qed.

Lemma worker_exits_only_on_sentinel_witness :
  fresh_pipeline upper_log = true ∧
  let P := prun hello_end upper_log in
  workers P !! 0%nat = Some WExit ∧ sentinels_seen 0 (log P) = 1%nat.
Proof.
  split; [vm_compute; reflexivity|]. cbn zeta.
  assert (H : workers (prun hello_end upper_log) !! 0%nat = Some WExit)
    by (vm_compute; reflexivity).
  split; [exact H|].
  refine (proj1 (proj2 (proj2 (proj2
            (worker_exits_only_on_sentinel upper_log hello_end 0 _)))) H).
  vm_compute. reflexivity.
Defined.



(** C2: buffers handed downstream are never freed.  The chain
    [uppercaser, logger] with queues of capacity 8 is fed [hello] and the
    sentinel and runs until both workers have exited with both queues
    drained.  Of the five buffers allocated, the worker of the first stage
    dequeued buffers 1 ([hello]) and 2 (the sentinel) and its transform
    allocated buffer 3 ([HELLO]); it freed buffer 1 once and never freed
    buffers 2 and 3, which it forwarded successfully: the downstream
    [plugin_place_work] enqueued copies of them (buffers 4 and 5). *)
Theorem forwarded_buffers_never_freed :
  let Pf := prun hello_end upper_log in
  workers Pf = [WExit; WExit] ∧
  feeders Pf = ∅ ∧
  ((λ g, (λ q, (count q, finished_flag q)) <$> PluginCommon.queue g) <$> ctxs Pf)
    = [Some (0, 1); Some (0, 1)] ∧
  List.filter (λ e, match e with PPrinted _ _ => true | _ => false end) (log Pf)
    = [PPrinted 1 "[logger] HELLO"] ∧
  next_addr (mem Pf) = 6 ∧
  ((λ p, cells (mem Pf) !! p) <$> [1; 2; 3; 4; 5])
    = [Some "hello"; Some "<END>"; Some "HELLO"; Some "HELLO"; Some "<END>"]%string ∧
  freed (mem Pf) = [1; 4; 5] ∧
  times_freed 1 (mem Pf) = 1%nat ∧
  times_freed 2 (mem Pf) = 0%nat ∧
  times_freed 3 (mem Pf) = 0%nat ∧
  PForwardEnd 0 2 ∈ log Pf ∧ PForward 0 3 ∈ log Pf.
Proof.
  cbn zeta. split_and!; try (vm_compute; reflexivity).
  - vm_compute. set_solver.
  - vm_compute. set_solver.
Qed.

End PipelineFacts.

(** ** The monitor as a latch *)

Section MonitorFacts.
Import Monitor.

Lemma monitor_apply_initialized m op :
  Monitor.initialized (monitor_apply m op) = Monitor.initialized m.
Proof.
  destruct op; unfold monitor_apply, monitor_signal, monitor_reset;
    by case_match.
Qed.

Lemma monitor_ops_initialized ops m :
  Monitor.initialized (monitor_ops ops m) = Monitor.initialized m.
Proof.
  revert m. induction ops as [|op ops IH]; intros m; [done|].
  unfold monitor_ops in *. cbn [foldl]. by rewrite IH, monitor_apply_initialized.
Qed.

Lemma monitor_ops_snoc ops op m :
  monitor_ops (ops ++ [op]) m = monitor_apply (monitor_ops ops m) op.
Proof. unfold monitor_ops. by rewrite foldl_app. Qed.

(** X1: the monitor is a latch that remembers the last of [signal] and
    [reset].  On an initialised monitor, after any sequence of
    [monitor_signal] and [monitor_reset] calls, [monitor_wait] returns 0 at
    once when the last call was a signal and sleeps when it was a reset;
    with no call in between it does what it did before, so a wait does not
    use up the signal.  On a monitor that was never initialised the calls
    change nothing and [monitor_wait] fails with -1. *)
Theorem monitor_remembers_last_call (m : monitor_t) (ops : list monitor_op) :
  (Monitor.initialized m ≠ 0 →
   monitor_wait (monitor_ops ops m) =
     match last ops with
     | Some MSignal => WaitReturn 0
     | Some MReset => WaitBlocked
     | None => monitor_wait m
     end) ∧
  (Monitor.initialized m = 0 →
   monitor_ops ops m = m ∧ monitor_wait (monitor_ops ops m) = WaitReturn (-1)).
Proof.
  split.
  - intros Hi. destruct ops as [|op ops _] using rev_ind; [done|].
    rewrite last_snoc, monitor_ops_snoc.
    pose proof (monitor_ops_initialized ops m) as Hk.
    destruct (monitor_ops ops m) as [sg ini]. cbn in Hk. subst ini.
    unfold monitor_wait, monitor_apply, monitor_signal, monitor_reset.
    destruct op; cbn; destruct (Z.eqb_spec (Monitor.initialized m) 0); try done;
      cbn; by rewrite ?(proj2 (Z.eqb_neq _ _) Hi).
  - intros Hi.
    assert (Hsame : monitor_ops ops m = m).
    { induction ops as [|op ops IH] using rev_ind; [done|].
      rewrite monitor_ops_snoc, IH.
      destruct op; unfold monitor_apply, monitor_signal, monitor_reset;
        by rewrite Hi. }
    rewrite Hsame. split; [done|]. unfold monitor_wait. by rewrite Hi.
Qed.

Lemma monitor_remembers_last_call_witness :
  Monitor.initialized (monitor_init Monitor.zeroed).2 ≠ 0 ∧
  monitor_wait (monitor_ops [MSignal; MReset; MSignal] (monitor_init Monitor.zeroed).2)
    = WaitReturn 0.
Proof.
  assert (H : Monitor.initialized (monitor_init Monitor.zeroed).2 ≠ 0) by (vm_compute; lia).
  split; [exact H|].
  exact (proj1 (monitor_remembers_last_call (monitor_init Monitor.zeroed).2
                  [MSignal; MReset; MSignal]) H).
Defined.

End MonitorFacts.

(** ** Life cycle of a queue *)

Section QueueLifeCycle.
Import Monitor ConsumerProducer.

(** Storage on which [consumer_producer_init] finds no flag set. *)
Lemma init_succeeds q cap :
  initialized q ≠ 1 →
  Monitor.initialized (not_full_monitor q) ≠ 1 →
  Monitor.initialized (not_empty_monitor q) ≠ 1 →
  Monitor.initialized (finished_monitor q) ≠ 1 →
  1 ≤ cap ≤ 268435455 →
  consumer_producer_init q cap =
    (None,
     {| items := replicate (Z.to_nat cap) NULL; capacity := cap; count := 0;
        head := 0; tail := 0;
        not_full_monitor := {| signaled := 0; Monitor.initialized := 1 |};
        not_empty_monitor := {| signaled := 0; Monitor.initialized := 1 |};
        finished_monitor := {| signaled := 0; Monitor.initialized := 1 |};
        initialized := 1; finished_flag := 0 |}).
Proof.
  intros Hq H1 H2 H3 Hc. unfold consumer_producer_init, monitor_init.
  rewrite cap_max.
  destruct (Z.leb_spec cap 0); [lia|].
  rewrite (proj2 (Z.eqb_neq _ _) Hq).
  destruct (Z.gtb_spec cap 268435455); [lia|].
  by rewrite (proj2 (Z.eqb_neq _ _) H1), (proj2 (Z.eqb_neq _ _) H2),
    (proj2 (Z.eqb_neq _ _) H3).
Qed.

Lemma init_outcomes_facts (q : consumer_producer_t) (cap : Z) :
  (cap ≤ 0 →
   consumer_producer_init q cap = (Some "Invalid queue capacity"%string, q)) ∧
  (0 < cap → initialized q = 1 →
   consumer_producer_init q cap = (Some "Queue already initialized"%string, q)) ∧
  (268435455 < cap → initialized q ≠ 1 →
   consumer_producer_init q cap = (Some "Queue capacity too large"%string, q)) ∧
  (1 ≤ cap ≤ 268435455 → initialized q ≠ 1 →
   Monitor.initialized (not_full_monitor q) ≠ 1 →
   Monitor.initialized (not_empty_monitor q) ≠ 1 →
   Monitor.initialized (finished_monitor q) ≠ 1 →
   let q' := (consumer_producer_init q cap).2 in
   (consumer_producer_init q cap).1 = None ∧
   wf q' ∧ capacity q' = cap ∧ contents q' = [] ∧ finished_flag q' = 0 ∧
   items q' = replicate (Z.to_nat cap) NULL ∧
   (∀ m, signaled (monitor_of m q') = 0)) ∧
  ((consumer_producer_init q cap).1 = None → 1 ≤ cap ≤ 268435455).
Proof.
  split_and!.
  - intros Hc. unfold consumer_producer_init.
    by destruct (Z.leb_spec cap 0); [|lia].
  - intros Hc Hi. unfold consumer_producer_init.
    destruct (Z.leb_spec cap 0); [lia|]. by rewrite Hi.
  - intros Hc Hi. unfold consumer_producer_init. rewrite cap_max.
    destruct (Z.leb_spec cap 0); [lia|].
    rewrite (proj2 (Z.eqb_neq _ _) Hi).
    by destruct (Z.gtb_spec cap 268435455); [|lia].
  - intros Hc Hi H1 H2 H3 q'.
    pose proof (init_succeeds q cap Hi H1 H2 H3 Hc) as Heq.
    assert (Hnone : (consumer_producer_init q cap).1 = None) by by rewrite Heq.
    destruct (init_ok q cap Hnone) as (Hwf & Hcap & Hcont & Hfin).
    split_and!; try done.
    + subst q'. by rewrite Heq.
    + intros m. subst q'. rewrite Heq. by destruct m.
  - intros Hnone. pose proof (init_capacity_range q cap Hnone) as H.
    by rewrite cap_max in H.
Qed.

(** X2: what [consumer_producer_init] returns.  A capacity that is not
    positive is refused first, then a queue that is already initialised
    (which is left untouched, so a live queue cannot be wiped by a second
    init), then a capacity above [INT_MAX] over the size of a pointer; the refused call
    leaves the storage as it was.  On storage with no flag set, every
    capacity from 1 to 268435455 is accepted and gives an empty, open,
    well-formed queue of that capacity whose slots are all NULL and whose
    monitors are unsignaled. *)
Theorem init_outcomes (q : consumer_producer_t) (cap : Z) :
  (cap ≤ 0 →
   consumer_producer_init q cap = (Some "Invalid queue capacity"%string, q)) ∧
  (0 < cap → initialized q = 1 →
   consumer_producer_init q cap = (Some "Queue already initialized"%string, q)) ∧
  (268435455 < cap → initialized q ≠ 1 →
   consumer_producer_init q cap = (Some "Queue capacity too large"%string, q)) ∧
  (1 ≤ cap ≤ 268435455 → initialized q ≠ 1 →
   Monitor.initialized (not_full_monitor q) ≠ 1 →
   Monitor.initialized (not_empty_monitor q) ≠ 1 →
   Monitor.initialized (finished_monitor q) ≠ 1 →
   let q' := (consumer_producer_init q cap).2 in
   (consumer_producer_init q cap).1 = None ∧
   wf q' ∧ capacity q' = cap ∧ contents q' = [] ∧ finished_flag q' = 0 ∧
   items q' = replicate (Z.to_nat cap) NULL ∧
   (∀ m, signaled (monitor_of m q') = 0)) ∧
  ((consumer_producer_init q cap).1 = None → 1 ≤ cap ≤ 268435455).
Proof. apply init_outcomes_facts. Qed.

Lemma init_outcomes_witness :
  let q' := (consumer_producer_init ConsumerProducer.zeroed 3).2 in
  (consumer_producer_init ConsumerProducer.zeroed 3).1 = None ∧
  wf q' ∧ capacity q' = 3 ∧ contents q' = [] ∧ finished_flag q' = 0 ∧
  items q' = replicate (Z.to_nat 3) NULL ∧
  (∀ m, signaled (monitor_of m q') = 0).
Proof.
  refine (proj1 (proj2 (proj2 (proj2 (init_outcomes ConsumerProducer.zeroed 3))))
            _ _ _ _ _); vm_compute; try lia. split; discriminate.
Defined.

(** The drain loop visits the live slots in ring order. *)
Lemma destroy_drain_spec q n k its frees :
  wf q → (k + n ≤ Z.to_nat (count q))%nat →
  (∀ j, (k ≤ j < Z.to_nat (count q))%nat → its !! slot q j = items q !! slot q j) →
  length its = length (items q) →
  (destroy_drain n (Z.of_nat k) (head q) (capacity q) its frees).2 =
    frees ++ take n (drop k (contents q)).
Proof.
  intros Hwf. revert k its frees. induction n as [|n IH]; intros k its frees Hk Hits Hlen.
  - cbn. by rewrite take_0, app_nil_r.
  - cbn [destroy_drain].
    destruct Hwf as [Hi Hcap Hitems Hcount Hhead Htail Hfin Hmon Hlive].
    rewrite cap_max in Hcap.
    assert (Hidx : Z.to_nat (Z.rem (wrap_int (head q + Z.of_nat k)) (capacity q)) = slot q k).
    { unfold slot. rewrite wrap_int_small by (unfold INT_MIN, INT_MAX; lia).
      rewrite Z.rem_mod_nonneg by lia. done. }
    rewrite Hidx.
    rewrite wrap_int_small by (unfold INT_MIN, INT_MAX; lia).
    replace (Z.of_nat k + 1) with (Z.of_nat (S k)) by lia.
    rewrite IH.
    + rewrite <- app_assoc. f_equal.
      rewrite Hits by lia.
      assert (Hlk : contents q !! k = Some (default NULL (items q !! slot q k))).
      { apply contents_lookup. lia. }
      rewrite (drop_S _ _ _ Hlk). done.
    + lia.
    + intros j Hj. rewrite list_lookup_insert_ne; [apply Hits; lia|].
      intros Heq. apply (slot_inj q k j) in Heq; [lia| |lia|lia].
      by constructor.
    + by rewrite length_insert.
Qed.

Lemma destroy_spec q :
  wf q → consumer_producer_destroy q = (ConsumerProducer.zeroed, contents q).
Proof.
  intros Hwf. pose proof Hwf as [Hi Hcap Hitems Hcount Hhead Htail Hfin (H1 & H2 & H3) Hlive].
  unfold consumer_producer_destroy. rewrite Hi. cbn [negb Z.eqb Pos.eqb].
  unfold monitor_destroy. rewrite H1, H2, H3. cbn [Z.eqb].
  assert (Hfrees : (if negb (bool_decide (items q = [])) && (count q >? 0) && (capacity q >? 0)
      then destroy_drain (Z.to_nat (count q)) 0 (head q) (capacity q) (items q) []
      else (items q, [])).2 = contents q).
  { destruct (Z.gtb_spec (count q) 0) as [Hpos|Hz].
    - rewrite bool_decide_eq_false_2.
      2:{ intros Hnil. rewrite Hnil in Hitems. cbn in Hitems. lia. }
      destruct (Z.gtb_spec (capacity q) 0); [|lia]. cbn [negb andb].
      rewrite (destroy_drain_spec q _ 0 (items q) [] Hwf); [|lia|done|done].
      rewrite drop_0, app_nil_l. apply take_ge. rewrite contents_length. lia.
    - rewrite andb_false_r. cbn [andb snd].
      symmetry. apply length_zero_iff_nil. rewrite contents_length. lia. }
  destruct (if negb (bool_decide (items q = [])) && (count q >? 0) && (capacity q >? 0)
      then _ else _) as [its frees]. cbn in Hfrees. by subst frees.
Qed.

(** X3: [consumer_producer_destroy] on a live queue passes exactly the
    items still in the queue to [free], each once and in the order [get]
    would have handed them out, and leaves the storage zeroed: a second
    destroy does nothing and frees nothing, and [consumer_producer_init]
    accepts the storage again. *)
Theorem destroy_frees_contents_and_zeroes (q : consumer_producer_t) (cap : Z) :
  wf q →
  consumer_producer_destroy q = (ConsumerProducer.zeroed, contents q) ∧
  consumer_producer_destroy (consumer_producer_destroy q).1
    = (ConsumerProducer.zeroed, []) ∧
  (1 ≤ cap ≤ 268435455 →
   (consumer_producer_init (consumer_producer_destroy q).1 cap).1 = None).
Proof.
  intros Hwf. rewrite (destroy_spec q Hwf). split; [done|]. split; [done|].
  intros Hc. cbn [fst].
  rewrite (init_succeeds ConsumerProducer.zeroed cap); done.
Qed.

(** X4: no call ever blocks on, or changes, a queue that is not
    initialised (never initialised, or destroyed): [put] is refused with an
    error, [get] returns NULL, [signal_finished] and [destroy] do nothing
    and [wait_finished] returns -1. *)
Theorem uninitialized_queue_fails_fast (q : consumer_producer_t) (item : Z) :
  initialized q ≠ 1 →
  consumer_producer_put q item =
    Some (Some (if item =? NULL then "Item pointer is NULL"%string
                else "Queue not initialized"%string), q, []) ∧
  consumer_producer_get q = Some (NULL, q, []) ∧
  consumer_producer_signal_finished q = Some ((), q, []) ∧
  consumer_producer_wait_finished q = Some (-1, q, []) ∧
  consumer_producer_destroy q = (q, []).
Proof.
  intros Hi. apply Z.eqb_neq in Hi.
  unfold consumer_producer_put, consumer_producer_get,
    consumer_producer_signal_finished, consumer_producer_wait_finished,
    consumer_producer_destroy.
  cbn [solo put_step get_step sf_step wf_step]. rewrite Hi. cbn [negb].
  split_and!; try done. by destruct (item =? 0).
Qed.

End QueueLifeCycle.

Section QueueLifeCycleWitnesses.
Import Monitor ConsumerProducer.

Lemma two_items_wf : wf two_items.
Proof. exact (inv_wf _ (run_inv _ _ (boot_inv ConsumerProducer.zeroed 2 eq_refl))). Qed.

Lemma destroy_frees_contents_and_zeroes_witness :
  consumer_producer_destroy two_items = (ConsumerProducer.zeroed, [5; 6]).
Proof.
  exact (proj1 (destroy_frees_contents_and_zeroes two_items 1 two_items_wf)).
Defined.

Lemma uninitialized_queue_fails_fast_witness :
  consumer_producer_get (consumer_producer_destroy two_items).1
    = Some (NULL, (consumer_producer_destroy two_items).1, []).
Proof.
  refine (proj1 (proj2 (uninitialized_queue_fails_fast
                          (consumer_producer_destroy two_items).1 0 _))).
  vm_compute. discriminate.
Defined.

End QueueLifeCycleWitnesses.

(** ** The queue used by one thread *)

Section SequentialQueue.
Import Monitor ConsumerProducer.

Lemma contents_set_not_empty m q : contents (set_not_empty m q) = contents q.
Proof. done. Qed.

Lemma contents_set_not_full m q : contents (set_not_full m q) = contents q.
Proof. done. Qed.

Lemma contents_set_finished_monitor m q :
  contents (set_finished_monitor m q) = contents q.
Proof. done. Qed.

Lemma put_returns_solo q item :
  wf q → item ≠ NULL → finished_flag q = 0 → count q < capacity q →
  let q' := set_not_empty (monitor_signal (not_empty_monitor (put_insert item q)))
              (put_insert item q) in
  consumer_producer_put q item = Some (None, q', [EvEnq item; EvSignal NotEmpty]) ∧
  wf q' ∧ contents q' = contents q ++ [item] ∧ capacity q' = capacity q ∧
  finished_flag q' = 0.
Proof.
  intros Hwf Hitem Hfin Hroom q'.
  pose proof (put_insert_wf item q Hwf Hroom Hitem) as Hwf1.
  split_and!.
  - unfold consumer_producer_put. cbn [solo put_step].
    rewrite (proj2 (Z.eqb_neq _ _) Hitem), (wf_initialized _ Hwf), Hfin.
    cbn [Z.eqb Pos.eqb negb solo put_step]. rewrite Hfin. cbn [Z.eqb].
    unfold put_loop, queue_is_full.
    rewrite (proj2 (Z.eqb_neq _ _)) by lia. cbn [solo put_step app]. done.
  - subst q'. apply (step_ok_not_empty _ _ Hwf1 (signal_initialized _) []); done.
  - subst q'. rewrite contents_set_not_empty. by apply put_insert_contents.
  - done.
  - done.
Qed.

Lemma get_returns_solo q :
  wf q → count q ≠ 0 →
  ∃ q' evs, consumer_producer_get q = Some ((get_dequeue q).1, q', evs) ∧
            wf q' ∧ contents q = (get_dequeue q).1 :: contents q' ∧
            capacity q' = capacity q ∧ finished_flag q' = finished_flag q ∧
            (get_dequeue q).1 ≠ NULL.
Proof.
  intros Hwf Hne.
  assert (Hpos : 0 < count q) by (pose proof (wf_count _ Hwf); lia).
  destruct (get_dequeue_wf q Hwf Hpos) as [Hwf1 Hx].
  pose proof (get_dequeue_contents q Hwf Hpos) as Hc.
  destruct (get_loop_spec q Hwf) as (_ & _ & Hloop).
  unfold consumer_producer_get. cbn [solo get_step].
  rewrite (wf_initialized _ Hwf). cbn [Z.eqb Pos.eqb negb].
  rewrite (Hloop Hne). cbn [solo get_step].
  set (q1 := (get_dequeue q).2) in *.
  assert (Hwf2 : wf (set_not_full (monitor_signal (not_full_monitor q1)) q1)).
  { apply (step_ok_not_full _ _ Hwf1 (signal_initialized _) []); done. }
  destruct ((count q1 =? 0) && (finished_flag q =? 1)); cbn [solo get_step].
  - eexists _, _. split; [done|]. split_and!; try done.
    apply (step_ok_finished_monitor _ _ Hwf2 (signal_initialized _) []); done.
  - eexists _, _. split; [done|]. split_and!; done.
Qed.

(** X5: used by a single thread, the queue is a bounded FIFO.  On a live
    queue, a [put] of a non-null item is refused once the queue is finished,
    goes to sleep when the queue is full (it resets [not_full] and its wait
    is blocked, however many steps it is given: nobody else can make room),
    and otherwise succeeds and appends the item behind the items already
    there; a [get] returns NULL when the queue is empty and finished, goes
    to sleep in the same way on [not_empty] when it is empty and open, and
    otherwise returns the oldest item and leaves the others in order.  So a
    [put] into an empty queue followed by a [get] hands back the very
    pointer that was put. *)
Theorem single_thread_bounded_fifo (q : consumer_producer_t) (item : Z) :
  wf q → item ≠ NULL →
  (finished_flag q = 1 →
   consumer_producer_put q item = Some (Some err_after_finished, q, [])) ∧
  (finished_flag q = 0 → count q = capacity q →
   let q1 := set_not_full (monitor_reset (not_full_monitor q)) q in
   (∀ n, (3 ≤ n)%nat →
      solo_ending (put_step item) n PutEntry q [] =
        Asleep PutWait q1 [EvReset NotFull]) ∧
   put_step item PutWait q1 = Blocked ∧ contents q1 = contents q) ∧
  (finished_flag q = 0 → count q < capacity q →
   ∃ q' evs, consumer_producer_put q item = Some (None, q', evs) ∧
             wf q' ∧ contents q' = contents q ++ [item] ∧
             capacity q' = capacity q ∧ finished_flag q' = 0) ∧
  (count q = 0 → finished_flag q = 1 →
   consumer_producer_get q = Some (NULL, q, [])) ∧
  (count q = 0 → finished_flag q = 0 →
   let q1 := set_not_empty (monitor_reset (not_empty_monitor q)) q in
   (∀ n, (2 ≤ n)%nat →
      solo_ending get_step n GetEntry q [] =
        Asleep GetWait q1 [EvReset NotEmpty]) ∧
   get_step GetWait q1 = Blocked) ∧
  (∀ x rest, contents q = x :: rest →
   ∃ q' evs, consumer_producer_get q = Some (x, q', evs) ∧
             wf q' ∧ contents q' = rest ∧ x ≠ NULL ∧
             capacity q' = capacity q ∧ finished_flag q' = finished_flag q) ∧
  (count q = 0 → finished_flag q = 0 →
   ∃ q1 evs1 q2 evs2,
     consumer_producer_put q item = Some (None, q1, evs1) ∧
     consumer_producer_get q1 = Some (item, q2, evs2) ∧ contents q2 = []).
Proof.
  intros Hwf Hitem.
  pose proof (wf_initialized _ Hwf) as Hi.
  pose proof (wf_capacity _ Hwf) as Hcap.
  destruct (wf_monitors _ Hwf) as (Hm1 & Hm2 & Hm3).
  assert (Hget : ∀ x rest, contents q = x :: rest →
   ∃ q' evs, consumer_producer_get q = Some (x, q', evs) ∧
             wf q' ∧ contents q' = rest ∧ x ≠ NULL ∧
             capacity q' = capacity q ∧ finished_flag q' = finished_flag q).
  { intros x rest Hc.
    assert (Hne : count q ≠ 0).
    { intros H0. pose proof (contents_length q) as Hl. rewrite Hc, H0 in Hl. done. }
    destruct (get_returns_solo q Hwf Hne) as (q' & evs & Hg & Hwf' & Hc' & Hcap' & Hf' & Hx).
    rewrite Hc in Hc'. injection Hc' as Hx1 Hrest. subst x rest.
    exists q', evs. by split_and!. }
  split_and!.
  - intros Hf. unfold consumer_producer_put. cbn [solo put_step].
    by rewrite (proj2 (Z.eqb_neq _ _) Hitem), Hi, Hf.
  - intros Hf Hfull q1.
    destruct (put_sleeps q item PutLock Hwf (or_introl (conj eq_refl Hf)) Hfull)
      as (Hlock & _ & Hblocked).
    split_and!; [|done|done].
    intros [|[|[|n]]] Hn; [lia..|]. cbn [solo_ending put_step].
    rewrite (proj2 (Z.eqb_neq _ _) Hitem), Hi, Hf.
    cbn [Z.eqb Pos.eqb negb solo_ending].
    rewrite Hlock. cbn [solo_ending app]. by rewrite Hblocked.
  - intros Hf Hroom.
    destruct (put_returns_solo q item Hwf Hitem Hf Hroom) as (Hp & ? & ? & ? & ?).
    eexists _, _. by split_and!.
  - intros Hc Hf. unfold consumer_producer_get. cbn [solo get_step].
    rewrite Hi. cbn [Z.eqb Pos.eqb negb].
    destruct (get_loop_spec q Hwf) as (Hl & _). by rewrite (Hl Hc Hf).
  - intros Hc Hf q1.
    destruct (get_sleeps q GetEntry Hwf (or_introl eq_refl) Hc Hf)
      as (Hentry & _ & Hblocked).
    split; [|done].
    intros [|[|n]] Hn; [lia..|]. cbn [solo_ending].
    rewrite Hentry. cbn [solo_ending app]. by rewrite Hblocked.
  - exact Hget.
  - intros Hc Hf.
    destruct (put_returns_solo q item Hwf Hitem Hf ltac:(lia)) as (Hp & Hwf1 & Hc1 & _).
    assert (Hnil : contents q = []).
    { apply length_zero_iff_nil. rewrite contents_length, Hc. done. }
    rewrite Hnil in Hc1. cbn [app] in Hc1.
    set (q1 := set_not_empty _ _) in *.
    assert (Hne : count q1 ≠ 0).
    { intros H0. pose proof (contents_length q1) as Hl. rewrite Hc1, H0 in Hl. done. }
    destruct (get_returns_solo q1 Hwf1 Hne) as (q2 & evs2 & Hg & _ & Hc2 & _).
    rewrite Hc1 in Hc2.
    assert (Hx : (get_dequeue q1).1 = item) by congruence.
    assert (Hrest : contents q2 = []) by congruence.
    exists q1, [EvEnq item; EvSignal NotEmpty], q2, evs2.
    rewrite Hx in Hg. by split_and!.
Qed.

Lemma single_thread_bounded_fifo_witness :
  put_step 9 PutWait
    (set_not_full (monitor_reset (not_full_monitor two_items)) two_items)
    = Blocked ∧
  ∃ q' evs, consumer_producer_get two_items = Some (5, q', evs) ∧
            wf q' ∧ contents q' = [6] ∧ 5 ≠ NULL ∧
            capacity q' = capacity two_items ∧
            finished_flag q' = finished_flag two_items.
Proof.
  assert (H9 : 9 ≠ NULL) by discriminate.
  split.
  - exact (proj1 (proj2 (proj1 (proj2 (single_thread_bounded_fifo two_items 9
                                         two_items_wf H9)) eq_refl eq_refl))).
  - exact (proj1 (proj2 (proj2 (proj2 (proj2 (proj2
             (single_thread_bounded_fifo two_items 9 two_items_wf H9))))))
             5 [6] eq_refl).
Defined.

End SequentialQueue.

(** ** No lost wake-up *)

Section WakeUps.
Import Monitor ConsumerProducer.

Ltac eqb_prop :=
  repeat match goal with
  | H : (_ =? _) = true |- _ => apply Z.eqb_eq in H
  | H : (_ =? _) = false |- _ => apply Z.eqb_neq in H
  | H : (_ >? _) = true |- _ => apply Z.gtb_gt in H
  | H : (_ >? _) = false |- _ => rewrite Z.gtb_ltb, Z.ltb_ge in H
  | H : negb _ = true |- _ => apply negb_true_iff in H
  | H : negb _ = false |- _ => apply negb_false_iff in H
  | H : _ && _ = true |- _ => apply andb_true_iff in H; destruct H
  | H : _ && _ = false |- _ => apply andb_false_iff in H; destruct H
  end.

Ltac wake_case :=
  repeat match goal with
  | H : Some _ = Some _ |- _ => injection H as <- <-
  | H : None = Some _ |- _ => discriminate H
  end;
  cbn in *;
  split_and!; intros; simplify_eq; cbn in *; try done; try lia;
  eqb_prop; try done; try lia;
  repeat match goal with
  | |- (_ =? _) = true => apply Z.eqb_eq
  | |- (_ && _) = true => apply andb_true_iff; split
  | |- negb _ = true => apply negb_true_iff
  | |- (_ && _) = false => apply andb_false_iff
  | |- (_ =? _) = false => apply Z.eqb_neq
  end; try done; try lia.

Lemma step_wake pc q npc q' m :
  wf q → pc_inv q pc → after_step (op_step pc q) = Some (npc, q') →
  (signaled (monitor_of m q') = 0 → signaled (monitor_of m q) ≠ 0 →
   must_wait m q' = true) ∧
  (∀ pc', npc = Some pc' → sleeps_on pc' = Some m → must_wait m q' = true) ∧
  (must_wait m q = true → must_wait m q' = false →
   from_option (will_signal m) false npc = true) ∧
  (will_signal m pc = true →
   from_option (will_signal m) false npc = true ∨
   signaled (monitor_of m q') ≠ 0).
Proof.
  intros [Hi Hcap Hitems Hcount Hhead Htail Hfin (H1 & H2 & H3) Hlive] Hpc.
  rewrite cap_max in Hcap.
  destruct q as [its cap cnt hd tl [s1 i1] [s2 i2] [s3 i3] ini fin].
  cbn in Hi, Hcap, Hcount, Hhead, Hfin, H1, H2, H3. subst ini i1 i2 i3.
  clear Hitems Htail Hlive.
  assert (Hw1 : wrap_int (cnt + 1) = cnt + 1)
    by (apply wrap_int_small; unfold INT_MIN, INT_MAX; lia).
  assert (Hw2 : wrap_int (cnt - 1) = cnt - 1)
    by (apply wrap_int_small; unfold INT_MIN, INT_MAX; lia).
  destruct m; unfold must_wait, queue_is_full, queue_is_empty;
  destruct pc as [item [| | | |]|[| | |x be|x]|[| |]|[| | | |]];
    cbn [op_step put_step get_step sf_step wf_step];
    unfold put_loop, get_loop, wf_phase1, wf_phase2, wf_wait, get_dequeue,
      put_insert, queue_is_full, queue_is_empty, monitor_wait, monitor_signal,
      monitor_reset, set_not_full, set_not_empty, set_finished_monitor,
      set_finished_flag;
    cbn [initialized finished_flag count capacity not_full_monitor
         not_empty_monitor finished_monitor Monitor.initialized signaled
         negb Z.eqb Pos.eqb fst snd];
    rewrite ?Hw1, ?Hw2;
    repeat case_match; cbn [after_step lift]; intros Hafter;
    try discriminate Hafter; simplify_eq;
    cbn [monitor_of will_signal sleeps_on from_option
                     not_full_monitor not_empty_monitor finished_monitor
                     signaled count capacity finished_flag];
    wake_case.
  all: by rewrite (proj2 (Z.eqb_eq _ _)), (proj2 (Z.eqb_eq _ _)).
Qed.

Lemma sleeper_not_signaller m pc :
  sleeps_on pc = Some m → ∀ m', will_signal m' pc = false.
Proof.
  destruct pc as [item [| | | |]|[| | |x be|x]|[| |]|[| | | |]]; try done;
    intros _ []; done.
Qed.

Lemma signaller_not_blocked m pc q :
  will_signal m pc = true → after_step (op_step pc q) ≠ None.
Proof.
  destruct pc as [item [| | | |]|[| | |x be|x]|[| |]|[| | | |]], m; try done;
    intros _; cbn; try done; by destruct be.
Qed.

Lemma blocked_sleeps pc q :
  wf q → op_step pc q = Blocked →
  ∃ m, sleeps_on pc = Some m ∧ signaled (monitor_of m q) = 0.
Proof.
  intros Hwf. destruct (wf_monitors _ Hwf) as (H1 & H2 & H3).
  destruct pc as [item [| | | |]|[| | |x be|x]|[| |]|[| | | |]];
    cbn [op_step put_step get_step sf_step wf_step];
    unfold put_loop, get_loop, wf_phase1, wf_phase2, wf_wait, monitor_wait;
    rewrite ?H1, ?H2, ?H3; cbn [Z.eqb]; repeat case_match; try done;
    intros _; eqb_prop; eauto.
Qed.

Lemma sys_step_wake a s : sys_inv s → wake_inv s → wake_inv (sys_step a s).
Proof.
  intros Hinv Hwake. destruct a as [t c|t]; cbn [sys_step].
  - destruct (threads s !! t) as [pc0|] eqn:Ht; [done|].
    intros m t0 pc Hpc Hsl Hsig. cbn [threads queue] in *.
    destruct (decide (t0 = t)) as [->|Hne].
    { rewrite lookup_insert_eq in Hpc. injection Hpc as <-. by destruct c. }
    rewrite lookup_insert_ne in Hpc by done.
    destruct (Hwake m t0 pc Hpc Hsl Hsig) as [?|(t' & pc' & Ht' & Hws)]; [by left|].
    right. exists t', pc'. split; [|done].
    rewrite lookup_insert_ne; [done|]. intros ->. by rewrite Ht in Ht'.
  - destruct (threads s !! t) as [pc0|] eqn:Ht; [|done].
    pose proof (inv_wf _ Hinv) as Hwf.
    pose proof (inv_threads _ Hinv t pc0 Ht) as Hpc0. cbn beta in Hpc0.
    destruct (op_step pc0 (queue s)) as [|pc1 q1 evs|r q1 evs] eqn:Hstep; [done| |].
    + intros m t0 pc Hpc Hsl Hsig. cbn [threads queue] in *.
      destruct (step_wake pc0 (queue s) (Some pc1) q1 m Hwf Hpc0) as (Ha & Hb & Hc & Hd).
      { by rewrite Hstep. }
      destruct (decide (t0 = t)) as [->|Hne].
      { rewrite lookup_insert_eq in Hpc. injection Hpc as <-. left. by apply (Hb pc1). }
      rewrite lookup_insert_ne in Hpc by done.
      destruct (decide (signaled (monitor_of m (queue s)) = 0)) as [Hs0|Hs1];
        [|left; by apply Ha].
      destruct (must_wait m q1) eqn:Hmw; [by left|]. right.
      destruct (Hwake m t0 pc Hpc Hsl Hs0) as [Hmust|(t' & pc' & Ht' & Hws)].
      * exists t, pc1. rewrite lookup_insert_eq. split; [done|]. by apply Hc.
      * destruct (decide (t' = t)) as [->|Hne'].
        -- rewrite Ht in Ht'. injection Ht' as <-.
           destruct (Hd Hws) as [Hk|Hk]; [|done].
           exists t, pc1. by rewrite lookup_insert_eq.
        -- exists t', pc'. by rewrite lookup_insert_ne.
    + intros m t0 pc Hpc Hsl Hsig. cbn [threads queue] in *.
      destruct (step_wake pc0 (queue s) None q1 m Hwf Hpc0) as (Ha & Hb & Hc & Hd).
      { by rewrite Hstep. }
      destruct (decide (t0 = t)) as [->|Hne].
      { by rewrite lookup_delete_eq in Hpc. }
      rewrite lookup_delete_ne in Hpc by done.
      destruct (decide (signaled (monitor_of m (queue s)) = 0)) as [Hs0|Hs1];
        [|left; by apply Ha].
      destruct (must_wait m q1) eqn:Hmw; [by left|]. right.
      destruct (Hwake m t0 pc Hpc Hsl Hs0) as [Hmust|(t' & pc' & Ht' & Hws)].
      * by specialize (Hc Hmust eq_refl).
      * destruct (decide (t' = t)) as [->|Hne'].
        -- rewrite Ht in Ht'. injection Ht' as <-.
           destruct (Hd Hws) as [Hk|Hk]; done.
        -- exists t', pc'. by rewrite lookup_delete_ne.
Qed.

Lemma run_wake sched s : sys_inv s → wake_inv s → wake_inv (run sched s).
Proof.
  revert s. induction sched as [|a sched IH]; intros s Hinv Hwake; [done|].
  rewrite run_cons. apply IH; [by apply sys_step_inv|by apply sys_step_wake].
Qed.

(** X6: no wake-up is lost.  From an initialised queue, in every state
    reached by any number of threads calling [put], [get],
    [signal_finished] and [wait_finished] in any interleaving, a thread is
    blocked only inside a [monitor_wait], and for each blocked thread either
    the queue is in the state the thread has to wait in (full for a
    producer; empty and not finished for a consumer; not yet both finished
    and drained for [wait_finished]), or another thread has already left the
    critical section that changed this and is on its way to the
    [monitor_signal] that wakes the sleeper, and that thread is not
    blocked. *)
Theorem no_lost_wakeup
    (q0 : consumer_producer_t) (c : Z) (sched : list action) (t : nat) (pc : op_pc) :
  (consumer_producer_init q0 c).1 = None →
  let s := run sched (boot q0 c) in
  threads s !! t = Some pc →
  op_step pc (queue s) = Blocked →
  ∃ m, sleeps_on pc = Some m ∧
       (must_wait m (queue s) = true ∨
        ∃ t' pc', t' ≠ t ∧ threads s !! t' = Some pc' ∧
                  will_signal m pc' = true ∧
                  after_step (op_step pc' (queue s)) ≠ None).
Proof.
  intros Hinit s Hpc Hblocked.
  pose proof (run_inv sched _ (boot_inv q0 c Hinit)) as Hinv. fold s in Hinv.
  assert (Hwake : wake_inv s).
  { apply run_wake; [by apply boot_inv|]. intros m t0 pc0 H0. done. }
  destruct (blocked_sleeps pc (queue s) (inv_wf _ Hinv) Hblocked) as (m & Hsl & Hsig).
  exists m. split; [done|].
  destruct (Hwake m t pc Hpc Hsl Hsig) as [?|(t' & pc' & Ht' & Hws)]; [by left|].
  right. exists t', pc'. split_and!; try done.
  - intros ->. rewrite Hpc in Ht'. injection Ht' as <-.
    by rewrite (sleeper_not_signaller m pc Hsl m) in Hws.
  - by eapply signaller_not_blocked.
Qed.

(** A consumer asleep on the empty queue while a producer has inserted an
    item and not yet signaled. *)
Lemma no_lost_wakeup_witness :
  (consumer_producer_init ConsumerProducer.zeroed 2).1 = None ∧
  let s := run sleeper_demo (boot ConsumerProducer.zeroed 2) in
  threads s !! 1%nat = Some (InGet GetWait) ∧
  op_step (InGet GetWait) (queue s) = Blocked ∧
  ∃ m, sleeps_on (InGet GetWait) = Some m ∧
       (must_wait m (queue s) = true ∨
        ∃ t' pc', t' ≠ 1%nat ∧ threads s !! t' = Some pc' ∧
                  will_signal m pc' = true ∧
                  after_step (op_step pc' (queue s)) ≠ None).
Proof.
  split; [reflexivity|]. cbn zeta.
  assert (H1 : threads (run sleeper_demo (boot ConsumerProducer.zeroed 2)) !! 1%nat
               = Some (InGet GetWait)) by (vm_compute; reflexivity).
  assert (H2 : op_step (InGet GetWait)
                 (queue (run sleeper_demo (boot ConsumerProducer.zeroed 2))) = Blocked)
    by (vm_compute; reflexivity).
  split; [exact H1|]. split; [exact H2|].
  exact (no_lost_wakeup ConsumerProducer.zeroed 2 sleeper_demo
           1 (InGet GetWait) eq_refl H1 H2).
Defined.

End WakeUps.

(** ** The transforms of the plugins *)

Section PluginTransforms.
Import PluginCommon Plugins.

Lemma string_length_list s : String.length s = length (String.list_ascii_of_string s).
Proof. induction s as [|c s IH]; [done|]. cbn. by rewrite IH. Qed.

Lemma list_string_length l : String.length (String.string_of_list_ascii l) = length l.
Proof. by rewrite string_length_list, String.list_ascii_of_string_of_list_ascii. Qed.

Lemma char_at_app_r l x : char_at (l ++ [x]) (length l) = x.
Proof.
  unfold char_at. rewrite lookup_app_r by lia.
  by rewrite Nat.sub_diag.
Qed.

Lemma char_at_app_l l l' i : (i < length l)%nat → char_at (l ++ l') i = char_at l i.
Proof. intros. unfold char_at. by rewrite lookup_app_l. Qed.

Lemma chars_self l : (λ i, char_at l i) <$> seq 0 (length l) = l.
Proof.
  apply list_eq. intros i. rewrite list_lookup_fmap.
  destruct (decide (i < length l)%nat) as [Hi|Hi].
  - rewrite lookup_seq_lt by done. cbn. unfold char_at.
    destruct (lookup_lt_is_Some_2 l i Hi) as [x Hx]. by rewrite Hx.
  - rewrite lookup_seq_ge by lia. cbn. symmetry. apply lookup_ge_None. lia.
Qed.

Lemma chars_prefix l l' :
  (λ i, char_at (l ++ l') i) <$> seq 0 (length l) = l.
Proof.
  trans ((λ i, char_at l i) <$> seq 0 (length l)); [|apply chars_self].
  apply list_fmap_ext.
  intros i x Hx. apply lookup_seq in Hx as [-> Hlt]. by apply char_at_app_l.
Qed.

Lemma rotate_right_snoc l x : rotate_right (l ++ [x]) = x :: l.
Proof.
  unfold rotate_right. rewrite length_app. cbn [length].
  replace (length l + 1 - 1)%nat with (length l) by lia.
  by rewrite char_at_app_r, chars_prefix.
Qed.

Lemma rotate_right_iter l1 l2 :
  Nat.iter (length l2) rotate_right (l1 ++ l2) = l2 ++ l1.
Proof.
  revert l1. induction l2 as [|x l2 IH] using rev_ind; intros l1.
  - by rewrite app_nil_r.
  - rewrite length_app. cbn [length].
    replace (length l2 + 1)%nat with (S (length l2)) by lia.
    rewrite Nat.iter_succ_r, app_assoc, rotate_right_snoc.
    change (x :: l1 ++ l2) with ((x :: l1) ++ l2).
    rewrite (IH (x :: l1)). by rewrite <- app_assoc.
Qed.

Lemma rotate_right_length l : l ≠ [] → length (rotate_right l) = length l.
Proof.
  destruct l as [|x l _] using rev_ind; [done|]. intros _.
  rewrite rotate_right_snoc, length_app. cbn. lia.
Qed.

Lemma rotated_list s :
  s ≠ END_SENTINEL → s ≠ ""%string →
  String.list_ascii_of_string (rotated s) =
    rotate_right (String.list_ascii_of_string s).
Proof.
  intros Hend Hne. unfold rotated, rotator_transform.
  rewrite (proj2 (String.eqb_neq _ _) Hend).
  destruct (Nat.leb_spec (String.length s) 1) as [Hle|Hgt]; cbn [fst].
  - destruct s as [|c [|d s]]; [done|done|cbn in Hle; lia].
  - by rewrite String.list_ascii_of_string_of_list_ascii.
Qed.

Lemma rotated_end : rotated END_SENTINEL = END_SENTINEL.
Proof. done. Qed.

Lemma rotated_iter_list input k :
  input ≠ ""%string →
  (∀ j, (j < k)%nat → Nat.iter j rotated input ≠ END_SENTINEL) →
  String.list_ascii_of_string (Nat.iter k rotated input) =
    Nat.iter k rotate_right (String.list_ascii_of_string input) ∧
  Nat.iter k rotated input ≠ ""%string.
Proof.
  intros Hne. induction k as [|k IH]; intros Hk; [done|].
  destruct IH as [IH Hnek]; [intros j Hj; apply Hk; lia|].
  rewrite Nat.iter_succ.
  assert (Hl : String.list_ascii_of_string (rotated (Nat.iter k rotated input)) =
               rotate_right (String.list_ascii_of_string (Nat.iter k rotated input))).
  { apply rotated_list; [apply Hk; lia|done]. }
  split; [by rewrite Hl, IH|].
  intros Hempty. rewrite Hempty in Hl. cbn in Hl.
  unfold rotate_right in Hl. done.
Qed.

Lemma rotated_round_trip (input : string) :
  (∀ k, (k < String.length input)%nat → Nat.iter k rotated input ≠ END_SENTINEL) →
  Nat.iter (String.length input) rotated input = input.
Proof.
  intros Hk. destruct (decide (input = ""%string)) as [->|Hne]; [done|].
  destruct (rotated_iter_list input (String.length input) Hne Hk) as [Hl _].
  pose proof (rotate_right_iter [] (String.list_ascii_of_string input)) as H.
  rewrite app_nil_r, <- string_length_list in H. cbn [app] in H.
  rewrite <- (String.string_of_list_ascii_of_string
                (Nat.iter (String.length input) rotated input)).
  by rewrite Hl, H, String.string_of_list_ascii_of_string.
Qed.

Lemma rotated_end_absorbs (input : string) k m :
  Nat.iter k rotated input = END_SENTINEL → (k ≤ m)%nat →
  Nat.iter m rotated input = END_SENTINEL.
Proof.
  intros Hk Hle. induction Hle as [|m Hle IH]; [done|].
  rewrite Nat.iter_succ. by rewrite IH.
Qed.

(** X7: the rotator.  On a payload of two characters or more that is not
    the sentinel, the rotator returns a new buffer of the same length that
    holds the last character of the input followed by all the others in
    their order, a permutation of the input; it returns the same pointer
    for the sentinel and for payloads of at most one character; and it
    prints nothing.  Passing a text through the rotator as many times as it
    has characters gives the text back, provided none of the rotations on
    the way is the sentinel; once a rotation is the sentinel, every later
    result is the sentinel. *)
Theorem rotator_moves_last_to_front (input : string) :
  (input = END_SENTINEL ∨ (String.length input ≤ 1)%nat →
   rotator_transform input = (Same, [])) ∧
  (input ≠ END_SENTINEL → (2 ≤ String.length input)%nat →
   ∃ body x out,
     String.list_ascii_of_string input = body ++ [x] ∧
     rotator_transform input = (Fresh out, []) ∧
     String.list_ascii_of_string out = x :: body ∧
     String.length out = String.length input ∧
     String.list_ascii_of_string out ≡ₚ String.list_ascii_of_string input) ∧
  ((∀ k, (k < String.length input)%nat →
         Nat.iter k rotated input ≠ END_SENTINEL) →
   Nat.iter (String.length input) rotated input = input) ∧
  (∀ k m, Nat.iter k rotated input = END_SENTINEL → (k ≤ m)%nat →
          Nat.iter m rotated input = END_SENTINEL).
Proof.
  split_and!.
  - intros [->|Hlen]; [done|]. unfold rotator_transform.
    destruct (String.eqb input END_SENTINEL); [done|].
    by rewrite (proj2 (Nat.leb_le _ _) Hlen).
  - intros Hne Hlen. unfold rotator_transform.
    rewrite (proj2 (String.eqb_neq _ _) Hne).
    destruct (Nat.leb_spec (String.length input) 1); [lia|].
    rewrite string_length_list in Hlen.
    destruct (String.list_ascii_of_string input) as [|c l] eqn:Hl using rev_ind;
      [cbn in Hlen; lia|]. clear IHl.
    exists l, c. eexists. split; [done|]. split; [done|].
    rewrite String.list_ascii_of_string_of_list_ascii, rotate_right_snoc.
    split; [done|]. split.
    + rewrite list_string_length, string_length_list, Hl, length_app. cbn. lia.
    + by rewrite Permutation_app_comm.
  - apply rotated_round_trip.
  - apply rotated_end_absorbs.
Qed.

Lemma rotator_moves_last_to_front_witness :
  Nat.iter 1 rotated "END><" = END_SENTINEL ∧
  Nat.iter 5 rotated "END><" = END_SENTINEL.
Proof.
  assert (H : Nat.iter 1 rotated "END><" = END_SENTINEL) by reflexivity.
  split; [exact H|].
  refine (proj2 (proj2 (proj2 (rotator_moves_last_to_front "END><")))
            1%nat 5%nat H _).
  lia.
Defined.

Lemma flip_reverse l : flip l = reverse l.
Proof.
  unfold flip. apply list_eq. intros i. rewrite list_lookup_fmap.
  destruct (decide (i < length l)%nat) as [Hi|Hi].
  - rewrite lookup_seq_lt by done. cbn. unfold char_at.
    rewrite reverse_lookup by done.
    replace (length l - 1 - i)%nat with (length l - S i)%nat by lia.
    destruct (lookup_lt_is_Some_2 l (length l - S i)) as [x Hx]; [lia|].
    by rewrite Hx.
  - rewrite lookup_seq_ge by lia. cbn. symmetry. apply lookup_ge_None.
    rewrite length_reverse. lia.
Qed.

(** X8: the flipper.  On a payload of two characters or more that is not
    the sentinel, the flipper returns a new buffer that holds the
    characters of the input in reverse order; it returns the same pointer
    for the sentinel and for payloads of at most one character, and prints
    nothing.  Flipping the output of the flipper gives the input back,
    unless that output is the sentinel, which is then passed through as it
    is. *)
Theorem flipper_reverses (input : string) :
  (input = END_SENTINEL ∨ (String.length input ≤ 1)%nat →
   flipper_transform input = (Same, [])) ∧
  (input ≠ END_SENTINEL → (2 ≤ String.length input)%nat →
   ∃ out,
     flipper_transform input = (Fresh out, []) ∧
     String.list_ascii_of_string out = reverse (String.list_ascii_of_string input) ∧
     String.length out = String.length input ∧
     flipper_transform out =
       if String.eqb out END_SENTINEL then (Same, []) else (Fresh input, [])).
Proof.
  split.
  - intros [->|Hlen]; [done|]. unfold flipper_transform.
    destruct (String.eqb input END_SENTINEL); [done|].
    by rewrite (proj2 (Nat.leb_le _ _) Hlen).
  - intros Hne Hlen. unfold flipper_transform at 1.
    rewrite (proj2 (String.eqb_neq _ _) Hne).
    destruct (Nat.leb_spec (String.length input) 1); [lia|].
    eexists. split; [done|].
    rewrite String.list_ascii_of_string_of_list_ascii, flip_reverse.
    split; [done|].
    assert (Hl : String.length (String.string_of_list_ascii (reverse (String.list_ascii_of_string input)))
                 = String.length input).
    { by rewrite list_string_length, length_reverse, string_length_list. }
    split; [done|]. unfold flipper_transform.
    destruct (String.eqb _ END_SENTINEL); [done|]. rewrite Hl.
    destruct (Nat.leb_spec (String.length input) 1); [lia|].
    rewrite String.list_ascii_of_string_of_list_ascii, flip_reverse, reverse_involutive.
    by rewrite String.string_of_list_ascii_of_string.
Qed.

Lemma flipper_reverses_witness :
  ∃ out,
     flipper_transform ">DNE<" = (Fresh out, []) ∧
     String.list_ascii_of_string out = reverse (String.list_ascii_of_string ">DNE<") ∧
     String.length out = String.length ">DNE<" ∧
     flipper_transform out =
       if String.eqb out END_SENTINEL then (Same, []) else (Fresh ">DNE<"%string, []).
Proof.
  refine (proj2 (flipper_reverses ">DNE<") _ _).
  - discriminate.
  - vm_compute. lia.
Defined.

Lemma expand_cons c l :
  l ≠ [] → expand (c :: l) = c :: " "%char :: expand l.
Proof.
  intros Hl. unfold expand. cbn [length seq fmap list_fmap mjoin list_join].
  assert (Hlen : (0 < length l)%nat) by (destruct l; [done|cbn; lia]).
  replace (0 <? S (length l) - 1)%nat with true
    by (symmetry; apply Nat.ltb_lt; lia).
  cbn [app char_at]. f_equal. f_equal.
  rewrite <- fmap_S_seq, <- list_fmap_compose. f_equal.
  apply list_fmap_ext. intros i x Hx. apply lookup_seq in Hx as [Hx Hlt].
  cbn in Hx. subst x.
  cbn [compose]. unfold char_at. cbn [lookup list_lookup].
  replace (S i <? S (length l) - 1)%nat with (i <? length l - 1)%nat; [done|].
  destruct (Nat.ltb_spec i (length l - 1)), (Nat.ltb_spec (S i) (S (length l) - 1));
    (done || lia).
Qed.

Lemma expand_singleton c : expand [c] = [c].
Proof. done. Qed.

Lemma expand_spec l :
  l ≠ [] →
  length (expand l) = (2 * length l - 1)%nat ∧
  (∀ i, (i < length l)%nat → expand l !! (2 * i)%nat = l !! i) ∧
  (∀ i, (S i < length l)%nat → expand l !! (2 * i + 1)%nat = Some " "%char).
Proof.
  induction l as [|c l IH]; [done|]. intros _.
  destruct l as [|d l]; [split_and!; [done|intros [|i] ?; [done|cbn in *; lia]|
                                       intros i ?; cbn in *; lia]|].
  rewrite expand_cons by done.
  destruct IH as (IH1 & IH2 & IH3); [done|]. split_and!.
  - cbn [length] in *. lia.
  - intros [|i] Hi; [done|].
    replace (2 * S i)%nat with (S (S (2 * i))) by lia. cbn [lookup list_lookup].
    apply IH2. cbn [length] in *. lia.
  - intros [|i] Hi; [done|].
    replace (2 * S i + 1)%nat with (S (S (2 * i + 1))) by lia. cbn [lookup list_lookup].
    apply IH3. cbn [length] in *. lia.
Qed.

(** X9: the expander.  On a payload of [n ≥ 2] characters that is not the
    sentinel, the expander returns a new buffer of [2n - 1] characters
    whose even positions hold the characters of the input in order and
    whose odd positions hold a space: one space between neighbours, none
    after the last.  It returns the same pointer for the sentinel and for
    payloads of at most one character, and prints nothing. *)
Theorem expander_inserts_spaces (input : string) :
  (input = END_SENTINEL ∨ (String.length input ≤ 1)%nat →
   expander_transform input = (Same, [])) ∧
  (input ≠ END_SENTINEL → (2 ≤ String.length input)%nat →
   ∃ out,
     expander_transform input = (Fresh out, []) ∧
     String.length out = (2 * String.length input - 1)%nat ∧
     (∀ i, (i < String.length input)%nat →
        String.list_ascii_of_string out !! (2 * i)%nat = String.list_ascii_of_string input !! i) ∧
     (∀ i, (S i < String.length input)%nat →
        String.list_ascii_of_string out !! (2 * i + 1)%nat = Some " "%char)).
Proof.
  split.
  - intros [->|Hlen]; [done|]. unfold expander_transform.
    destruct (String.eqb input END_SENTINEL); [done|].
    by rewrite (proj2 (Nat.leb_le _ _) Hlen).
  - intros Hne Hlen. unfold expander_transform.
    rewrite (proj2 (String.eqb_neq _ _) Hne).
    destruct (Nat.leb_spec (String.length input) 1); [lia|].
    eexists. split; [done|].
    rewrite list_string_length, String.list_ascii_of_string_of_list_ascii.
    rewrite !string_length_list in *.
    apply expand_spec. intros Hnil. rewrite Hnil in Hlen. cbn in Hlen. lia.
Qed.

Lemma expander_inserts_spaces_witness :
  ∃ out,
     expander_transform "abc" = (Fresh out, []) ∧
     String.length out = (2 * String.length "abc" - 1)%nat ∧
     (∀ i, (i < String.length "abc")%nat →
        String.list_ascii_of_string out !! (2 * i)%nat = String.list_ascii_of_string "abc" !! i) ∧
     (∀ i, (S i < String.length "abc")%nat →
        String.list_ascii_of_string out !! (2 * i + 1)%nat = Some " "%char).
Proof.
  refine (proj2 (expander_inserts_spaces "abc") _ _).
  - discriminate.
  - vm_compute. lia.
Defined.

Lemma to_upper_spec ch :
  is_lower (to_upper ch) = false ∧
  to_upper (to_upper ch) = to_upper ch ∧
  (is_lower ch = false → to_upper ch = ch) ∧
  (is_lower ch = true →
   nat_of_ascii (to_upper ch) = (nat_of_ascii ch - 32)%nat).
Proof.
  destruct ch as [[] [] [] [] [] [] [] []]; vm_compute; split_and!; done.
Qed.

Lemma string_map_length f s : String.length (string_map f s) = String.length s.
Proof. induction s as [|c s IH]; [done|]. cbn. by rewrite IH. Qed.

Lemma string_map_list f s :
  String.list_ascii_of_string (string_map f s) = f <$> String.list_ascii_of_string s.
Proof. induction s as [|c s IH]; [done|]. cbn. by rewrite IH. Qed.

Lemma string_map_idemp f s :
  (∀ c, f (f c) = f c) → string_map f (string_map f s) = string_map f s.
Proof. intros Hf. induction s as [|c s IH]; [done|]. cbn. by rewrite Hf, IH. Qed.

(** X10: the uppercaser.  On every payload that is neither empty nor the
    sentinel the uppercaser returns a new buffer, also when there is
    nothing to change, of the same length, in which each of the letters a
    to z is replaced by its capital and every other character is kept; the
    output holds no small letter, and uppercasing it again gives the same
    text.  It returns the same pointer for the sentinel and for the empty
    payload, and prints nothing. *)
Theorem uppercaser_capitalises (input : string) :
  (input = END_SENTINEL ∨ input = ""%string →
   uppercaser_transform input = (Same, [])) ∧
  (input ≠ END_SENTINEL → input ≠ ""%string →
   ∃ out,
     uppercaser_transform input = (Fresh out, []) ∧
     String.length out = String.length input ∧
     String.list_ascii_of_string out = to_upper <$> String.list_ascii_of_string input ∧
     Forall (λ ch, is_lower ch = false) (String.list_ascii_of_string out) ∧
     (∀ i ch, String.list_ascii_of_string input !! i = Some ch → is_lower ch = false →
        String.list_ascii_of_string out !! i = Some ch) ∧
     string_map to_upper out = out).
Proof.
  split.
  - intros [->| ->]; done.
  - intros Hne Hne'. unfold uppercaser_transform.
    rewrite (proj2 (String.eqb_neq _ _) Hne).
    destruct input as [|c input]; [done|]. cbn [String.length Nat.eqb].
    exists (string_map to_upper (String c input)). split; [done|]. split_and!.
    + apply string_map_length.
    + apply string_map_list.
    + rewrite string_map_list. apply Forall_fmap, Forall_true.
      intros ch. exact (proj1 (to_upper_spec ch)).
    + intros i ch Hi Hch. rewrite string_map_list, list_lookup_fmap, Hi. cbn.
      f_equal. by apply (to_upper_spec ch).
    + apply string_map_idemp. intros ch. exact (proj1 (proj2 (to_upper_spec ch))).
Qed.

Lemma uppercaser_capitalises_witness :
  ∃ out,
     uppercaser_transform "Hello, world" = (Fresh out, []) ∧
     String.length out = String.length "Hello, world" ∧
     String.list_ascii_of_string out = to_upper <$> String.list_ascii_of_string "Hello, world" ∧
     Forall (λ ch, is_lower ch = false) (String.list_ascii_of_string out) ∧
     (∀ i ch, String.list_ascii_of_string "Hello, world" !! i = Some ch → is_lower ch = false →
        String.list_ascii_of_string out !! i = Some ch) ∧
     string_map to_upper out = out.
Proof.
  refine (proj2 (uppercaser_capitalises "Hello, world") _ _); discriminate.
Defined.

(** X11: what the six plugins of the project have in common.  Each of
    their transforms passes the sentinel through as the same pointer and
    prints nothing for it; none ever returns NULL for a string; only the
    logger and the typewriter print, exactly one line per payload made of
    their prefix and the payload, and these two always return the pointer
    they were given. *)
Theorem shipped_transforms_pass_sentinel (f : transform) (input : string) :
  f ∈ shipped_transforms →
  f END_SENTINEL = (Same, []) ∧
  (f input).1 ≠ Failed ∧
  (f = logger_transform → input ≠ END_SENTINEL →
   f input = (Same, [("[logger] " ++ input)%string])) ∧
  (f = typewriter_transform → input ≠ END_SENTINEL →
   f input = (Same, [("[typewriter] " ++ input)%string])) ∧
  (f ≠ logger_transform → f ≠ typewriter_transform → (f input).2 = []).
Proof.
  intros Hf. unfold shipped_transforms in Hf.
  assert (Hcases : f = logger_transform ∨ f = typewriter_transform ∨
                   f = uppercaser_transform ∨ f = rotator_transform ∨
                   f = flipper_transform ∨ f = expander_transform).
  { repeat (apply elem_of_cons in Hf as [->|Hf]; [by eauto 10|]).
    by apply elem_of_nil in Hf. }
  assert (Hlog : ∀ s, s ≠ END_SENTINEL →
            logger_transform s = (Same, [("[logger] " ++ s)%string])).
  { intros s Hs. unfold logger_transform. by rewrite (proj2 (String.eqb_neq _ _) Hs). }
  assert (Htw : ∀ s, s ≠ END_SENTINEL →
            typewriter_transform s = (Same, [("[typewriter] " ++ s)%string])).
  { intros s Hs. unfold typewriter_transform. by rewrite (proj2 (String.eqb_neq _ _) Hs). }
  split_and!.
  - destruct Hcases as [->|[->|[->|[->|[->| ->]]]]]; done.
  - destruct Hcases as [->|[->|[->|[->|[->| ->]]]]];
      unfold logger_transform, typewriter_transform, uppercaser_transform,
        rotator_transform, flipper_transform, expander_transform;
      repeat case_match; done.
  - intros -> Hs. by apply Hlog.
  - intros -> Hs. by apply Htw.
  - intros H1 H2.
    destruct Hcases as [->|[->|[->|[->|[->| ->]]]]]; try done;
      unfold uppercaser_transform, rotator_transform, flipper_transform,
        expander_transform; repeat case_match; done.
Qed.

Lemma shipped_transforms_pass_sentinel_witness :
  rotator_transform END_SENTINEL = (Same, []) ∧
  (rotator_transform "ab").1 ≠ Failed.
Proof.
  assert (H : rotator_transform ∈ shipped_transforms).
  { unfold shipped_transforms. repeat constructor. }
  split.
  - exact (proj1 (shipped_transforms_pass_sentinel rotator_transform "ab" H)).
  - exact (proj1 (proj2 (shipped_transforms_pass_sentinel rotator_transform "ab" H))).
Defined.

End PluginTransforms.

(** ** Stage 1: the command line *)

Section CommandLine.
Import PluginCommon Plugins Main Controller.

Lemma string_app_cons c s1 s2 :
  (String c s1 ++ s2)%string = String c (s1 ++ s2)%string.
Proof. done. Qed.

Lemma list_of_string_app s1 s2 :
  String.list_ascii_of_string (s1 ++ s2)%string =
  String.list_ascii_of_string s1 ++ String.list_ascii_of_string s2.
Proof.
  induction s1 as [|c s1 IH]; [done|].
  rewrite string_app_cons. cbn [String.list_ascii_of_string app]. by rewrite IH.
Qed.

Lemma string_of_list_app l1 l2 :
  String.string_of_list_ascii (l1 ++ l2) =
  (String.string_of_list_ascii l1 ++ String.string_of_list_ascii l2)%string.
Proof.
  induction l1 as [|c l1 IH]; [done|].
  cbn [String.string_of_list_ascii app]. by rewrite string_app_cons, IH.
Qed.

Lemma string_of_list_nil l : String.string_of_list_ascii l = ""%string → l = [].
Proof. by destruct l. Qed.

Lemma list_of_string_inj s1 s2 :
  String.list_ascii_of_string s1 = String.list_ascii_of_string s2 → s1 = s2.
Proof.
  intros H. rewrite <- (String.string_of_list_ascii_of_string s1),
    <- (String.string_of_list_ascii_of_string s2). by rewrite H.
Qed.

Lemma skip_spaces_spec l :
  ∃ pre, l = pre ++ skip_spaces l ∧ Forall (λ ch, isspace ch = true) pre ∧
         (∀ ch, head (skip_spaces l) = Some ch → isspace ch = false).
Proof.
  induction l as [|c l (pre & Hl & Hpre & Hhd)]; [by exists []|].
  cbn [skip_spaces]. destruct (isspace c) eqn:Hc.
  - exists (c :: pre). split; [by rewrite Hl at 1|]. split; [by constructor|done].
  - exists []. split; [done|]. split; [done|]. intros ch [= <-]. done.
Qed.

Lemma skip_spaces_all ws l :
  Forall (λ ch, isspace ch = true) ws → skip_spaces (ws ++ l) = skip_spaces l.
Proof. induction 1 as [|c ws Hc _ IH]; [done|]. cbn. by rewrite Hc. Qed.

Lemma skip_spaces_id l :
  (∀ ch, head l = Some ch → isspace ch = false) → skip_spaces l = l.
Proof. destruct l as [|c l]; [done|]. intros H. cbn. by rewrite (H c). Qed.

Lemma digit_not_space ch : isdigit ch = true → isspace ch = false.
Proof. destruct ch as [[] [] [] [] [] [] [] []]; vm_compute; done. Qed.

Lemma digit_not_sign ch :
  isdigit ch = true → Ascii.eqb ch "-" = false ∧ Ascii.eqb ch "+" = false.
Proof. destruct ch as [[] [] [] [] [] [] [] []]; vm_compute; done. Qed.

Lemma space_not_digit ch : isspace ch = true → isdigit ch = false.
Proof. destruct ch as [[] [] [] [] [] [] [] []]; vm_compute; done. Qed.

Lemma digit_value_range ch : isdigit ch = true → 0 ≤ digit_value ch ≤ 9.
Proof. destruct ch as [[] [] [] [] [] [] [] []]; vm_compute; try done; split; discriminate. Qed.

Lemma read_digits_app acc ds rest :
  Forall (λ ch, isdigit ch = true) ds →
  (∀ ch, head rest = Some ch → isdigit ch = false) →
  read_digits acc (ds ++ rest) =
    (fold_left (λ acc ch, 10 * acc + digit_value ch) ds acc, length ds).
Proof.
  intros Hds Hrest. revert acc. induction Hds as [|c ds Hc _ IH]; intros acc.
  - cbn. destruct rest as [|c rest]; [done|]. cbn. by rewrite (Hrest c).
  - cbn. rewrite Hc, IH. done.
Qed.

Lemma fold_digits_nonneg ds acc :
  Forall (λ ch, isdigit ch = true) ds → 0 ≤ acc →
  0 ≤ fold_left (λ acc ch, 10 * acc + digit_value ch) ds acc.
Proof.
  intros Hds. revert acc. induction Hds as [|c ds Hc _ IH]; intros acc Hacc; [done|].
  cbn. apply IH. pose proof (digit_value_range c Hc). lia.
Qed.

Lemma parse_queue_size_facts (ws1 ds ws2 : list ascii) (plus : bool) :
  Forall (λ ch, isspace ch = true) ws1 →
  Forall (λ ch, isspace ch = true) ws2 →
  Forall (λ ch, isdigit ch = true) ds →
  (∀ s v, parse_queue_size s = inl v → 1 ≤ v ≤ INT_MAX) ∧
  (ds ≠ [] →
   parse_queue_size
     (Some (String.string_of_list_ascii
              (ws1 ++ (if plus then ["+"%char] else []) ++ ds ++ ws2))) =
     if LONG_MAX <? decimal ds then inr "queue_size out of range"%string
     else if INT_MAX <? decimal ds
     then inr "queue_size out of range (>INT_MAX)"%string
     else if decimal ds =? 0
     then inr "queue_size must be a positive integer"%string
     else inl (decimal ds)) ∧
  parse_queue_size (Some (String.string_of_list_ascii ws1))
    = inr "missing queue_size"%string ∧
  parse_queue_size None = inr "missing queue_size"%string.
Proof.
  intros Hws1 Hws2 Hds. split_and!.
  - intros s v. unfold parse_queue_size.
    repeat case_match; try done. intros [= <-].
    match goal with H : (_ >? _) = false |- _ => rewrite Z.gtb_ltb, Z.ltb_ge in H end.
    match goal with H : (_ <=? _) = false |- _ => apply Z.leb_gt in H end.
    lia.
  - intros Hne. unfold parse_queue_size.
    rewrite String.list_ascii_of_string_of_list_ascii, skip_spaces_all by done.
    destruct ds as [|d ds]; [done|].
    apply Forall_cons in Hds as [Hd Hds].
    destruct (digit_not_sign d Hd) as [Hm Hp].
    assert (Hrest : ∀ ch, head ws2 = Some ch → isdigit ch = false).
    { intros ch Hch. destruct ws2 as [|c ws2]; [done|]. injection Hch as ->.
      apply space_not_digit. by apply Forall_cons in Hws2 as [? _]. }
    assert (Hv : 0 ≤ decimal (d :: ds)).
    { apply fold_digits_nonneg; [by constructor|done]. }
    set (p := (if plus then ["+"%char] else []) ++ (d :: ds) ++ ws2).
    assert (Hp0 : skip_spaces p = p).
    { apply skip_spaces_id. subst p. destruct plus; cbn; intros ch [= <-];
        [done|by apply digit_not_space]. }
    rewrite Hp0.
    assert (Hst : strtol p =
      if LONG_MAX <? decimal (d :: ds)
      then {| value := LONG_MAX;
              consumed := (if plus then 1 else 0) + S (length ds); erange := true |}
      else {| value := decimal (d :: ds);
              consumed := (if plus then 1 else 0) + S (length ds); erange := false |}).
    { unfold strtol. rewrite Hp0, Nat.sub_diag.
      assert (Hrd : read_digits 0 ((d :: ds) ++ ws2) = (decimal (d :: ds), S (length ds))).
      { apply (read_digits_app 0 (d :: ds) ws2); [by constructor|done]. }
      subst p. destruct plus; cbn [app].
      - cbn [Ascii.eqb Bool.eqb]. change (read_digits 0 (d :: ds ++ ws2))
          with (read_digits 0 ((d :: ds) ++ ws2)). rewrite Hrd.
        destruct (LONG_MAX <? decimal (d :: ds)); [done|].
        destruct (Z.ltb_spec (decimal (d :: ds)) LONG_MIN); [unfold LONG_MIN in *; lia|done].
      - rewrite Hm, Hp. change (read_digits 0 (d :: ds ++ ws2))
          with (read_digits 0 ((d :: ds) ++ ws2)). rewrite Hrd.
        destruct (LONG_MAX <? decimal (d :: ds)); [done|].
        destruct (Z.ltb_spec (decimal (d :: ds)) LONG_MIN); [unfold LONG_MIN in *; lia|done]. }
    assert (Hpne : ∃ c p', p = c :: p').
    { subst p. destruct plus; cbn; eauto. }
    destruct Hpne as (c & p' & Hpeq). rewrite Hpeq. rewrite <- Hpeq. rewrite Hst.
    destruct (Z.ltb_spec LONG_MAX (decimal (d :: ds))) as [Hbig|Hsmall]; [done|].
    cbn [erange consumed value].
    replace ((if plus then 1 else 0) + S (length ds) =? 0)%nat with false
      by (destruct plus; done).
    assert (Hdrop : drop ((if plus then 1 else 0) + S (length ds))%nat p = ws2).
    { subst p. destruct plus; cbn [app Nat.add drop].
      - change (d :: ds ++ ws2) with ((d :: ds) ++ ws2).
        rewrite drop_app_length'; [done|]. cbn. done.
      - change (d :: ds ++ ws2) with ((d :: ds) ++ ws2).
        rewrite drop_app_length'; [done|]. cbn. done. }
    rewrite Hdrop.
    rewrite <- (app_nil_r ws2), skip_spaces_all by done. cbn [skip_spaces].
    rewrite Z.gtb_ltb.
    destruct (INT_MAX <? decimal (d :: ds)); [done|].
    destruct (Z.leb_spec (decimal (d :: ds)) 0), (Z.eqb_spec (decimal (d :: ds)) 0);
      (done || lia).
  - unfold parse_queue_size.
    rewrite String.list_ascii_of_string_of_list_ascii.
    rewrite <- (app_nil_r ws1), skip_spaces_all by done. done.
  - done.
Qed.

(** X12: [parse_queue_size].  Whenever it accepts its argument, the size
    it stores lies between 1 and [INT_MAX].  On a decimal numeral,
    optionally preceded by a plus sign and surrounded by any white space,
    it stores the value of the numeral if that is between 1 and [INT_MAX],
    and otherwise reports that the size must be positive (value 0), is
    above [INT_MAX], or is out of range (above [LONG_MAX]).  A null
    pointer and a string of white space only are reported as a missing
    size. *)
Theorem parse_queue_size_spec (ws1 ds ws2 : list ascii) (plus : bool) :
  Forall (λ ch, isspace ch = true) ws1 →
  Forall (λ ch, isspace ch = true) ws2 →
  Forall (λ ch, isdigit ch = true) ds →
  (∀ s v, parse_queue_size s = inl v → 1 ≤ v ≤ INT_MAX) ∧
  (ds ≠ [] →
   parse_queue_size
     (Some (String.string_of_list_ascii
              (ws1 ++ (if plus then ["+"%char] else []) ++ ds ++ ws2))) =
     if LONG_MAX <? decimal ds then inr "queue_size out of range"%string
     else if INT_MAX <? decimal ds
     then inr "queue_size out of range (>INT_MAX)"%string
     else if decimal ds =? 0
     then inr "queue_size must be a positive integer"%string
     else inl (decimal ds)) ∧
  parse_queue_size (Some (String.string_of_list_ascii ws1))
    = inr "missing queue_size"%string ∧
  parse_queue_size None = inr "missing queue_size"%string.
Proof. apply parse_queue_size_facts. Qed.

Lemma parse_queue_size_spec_witness :
  parse_queue_size (Some " +020 "%string) = inl 20 ∧
  parse_queue_size (Some "4294967296"%string)
    = inr "queue_size out of range (>INT_MAX)"%string.
Proof.
  split.
  - refine (proj1 (proj2 (parse_queue_size_spec [" "%char]
                            ["0"; "2"; "0"]%char [" "%char] true _ _ _)) _);
      (repeat constructor) || discriminate.
  - refine (proj1 (proj2 (parse_queue_size_spec []
                            (String.list_ascii_of_string "4294967296") [] false _ _ _)) _);
      (repeat constructor) || discriminate.
Defined.

Lemma scan_back_spec s e :
  (e ≤ length s)%nat →
  (scan_back s e ≤ e)%nat ∧
  Forall (λ ch, isspace ch = true) (drop (scan_back s e) (take e s)) ∧
  (∀ ch, last (take (scan_back s e) s) = Some ch → isspace ch = false).
Proof.
  induction e as [|e IH]; intros He.
  - cbn. by rewrite take_0.
  - cbn [scan_back].
    destruct (lookup_lt_is_Some_2 s e) as [c Hc]; [lia|].
    assert (Htake : take (S e) s = take e s ++ [c]) by by apply take_S_r.
    unfold char_at. rewrite Hc. cbn [default from_option id].
    destruct (isspace c) eqn:Hsp.
    + destruct IH as (Hle & Hall & Hlast); [lia|]. split; [lia|]. split; [|done].
      rewrite Htake, drop_app_le by (rewrite length_take; lia).
      apply Forall_app. split; [done|]. by constructor.
    + split; [done|]. split.
      * rewrite drop_ge; [done|]. rewrite length_take. lia.
      * rewrite Htake, last_snoc. by intros ch [= <-].
Qed.

Lemma scan_back_id s :
  (∀ ch, last s = Some ch → isspace ch = false) → scan_back s (length s) = length s.
Proof.
  destruct s as [|c s _] using rev_ind; [done|]. intros H.
  rewrite length_app. cbn [length].
  replace (length s + 1)%nat with (S (length s)) by lia. cbn [scan_back].
  rewrite char_at_app_r. rewrite (H c); [done|]. by rewrite last_snoc.
Qed.

Lemma trim_list raw :
  ∃ pre post,
    String.list_ascii_of_string raw =
      pre ++ String.list_ascii_of_string (trim_and_dup raw) ++ post ∧
    Forall (λ ch, isspace ch = true) pre ∧
    Forall (λ ch, isspace ch = true) post ∧
    (∀ ch, head (String.list_ascii_of_string (trim_and_dup raw)) = Some ch →
           isspace ch = false) ∧
    (∀ ch, last (String.list_ascii_of_string (trim_and_dup raw)) = Some ch →
           isspace ch = false).
Proof.
  unfold trim_and_dup. rewrite String.list_ascii_of_string_of_list_ascii.
  destruct (skip_spaces_spec (String.list_ascii_of_string raw)) as (pre & Hl & Hpre & Hhd).
  set (s := skip_spaces (String.list_ascii_of_string raw)) in *.
  destruct (scan_back_spec s (length s)) as (Hle & Hpost & Hlast); [done|].
  rewrite firstn_all in Hpost.
  exists pre, (drop (scan_back s (length s)) s). split_and!; try done.
  - by rewrite take_drop.
  - intros ch Hch. apply Hhd.
    destruct s as [|c s']; [by rewrite take_nil in Hch|].
    destruct (scan_back (c :: s') (length (c :: s'))); [done|]. done.
Qed.

Lemma trim_fixed s :
  (∀ ch, head (String.list_ascii_of_string s) = Some ch → isspace ch = false) →
  (∀ ch, last (String.list_ascii_of_string s) = Some ch → isspace ch = false) →
  trim_and_dup s = s.
Proof.
  intros Hhd Hlast. unfold trim_and_dup.
  rewrite (skip_spaces_id _ Hhd), (scan_back_id _ Hlast), firstn_all.
  apply String.string_of_list_ascii_of_string.
Qed.

(** X13: [trim_and_dup] returns the text between the leading and the
    trailing white space of its argument: the argument is white space, then
    the result, then white space; the result neither starts nor ends with a
    white space character; and trimming the result again changes nothing. *)
Theorem trim_and_dup_strips_outer_space (raw : string) :
  ∃ pre post,
    String.list_ascii_of_string raw =
      pre ++ String.list_ascii_of_string (trim_and_dup raw) ++ post ∧
    Forall (λ ch, isspace ch = true) pre ∧
    Forall (λ ch, isspace ch = true) post ∧
    (∀ ch, head (String.list_ascii_of_string (trim_and_dup raw)) = Some ch →
           isspace ch = false) ∧
    (∀ ch, last (String.list_ascii_of_string (trim_and_dup raw)) = Some ch →
           isspace ch = false) ∧
    trim_and_dup (trim_and_dup raw) = trim_and_dup raw.
Proof.
  destruct (trim_list raw) as (pre & post & Heq & Hpre & Hpost & Hhd & Hlast).
  exists pre, post. split_and!; try done. by apply trim_fixed.
Qed.

Lemma ends_with_dot_so_spec s :
  ends_with_dot_so s = true ↔ ∃ p, s = (p ++ ".so")%string.
Proof.
  unfold ends_with_dot_so. set (l := String.list_ascii_of_string s). split.
  - intros H. repeat (apply andb_true_iff in H as [H ?]).
    apply Nat.leb_le in H.
    repeat match goal with H : Ascii.eqb _ _ = true |- _ => apply Ascii.eqb_eq in H end.
    exists (String.string_of_list_ascii (take (length l - 3) l)).
    apply list_of_string_inj.
    rewrite list_of_string_app, String.list_ascii_of_string_of_list_ascii.
    fold l. rewrite <- (take_drop (length l - 3) l) at 1. f_equal.
    apply list_eq. intros i.
    rewrite lookup_drop.
    unfold char_at in *.
    destruct i as [|[|[|i]]].
    + replace (length l - 3 + 0)%nat with (length l - 3)%nat by lia.
      destruct (lookup_lt_is_Some_2 l (length l - 3)) as [x Hx]; [lia|].
      rewrite Hx in *. cbn in *. by subst.
    + replace (length l - 3 + 1)%nat with (length l - 2)%nat by lia.
      destruct (lookup_lt_is_Some_2 l (length l - 2)) as [x Hx]; [lia|].
      rewrite Hx in *. cbn in *. by subst.
    + replace (length l - 3 + 2)%nat with (length l - 1)%nat by lia.
      destruct (lookup_lt_is_Some_2 l (length l - 1)) as [x Hx]; [lia|].
      rewrite Hx in *. cbn in *. by subst.
    + cbn. apply lookup_ge_None. lia.
  - intros [p ->]. subst l. rewrite list_of_string_app.
    set (lp := String.list_ascii_of_string p).
    change (String.list_ascii_of_string ".so") with ["."; "s"; "o"]%char.
    rewrite length_app. cbn [length].
    replace (length lp + 3 - 3)%nat with (length lp + 0)%nat by lia.
    replace (length lp + 3 - 2)%nat with (length lp + 1)%nat by lia.
    replace (length lp + 3 - 1)%nat with (length lp + 2)%nat by lia.
    unfold char_at. rewrite !lookup_app_r by lia.
    replace (length lp + 0 - length lp)%nat with 0%nat by lia.
    replace (length lp + 1 - length lp)%nat with 1%nat by lia.
    replace (length lp + 2 - length lp)%nat with 2%nat by lia.
    rewrite (proj2 (Nat.leb_le 3 (length lp + 3))) by lia. done.
Qed.

Lemma trim_empty : trim_and_dup "" = ""%string.
Proof. done. Qed.

Lemma collect_loop_spec raws names :
  collect_loop raws = inl names ↔
  names = trim_and_dup <$> raws ∧
  Forall (λ raw, trim_and_dup raw ≠ ""%string ∧
                 ends_with_dot_so (trim_and_dup raw) = false) raws.
Proof.
  revert names. induction raws as [|raw raws IH]; intros names.
  - cbn. split; [intros [= <-]; done|intros [-> _]; done].
  - cbn [collect_loop fmap list_fmap].
    destruct raw as [|c raw].
    { split; [done|]. intros [_ H]. apply Forall_cons in H as [[H _] _].
      exfalso. apply H. reflexivity. }
    destruct (trim_and_dup (String c raw)) as [|c' t] eqn:Ht.
    { split; [done|]. intros [_ H]. apply Forall_cons in H as [[H _] _]. done. }
    destruct (ends_with_dot_so (String c' t)) eqn:Hso.
    { split; [done|]. intros [_ H]. apply Forall_cons in H as [[_ H] _]. congruence. }
    destruct (collect_loop raws) as [names'|e].
    + split.
      * intros [= <-]. destruct (proj1 (IH names') eq_refl) as [-> Hall].
        split; [done|]. constructor; [rewrite Ht; by split|done].
      * intros [-> H]. apply Forall_cons in H as [_ H].
        f_equal. f_equal.
        pose proof (proj2 (IH (trim_and_dup <$> raws)) (conj eq_refl H)) as Heq.
        by injection Heq.
    + split; [done|]. intros [-> H]. apply Forall_cons in H as [_ H].
      by specialize (proj2 (IH (trim_and_dup <$> raws)) (conj eq_refl H)).
Qed.

Lemma collect_plugin_names_facts
    (argv : list string) (start_idx : nat) (names : list string) :
  (collect_plugin_names argv start_idx = inl names ↔
   (start_idx < length argv)%nat ∧
   names = trim_and_dup <$> drop start_idx argv ∧
   Forall (λ raw, trim_and_dup raw ≠ ""%string ∧
                  ends_with_dot_so (trim_and_dup raw) = false)
          (drop start_idx argv)) ∧
  (collect_plugin_names argv start_idx = inl names →
   length names = (length argv - start_idx)%nat ∧ names ≠ []) ∧
  (∀ s, ends_with_dot_so s = true ↔ ∃ p, s = (p ++ ".so")%string) ∧
  (∀ name, ends_with_dot_so (build_so_filename name) = true).
Proof.
  assert (Hiff : collect_plugin_names argv start_idx = inl names ↔
   (start_idx < length argv)%nat ∧
   names = trim_and_dup <$> drop start_idx argv ∧
   Forall (λ raw, trim_and_dup raw ≠ ""%string ∧
                  ends_with_dot_so (trim_and_dup raw) = false)
          (drop start_idx argv)).
  { unfold collect_plugin_names.
    destruct (Nat.leb_spec (length argv) start_idx).
    - split; [done|]. intros [? _]. lia.
    - rewrite collect_loop_spec. split; [by intros [? ?]|by intros (_ & ? & ?)]. }
  split_and!.
  - exact Hiff.
  - intros H. apply Hiff in H as (Hlt & -> & _).
    rewrite length_fmap, length_drop. split; [done|].
    intros Hnil. apply (f_equal length) in Hnil.
    rewrite length_fmap, length_drop in Hnil. cbn in Hnil. lia.
  - apply ends_with_dot_so_spec.
  - intros name. apply ends_with_dot_so_spec. by exists name.
Qed.

(** X14: [collect_plugin_names] is all or nothing.  It succeeds exactly
    when there is at least one argument from [start_idx] on and each of
    them, once trimmed, is neither empty nor ends in [.so]; the list it
    returns then holds the trimmed arguments, one per argument, in the
    order of the command line, repeated names included.  The suffix test
    holds for exactly the names of the form [p.so], so in particular for
    every file name that [build_so_filename] builds. *)
Theorem collect_plugin_names_all_or_nothing
    (argv : list string) (start_idx : nat) (names : list string) :
  (collect_plugin_names argv start_idx = inl names ↔
   (start_idx < length argv)%nat ∧
   names = trim_and_dup <$> drop start_idx argv ∧
   Forall (λ raw, trim_and_dup raw ≠ ""%string ∧
                  ends_with_dot_so (trim_and_dup raw) = false)
          (drop start_idx argv)) ∧
  (collect_plugin_names argv start_idx = inl names →
   length names = (length argv - start_idx)%nat ∧ names ≠ []) ∧
  (∀ s, ends_with_dot_so s = true ↔ ∃ p, s = (p ++ ".so")%string) ∧
  (∀ name, ends_with_dot_so (build_so_filename name) = true).
Proof. apply collect_plugin_names_facts. Qed.

Lemma collect_plugin_names_all_or_nothing_witness :
  length ["uppercaser"; "logger"; "logger"]%string = (5 - 2)%nat ∧
  ["uppercaser"; "logger"; "logger"]%string ≠ [].
Proof.
  refine (proj1 (proj2 (collect_plugin_names_all_or_nothing
            ["./analyzer"; "20"; " uppercaser"; "logger "; "logger"]%string 2
            ["uppercaser"; "logger"; "logger"]%string)) _).
  vm_compute. reflexivity.
Defined.



End CommandLine.

(** ** Stage 5: reading the input *)

Section ReadAndFeed.
Import PluginCommon Plugins Main Controller.

Lemma strip_snoc_nl p :
  strip_newline_cr (p ++ [newline]) =
    match last p with
    | Some ch => if Ascii.eqb ch carriage_return then removelast p else p
    | None => p
    end.
Proof.
  unfold strip_newline_cr. rewrite length_app. cbn [length].
  replace (length p + 1 - 1)%nat with (length p) by lia.
  replace (0 <? length p + 1)%nat with true by (symmetry; apply Nat.ltb_lt; lia).
  rewrite char_at_app_r. cbn [andb]. rewrite take_app_length.
  change (Ascii.eqb newline newline) with true. cbn match.
  destruct p as [|c p _] using rev_ind; [done|].
  rewrite last_snoc, length_app. cbn [length].
  replace (length p + 1 - 1)%nat with (length p) by lia.
  replace (0 <? length p + 1)%nat with true by (symmetry; apply Nat.ltb_lt; lia).
  rewrite char_at_app_r, take_app_length. cbn [andb].
  destruct (Ascii.eqb c carriage_return); [|done].
  by rewrite removelast_last.
Qed.

Lemma strip_no_nl s :
  last s ≠ Some newline →
  strip_newline_cr s =
    match last s with
    | Some ch => if Ascii.eqb ch carriage_return then removelast s else s
    | None => s
    end.
Proof.
  intros Hlast. unfold strip_newline_cr.
  destruct s as [|c s _] using rev_ind; [done|].
  rewrite last_snoc in *. rewrite length_app. cbn [length].
  replace (length s + 1 - 1)%nat with (length s) by lia.
  replace (0 <? length s + 1)%nat with true by (symmetry; apply Nat.ltb_lt; lia).
  rewrite char_at_app_r. cbn [andb].
  destruct (Ascii.eqb_spec c newline) as [->|_]; [done|].
  rewrite length_app. cbn [length].
  replace (length s + 1 - 1)%nat with (length s) by lia.
  replace (0 <? length s + 1)%nat with true by (symmetry; apply Nat.ltb_lt; lia).
  rewrite char_at_app_r, take_app_length. cbn [andb].
  destruct (Ascii.eqb c carriage_return); [|done].
  by rewrite removelast_last.
Qed.

Lemma strip_newline_cr_facts (p : list ascii) :
  strip_newline_cr (p ++ [carriage_return; newline]) = p ∧
  strip_newline_cr (p ++ [carriage_return]) = p ∧
  (last p ≠ Some carriage_return → strip_newline_cr (p ++ [newline]) = p) ∧
  (last p ≠ Some carriage_return → last p ≠ Some newline →
   strip_newline_cr p = p) ∧
  strip_newline_cr (p ++ [newline; newline]) = p ++ [newline].
Proof.
  split_and!.
  - replace (p ++ [carriage_return; newline])
      with ((p ++ [carriage_return]) ++ [newline]) by by rewrite <- app_assoc.
    rewrite strip_snoc_nl, last_snoc.
    change (Ascii.eqb carriage_return carriage_return) with true. cbn match.
    apply removelast_last.
  - rewrite strip_no_nl; rewrite last_snoc; [|done].
    change (Ascii.eqb carriage_return carriage_return) with true. cbn match.
    apply removelast_last.
  - intros Hcr. rewrite strip_snoc_nl.
    destruct (last p) as [ch|]; [|done].
    destruct (Ascii.eqb_spec ch carriage_return) as [->|_]; done.
  - intros Hcr Hnl. rewrite strip_no_nl by done.
    destruct (last p) as [ch|]; [|done].
    destruct (Ascii.eqb_spec ch carriage_return) as [->|_]; done.
  - replace (p ++ [newline; newline])
      with ((p ++ [newline]) ++ [newline]) by by rewrite <- app_assoc.
    rewrite strip_snoc_nl, last_snoc. done.
Qed.

(** X16: [strip_newline_cr] removes one line end and no more: a trailing
    line feed, the carriage return before it, and also a carriage return
    that ends the text without a line feed.  A text that ends in neither
    is left as it is; of two line feeds at the end only the last is
    removed. *)
Theorem strip_newline_cr_removes_one_line_end (p : list ascii) :
  strip_newline_cr (p ++ [carriage_return; newline]) = p ∧
  strip_newline_cr (p ++ [carriage_return]) = p ∧
  (last p ≠ Some carriage_return → strip_newline_cr (p ++ [newline]) = p) ∧
  (last p ≠ Some carriage_return → last p ≠ Some newline →
   strip_newline_cr p = p) ∧
  strip_newline_cr (p ++ [newline; newline]) = p ++ [newline].
Proof. apply strip_newline_cr_facts. Qed.

Lemma strip_newline_cr_removes_one_line_end_witness :
  strip_newline_cr (String.list_ascii_of_string "<END>" ++ [newline])
    = String.list_ascii_of_string "<END>".
Proof.
  refine (proj1 (proj2 (proj2 (strip_newline_cr_removes_one_line_end
            (String.list_ascii_of_string "<END>")))) _).
  vm_compute. discriminate.
Defined.

Lemma fgets_go_line room l rest :
  newline ∉ l → (length l < room)%nat →
  fgets_go room (l ++ newline :: rest) = (l ++ [newline], rest).
Proof.
  revert room. induction l as [|c l IH]; intros room Hnl Hlen.
  - destruct room; [cbn in Hlen; lia|]. done.
  - destruct room; [cbn in Hlen; lia|]. cbn [fgets_go app].
    apply not_elem_of_cons in Hnl as [Hc Hnl].
    destruct (Ascii.eqb_spec c newline) as [->|_]; [done|].
    rewrite IH; [done|done|]. cbn in Hlen. lia.
Qed.

Lemma fgets_go_spec room stream :
  let '(buf, rest) := fgets_go room stream in
  stream = buf ++ rest ∧ (length buf ≤ room)%nat ∧
  (newline ∉ removelast buf) ∧
  ((0 < room)%nat → stream ≠ [] → buf ≠ []).
Proof.
  revert stream. induction room as [|room IH]; intros stream.
  - cbn. split_and!; [done|done|apply not_elem_of_nil|lia].
  - destruct stream as [|c stream]; cbn [fgets_go].
    { split_and!; [done|cbn; lia|apply not_elem_of_nil|done]. }
    destruct (Ascii.eqb_spec c newline) as [->|Hc].
    { split_and!; [done|cbn; lia|apply not_elem_of_nil|done]. }
    specialize (IH stream). destruct (fgets_go room stream) as [buf rest].
    destruct IH as (-> & Hlen & Hnl & Hne). split_and!; [done|cbn; lia| |done].
    destruct buf as [|b buf]; [apply not_elem_of_nil|].
    change (removelast (c :: b :: buf)) with (c :: removelast (b :: buf)).
    apply not_elem_of_cons. done.
Qed.

Lemma removelast_length {A} (l : list A) : length (removelast l) = (length l - 1)%nat.
Proof.
  destruct l as [|x l _] using rev_ind; [done|].
  rewrite removelast_last, length_app. cbn. lia.
Qed.

Lemma strip_bounds buf :
  newline ∉ removelast buf →
  (length (strip_newline_cr buf) ≤ length buf)%nat ∧
  newline ∉ strip_newline_cr buf.
Proof.
  intros Hnl. destruct buf as [|c buf _] using rev_ind.
  { split; [done|]. apply not_elem_of_nil. }
  rewrite removelast_last in Hnl.
  destruct (Ascii.eqb_spec c newline) as [->|Hc].
  - rewrite strip_snoc_nl. rewrite length_app. cbn [length].
    destruct (last buf) as [ch|] eqn:Hlast; [|split; [lia|done]].
    destruct (Ascii.eqb ch carriage_return); [|split; [lia|done]].
    split; [rewrite removelast_length; lia|].
    destruct buf as [|b buf _] using rev_ind; [done|].
    rewrite removelast_last. rewrite not_elem_of_app in Hnl. tauto.
  - assert (Hno : newline ∉ buf ++ [c]).
    { rewrite not_elem_of_app. split; [done|]. apply not_elem_of_cons.
      split; [done|apply not_elem_of_nil]. }
    rewrite strip_no_nl by (rewrite last_snoc; congruence).
    rewrite last_snoc.
    destruct (Ascii.eqb c carriage_return); [|done].
    rewrite removelast_last. split; [rewrite length_app; cbn; lia|done].
Qed.

Lemma c_string_cases buf :
  c_string buf = buf ∨ ∃ rest, buf = c_string buf ++ Ascii.zero :: rest.
Proof.
  induction buf as [|ch buf IH]; [by left|]. cbn [c_string].
  destruct (Ascii.eqb_spec ch Ascii.zero) as [->|Hch].
  - right. by exists buf.
  - destruct IH as [->|[rest Hrest]]; [by left|].
    right. exists rest. cbn [app]. by rewrite <- Hrest.
Qed.

Lemma c_string_no_nul buf : Ascii.zero ∉ c_string buf.
Proof.
  induction buf as [|ch buf IH]; [apply not_elem_of_nil|]. cbn [c_string].
  destruct (Ascii.eqb_spec ch Ascii.zero) as [->|Hch]; [apply not_elem_of_nil|].
  apply not_elem_of_cons. split; [congruence|done].
Qed.

Lemma c_string_clean l : Ascii.zero ∉ l → c_string l = l.
Proof.
  induction l as [|ch l IH]; [done|]. intros Hl.
  apply not_elem_of_cons in Hl as [Hch Hl]. cbn [c_string].
  destruct (Ascii.eqb_spec ch Ascii.zero) as [->|_]; [done|]. by rewrite IH.
Qed.

Lemma c_string_at_nul p rest : Ascii.zero ∉ p → c_string (p ++ Ascii.zero :: rest) = p.
Proof.
  induction p as [|ch p IH]; [done|]. intros Hp.
  apply not_elem_of_cons in Hp as [Hch Hp]. cbn [c_string app].
  destruct (Ascii.eqb_spec ch Ascii.zero) as [->|_]; [done|]. by rewrite IH.
Qed.

Lemma removelast_subset {A} (x : A) l : x ∈ removelast l → x ∈ l.
Proof.
  destruct l as [|y l _] using rev_ind; [done|].
  rewrite removelast_last, elem_of_app. by left.
Qed.

Lemma c_string_bounds buf :
  newline ∉ removelast buf →
  (length (c_string buf) ≤ length buf)%nat ∧
  newline ∉ removelast (c_string buf).
Proof.
  intros Hnl. destruct (c_string_cases buf) as [->|[rest Hrest]]; [done|].
  split.
  - rewrite Hrest at 2. rewrite length_app. lia.
  - intros Hin. apply removelast_subset in Hin. apply Hnl.
    rewrite Hrest. rewrite removelast_app by done.
    rewrite elem_of_app. by left.
Qed.

Lemma strip_subset x s : x ∈ strip_newline_cr s → x ∈ s.
Proof.
  unfold strip_newline_cr. cbn zeta.
  repeat match goal with
         | |- context [if ?b then _ else _] => destruct b
         end; intros Hin;
    repeat match type of Hin with
           | _ ∈ take _ _ => apply (subseteq_take _ _ _) in Hin
           end; done.
Qed.

Lemma stage5_loop_fuel fuel stream :
  (length stream ≤ fuel)%nat →
  stage5_loop fuel stream = stage5_loop (length stream) stream.
Proof.
  revert fuel. induction stream as [stream IH] using (induction_ltof1 _ length).
  unfold ltof in IH. intros fuel Hfuel.
  destruct stream as [|c stream]; [by destruct fuel|].
  destruct fuel as [|fuel]; [cbn in Hfuel; lia|].
  cbn [length stage5_loop fgets].
  pose proof (fgets_go_spec (INPUT_BUF_SZ - 1) (c :: stream)) as Hspec.
  destruct (fgets_go (INPUT_BUF_SZ - 1) (c :: stream)) as [buf rest].
  destruct Hspec as (Heq & _ & _ & Hne).
  assert (Hbuf : buf ≠ []) by (apply Hne; [unfold INPUT_BUF_SZ; lia|done]).
  assert (Hrest : (length rest < length (c :: stream))%nat).
  { rewrite Heq, length_app. destruct buf; [done|]. cbn. lia. }
  destruct (String.eqb _ END_SENTINEL); [done|]. f_equal.
  cbn [length] in Hrest, Hfuel.
  rewrite (IH rest Hrest fuel) by lia.
  rewrite (IH rest Hrest (length stream)) by lia. done.
Qed.

Lemma stage5_loop_facts fuel stream :
  let fed := stage5_loop fuel stream in
  Forall (λ s, (String.length s ≤ 1025)%nat ∧
               (newline ∉ String.list_ascii_of_string s) ∧
               (Ascii.zero ∉ String.list_ascii_of_string s)) fed ∧
  (∀ i, fed !! i = Some END_SENTINEL → S i = length fed).
Proof.
  revert stream. induction fuel as [|fuel IH]; intros stream.
  { cbn. split; [done|]. intros i Hi. by rewrite lookup_nil in Hi. }
  cbn [stage5_loop]. unfold fgets.
  destruct stream as [|c stream].
  { cbn. split; [done|]. intros i Hi. by rewrite lookup_nil in Hi. }
  pose proof (fgets_go_spec (INPUT_BUF_SZ - 1) (c :: stream)) as Hspec.
  destruct (fgets_go (INPUT_BUF_SZ - 1) (c :: stream)) as [buf rest].
  destruct Hspec as (_ & Hlen & Hnl & _).
  destruct (c_string_bounds buf Hnl) as [Hclen Hcnl].
  destruct (strip_bounds (c_string buf) Hcnl) as [Hslen Hsnl].
  assert (Hnul : Ascii.zero ∉ strip_newline_cr (c_string buf)).
  { intros Hin. apply strip_subset in Hin. by apply c_string_no_nul in Hin. }
  destruct (String.eqb_spec
              (String.string_of_list_ascii (strip_newline_cr (c_string buf)))
              END_SENTINEL) as [Heq|Hneq].
  - cbn zeta. split.
    + constructor; [|done]. rewrite <- Heq.
      rewrite list_string_length, String.list_ascii_of_string_of_list_ascii.
      split_and!; [unfold INPUT_BUF_SZ in Hlen; lia|done|done].
    + intros [|i] Hi; [done|]. by rewrite lookup_cons, lookup_nil in Hi.
  - cbn zeta. destruct (IH rest) as [Hall Hend]. split.
    + constructor; [|done].
      rewrite list_string_length, String.list_ascii_of_string_of_list_ascii.
      split_and!; [unfold INPUT_BUF_SZ in Hlen; lia|done|done].
    + intros [|i] Hi.
      * cbn in Hi. injection Hi as Hi. done.
      * cbn [length]. f_equal. by apply Hend.
Qed.

Lemma stage5_loop_lines fuel lines :
  Forall (λ l, (String.length l ≤ 1024)%nat ∧
               (newline ∉ String.list_ascii_of_string l) ∧
               (Ascii.zero ∉ String.list_ascii_of_string l) ∧
               last (String.list_ascii_of_string l) ≠ Some carriage_return) lines →
  (length (mjoin ((λ l, String.list_ascii_of_string l ++ [newline]) <$> lines)) ≤ fuel)%nat →
  stage5_loop fuel (mjoin ((λ l, String.list_ascii_of_string l ++ [newline]) <$> lines))
    = until_end lines.
Proof.
  intros Hlines. revert fuel.
  induction Hlines as [|l lines (Hlen & Hnl & Hnul & Hcr) _ IH];
    intros fuel Hfuel.
  { by destruct fuel. }
  cbn [fmap list_fmap mjoin list_join] in *.
  rewrite length_app in Hfuel. rewrite length_app in Hfuel. cbn [length] in Hfuel.
  destruct fuel as [|fuel]; [lia|]. cbn [stage5_loop until_end].
  rewrite <- app_assoc. cbn [app].
  set (rest := mjoin _) in *.
  unfold fgets.
  destruct (String.list_ascii_of_string l ++ newline :: rest) as [|c0 s0] eqn:Hs.
  { by destruct (String.list_ascii_of_string l). }
  rewrite <- Hs.
  rewrite fgets_go_line; [|done|rewrite <- string_length_list; unfold INPUT_BUF_SZ; lia].
  rewrite c_string_clean.
  2:{ rewrite not_elem_of_app. split; [done|].
      apply not_elem_of_cons. split; [done|apply not_elem_of_nil]. }
  rewrite (proj1 (proj2 (proj2 (strip_newline_cr_facts _)))) by done.
  rewrite String.string_of_list_ascii_of_string.
  destruct (String.eqb l END_SENTINEL); [done|]. f_equal. apply IH. lia.
Qed.

(** A line with a NUL byte in it: the program sees what comes before the
    NUL only. *)
Lemma stage5_nul_line (p junk rest : list ascii) :
  newline ∉ p → Ascii.zero ∉ p → newline ∉ junk →
  (length p + 1 + length junk ≤ 1024)%nat →
  last p ≠ Some carriage_return →
  stage5_read_and_feed (p ++ Ascii.zero :: junk ++ newline :: rest) =
    if String.eqb (String.string_of_list_ascii p) END_SENTINEL
    then [END_SENTINEL]
    else String.string_of_list_ascii p :: stage5_read_and_feed rest.
Proof.
  intros Hnl Hnul Hjunk Hlen Hcr. unfold stage5_read_and_feed.
  assert (Hline : newline ∉ p ++ Ascii.zero :: junk).
  { rewrite not_elem_of_app. split; [done|]. apply not_elem_of_cons. done. }
  replace (p ++ Ascii.zero :: junk ++ newline :: rest)
    with ((p ++ Ascii.zero :: junk) ++ newline :: rest)
    by (by rewrite <- app_assoc).
  destruct ((p ++ Ascii.zero :: junk) ++ newline :: rest) as [|c0 s0] eqn:Hs.
  { by destruct p. }
  cbn [length stage5_loop]. unfold fgets. rewrite <- Hs.
  rewrite fgets_go_line;
    [|done|rewrite length_app; cbn [length]; unfold INPUT_BUF_SZ; lia].
  rewrite <- app_assoc. cbn [app]. rewrite c_string_at_nul by done.
  assert (Hlast : last p ≠ Some newline).
  { intros Hlast. apply Hnl. clear -Hlast.
    destruct p as [|x p _] using rev_ind; [done|].
    rewrite last_snoc in Hlast. injection Hlast as ->.
    rewrite elem_of_app. right. by left. }
  rewrite (proj1 (proj2 (proj2 (proj2 (strip_newline_cr_facts p)))))
    by done.
  destruct (String.eqb _ END_SENTINEL); [done|]. f_equal.
  apply stage5_loop_fuel.
  assert (length (c0 :: s0) = length ((p ++ Ascii.zero :: junk) ++ newline :: rest))
    as Hl by by rewrite Hs.
  rewrite length_app in Hl. cbn [length] in Hl. lia.
Qed.

(** X17: what stage 5 feeds to the first plugin.  When the input consists
    of lines of at most 1024 characters, each ended by a line feed (and
    without a NUL byte, and without a carriage return at its end),
    [place_work] is called with each line in turn, without its line feed,
    up to and including the first line that is the sentinel; the lines
    after it are not read.  Of a line that holds a NUL byte only what comes
    before the NUL is fed, and compared with the sentinel.  Whatever the
    input is, every string fed has at most 1025 characters and holds no
    line feed and no NUL, nothing is fed after a sentinel, and the loop
    ends when the input does. *)
Theorem stage5_feeds_lines_until_end (lines : list string) (stream : list ascii) :
  Forall (λ l, (String.length l ≤ 1024)%nat ∧
               (newline ∉ String.list_ascii_of_string l) ∧
               (Ascii.zero ∉ String.list_ascii_of_string l) ∧
               last (String.list_ascii_of_string l) ≠ Some carriage_return) lines →
  stage5_read_and_feed
    (mjoin ((λ l, String.list_ascii_of_string l ++ [newline]) <$> lines))
    = until_end lines ∧
  (∀ p junk rest,
     newline ∉ p → Ascii.zero ∉ p → newline ∉ junk →
     (length p + 1 + length junk ≤ 1024)%nat →
     last p ≠ Some carriage_return →
     stage5_read_and_feed (p ++ Ascii.zero :: junk ++ newline :: rest) =
       if String.eqb (String.string_of_list_ascii p) END_SENTINEL
       then [END_SENTINEL]
       else String.string_of_list_ascii p :: stage5_read_and_feed rest) ∧
  Forall (λ s, (String.length s ≤ 1025)%nat ∧
               (newline ∉ String.list_ascii_of_string s) ∧
               (Ascii.zero ∉ String.list_ascii_of_string s))
         (stage5_read_and_feed stream) ∧
  (∀ i, stage5_read_and_feed stream !! i = Some END_SENTINEL →
        S i = length (stage5_read_and_feed stream)) ∧
  (∀ fuel, (length stream ≤ fuel)%nat →
           stage5_loop fuel stream = stage5_read_and_feed stream).
Proof.
  intros Hlines. split_and!.
  - by apply stage5_loop_lines.
  - apply stage5_nul_line.
  - apply (stage5_loop_facts (length stream) stream).
  - apply (stage5_loop_facts (length stream) stream).
  - intros fuel Hfuel. by apply stage5_loop_fuel.
Qed.

Lemma stage5_feeds_lines_until_end_witness :
  stage5_read_and_feed
    (mjoin ((λ l, String.list_ascii_of_string l ++ [newline])
              <$> ["hello"; "<END>"; "ignored"]%string))
    = ["hello"; "<END>"]%string ∧
  stage5_read_and_feed
    (String.list_ascii_of_string "<END>" ++
     Ascii.zero :: String.list_ascii_of_string "junk" ++
     newline :: String.list_ascii_of_string "after" ++ [newline])
    = ["<END>"]%string.
Proof.
  assert (Hno : ∀ (x : ascii) (l : list ascii),
            forallb (λ y, negb (Ascii.eqb x y)) l = true → x ∉ l).
  { intros x l. induction l as [|y l IH]; [intros _; apply not_elem_of_nil|].
    cbn [forallb]. rewrite andb_true_iff, negb_true_iff. intros [Hy Hl].
    apply not_elem_of_cons. split; [by apply Ascii.eqb_neq|by apply IH]. }
  split.
  - refine (proj1 (stage5_feeds_lines_until_end
                     ["hello"; "<END>"; "ignored"]%string [] _)).
    repeat constructor; try (vm_compute; lia); try discriminate;
      apply Hno; reflexivity.
  - refine (proj1 (proj2 (stage5_feeds_lines_until_end [] [] (Forall_nil_2 _)))
              (String.list_ascii_of_string "<END>")
              (String.list_ascii_of_string "junk")
              (String.list_ascii_of_string "after" ++ [newline]) _ _ _ _ _).
    + apply Hno; reflexivity.
    + apply Hno; reflexivity.
    + apply Hno; reflexivity.
    + vm_compute; lia.
    + vm_compute; discriminate.
Defined.

End ReadAndFeed.

(** ** The plugin interface *)

Section PluginInterface.
Import Monitor ConsumerProducer PluginCommon.

(** X18: what [common_plugin_init] returns.  A null transform, a null or
    empty name and a queue size that is not positive are refused, in this
    order, and so is a second init of a plugin that is initialised; none of
    these touches the context.  Otherwise the outcome is that of
    [consumer_producer_init] on the storage that [malloc] returned: on
    storage with no flag set, a queue size up to 268435455 gives an
    initialised, unattached, unfinished context that owns an empty queue of
    that capacity, and a larger one (which stage 1 accepts up to [INT_MAX])
    fails with the queue's message and leaves the plugin uninitialised
    without a queue. *)
Theorem common_plugin_init_outcomes
    (f : transform) (c : ascii) (nm : string) (queue_size : Z)
    (fresh : consumer_producer_t) (g : plugin_context_t) :
  (∀ n, common_plugin_init None n queue_size fresh g
        = (Some "invalid process function"%string, g)) ∧
  common_plugin_init (Some f) None queue_size fresh g
    = (Some "invalid plugin name"%string, g) ∧
  common_plugin_init (Some f) (Some ""%string) queue_size fresh g
    = (Some "invalid plugin name"%string, g) ∧
  (queue_size ≤ 0 →
   common_plugin_init (Some f) (Some (String c nm)) queue_size fresh g
     = (Some "invalid queue size"%string, g)) ∧
  (0 < queue_size → initialized g = 1 →
   common_plugin_init (Some f) (Some (String c nm)) queue_size fresh g
     = (Some "plugin already initialized"%string, g)) ∧
  (0 < queue_size → initialized g ≠ 1 →
   common_plugin_init (Some f) (Some (String c nm)) queue_size fresh g =
     match consumer_producer_init fresh queue_size with
     | (Some e, _) =>
         (Some e,
          {| name := Some (String c nm); queue := None; next_place_work := None;
             process_function := Some f; initialized := 0; finished := 0;
             attached := 0; worker_joined := 0 |})
     | (None, q) =>
         (None,
          {| name := Some (String c nm); queue := Some q; next_place_work := None;
             process_function := Some f; initialized := 1; finished := 0;
             attached := 0; worker_joined := 0 |})
     end) ∧
  (initialized g ≠ 1 →
   ConsumerProducer.initialized fresh ≠ 1 →
   Monitor.initialized (not_full_monitor fresh) ≠ 1 →
   Monitor.initialized (not_empty_monitor fresh) ≠ 1 →
   Monitor.initialized (finished_monitor fresh) ≠ 1 →
   (1 ≤ queue_size ≤ 268435455 →
    ∃ q g',
      common_plugin_init (Some f) (Some (String c nm)) queue_size fresh g
        = (None, g') ∧
      queue g' = Some q ∧ wf q ∧ capacity q = queue_size ∧ contents q = [] ∧
      finished_flag q = 0 ∧
      initialized g' = 1 ∧ attached g' = 0 ∧ finished g' = 0 ∧
      next_place_work g' = None ∧ process_function g' = Some f ∧
      plugin_get_name g' = String c nm) ∧
   (268435455 < queue_size →
    ∃ g',
      common_plugin_init (Some f) (Some (String c nm)) queue_size fresh g
        = (Some "Queue capacity too large"%string, g') ∧
      queue g' = None ∧ initialized g' = 0 ∧
      plugin_get_name g' = "unknown"%string)).
Proof.
  split_and!.
  - done.
  - done.
  - done.
  - intros Hq. unfold common_plugin_init.
    by destruct (Z.leb_spec queue_size 0); [|lia].
  - intros Hq Hi. unfold common_plugin_init.
    destruct (Z.leb_spec queue_size 0); [lia|]. by rewrite Hi.
  - intros Hq Hi. unfold common_plugin_init.
    destruct (Z.leb_spec queue_size 0); [lia|].
    rewrite (proj2 (Z.eqb_neq _ _) Hi).
    by destruct (consumer_producer_init fresh queue_size) as [[e|] q].
  - intros Hi Hf H1 H2 H3. split.
    + intros Hq. unfold common_plugin_init.
      destruct (Z.leb_spec queue_size 0); [lia|].
      rewrite (proj2 (Z.eqb_neq _ _) Hi).
      destruct (proj1 (proj2 (proj2 (proj2 (init_outcomes_facts fresh queue_size))))
                  Hq Hf H1 H2 H3) as (Hnone & Hwf & Hcap & Hcont & Hfin & _).
      destruct (consumer_producer_init fresh queue_size) as [[e|] q]; [done|].
      cbn [fst snd] in *. eexists _, _. split; [done|]. cbn.
      split_and!; done.
    + intros Hq. unfold common_plugin_init.
      destruct (Z.leb_spec queue_size 0); [lia|].
      rewrite (proj2 (Z.eqb_neq _ _) Hi).
      rewrite (proj1 (proj2 (proj2 (init_outcomes_facts fresh queue_size))) Hq Hf).
      eexists. split; [done|]. done.
Qed.

Lemma common_plugin_init_outcomes_witness :
  ∃ q g',
    common_plugin_init (Some logger_transform) (Some "logger"%string) 20
      ConsumerProducer.zeroed zeroed_ctx = (None, g') ∧
    queue g' = Some q ∧ wf q ∧ capacity q = 20 ∧ contents q = [] ∧
    finished_flag q = 0 ∧
    initialized g' = 1 ∧ attached g' = 0 ∧ finished g' = 0 ∧
    next_place_work g' = None ∧ process_function g' = Some logger_transform ∧
    plugin_get_name g' = "logger"%string.
Proof.
  refine (proj1 (proj2 (proj2 (proj2 (proj2 (proj2 (proj2
            (common_plugin_init_outcomes logger_transform "l" "ogger" 20
               ConsumerProducer.zeroed zeroed_ctx)))))) _ _ _ _ _) _);
    vm_compute; try discriminate. split; discriminate.
Defined.

Lemma attach_rejected next g :
  attached g = 1 → (plugin_attach next g).1 = g.
Proof.
  intros Ha. unfold plugin_attach. repeat case_match; try done.
  by rewrite Ha in *.
Qed.

Lemma attach_all_fixed nexts g : attached g = 1 → attach_all nexts g = g.
Proof.
  intros Ha. induction nexts as [|n nexts IH] using rev_ind; [done|].
  unfold attach_all in *. by rewrite foldl_app, IH; cbn; rewrite attach_rejected.
Qed.

(** X19: [plugin_attach] wires a plugin once.  On a plugin that is
    initialised, not finished and not attached, the call stores the given
    downstream, sets [attached] and changes nothing else; whatever is
    attached after that, in any number of calls, is refused with the
    message for a second attach, and the first wiring stays.  Before init,
    and once the plugin has finished, the call is refused and the context
    is left as it is.  An attach with a null downstream sets [attached]
    too, and the worker then treats the stage as terminal, as it does for
    a stage that was never attached. *)
Theorem plugin_attach_first_wiring_stays
    (next : option nat) (later : list (option nat)) (g : plugin_context_t) :
  (initialized g ≠ 1 →
   plugin_attach next g = (g, ["attach called before init"%string])) ∧
  (initialized g = 1 → finished g = 1 →
   plugin_attach next g = (g, ["attach after finish"%string])) ∧
  (initialized g = 1 → finished g ≠ 1 → attached g = 1 →
   plugin_attach next g = (g, ["attach called twice"%string])) ∧
  (initialized g = 1 → finished g ≠ 1 → attached g ≠ 1 →
   let g1 := (plugin_attach next g).1 in
   (plugin_attach next g).2 = [] ∧
   next_place_work g1 = next ∧ attached g1 = 1 ∧
   queue g1 = queue g ∧ name g1 = name g ∧
   process_function g1 = process_function g ∧
   initialized g1 = 1 ∧ finished g1 = finished g ∧
   worker_joined g1 = worker_joined g ∧
   attach_all (next :: later) g = g1 ∧
   (∀ next', plugin_attach next' g1 = (g1, ["attach called twice"%string])) ∧
   wired g1 = bool_decide (is_Some next)) ∧
  (attached g = 0 → wired g = false).
Proof.
  split_and!.
  - intros Hi. unfold plugin_attach. by rewrite (proj2 (Z.eqb_neq _ _) Hi).
  - intros Hi Hf. unfold plugin_attach. by rewrite Hi, Hf.
  - intros Hi Hf Ha. unfold plugin_attach.
    by rewrite Hi, (proj2 (Z.eqb_neq _ _) Hf), Ha.
  - intros Hi Hf Ha g1.
    assert (Heq : plugin_attach next g =
      ({| name := name g; queue := queue g; next_place_work := next;
          process_function := process_function g;
          initialized := initialized g; finished := finished g;
          attached := 1; worker_joined := worker_joined g |}, [])).
    { unfold plugin_attach.
      by rewrite Hi, (proj2 (Z.eqb_neq _ _) Hf), (proj2 (Z.eqb_neq _ _) Ha). }
    subst g1. rewrite Heq. cbn [fst snd]. split_and!; try done.
    + unfold attach_all. cbn [foldl]. rewrite Heq. cbn [fst].
      by apply (attach_all_fixed later).
    + intros next'. unfold plugin_attach. cbn.
      by rewrite Hi, (proj2 (Z.eqb_neq _ _) Hf).
  - intros Ha. unfold wired. by rewrite Ha.
Qed.

Lemma plugin_attach_first_wiring_stays_witness :
  attach_all [Some 1%nat; Some 2%nat; None]
    (initialized_ctx_of logger_transform) =
  (plugin_attach (Some 1%nat) (initialized_ctx_of logger_transform)).1.
Proof.
  refine (proj1 (proj2 (proj2 (proj2 (proj2 (proj2 (proj2 (proj2 (proj2 (proj2
            (proj1 (proj2 (proj2 (proj2
               (plugin_attach_first_wiring_stays (Some 1%nat) [Some 2%nat; None]
                  (initialized_ctx_of logger_transform)))))
               _ _ _))))))))))); vm_compute; done.
Defined.

Lemma put_steps_ok q item :
  wf q → item ≠ NULL → finished_flag q = 0 → count q < capacity q →
  put_step item PutEntry q = Next PutLock q [] ∧
  put_step item PutLock q = Next PutSignal (put_insert item q) [EvEnq item] ∧
  put_step item PutSignal (put_insert item q) =
    Return None
      (set_not_empty (monitor_signal (not_empty_monitor (put_insert item q)))
         (put_insert item q)) [EvSignal NotEmpty].
Proof.
  intros Hwf Hitem Hfin Hroom. cbn [put_step].
  rewrite (proj2 (Z.eqb_neq _ _) Hitem), (wf_initialized _ Hwf), Hfin.
  cbn [Z.eqb Pos.eqb negb]. unfold put_loop, queue_is_full.
  rewrite (proj2 (Z.eqb_neq _ _)) by lia. done.
Qed.

(** X20: [plugin_place_work] run on its own on an initialised plugin.  It
    never touches the caller's string: it puts a copy, made at a fresh
    address, into the plugin's queue.  When the queue is open and has room
    the call returns NULL, the copy holds the caller's text and is the
    last item of the queue, and nothing is freed.  When the queue is
    finished the call returns the queue's message and frees the copy it
    made, once, so the refused call leaves nothing behind.  When the queue
    is open and full the call goes to sleep inside [consumer_producer_put]
    with its copy made and not enqueued: [not_full] has been reset and the
    step in the wait is blocked, however many steps the call is given.  A
    null string, and a plugin that is not initialised, are refused before
    anything is copied. *)
Theorem place_work_copies_or_cleans_up
    (j : nat) (who : tid) (s : string) (g : plugin_context_t)
    (q : consumer_producer_t) (h : heap) :
  initialized g = 1 → queue g = Some q → wf q → 1 ≤ next_addr h →
  let dup := next_addr h in
  let h1 := (alloc s h).2 in
  (finished_flag q = 0 → count q < capacity q →
   ∃ q',
     plugin_place_work j who (Some s) g h = Some (None, set_queue q' g, h1, []) ∧
     wf q' ∧ contents q' = contents q ++ [dup] ∧
     load dup h1 = s ∧ freed h1 = freed h ∧
     (∀ p, p ≠ dup → cells h1 !! p = cells h !! p)) ∧
  (finished_flag q = 1 →
   plugin_place_work j who (Some s) g h =
     Some (Some err_after_finished, set_queue q g, free dup h1,
           [PFree who dup; PLogError j err_after_finished]) ∧
   freed (free dup h1) = freed h ++ [dup]) ∧
  (finished_flag q = 0 → count q = capacity q →
   let g1 := set_queue (set_not_full (monitor_reset (not_full_monitor q)) q) g in
   (∀ n, (4 ≤ n)%nat →
      place_work_ending n j who (Some s) PwEntry g h [] =
        PwAsleep (PwPut dup PutWait) g1 h1 []) ∧
   plugin_place_work_step j who (Some s) (PwPut dup PutWait) g1 h1 = PwBlocked ∧
   freed h1 = freed h) ∧
  plugin_place_work j who None g h =
    Some (Some "invalid input"%string, g, h,
          [PLogError j "plugin_place_work: invalid input (NULL)"]) ∧
  (∀ g0, initialized g0 ≠ 1 →
     plugin_place_work j who (Some s) g0 h =
       Some (Some "plugin not initialized"%string, g0, h,
             [PLogError j "plugin_place_work: plugin not initialized"])).
Proof.
  intros Hi Hq Hwf Hnext dup h1.
  assert (Hdup : dup ≠ NULL) by (subst dup; lia).
  assert (Hentry : plugin_place_work_step j who (Some s) PwEntry g h
                   = PwNext (PwPut dup PutEntry) g h1 []).
  { cbn [plugin_place_work_step]. by rewrite Hi. }
  pose proof (wf_initialized _ Hwf) as Hqi.
  destruct (wf_monitors _ Hwf) as (Hm1 & Hm2 & Hm3).
  split_and!.
  - intros Hfin Hroom.
    destruct (put_steps_ok q dup Hwf Hdup Hfin Hroom) as (Hs1 & Hs2 & Hs3).
    set (q1 := put_insert dup q) in *.
    set (q2 := set_not_empty (monitor_signal (not_empty_monitor q1)) q1) in *.
    exists q2. split_and!.
    + unfold plugin_place_work. cbn [place_work_solo]. rewrite Hentry.
      cbn [place_work_solo plugin_place_work_step]. rewrite Hq, Hs1.
      cbn [place_work_solo plugin_place_work_step queue set_queue]. rewrite Hs2.
      cbn [place_work_solo plugin_place_work_step queue set_queue]. rewrite Hs3.
      done.
    + apply (step_ok_not_empty _ _ (put_insert_wf dup q Hwf Hroom Hdup)
               (signal_initialized _) []); done.
    + subst q2. rewrite contents_set_not_empty. by apply put_insert_contents.
    + subst h1 dup. unfold load, alloc. cbn. by rewrite lookup_insert_eq.
    + done.
    + intros p Hp. subst h1 dup. unfold alloc. cbn. by rewrite lookup_insert_ne.
  - intros Hfin. split; [|subst h1 dup; unfold free, alloc; cbn;
      by rewrite (proj2 (Z.eqb_neq _ _)) by lia].
    unfold plugin_place_work. cbn [place_work_solo]. rewrite Hentry.
    cbn [place_work_solo plugin_place_work_step]. rewrite Hq. cbn [put_step].
    by rewrite (proj2 (Z.eqb_neq _ _) Hdup), Hqi, Hfin.
  - intros Hfin Hfull g1.
    destruct (put_sleeps q dup PutLock Hwf (or_introl (conj eq_refl Hfin)) Hfull)
      as (Hlock & _ & Hblocked).
    assert (Hstuck : plugin_place_work_step j who (Some s) (PwPut dup PutWait) g1 h1
                     = PwBlocked).
    { cbn [plugin_place_work_step g1 queue set_queue]. by rewrite Hblocked. }
    split_and!; [|done|done].
    intros [|[|[|[|n]]]] Hn; [lia..|]. cbn [place_work_ending]. rewrite Hentry.
    cbn [place_work_ending plugin_place_work_step app]. rewrite Hq. cbn [put_step].
    rewrite (proj2 (Z.eqb_neq _ _) Hdup), Hqi, Hfin.
    cbn [Z.eqb Pos.eqb negb place_work_ending plugin_place_work_step queue
         set_queue app].
    rewrite Hlock. cbn [place_work_ending app].
    assert (Hg : set_queue (set_not_full (monitor_reset (not_full_monitor q)) q)
                   (set_queue q g) = g1) by done.
    rewrite Hg, Hstuck. done.
  - done.
  - intros g0 Hg0. unfold plugin_place_work. cbn.
    by rewrite (proj2 (Z.eqb_neq _ _) Hg0).
Qed.

Lemma initialized_ctx_of_queue :
  queue (initialized_ctx_of logger_transform)
    = Some (consumer_producer_init ConsumerProducer.zeroed 8).2.
Proof. reflexivity. Qed.

Lemma place_work_copies_or_cleans_up_witness :
  ∃ q',
    plugin_place_work 0 (Feeder 0) (Some "hello"%string)
      (initialized_ctx_of logger_transform) empty_heap
    = Some (None, set_queue q' (initialized_ctx_of logger_transform),
            (alloc "hello" empty_heap).2, []) ∧
    wf q' ∧
    contents q' = contents (consumer_producer_init ConsumerProducer.zeroed 8).2 ++ [1] ∧
    load 1 (alloc "hello" empty_heap).2 = "hello"%string ∧
    freed (alloc "hello" empty_heap).2 = freed empty_heap ∧
    (∀ p, p ≠ 1 → cells (alloc "hello" empty_heap).2 !! p = cells empty_heap !! p).
Proof.
  refine (proj1 (place_work_copies_or_cleans_up 0 (Feeder 0) "hello"
                   (initialized_ctx_of logger_transform)
                   (consumer_producer_init ConsumerProducer.zeroed 8).2 empty_heap
                   eq_refl initialized_ctx_of_queue
                   (proj1 (init_ok ConsumerProducer.zeroed 8 eq_refl)) _) _ _);
    vm_compute; done.
Defined.

End PluginInterface.

(** ** Ownership of buffers *)

Section Ownership.
Import Monitor ConsumerProducer PluginCommon Main.

Lemma submseteq_nodup (l k : list Z) : l ⊆+ k → NoDup k → NoDup l.
Proof.
  intros Hsub Hk. apply submseteq_Permutation in Hsub as [k' Hk'].
  rewrite Hk' in Hk. by apply NoDup_app in Hk as [? _].
Qed.

Lemma mjoin_split {A} (f : A → list Z) (l : list A) i x :
  l !! i = Some x → mjoin (f <$> l) ≡ₚ f x ++ mjoin (f <$> delete i l).
Proof.
  revert i. induction l as [|y l IH]; intros [|i] Hi; try done.
  - by injection Hi as ->.
  - cbn. rewrite (IH i Hi). solve_Permutation.
Qed.

Lemma mjoin_split_insert {A} (f : A → list Z) (l : list A) i x y :
  l !! i = Some x →
  mjoin (f <$> <[i := y]> l) ≡ₚ f y ++ mjoin (f <$> delete i l).
Proof.
  revert i. induction l as [|z l IH]; intros [|i] Hi; try done.
  cbn. rewrite (IH i Hi). solve_Permutation.
Qed.

Lemma queue_holds_set_finished (i : nat) (gs : list plugin_context_t) :
  queue_holds <$> alter (set_finished 1) i gs = queue_holds <$> gs.
Proof.
  revert i. induction gs as [|g gs IH]; intros [|i]; try done.
  cbn. by rewrite IH.
Qed.

Lemma feeders_split (m : gmap nat (nat * option string * pw_pc)) k v :
  m !! k = Some v →
  mjoin (feeder_holds <$> map_to_list m) ≡ₚ
    pw_holds v.2 ++ mjoin (feeder_holds <$> map_to_list (delete k m)).
Proof.
  intros Hk. rewrite <- (map_to_list_delete m k v Hk). done.
Qed.

Lemma feeders_split_insert (m : gmap nat (nat * option string * pw_pc)) k v :
  mjoin (feeder_holds <$> map_to_list (<[k := v]> m)) ≡ₚ
    pw_holds v.2 ++ mjoin (feeder_holds <$> map_to_list (delete k m)).
Proof.
  rewrite <- (insert_delete_eq m k v).
  rewrite map_to_list_insert by apply lookup_delete_eq. done.
Qed.

(** *** The queue operations move buffers, they neither copy nor drop *)

Lemma get_step_moves pc q :
  wf q → (∀ p, p ∈ get_holds pc → p ≠ NULL) →
  match get_step pc q with
  | Blocked => True
  | Next pc' q' _ => wf q' ∧ get_holds pc' ++ contents q' = get_holds pc ++ contents q
  | Return x q' _ =>
      wf q' ∧ (if x =? NULL then [] else [x]) ++ contents q' = get_holds pc ++ contents q
  end.
Proof.
  intros Hwf Hheld.
  assert (Hpc : pc_inv q (InGet pc)).
  { destruct pc; try done; cbn; apply Hheld; cbn; by left. }
  pose proof (get_step_ok pc q Hwf Hpc) as Hok.
  pose proof (op_step_link 0%nat (InGet pc) q Hwf Hpc) as Hlink.
  cbn [op_step] in Hlink.
  destruct (get_step pc q) as [|pc' q' evs|x q' evs]; [done|..];
    cbn [outcome_ok] in Hok; cbn [link_ok lift] in Hlink.
  - destruct Hok as [(Hwf' & _ & _ & Hc) _]. destruct Hlink as [He Hd].
    split; [done|].
    assert (Hpd : ∀ p, pending_deq (Some (InGet p)) = get_holds p) by by intros [].
    rewrite !Hpd in Hd. change (pending_enq _) with (@nil Z) in He.
    rewrite app_nil_l in He. rewrite He, app_nil_r in Hc.
    by rewrite Hc, <- Hd, app_assoc.
  - destruct Hok as (Hwf' & _ & _ & Hc). destruct Hlink as (He & Hd & _).
    split; [done|].
    assert (Hpd : ∀ p, pending_deq (Some (InGet p)) = get_holds p) by by intros [].
    rewrite Hpd in Hd. change (pending_enq _) with (@nil Z) in He.
    rewrite app_nil_l in He. change (put_returns _) with (@nil Z) in He.
    rewrite He, app_nil_r in Hc.
    rewrite Hc, app_assoc, Hd. f_equal. unfold get_returns. cbn.
    by destruct (decide (x = 0)) as [->|Hx]; [|rewrite (proj2 (Z.eqb_neq _ _) Hx)].
Qed.

Lemma put_step_moves dup pc q :
  wf q → dup ≠ NULL →
  match put_step dup pc q with
  | Blocked => True
  | Next pc' q' _ =>
      wf q' ∧ put_holds dup pc' ++ contents q' ≡ₚ put_holds dup pc ++ contents q
  | Return None q' _ => wf q' ∧ contents q' = contents q ∧ put_holds dup pc = []
  | Return (Some _) q' _ =>
      wf q' ∧ contents q' = contents q ∧ put_holds dup pc = [dup]
  end.
Proof.
  intros Hwf Hdup.
  assert (Hpc : pc_inv q (InPut dup pc)) by by destruct pc.
  pose proof (put_step_ok dup pc q Hwf Hpc) as Hok.
  pose proof (op_step_link 0%nat (InPut dup pc) q Hwf Hpc) as Hlink.
  cbn [op_step] in Hlink.
  destruct (put_step dup pc q) as [|pc' q' evs|r q' evs] eqn:Hstep; [done|..];
    cbn [outcome_ok] in Hok; cbn [link_ok lift] in Hlink.
  - destruct Hok as [(Hwf' & _ & _ & Hc) _]. destruct Hlink as [He Hd].
    split; [done|].
    assert (Hdq : ev_deq evs = []) by exact Hd.
    rewrite Hdq, app_nil_l in Hc. rewrite <- Hc.
    assert (Hns : pc ≠ PutSignal) by (intros ->; done).
    generalize dependent (ev_enq evs). intros e Hc He.
    destruct pc, pc'; try done; cbn [pending_enq put_holds] in He |- *;
      simplify_list_eq; try done; solve_Permutation.
  - destruct Hok as (Hwf' & _ & _ & Hc). destruct Hlink as (He & Hd & Hret).
    assert (Hdq : ev_deq evs = []).
    { destruct r; exact Hd. }
    rewrite Hdq, app_nil_l in Hc.
    destruct r as [e|]; cbn [put_returns omap return_ok] in He, Hret.
    + apply app_eq_nil in He as [_ He]. rewrite He, app_nil_r in Hc.
      split; [done|]. split; [done|]. by destruct Hret as [-> | ->].
    + subst pc. split; [done|].
      cbn in Hstep. injection Hstep as <- <-.
      by rewrite contents_set_not_empty.
Qed.

End Ownership.

Section OwnershipSteps.
Import Monitor ConsumerProducer PluginCommon Main.

Lemma sf_step_moves pc q :
  wf q →
  match sf_step pc q with
  | Blocked => True
  | Next _ q' _ | Return _ q' _ => wf q' ∧ contents q' = contents q
  end.
Proof.
  intros Hwf. pose proof (sf_step_ok pc q Hwf) as Hok.
  destruct pc; cbn [sf_step] in *; repeat case_match; cbn [outcome_ok] in Hok;
    try (by destruct Hok as [(? & _) _]); try (by destruct Hok as (? & _)); done.
Qed.

Lemma free_freed p h : p ≠ NULL → freed (free p h) = freed h ++ [p].
Proof. intros Hp. unfold free. by rewrite (proj2 (Z.eqb_neq _ _) Hp). Qed.

Lemma free_next p h : next_addr (free p h) = next_addr h.
Proof. unfold free. by destruct (p =? 0). Qed.

(** A step that allocates [fresh], frees [frees] and leaves the threads and
    queues with a part of what they held, plus the fresh buffers minus the
    freed ones, keeps the memory discipline. *)
Lemma mem_inv_step P P' fresh frees :
  mem_inv P →
  Forall (λ g, ∀ q, PluginCommon.queue g = Some q → wf q) (ctxs P') →
  (fresh = [] ∧ next_addr (mem P') = next_addr (mem P) ∨
   fresh = [next_addr (mem P)] ∧ next_addr (mem P') = next_addr (mem P) + 1) →
  freed (mem P') = freed (mem P) ++ frees →
  frees ++ owned P' ⊆+ owned P ++ fresh →
  mem_inv P'.
Proof.
  intros [Hq Hn Hnd Hr] Hq' Hfresh Hfreed Hsub.
  assert (Hsub' : owned P' ++ freed (mem P') ⊆+ fresh ++ owned P ++ freed (mem P)).
  { rewrite Hfreed.
    trans ((frees ++ owned P') ++ freed (mem P)); [by apply Permutation_submseteq; solve_Permutation|].
    trans ((owned P ++ fresh) ++ freed (mem P)); [by apply submseteq_skips_r|].
    apply Permutation_submseteq. solve_Permutation. }
  split.
  - done.
  - destruct Hfresh as [[_ ->]|[_ ->]]; lia.
  - eapply submseteq_nodup; [exact Hsub'|].
    destruct Hfresh as [[-> _]|[-> _]]; [done|]. cbn [app].
    apply NoDup_cons. split; [|done].
    intros Hin. rewrite Forall_forall in Hr. specialize (Hr _ Hin). lia.
  - apply Forall_forall. intros p Hp.
    pose proof (elem_of_submseteq _ _ _ Hp Hsub') as Hin.
    rewrite Forall_forall in Hr.
    destruct Hfresh as [[-> ->]|[-> ->]].
    + by apply Hr.
    + apply elem_of_cons in Hin as [->|Hin]; [lia|]. specialize (Hr _ Hin). lia.
Qed.

(** What one step of [plugin_place_work] of stage [j] does to the buffers. *)
Lemma pw_run_moves who j str ppc P r P' :
  mem_inv P →
  Forall (λ g, ctx_ready g = true) (ctxs P) →
  (∀ p, p ∈ pw_holds ppc → p ≠ NULL) →
  pw_run who j str ppc P = Some (r, P') →
  ∃ g g' fresh frees,
    ctxs P !! j = Some g ∧ ctxs P' = <[j := g']> (ctxs P) ∧
    workers P' = workers P ∧ feeders P' = feeders P ∧
    (∀ q', PluginCommon.queue g' = Some q' → wf q') ∧
    (fresh = [] ∧ next_addr (mem P') = next_addr (mem P) ∨
     fresh = [next_addr (mem P)] ∧ next_addr (mem P') = next_addr (mem P) + 1) ∧
    freed (mem P') = freed (mem P) ++ frees ∧
    frees ++ queue_holds g' ++
      match r with inl ppc' => pw_holds ppc' | inr _ => [] end
    ⊆+ queue_holds g ++ pw_holds ppc ++ fresh.
Proof.
  intros Hinv Hready Hheld. unfold pw_run.
  destruct (ctxs P !! j) as [g|] eqn:Hg; [|done].
  assert (Hrg : ctx_ready g = true).
  { rewrite Forall_forall in Hready. apply Hready. by eapply list_elem_of_lookup_2. }
  unfold ctx_ready in Hrg. rewrite andb_true_iff, !bool_decide_eq_true in Hrg.
  destruct Hrg as [[q Hq] _].
  assert (Hwf : wf q).
  { pose proof (mi_queues _ Hinv) as Hqs. rewrite Forall_forall in Hqs.
    eapply Hqs; [by eapply list_elem_of_lookup_2|done]. }
  pose proof (mi_next _ Hinv) as Hnext.
  assert (Halter : ∀ g', alter (λ _, g') j (ctxs P) = <[j := g']> (ctxs P)).
  { intros g'. by apply list_alter_at with (x := g). }
  assert (Hqg : ∀ q', PluginCommon.queue g = Some q' → wf q').
  { intros q' Hq'. by simplify_eq. }
  destruct ppc as [|dup pc]; cbn [plugin_place_work_step].
  - destruct str as [s|].
    + destruct (negb (PluginCommon.initialized g =? 1)).
      * intros [= <- <-]. exists g, g, [], []. cbn. rewrite Halter, ?app_nil_r.
        do 4 (split; [done|]). split; [done|]. split; [by left|].
        split; [by rewrite ?app_nil_r|done].
      * intros [= <- <-]. exists g, g, [next_addr (mem P)], []. cbn.
        rewrite Halter, ?app_nil_r.
        do 4 (split; [done|]). split; [done|]. split; [by right|].
        split; [by rewrite ?app_nil_r|].
        apply Permutation_submseteq. solve_Permutation.
    + intros [= <- <-]. exists g, g, [], []. cbn. rewrite Halter, ?app_nil_r.
      do 4 (split; [done|]). split; [done|]. split; [by left|].
      split; [by rewrite ?app_nil_r|done].
  - rewrite Hq.
    assert (Hdup : put_holds dup pc ≠ [] → dup ≠ NULL).
    { intros Hne. apply Hheld. cbn. destruct pc; try done; by left. }
    assert (Hcase : pc = PutSignal ∨ pc ≠ PutSignal) by (destruct pc; auto).
    destruct Hcase as [->|Hns].
    { cbn [put_step]. intros [= <- <-]. eexists g, (set_queue _ g), [], []. cbn.
      rewrite Halter, ?app_nil_r.
      do 4 (split; [done|]). split; [|split; [by left|split; [by rewrite ?app_nil_r|]]].
      - intros q' [= <-].
        apply (step_ok_not_empty _ _ Hwf (signal_initialized _) []); done.
      - unfold queue_holds. cbn. rewrite Hq. cbn. by rewrite contents_set_not_empty. }
    assert (Hd : dup ≠ NULL) by (apply Hdup; by destruct pc).
    pose proof (put_step_moves dup pc q Hwf Hd) as Hmove.
    destruct (put_step dup pc q) as [|pc' q' evs|[e|] q' evs]; [done|..].
    + destruct Hmove as [Hwf' Hperm]. intros [= <- <-].
      exists g, (set_queue q' g), [], []. cbn. rewrite Halter, ?app_nil_r.
      do 4 (split; [done|]). split; [by intros ? [= <-]|]. split; [by left|].
      split; [by rewrite ?app_nil_r|].
      unfold queue_holds. cbn. rewrite Hq. cbn.
      apply Permutation_submseteq. rewrite (Permutation_app_comm (contents q')).
      rewrite Hperm. solve_Permutation.
    + destruct Hmove as (Hwf' & Hc & Hh). intros [= <- <-].
      exists g, (set_queue q' g), [], [dup]. cbn -[free]. rewrite Halter, ?app_nil_r.
      do 4 (split; [done|]). split; [by intros ? [= <-]|].
      split; [left; by rewrite free_next|].
      split; [by apply free_freed|].
      unfold queue_holds. cbn. rewrite Hq, Hh, Hc. cbn.
      apply Permutation_submseteq. solve_Permutation.
    + destruct Hmove as (Hwf' & Hc & Hh). intros [= <- <-].
      exists g, (set_queue q' g), [], []. cbn. rewrite Halter, ?app_nil_r.
      do 4 (split; [done|]). split; [by intros ? [= <-]|]. split; [by left|].
      split; [by rewrite ?app_nil_r|].
      unfold queue_holds. cbn. rewrite Hq, Hh, Hc. cbn. by rewrite app_nil_r.
Qed.

End OwnershipSteps.

Section OwnershipWorker.
Import Monitor ConsumerProducer PluginCommon Main.

Lemma owned_frame_worker P j i g pc :
  ctxs P !! j = Some g → workers P !! i = Some pc →
  ∃ rest,
    owned P ≡ₚ (queue_holds g ++ worker_holds pc) ++ rest ∧
    ∀ P' g' pc',
      queue_holds <$> ctxs P' = queue_holds <$> <[j := g']> (ctxs P) →
      workers P' = <[i := pc']> (workers P) →
      feeders P' = feeders P →
      owned P' ≡ₚ (queue_holds g' ++ worker_holds pc') ++ rest.
Proof.
  intros Hg Hpc.
  exists (mjoin (queue_holds <$> delete j (ctxs P)) ++
          mjoin (worker_holds <$> delete i (workers P)) ++
          mjoin (feeder_holds <$> map_to_list (feeders P))).
  split.
  - unfold owned. rewrite (mjoin_split queue_holds _ j g Hg),
      (mjoin_split worker_holds _ i pc Hpc). solve_Permutation.
  - intros P' g' pc' Hq Hw Hf. unfold owned. rewrite Hq, Hw, Hf.
    rewrite (mjoin_split_insert queue_holds _ j g g' Hg),
      (mjoin_split_insert worker_holds _ i pc pc' Hpc). solve_Permutation.
Qed.

Lemma owned_frame_feeder P j k g v :
  ctxs P !! j = Some g → feeders P !! k = Some v →
  ∃ rest,
    owned P ≡ₚ (queue_holds g ++ pw_holds v.2) ++ rest ∧
    ∀ P' g',
      ctxs P' = <[j := g']> (ctxs P) → workers P' = workers P →
      (∀ v', feeders P' = <[k := v']> (feeders P) →
             owned P' ≡ₚ (queue_holds g' ++ pw_holds v'.2) ++ rest) ∧
      (feeders P' = delete k (feeders P) →
       owned P' ≡ₚ queue_holds g' ++ rest).
Proof.
  intros Hg Hv.
  exists (mjoin (queue_holds <$> delete j (ctxs P)) ++
          mjoin (worker_holds <$> workers P) ++
          mjoin (feeder_holds <$> map_to_list (delete k (feeders P)))).
  split.
  - unfold owned. rewrite (mjoin_split queue_holds _ j g Hg),
      (feeders_split _ k v Hv). solve_Permutation.
  - intros P' g' Hq Hw. split.
    + intros v' Hf. unfold owned. rewrite Hq, Hw, Hf.
      rewrite (mjoin_split_insert queue_holds _ j g g' Hg),
        (feeders_split_insert _ k v'). solve_Permutation.
    + intros Hf. unfold owned. rewrite Hq, Hw, Hf.
      rewrite (mjoin_split_insert queue_holds _ j g g' Hg). solve_Permutation.
Qed.

Lemma local_step (X X' A A' rest fresh frees : list Z) :
  X ≡ₚ A ++ rest → X' ≡ₚ A' ++ rest →
  frees ++ A' ⊆+ A ++ fresh →
  frees ++ X' ⊆+ X ++ fresh.
Proof.
  intros HX HX' Hloc. rewrite HX, HX'.
  trans ((frees ++ A') ++ rest); [apply Permutation_submseteq; solve_Permutation|].
  trans ((A ++ fresh) ++ rest); [by apply submseteq_skips_r|].
  apply Permutation_submseteq. solve_Permutation.
Qed.

Lemma queues_insert (gs : list plugin_context_t) j g' :
  Forall (λ g, ∀ q, PluginCommon.queue g = Some q → wf q) gs →
  (∀ q, PluginCommon.queue g' = Some q → wf q) →
  Forall (λ g, ∀ q, PluginCommon.queue g = Some q → wf q) (<[j := g']> gs).
Proof. intros Hgs Hg'. by apply Forall_insert. Qed.

Lemma queues_set_finished (gs : list plugin_context_t) i :
  Forall (λ g, ∀ q, PluginCommon.queue g = Some q → wf q) gs →
  Forall (λ g, ∀ q, PluginCommon.queue g = Some q → wf q) (alter (set_finished 1) i gs).
Proof. intros Hgs. apply Forall_alter; [done|]. intros g _ Hg q Hq. by apply Hg. Qed.

Lemma insert_same_fmap (gs : list plugin_context_t) i g :
  gs !! i = Some g → queue_holds <$> gs = queue_holds <$> <[i := g]> gs.
Proof. intros Hg. by rewrite list_insert_id. Qed.

Lemma held_nonnull P p : mem_inv P → p ∈ owned P → p ≠ NULL.
Proof.
  intros Hinv Hp. pose proof (mi_range _ Hinv) as Hr. rewrite Forall_forall in Hr.
  specialize (Hr p). rewrite elem_of_app in Hr. specialize (Hr (or_introl Hp)). lia.
Qed.

Lemma held_below P p : mem_inv P → p ∈ owned P → p < next_addr (mem P).
Proof.
  intros Hinv Hp. pose proof (mi_range _ Hinv) as Hr. rewrite Forall_forall in Hr.
  specialize (Hr p). rewrite elem_of_app in Hr. specialize (Hr (or_introl Hp)). lia.
Qed.

Lemma worker_held P i pc p :
  workers P !! i = Some pc → p ∈ worker_holds pc → p ∈ owned P.
Proof.
  intros Hpc Hp. unfold owned. rewrite !elem_of_app. right. left.
  rewrite (mjoin_split worker_holds _ i pc Hpc). rewrite elem_of_app. by left.
Qed.

Lemma feeder_held P k v p :
  feeders P !! k = Some v → p ∈ pw_holds v.2 → p ∈ owned P.
Proof.
  intros Hv Hp. unfold owned. rewrite !elem_of_app. right. right.
  rewrite (feeders_split _ k v Hv). rewrite elem_of_app. by left.
Qed.

Ltac own_close :=
  cbn [worker_holds get_holds pw_holds put_holds app];
  rewrite ?app_nil_r; try done;
  apply Permutation_submseteq; solve_Permutation.

Ltac psimpl :=
  cbn [workers feeders log ctxs mem set_worker upd_ctx set_mem emit do_free].

Lemma worker_step_mem i P P' :
  mem_inv P → Forall (λ g, ctx_ready g = true) (ctxs P) →
  worker_step i P = Some P' → mem_inv P'.
Proof.
  intros Hinv Hready. unfold worker_step.
  destruct (workers P !! i) as [pc|] eqn:Hpc; [|done].
  destruct (ctxs P !! i) as [g|] eqn:Hg; [|done].
  assert (Hrg : ctx_ready g = true).
  { rewrite Forall_forall in Hready. apply Hready. by eapply list_elem_of_lookup_2. }
  unfold ctx_ready in Hrg. rewrite andb_true_iff, !bool_decide_eq_true in Hrg.
  destruct Hrg as [[q Hq] [f Hf]].
  pose proof (mi_queues _ Hinv) as Hqs.
  assert (Hwf : wf q).
  { rewrite Forall_forall in Hqs. eapply Hqs; [by eapply list_elem_of_lookup_2|done]. }
  assert (Hheld : ∀ p, p ∈ worker_holds pc → p ≠ NULL ∧ p < next_addr (mem P)).
  { intros p Hp. pose proof (worker_held P i pc p Hpc Hp).
    split; [by eapply held_nonnull|by eapply held_below]. }
  assert (Halter : ∀ h, alter h i (ctxs P) = <[i := h g]> (ctxs P)).
  { intros h. by apply list_alter_at. }
  destruct (owned_frame_worker P i i g pc Hg Hpc) as (rest & Hsplit & Hframe).
  destruct pc as [|gpc|in_|in_ ppc|spc|in_ out ppc|].
  - (* WStart *)
    rewrite Hq, Hf. intros [= <-].
    apply (mem_inv_step P _ [] [] Hinv); psimpl; [done|by left|by rewrite app_nil_r|].
    eapply local_step; [exact Hsplit|apply (Hframe _ g); psimpl;
      [by apply insert_same_fmap|done|done]|]. own_close.
  - (* WGet *)
    rewrite Hq.
    pose proof (get_step_moves gpc q Hwf (λ p Hp, proj1 (Hheld p Hp))) as Hmove.
    destruct (get_step gpc q) as [|gpc' q' evs|x q' evs]; [done|..]; intros [= <-].
    + destruct Hmove as [Hwf' Heq].
      apply (mem_inv_step P _ [] [] Hinv); psimpl;
        [|by left|by rewrite app_nil_r|].
      * rewrite Halter. apply queues_insert; [done|]. by intros ? [= <-].
      * eapply local_step; [exact Hsplit|apply (Hframe _ (set_queue q' g)); psimpl;
          [by rewrite Halter|done|done]|].
        unfold queue_holds. cbn [PluginCommon.queue set_queue from_option worker_holds].
        rewrite Hq. cbn [from_option]. rewrite app_nil_r.
        apply Permutation_submseteq.
        rewrite (Permutation_app_comm (contents q')), Heq. solve_Permutation.
    + destruct Hmove as [Hwf' Heq].
      apply (mem_inv_step P _ [] [] Hinv); psimpl;
        [|by left|by rewrite app_nil_r|].
      * rewrite Halter. apply queues_insert; [done|]. by intros ? [= <-].
      * eapply local_step; [exact Hsplit|apply (Hframe _ (set_queue q' g)); psimpl;
          [by rewrite Halter|done|done]|].
        unfold queue_holds. cbn [PluginCommon.queue set_queue from_option worker_holds].
        rewrite Hq. cbn [from_option]. rewrite app_nil_r.
        apply Permutation_submseteq.
        rewrite (Permutation_app_comm (contents q')), Heq. solve_Permutation.
  - (* WGot *)
    destruct (in_ =? 0) eqn:Hnull.
    { intros [= <-].
      apply (mem_inv_step P _ [] [] Hinv); psimpl; [done|by left|by rewrite app_nil_r|].
      eapply local_step; [exact Hsplit|apply (Hframe _ g); psimpl;
        [by apply insert_same_fmap|done|done]|].
      cbn [worker_holds get_holds]. rewrite Hnull. own_close. }
    assert (Hin : in_ ≠ NULL) by by apply Z.eqb_neq.
    assert (Hwh : worker_holds (WGot in_) = [in_]) by (cbn; by rewrite Hnull).
    rewrite Hwh in *.
    assert (Hlt : in_ < next_addr (mem P)) by (apply Hheld; by left).
    destruct (is_end (mem P) in_).
    { destruct (wired g); intros [= <-].
      - apply (mem_inv_step P _ [] [] Hinv); psimpl; [done|by left|by rewrite app_nil_r|].
        eapply local_step; [exact Hsplit|apply (Hframe _ g); psimpl;
          [by apply insert_same_fmap|done|done]|]. own_close.
      - apply (mem_inv_step P _ [] [in_] Hinv); psimpl;
          [by apply queues_set_finished|left; by rewrite free_next|by apply free_freed|].
        eapply local_step; [exact Hsplit|apply (Hframe _ g); psimpl;
          [rewrite queue_holds_set_finished; by apply insert_same_fmap|done|done]|].
        own_close. }
    rewrite Hf. unfold apply_transform.
    destruct (f (load in_ (mem P))) as [[| s |] printed].
    + (* the same pointer *)
      rewrite Hnull. destruct (wired g).
      { intros [= <-].
        apply (mem_inv_step P _ [] [] Hinv); psimpl; [done|by left|by rewrite app_nil_r|].
        eapply local_step; [exact Hsplit|apply (Hframe _ g); psimpl;
          [by apply insert_same_fmap|done|done]|].
        cbn [worker_holds pw_holds]. rewrite Z.eqb_refl. own_close. }
      rewrite Z.eqb_refl. cbn [negb]. intros [= <-].
      apply (mem_inv_step P _ [] [in_] Hinv); psimpl;
        [done|left; by rewrite free_next|by apply free_freed|].
      eapply local_step; [exact Hsplit|apply (Hframe _ g); psimpl;
        [by apply insert_same_fmap|done|done]|].
      own_close.
    + (* a new buffer *)
      pose proof (mi_next _ Hinv) as Hnext.
      cbn [alloc fst snd].
      assert (Hout : (next_addr (mem P) =? 0) = false) by (apply Z.eqb_neq; lia).
      assert (Hne : (next_addr (mem P) =? in_) = false) by (apply Z.eqb_neq; lia).
      rewrite Hout. destruct (wired g).
      { intros [= <-].
        apply (mem_inv_step P _ [next_addr (mem P)] [] Hinv); psimpl;
          [done|by right|by rewrite app_nil_r|].
        eapply local_step; [exact Hsplit|apply (Hframe _ g); psimpl;
          [by apply insert_same_fmap|done|done]|].
        cbn [worker_holds pw_holds]. rewrite Hne. own_close. }
      rewrite Hne. cbn [negb]. intros [= <-].
      apply (mem_inv_step P _ [next_addr (mem P)] [next_addr (mem P); in_] Hinv);
        psimpl; [done|right; by rewrite !free_next| |].
      * rewrite !free_freed by (done || lia). cbn. by rewrite <- app_assoc.
      * eapply local_step; [exact Hsplit|apply (Hframe _ g); psimpl;
          [by apply insert_same_fmap|done|done]|].
        own_close.
    + (* NULL *)
      cbn [Z.eqb]. intros [= <-].
      apply (mem_inv_step P _ [] [in_] Hinv); psimpl;
        [done|left; by rewrite free_next|by apply free_freed|].
      eapply local_step; [exact Hsplit|apply (Hframe _ g); psimpl;
        [by apply insert_same_fmap|done|done]|].
      own_close.
  - (* WForwardEnd *)
    destruct (next_place_work g) as [j|]; [|done].
    destruct (pw_run (Worker i) j (Some (load in_ (mem P))) ppc P) as [[r P1]|] eqn:Hpw;
      [|done].
    destruct (pw_run_moves _ _ _ _ _ _ _ Hinv Hready
                (λ p Hp, proj1 (Hheld p (list_elem_of_further _ _ _ Hp))) Hpw)
      as (gj & gj' & fresh & frees & Hgj & Hctx & Hws & Hfs & Hwfj & Hfresh & Hfreed & Hloc).
    destruct (owned_frame_worker P j i gj _ Hgj Hpc) as (rest' & Hsplit' & Hframe').
    assert (Hin : in_ ≠ NULL ∧ in_ < next_addr (mem P)) by (apply Hheld; by left).
    destruct r as [ppc'|[e|]]; intros [= <-].
    + apply (mem_inv_step P _ fresh frees Hinv); psimpl;
        [rewrite Hctx; by apply queues_insert|done|done|].
      eapply local_step; [exact Hsplit'|apply (Hframe' _ gj'); psimpl;
        [by rewrite Hctx|by rewrite Hws|done]|].
      cbn [worker_holds].
      trans (in_ :: (frees ++ queue_holds gj' ++ pw_holds ppc'));
        [apply Permutation_submseteq; solve_Permutation|].
      trans (in_ :: (queue_holds gj ++ pw_holds ppc ++ fresh));
        [by apply submseteq_skip|].
      apply Permutation_submseteq; solve_Permutation.
    + apply (mem_inv_step P _ fresh (frees ++ [in_]) Hinv); psimpl.
      * apply queues_set_finished. rewrite Hctx. by apply queues_insert.
      * rewrite free_next. done.
      * rewrite free_freed by tauto. by rewrite Hfreed, <- app_assoc.
      * eapply local_step; [exact Hsplit'|apply (Hframe' _ gj'); psimpl;
          [by rewrite queue_holds_set_finished, Hctx|by rewrite Hws|done]|].
        cbn [worker_holds]. rewrite app_nil_r in Hloc.
        trans (in_ :: (frees ++ queue_holds gj'));
          [apply Permutation_submseteq; solve_Permutation|].
        trans (in_ :: (queue_holds gj ++ pw_holds ppc ++ fresh));
          [by apply submseteq_skip|].
        apply Permutation_submseteq; solve_Permutation.
    + apply (mem_inv_step P _ fresh frees Hinv); psimpl.
      * apply queues_set_finished. rewrite Hctx. by apply queues_insert.
      * done.
      * done.
      * eapply local_step; [exact Hsplit'|apply (Hframe' _ gj'); psimpl;
          [by rewrite queue_holds_set_finished, Hctx|by rewrite Hws|done]|].
        cbn [worker_holds]. rewrite app_nil_r in Hloc.
        trans (frees ++ queue_holds gj'); [apply Permutation_submseteq; solve_Permutation|].
        trans (in_ :: (queue_holds gj ++ pw_holds ppc ++ fresh));
          [by apply submseteq_cons|].
        apply Permutation_submseteq; solve_Permutation.
  - (* WSignalFinished *)
    rewrite Hq. pose proof (sf_step_moves spc q Hwf) as Hmove.
    destruct (sf_step spc q) as [|spc' q' evs|r q' evs]; [done|..];
      destruct Hmove as [Hwf' Hcont]; intros [= <-].
    + apply (mem_inv_step P _ [] [] Hinv); psimpl;
        [|by left|by rewrite app_nil_r|].
      * rewrite Halter. apply queues_insert; [done|]. by intros ? [= <-].
      * eapply local_step; [exact Hsplit|apply (Hframe _ (set_queue q' g)); psimpl;
          [by rewrite Halter|done|done]|].
        unfold queue_holds. cbn [PluginCommon.queue set_queue from_option worker_holds].
        rewrite Hq. cbn [from_option]. rewrite Hcont. own_close.
    + apply (mem_inv_step P _ [] [] Hinv); psimpl;
        [|by left|by rewrite app_nil_r|].
      * rewrite Halter. apply queues_insert; [done|]. by intros ? [= <-].
      * eapply local_step; [exact Hsplit|apply (Hframe _ (set_queue q' g)); psimpl;
          [by rewrite Halter|done|done]|].
        unfold queue_holds. cbn [PluginCommon.queue set_queue from_option worker_holds].
        rewrite Hq. cbn [from_option]. rewrite Hcont. own_close.
  - (* WForward *)
    destruct (next_place_work g) as [j|]; [|done].
    destruct (pw_run (Worker i) j (Some (load out (mem P))) ppc P) as [[r P1]|] eqn:Hpw;
      [|done].
    assert (Hpwh : ∀ p, p ∈ pw_holds ppc → p ≠ NULL).
    { intros p Hp. apply Hheld. cbn [worker_holds]. rewrite elem_of_app. by right. }
    destruct (pw_run_moves _ _ _ _ _ _ _ Hinv Hready Hpwh Hpw)
      as (gj & gj' & fresh & frees & Hgj & Hctx & Hws & Hfs & Hwfj & Hfresh & Hfreed & Hloc).
    destruct (owned_frame_worker P j i gj _ Hgj Hpc) as (rest' & Hsplit' & Hframe').
    assert (Hin : in_ ≠ NULL).
    { apply Hheld. cbn [worker_holds]. rewrite elem_of_app. left.
      destruct (out =? in_); by left. }
    cbn [worker_holds] in Hsplit'.
    set (io := if out =? in_ then [in_] else [in_; out]) in *.
    destruct r as [ppc'|[e|]]; intros [= <-].
    + apply (mem_inv_step P _ fresh frees Hinv); psimpl;
        [rewrite Hctx; by apply queues_insert|done|done|].
      eapply local_step; [exact Hsplit'|apply (Hframe' _ gj'); psimpl;
        [by rewrite Hctx|by rewrite Hws|done]|].
      cbn [worker_holds]. fold io.
      trans (io ++ (frees ++ queue_holds gj' ++ pw_holds ppc'));
        [apply Permutation_submseteq; solve_Permutation|].
      trans (io ++ (queue_holds gj ++ pw_holds ppc ++ fresh));
        [by apply submseteq_skips_l|].
      apply Permutation_submseteq; solve_Permutation.
    + rewrite app_nil_r in Hloc. subst io.
      destruct (out =? in_) eqn:Hoi; cbn [negb].
      * apply (mem_inv_step P _ fresh (frees ++ [in_]) Hinv); psimpl.
        -- rewrite Hctx. by apply queues_insert.
        -- by rewrite free_next.
        -- rewrite free_freed by done. by rewrite Hfreed, <- app_assoc.
        -- eapply local_step; [exact Hsplit'|apply (Hframe' _ gj'); psimpl;
             [by rewrite Hctx|by rewrite Hws|done]|].
           cbn [worker_holds get_holds app].
           trans (in_ :: (frees ++ queue_holds gj'));
             [apply Permutation_submseteq; solve_Permutation|].
           trans (in_ :: (queue_holds gj ++ pw_holds ppc ++ fresh));
             [by apply submseteq_skip|].
           apply Permutation_submseteq; solve_Permutation.
      * assert (Hout : out ≠ NULL).
        { apply Hheld. cbn [worker_holds]. rewrite Hoi, elem_of_app. left.
          apply list_elem_of_further, list_elem_of_here. }
        apply (mem_inv_step P _ fresh (frees ++ [out; in_]) Hinv); psimpl.
        -- rewrite Hctx. by apply queues_insert.
        -- by rewrite !free_next.
        -- rewrite !free_freed by done. rewrite Hfreed, <- !app_assoc. done.
        -- eapply local_step; [exact Hsplit'|apply (Hframe' _ gj'); psimpl;
             [by rewrite Hctx|by rewrite Hws|done]|].
           cbn [worker_holds get_holds app].
           trans (in_ :: out :: (frees ++ queue_holds gj'));
             [apply Permutation_submseteq; solve_Permutation|].
           trans (in_ :: out :: (queue_holds gj ++ pw_holds ppc ++ fresh));
             [by do 2 apply submseteq_skip|].
           apply Permutation_submseteq; solve_Permutation.
    + rewrite app_nil_r in Hloc. subst io.
      destruct (out =? in_) eqn:Hoi; cbn [negb].
      * apply (mem_inv_step P _ fresh frees Hinv); psimpl.
        -- rewrite Hctx. by apply queues_insert.
        -- done.
        -- done.
        -- eapply local_step; [exact Hsplit'|apply (Hframe' _ gj'); psimpl;
             [by rewrite Hctx|by rewrite Hws|done]|].
           cbn [worker_holds get_holds app].
           trans (frees ++ queue_holds gj'); [apply Permutation_submseteq; solve_Permutation|].
           trans (in_ :: (queue_holds gj ++ pw_holds ppc ++ fresh));
             [by apply submseteq_cons|].
           apply Permutation_submseteq; solve_Permutation.
      * apply (mem_inv_step P _ fresh (frees ++ [in_]) Hinv); psimpl.
        -- rewrite Hctx. by apply queues_insert.
        -- by rewrite free_next.
        -- rewrite free_freed by done. by rewrite Hfreed, <- app_assoc.
        -- eapply local_step; [exact Hsplit'|apply (Hframe' _ gj'); psimpl;
             [by rewrite Hctx|by rewrite Hws|done]|].
           cbn [worker_holds get_holds app].
           trans (in_ :: (frees ++ queue_holds gj'));
             [apply Permutation_submseteq; solve_Permutation|].
           trans (in_ :: (queue_holds gj ++ pw_holds ppc ++ fresh));
             [by apply submseteq_skip|].
           trans (in_ :: out :: (queue_holds gj ++ pw_holds ppc ++ fresh));
             [by apply submseteq_skip, submseteq_cons|].
           apply Permutation_submseteq; solve_Permutation.
  - done.
Qed.

End OwnershipWorker.

Section OwnershipRuns.
Import Monitor ConsumerProducer PluginCommon Main.

Lemma pstep_mem a P :
  mem_inv P → Forall (λ g, ctx_ready g = true) (ctxs P) → mem_inv (pstep a P).
Proof.
  intros Hinv Hready. pose proof (mi_queues _ Hinv) as Hqs.
  destruct a as [k j str|k|i]; cbn [pstep].
  - destruct (feeders P !! k) eqn:Hk; [done|].
    apply (mem_inv_step P _ [] [] Hinv); cbn [ctxs mem];
      [exact (mi_queues _ Hinv)|by left|by rewrite app_nil_r|].
    rewrite app_nil_r. cbn [app]. apply Permutation_submseteq.
    unfold owned. cbn [ctxs workers feeders].
    rewrite map_to_list_insert by done. cbn [fmap list_fmap mjoin list_join].
    done.
  - destruct (feeders P !! k) as [[[j str] pc]|] eqn:Hk; [|done].
    destruct (pw_run (Feeder k) j str pc P) as [[r P']|] eqn:Hpw; [|done].
    assert (Hheld : ∀ p, p ∈ pw_holds pc → p ≠ NULL).
    { intros p Hp. eapply held_nonnull; [done|].
      by apply (feeder_held P k (j, str, pc) p Hk). }
    destruct (pw_run_moves _ _ _ _ _ _ _ Hinv Hready Hheld Hpw)
      as (g & g' & fresh & frees & Hg & Hctx & Hws & Hfs & Hwf & Hfresh & Hfreed & Hloc).
    destruct (owned_frame_feeder P j k g (j, str, pc) Hg Hk) as (rest & Hsplit & Hframe).
    cbn [snd] in Hsplit.
    destruct r as [pc'|err].
    + apply (mem_inv_step P _ fresh frees Hinv); cbn [ctxs mem];
        [rewrite Hctx; by apply queues_insert|done|done|].
      eapply local_step; [exact Hsplit| |].
      * refine (proj1 (Hframe _ g' _ _) (j, str, pc') _);
          cbn [ctxs workers feeders]; [done|done|by rewrite Hfs].
      * cbn [snd].
        trans (frees ++ queue_holds g' ++ pw_holds pc');
          [apply Permutation_submseteq; solve_Permutation|].
        trans (queue_holds g ++ pw_holds pc ++ fresh); [done|].
        apply Permutation_submseteq; solve_Permutation.
    + apply (mem_inv_step P _ fresh frees Hinv); cbn [ctxs mem];
        [rewrite Hctx; by apply queues_insert|done|done|].
      eapply local_step; [exact Hsplit| |].
      * refine (proj2 (Hframe _ g' _ _) _);
          cbn [ctxs workers feeders]; [done|done|by rewrite Hfs].
      * rewrite app_nil_r in Hloc.
        trans (queue_holds g ++ pw_holds pc ++ fresh); [done|].
        apply Permutation_submseteq; solve_Permutation.
  - destruct (worker_step i P) as [P'|] eqn:Hstep; [|done].
    by eapply worker_step_mem.
Qed.

Lemma prun_mem sched P : mem_inv P → pinv P → mem_inv (prun sched P).
Proof.
  revert P. induction sched as [|a sched IH]; intros P Hm Hp; [done|].
  rewrite prun_cons. apply IH; [|by apply pstep_inv].
  apply pstep_mem; [done|]. apply (pi_ready _ Hp).
Qed.

Lemma mjoin_nil {A} (f : A → list Z) (l : list A) :
  Forall (λ x, f x = []) l → mjoin (f <$> l) = [].
Proof.
  induction 1 as [|x l Hx _ IH]; [done|]. rewrite fmap_cons.
  change (mjoin (f x :: (f <$> l))) with (f x ++ mjoin (f <$> l)).
  by rewrite Hx, IH.
Qed.

Lemma started_parts fs c P0 :
  (consumer_producer_init ConsumerProducer.zeroed c).1 = None →
  started fs c = Some P0 →
  fresh_pipeline P0 = true ∧
  workers P0 = replicate (length fs) WStart ∧ feeders P0 = ∅ ∧
  mem P0 = empty_heap ∧
  Forall (λ g, PluginCommon.queue g =
                 Some (consumer_producer_init ConsumerProducer.zeroed c).2 ∧
               PluginCommon.initialized g = 1) (ctxs P0).
Proof.
  intros Hc Hst.
  assert (Hn : (1 ≤ length fs)%nat).
  { destruct fs; [done|cbn; lia]. }
  destruct (started_chain fs c Hn Hc) as (P1 & Hst1 & Hfresh & _ & _).
  assert (P1 = P0) as -> by congruence. split; [done|].
  revert Hst. unfold started.
  assert (Hlen3 : length (stage3_contexts fs c) = length fs).
  { unfold stage3_contexts. by rewrite length_fmap. }
  destruct (stage4_spec (stage3_contexts fs c))
    as (gs' & Hrun & Hlen & Hgs'); [lia|by apply stage3_fresh|].
  rewrite Hlen3 in Hrun, Hlen, Hgs'. rewrite Hrun. intros [= <-].
  cbn [workers feeders mem ctxs]. split_and!; try done.
  apply Forall_forall. intros g Hg. apply list_elem_of_lookup in Hg as [k Hk].
  assert (Hklt : (k < length fs)%nat) by (apply lookup_lt_Some in Hk; lia).
  destruct (lookup_lt_is_Some_2 fs k Hklt) as [f Hf].
  rewrite (Hgs' k _ (stage3_lookup fs c k f Hc Hf)) in Hk.
  injection Hk as <-. by case_bool_decide.
Qed.

Lemma started_mem fs c P0 :
  (consumer_producer_init ConsumerProducer.zeroed c).1 = None →
  started fs c = Some P0 → mem_inv P0 ∧ pinv P0.
Proof.
  intros Hc Hst.
  destruct (started_parts fs c P0 Hc Hst) as (Hfresh & Hw & Hfd & Hm & Hqs).
  split; [|by apply fresh_inv].
  destruct (init_ok _ _ Hc) as (Hwf & _ & Hcont & _).
  assert (Hown : owned P0 = []).
  { unfold owned. rewrite Hw, Hfd, map_to_list_empty.
    rewrite (mjoin_nil queue_holds).
    - rewrite (mjoin_nil worker_holds); [done|].
      apply Forall_forall. intros pc Hpc.
      by apply elem_of_replicate in Hpc as [-> _].
    - eapply Forall_impl; [exact Hqs|]. intros g [Hg _]. unfold queue_holds.
      rewrite Hg. cbn. done. }
  split.
  - eapply Forall_impl; [exact Hqs|]. intros g [Hg _] q Hq.
    rewrite Hg in Hq. injection Hq as <-. exact Hwf.
  - by rewrite Hm.
  - rewrite Hown, Hm. cbn. constructor.
  - rewrite Hown, Hm. cbn. constructor.
Qed.

Lemma filter_absent (p : Z) (l : list Z) :
  p ∉ l → filter (λ x, x = p) l = [].
Proof.
  induction l as [|x l IH]; [done|]. intros Hp.
  apply not_elem_of_cons in Hp as [Hne Hp].
  rewrite filter_cons. case_decide; [congruence|]. by apply IH.
Qed.

Lemma times_freed_nodup p h : NoDup (freed h) → (times_freed p h ≤ 1)%nat.
Proof.
  unfold times_freed. induction 1 as [|x l Hx _ IH]; [cbn; lia|].
  rewrite filter_cons. case_decide as Hxp; [|done]. subst x.
  rewrite (filter_absent p l Hx). cbn. lia.
Qed.

Lemma times_freed_none p h : p ∉ freed h → times_freed p h = 0%nat.
Proof. intros Hp. unfold times_freed. by rewrite (filter_absent p _ Hp). Qed.

(** X21: no double free and no dangling pointer.  In every state a started
    chain reaches, whatever the schedule and the input fed to it: no buffer
    has been passed to [free] twice; a buffer that a queue slot, a worker's
    [in] or [out], or a pending [plugin_place_work] copy still refers to has
    not been freed; no two of these refer to the same buffer; and only
    buffers obtained from [malloc] were freed. *)
Theorem buffers_freed_at_most_once
    (fs : list transform) (c : Z) (P0 : pipeline) (sched : list paction) :
  (consumer_producer_init ConsumerProducer.zeroed c).1 = None →
  started fs c = Some P0 →
  let P := prun sched P0 in
  (∀ p, (times_freed p (mem P) ≤ 1)%nat) ∧
  (∀ p, p ∈ owned P → times_freed p (mem P) = 0%nat) ∧
  NoDup (owned P) ∧
  (∀ p, p ∈ freed (mem P) → 1 ≤ p < next_addr (mem P)).
Proof.
  intros Hc Hst P.
  destruct (started_mem fs c P0 Hc Hst) as [Hm Hp].
  pose proof (prun_mem sched P0 Hm Hp) as [_ _ Hnd Hr]. fold P in Hnd, Hr.
  apply NoDup_app in Hnd as (Ho & Hdis & Hf).
  split_and!.
  - intros p. by apply times_freed_nodup.
  - intros p Hin. apply times_freed_none. by apply Hdis.
  - done.
  - intros p Hin. rewrite Forall_forall in Hr. apply Hr.
    rewrite elem_of_app. by right.
Qed.

Lemma buffers_freed_at_most_once_witness :
  (∀ p, (times_freed p (mem (prun hello_end upper_log)) ≤ 1)%nat) ∧
  NoDup (owned (prun hello_end upper_log)).
Proof.
  pose proof (buffers_freed_at_most_once
                [uppercaser_transform; logger_transform] 8 upper_log hello_end
                eq_refl eq_refl) as H.
  exact (conj (proj1 H) (proj1 (proj2 (proj2 H)))).
Defined.

End OwnershipRuns.

(** ** A queue stays open until its worker has seen the sentinel *)

Section OpenUntilSentinel.
Import Monitor ConsumerProducer PluginCommon Main.

Lemma put_step_flag item pc q :
  match put_step item pc q with
  | Blocked => True
  | Next _ q' _ | Return _ q' _ => finished_flag q' = finished_flag q
  end.
Proof.
  destruct pc; cbn; unfold put_loop; repeat case_match; simplify_eq; done.
Qed.

Lemma get_step_flag pc q :
  match get_step pc q with
  | Blocked => True
  | Next _ q' _ | Return _ q' _ => finished_flag q' = finished_flag q
  end.
Proof.
  destruct pc; cbn; unfold get_loop, get_dequeue; repeat case_match; simplify_eq; done.
Qed.

(** [put] refuses an item only when the queue is marked finished. *)
Lemma put_refused item pc q e q' evs :
  wf q → (pc = PutEntry → item ≠ NULL) →
  put_step item pc q = Return (Some e) q' evs → finished_flag q = 1.
Proof.
  intros Hq Hitem. pose proof Hq as [Hi _ _ _ _ _ _ (Hm1 & Hm2 & Hm3) _].
  destruct pc; cbn; unfold put_loop; rewrite ?Hi; cbn;
    try destruct (wait_ready _ Hm1) as [-> | ->];
    repeat case_match; try done; intros _; try lia.
  specialize (Hitem eq_refl). apply Z.eqb_eq in H. done.
Qed.

Lemma flags_insert (gs : list plugin_context_t) j g g' :
  gs !! j = Some g → ctx_flags g' = ctx_flags g →
  ctx_flags <$> <[j := g']> gs = ctx_flags <$> gs.
Proof.
  intros Hg Hf. rewrite list_fmap_insert, Hf. apply list_insert_id.
  by rewrite list_lookup_fmap, Hg.
Qed.

Lemma flags_set_finished (gs : list plugin_context_t) i :
  ctx_flags <$> alter (set_finished 1) i gs = ctx_flags <$> gs.
Proof.
  rewrite (list_fmap_alter _ (set_finished 1) id) by (by apply Forall_true).
  by apply list_alter_id.
Qed.

Lemma finished_flags_fst P : finished_flags P = fst <$> (ctx_flags <$> ctxs P).
Proof. unfold finished_flags. by rewrite <- list_fmap_compose. Qed.

Lemma late_past_end pc : late pc = true → past_end pc = true.
Proof. by destruct pc as [| | | |[]| |]. Qed.

(** A step of [plugin_place_work] leaves the finished flags and the record
    of refused calls alone. *)
Lemma pw_run_flags who j str ppc P r P' :
  pw_run who j str ppc P = Some (r, P') →
  ctx_flags <$> ctxs P' = ctx_flags <$> ctxs P ∧ workers P' = workers P ∧
  feeders P' = feeders P ∧
  (∀ k j' e, PPlaced k j' e ∈ log P' → PPlaced k j' e ∈ log P).
Proof.
  unfold pw_run.
  destruct (ctxs P !! j) as [g|] eqn:Hg; [|done].
  assert (Halter : ∀ g', alter (λ _, g') j (ctxs P) = <[j := g']> (ctxs P)).
  { intros g'. by apply list_alter_at with (x := g). }
  assert (Hlog : ∀ k j' (e : option string) (l evs : list pevent),
            forallb (λ x, match x with PPlaced _ _ _ => false | _ => true end) evs = true →
            PPlaced k j' e ∈ l ++ evs → PPlaced k j' e ∈ l).
  { intros k j' e l evs Hevs. rewrite elem_of_app. intros [?|Hin]; [done|].
    rewrite forallb_forall in Hevs. apply list_elem_of_In, Hevs in Hin. done. }
  destruct ppc as [|dup pc]; cbn [plugin_place_work_step].
  - destruct str as [s|]; [destruct (negb _)|]; intros [= <- <-];
      cbn [ctxs workers feeders mem log emit set_mem upd_ctx alloc fst snd];
      rewrite Halter, (flags_insert _ j g g Hg eq_refl);
      (split_and!; [done..|]); intros k j' e; by apply Hlog.
  - pose proof (put_step_flag dup pc) as Hflag.
    destruct (PluginCommon.queue g) as [q|] eqn:Hq.
    + specialize (Hflag q).
      destruct (put_step dup pc q) as [|pc' q' evs|[e|] q' evs]; [done|..];
        intros [= <- <-];
        cbn [ctxs workers feeders mem log emit set_mem upd_ctx];
        rewrite Halter, (flags_insert _ j g (set_queue q' g) Hg)
          by (unfold ctx_flags; cbn; by rewrite Hq, Hflag);
        (split_and!; [done..|]); intros k j' e0; by apply Hlog.
    + intros [= <- <-];
        cbn [ctxs workers feeders mem log emit set_mem upd_ctx];
        rewrite Halter, (flags_insert _ j g g Hg eq_refl);
        (split_and!; [done..|]); intros k j' e; by apply Hlog.
Qed.

(** Why a [plugin_place_work] is refused. *)
Lemma pw_run_refused who j str ppc P e P' :
  Forall (λ g, PluginCommon.initialized g = 1) (ctxs P) →
  Forall (λ g, ∀ q, PluginCommon.queue g = Some q → wf q) (ctxs P) →
  Forall (λ g, ctx_ready g = true) (ctxs P) →
  (∀ p, p ∈ pw_holds ppc → p ≠ NULL) →
  pw_run who j str ppc P = Some (inr (Some e), P') →
  e = "invalid input"%string ∨ finished_flags P !! j = Some (Some 1).
Proof.
  intros Hinit Hwfs Hready Hheld. unfold pw_run, finished_flags.
  destruct (ctxs P !! j) as [g|] eqn:Hg; [|done].
  rewrite list_lookup_fmap, Hg. cbn [fmap option_fmap option_map].
  assert (Hin : g ∈ ctxs P) by by eapply list_elem_of_lookup_2.
  rewrite Forall_forall in Hinit, Hwfs, Hready.
  pose proof (Hinit g Hin) as Hi. pose proof (Hready g Hin) as Hrg.
  unfold ctx_ready in Hrg. rewrite andb_true_iff, !bool_decide_eq_true in Hrg.
  destruct Hrg as [[q Hq] _]. pose proof (Hwfs g Hin q Hq) as Hwf.
  destruct ppc as [|dup pc]; cbn [plugin_place_work_step].
  - destruct str as [s|]; [|intros [= <- <-]; by left].
    rewrite Hi. cbn. done.
  - rewrite Hq.
    destruct (put_step dup pc q) as [|pc' q' evs|[e'|] q' evs] eqn:Hput; try done.
    intros [= <- <-]. right. cbn. f_equal. f_equal.
    eapply put_refused; [done| |done].
    intros ->. apply Hheld. cbn. by left.
Qed.

Ltac psimpl :=
  cbn [workers feeders log ctxs mem set_worker upd_ctx set_mem emit do_free].

Ltac placed_in H :=
  first
    [ exact H
    | apply elem_of_app in H as [H|H]; [placed_in H|placed_in H]
    | apply elem_of_cons in H as [H|H]; [discriminate H|placed_in H]
    | apply elem_of_nil in H; destruct H
    | apply list_elem_of_fmap in H as (? & ? & ?); discriminate
    | match goal with Hlog : ∀ k j e, _ ∈ _ → _ ∈ _ |- _ => apply Hlog; exact H end ].

Ltac no_placed :=
  let k := fresh "k" in let j := fresh "j" in let e := fresh "e" in
  let H := fresh "H" in
  intros k j e; psimpl; intros H; placed_in H.

Ltac step_frame :=
  (split; [no_placed|]); (split; [done|]); eexists _, _;
  (split; [done|]); (split; [done|]); (split; [done|]); (split; [done|]).

(** What a worker step does to the finished flags, to the worker and to the
    record of refused calls.  Only [signal_finished], called by the worker
    on its own queue, sets a flag. *)
Lemma worker_step_flags i P P' :
  worker_step i P = Some P' →
  (∀ k j e, PPlaced k j e ∈ log P' → PPlaced k j e ∈ log P) ∧
  feeders P' = feeders P ∧
  ∃ pc pc',
    workers P !! i = Some pc ∧ workers P' = <[i := pc']> (workers P) ∧
    (past_end pc = true → past_end pc' = true) ∧
    (late pc = true → late pc' = true) ∧
    (ctx_flags <$> ctxs P' = ctx_flags <$> ctxs P ∨
     late pc' = true ∧
     ∃ g, ctxs P !! i = Some g ∧
          ctx_flags <$> ctxs P' =
            <[i := (Some 1, worker_joined g)]> (ctx_flags <$> ctxs P)).
Proof.
  unfold worker_step.
  destruct (workers P !! i) as [pc|] eqn:Hpc; [|done].
  destruct (ctxs P !! i) as [g|] eqn:Hg; [|done].
  assert (Halter : ∀ h, alter h i (ctxs P) = <[i := h g]> (ctxs P)).
  { intros h. by apply list_alter_at. }
  destruct pc as [|gpc|in_|in_ ppc|spc|in_ out ppc|].
  - destruct (PluginCommon.queue g), (process_function g); intros [= <-];
      step_frame; by left.
  - destruct (PluginCommon.queue g) as [q|] eqn:Hq; [|done].
    pose proof (get_step_flag gpc q) as Hflag.
    destruct (get_step gpc q) as [|gpc' q' evs|x q' evs]; [done|..]; intros [= <-];
      step_frame; left; psimpl;
      rewrite Halter; apply (flags_insert _ i g _ Hg); unfold ctx_flags; cbn;
      by rewrite Hq, Hflag.
  - destruct (in_ =? NULL).
    { intros [= <-]. step_frame. by left. }
    destruct (is_end (mem P) in_).
    { destruct (wired g); intros [= <-]; step_frame; left; psimpl;
        [done|apply flags_set_finished]. }
    destruct (process_function g) as [f|]; [|done].
    destruct (apply_transform f in_ (mem P)) as [[out h'] printed].
    destruct (out =? NULL); [|destruct (wired g); [|destruct (negb (out =? in_))]];
      intros [= <-]; step_frame; by left.
  - destruct (next_place_work g) as [j|]; [|done].
    destruct (pw_run (Worker i) j (Some (load in_ (mem P))) ppc P) as [[r P1]|] eqn:Hpw;
      [|done].
    destruct (pw_run_flags _ _ _ _ _ _ _ Hpw) as (Hfl & Hws & Hfs & Hlog).
    destruct r as [ppc'|[e|]]; intros [= <-].
    + split; [no_placed|]. split; [done|]. eexists _, _.
      split; [done|]. split; [psimpl; by rewrite Hws|]. do 2 (split; [done|]).
      by left.
    + split; [no_placed|]. split; [done|]. eexists _, _.
      split; [done|]. split; [psimpl; by rewrite Hws|]. do 2 (split; [done|]).
      left. psimpl. by rewrite flags_set_finished.
    + split; [no_placed|]. split; [done|]. eexists _, _.
      split; [done|]. split; [psimpl; by rewrite Hws|]. do 2 (split; [done|]).
      left. psimpl. by rewrite flags_set_finished.
  - destruct (PluginCommon.queue g) as [q|] eqn:Hq.
    + destruct spc; cbn [sf_step].
      * destruct (negb (ConsumerProducer.initialized q =? 1)).
        { intros [= <-]. step_frame. left. psimpl. rewrite Halter.
          apply (flags_insert _ i g _ Hg). unfold ctx_flags. cbn. by rewrite Hq. }
        destruct (finished_flag q =? 1).
        { intros [= <-]. step_frame. left. psimpl. rewrite Halter.
          apply (flags_insert _ i g _ Hg). unfold ctx_flags. cbn. by rewrite Hq. }
        intros [= <-]. step_frame. right. split; [done|]. exists g.
        split; [done|]. psimpl. by rewrite Halter, list_fmap_insert.
      * intros [= <-]. step_frame. left. psimpl. rewrite Halter.
        apply (flags_insert _ i g _ Hg). unfold ctx_flags. cbn. by rewrite Hq.
      * intros [= <-]. step_frame. left. psimpl. rewrite Halter.
        apply (flags_insert _ i g _ Hg). unfold ctx_flags. cbn. by rewrite Hq.
    + intros [= <-]. step_frame. by left.
  - destruct (next_place_work g) as [j|]; [|done].
    destruct (pw_run (Worker i) j (Some (load out (mem P))) ppc P) as [[r P1]|] eqn:Hpw;
      [|done].
    destruct (pw_run_flags _ _ _ _ _ _ _ Hpw) as (Hfl & Hws & Hfs & Hlog).
    destruct r as [ppc'|[e|]]; intros [= <-].
    + split; [no_placed|]. split; [done|]. eexists _, _.
      split; [done|]. split; [psimpl; by rewrite Hws|]. do 2 (split; [done|]).
      by left.
    + split; [destruct (negb (out =? in_)); no_placed|].
      split; [by destruct (negb (out =? in_))|]. eexists _, _.
      split; [done|]. split; [destruct (negb (out =? in_)); psimpl; by rewrite Hws|].
      do 2 (split; [done|]). left. by destruct (negb (out =? in_)).
    + split; [destruct (negb (out =? in_)); no_placed|].
      split; [by destruct (negb (out =? in_))|]. eexists _, _.
      split; [done|]. split; [destruct (negb (out =? in_)); psimpl; by rewrite Hws|].
      do 2 (split; [done|]). left. by destruct (negb (out =? in_)).
  - done.
Qed.

End OpenUntilSentinel.

Section OpenUntilSentinelRuns.
Import Monitor ConsumerProducer PluginCommon Main.

Lemma wiring_initialized gs gs' :
  Forall2 same_wiring gs gs' →
  Forall (λ g, PluginCommon.initialized g = 1) gs →
  Forall (λ g, PluginCommon.initialized g = 1) gs'.
Proof.
  induction 1 as [|g g' gs gs' Hw _ IH]; [done|].
  intros Hall. apply Forall_cons in Hall as [Hg Hgs].
  apply Forall_cons. split; [|by apply IH].
  destruct Hw as (_ & _ & _ & Hi & _). by rewrite Hi.
Qed.

Lemma worker_past i pc pc' (ws : list worker_pc) j :
  ws !! i = Some pc → (past_end pc = true → past_end pc' = true) →
  (∃ pc0, ws !! j = Some pc0 ∧ past_end pc0 = true) →
  ∃ pc0, <[i := pc']> ws !! j = Some pc0 ∧ past_end pc0 = true.
Proof.
  intros Hi Hmono (pc0 & Hj & Hp). destruct (decide (j = i)) as [->|Hne].
  - exists pc'. rewrite list_lookup_insert_eq by by eapply lookup_lt_Some.
    split; [done|]. apply Hmono. by simplify_eq.
  - exists pc0. by rewrite list_lookup_insert_ne.
Qed.

Lemma pstep_open a P :
  mem_inv P → pinv P → open_inv P → open_inv (pstep a P).
Proof.
  intros Hm Hp [Hinit Hflag Hplaced].
  pose proof (pstep_wiring a P Hp) as Hwir.
  pose proof (wiring_initialized _ _ Hwir Hinit) as Hinit'.
  split; [done|..]; clear Hwir Hinit'.
  - (* the flags *)
    destruct a as [k j str|k|i]; cbn [pstep].
    + by destruct (feeders P !! k).
    + destruct (feeders P !! k) as [[[j str] pc]|]; [|done].
      destruct (pw_run (Feeder k) j str pc P) as [[r P']|] eqn:Hpw; [|done].
      destruct (pw_run_flags _ _ _ _ _ _ _ Hpw) as (Hfl & Hws & _ & _).
      destruct r; intros i0; rewrite finished_flags_fst; cbn [ctxs workers];
        rewrite Hfl, Hws, <- finished_flags_fst; apply Hflag.
    + destruct (worker_step i P) as [P'|] eqn:Hstep; [|done]. change (default P (Some P')) with P'.
      destruct (worker_step_flags _ _ _ Hstep)
        as (_ & _ & pc & pc' & Hpc & Hws & Hmono & _ & Hfl).
      intros j Hj. rewrite Hws. rewrite finished_flags_fst in Hj.
      destruct Hfl as [Hfl|[Hpast (g & Hg & Hfl)]].
      * rewrite Hfl, <- finished_flags_fst in Hj.
        by eapply worker_past; [| |apply Hflag].
      * destruct (decide (j = i)) as [->|Hne].
        -- exists pc'. rewrite list_lookup_insert_eq by by eapply lookup_lt_Some.
           split; [done|]. by apply late_past_end.
        -- rewrite Hfl, list_lookup_fmap, list_lookup_insert_ne in Hj by done.
           rewrite <- list_lookup_fmap, <- finished_flags_fst in Hj.
           by eapply worker_past; [| |apply Hflag].
  - (* the refused calls *)
    destruct a as [k j str|k|i]; cbn [pstep].
    + by destruct (feeders P !! k).
    + destruct (feeders P !! k) as [[[j str] pc]|] eqn:Hk; [|done].
      destruct (pw_run (Feeder k) j str pc P) as [[r P']|] eqn:Hpw; [|done].
      destruct (pw_run_flags _ _ _ _ _ _ _ Hpw) as (Hfl & Hws & _ & Hlog).
      destruct r as [pc'|err]; cbn [log workers].
      * intros k0 j0 e Hin. rewrite Hws. by apply (Hplaced k0 j0 e), Hlog.
      * intros k0 j0 e Hin. rewrite Hws. apply elem_of_app in Hin as [Hin|Hin].
        { by apply (Hplaced k0 j0 e), Hlog. }
        apply list_elem_of_singleton in Hin. injection Hin as -> -> <-.
        assert (Hheld : ∀ p, p ∈ pw_holds pc → p ≠ NULL).
        { intros p Hin. eapply held_nonnull; [done|].
          by apply (feeder_held P k (j, str, pc) p Hk). }
        destruct (pw_run_refused _ _ _ _ _ _ _ Hinit (mi_queues _ Hm)
                    (pi_ready _ Hp) Hheld Hpw) as [?|Hf]; [by left|].
        right. by apply Hflag.
    + destruct (worker_step i P) as [P'|] eqn:Hstep; [|done]. change (default P (Some P')) with P'.
      destruct (worker_step_flags _ _ _ Hstep)
        as (Hlog & _ & pc & pc' & Hpc & Hws & Hmono & _ & _).
      intros k0 j0 e Hin. apply Hlog, Hplaced in Hin as [?|Hin]; [by left|].
      right. rewrite Hws. by eapply worker_past.
Qed.

Lemma prun_open sched P :
  mem_inv P → pinv P → open_inv P → open_inv (prun sched P).
Proof.
  revert P. induction sched as [|a sched IH]; intros P Hm Hp Ho; [done|].
  rewrite prun_cons. apply IH.
  - apply pstep_mem; [done|apply (pi_ready _ Hp)].
  - by apply pstep_inv.
  - by apply pstep_open.
Qed.

Lemma started_open fs c P0 :
  (consumer_producer_init ConsumerProducer.zeroed c).1 = None →
  started fs c = Some P0 → open_inv P0.
Proof.
  intros Hc Hst.
  destruct (started_parts fs c P0 Hc Hst) as (Hfresh & Hw & Hfd & Hmem & Hqs).
  destruct (init_ok _ _ Hc) as (_ & _ & _ & Hfin).
  split.
  - eapply Forall_impl; [exact Hqs|]. by intros g [_ ?].
  - intros i. unfold finished_flags. rewrite list_lookup_fmap.
    destruct (ctxs P0 !! i) as [g|] eqn:Hg; [|done].
    rewrite Forall_forall in Hqs.
    destruct (Hqs g (list_elem_of_lookup_2 _ _ _ Hg)) as [Hq _].
    cbn. rewrite Hq. cbn. rewrite Hfin. done.
  - intros k j e. unfold fresh_pipeline in Hfresh.
    rewrite !andb_true_iff, bool_decide_eq_true in Hfresh.
    destruct Hfresh as [_ ->]. by intros ?%elem_of_nil.
Qed.

(** X22: a stage accepts work until its worker has met the sentinel.  In
    every state a started chain reaches: the queue of a stage is marked
    finished only if the worker of that stage has dequeued the sentinel;
    and a [plugin_place_work] call from outside the chain was refused only
    if it was given a null string or if the worker of the stage called had
    already dequeued the sentinel. *)
Theorem stage_open_until_sentinel
    (fs : list transform) (c : Z) (P0 : pipeline) (sched : list paction) :
  (consumer_producer_init ConsumerProducer.zeroed c).1 = None →
  started fs c = Some P0 →
  let P := prun sched P0 in
  (∀ i g q,
     ctxs P !! i = Some g → PluginCommon.queue g = Some q →
     finished_flag q = 1 → sentinels_seen i (log P) = 1%nat) ∧
  (∀ k j e,
     PPlaced k j (Some e) ∈ log P →
     e = "invalid input"%string ∨ sentinels_seen j (log P) = 1%nat).
Proof.
  intros Hc Hst P.
  destruct (started_mem fs c P0 Hc Hst) as [Hm Hp].
  pose proof (prun_open sched P0 Hm Hp (started_open fs c P0 Hc Hst))
    as [_ Hflag Hplaced].
  pose proof (prun_inv sched P0 Hp) as [_ Hseen _ _]. fold P in Hflag, Hplaced, Hseen.
  assert (Hpast : ∀ j, (∃ pc, workers P !! j = Some pc ∧ past_end pc = true) →
                       sentinels_seen j (log P) = 1%nat).
  { intros j (pc & Hpc & Hpe). by rewrite (Hseen j pc Hpc), Hpe. }
  split.
  - intros i g q Hg Hq Hf. apply Hpast, Hflag. unfold finished_flags.
    rewrite list_lookup_fmap, Hg. cbn. rewrite Hq. cbn. by rewrite Hf.
  - intros k j e Hin. destruct (Hplaced k j e Hin) as [?|?]; [by left|].
    right. by apply Hpast.
Qed.

Lemma stage_open_until_sentinel_witness :
  sentinels_seen 0 (log (prun hello_end upper_log)) = 1%nat.
Proof.
  refine (proj1 (stage_open_until_sentinel
                   [uppercaser_transform; logger_transform] 8 upper_log hello_end
                   eq_refl eq_refl) 0%nat
            (default zeroed_ctx (ctxs (prun hello_end upper_log) !! 0%nat))
            (default ConsumerProducer.zeroed
               (PluginCommon.queue
                  (default zeroed_ctx (ctxs (prun hello_end upper_log) !! 0%nat))))
            _ _ _); vm_compute; reflexivity.
Defined.

End OpenUntilSentinelRuns.

(** ** Waiting for the plugins and shutting down *)

Section LivePipeline.
Import Monitor ConsumerProducer PluginCommon Main Shutdown.

Lemma emit_nil P : emit [] P = P.
Proof. destruct P. unfold emit. cbn. by rewrite app_nil_r. Qed.

Lemma joined_flags (gs gs' : list plugin_context_t) :
  ctx_flags <$> gs' = ctx_flags <$> gs →
  Forall (λ g, worker_joined g = 0) gs → Forall (λ g, worker_joined g = 0) gs'.
Proof.
  intros Heq Hgs.
  assert (Hf : ∀ l : list plugin_context_t,
            Forall (λ g, worker_joined g = 0) l ↔
            Forall (λ o : option Z * Z, o.2 = 0) (ctx_flags <$> l)).
  { intros l. by rewrite Forall_fmap. }
  apply Hf. rewrite Heq. by apply Hf.
Qed.

Lemma joined_flags_insert (gs gs' : list plugin_context_t) i g x :
  gs !! i = Some g →
  ctx_flags <$> gs' = <[i := (x, worker_joined g)]> (ctx_flags <$> gs) →
  Forall (λ g, worker_joined g = 0) gs → Forall (λ g, worker_joined g = 0) gs'.
Proof.
  intros Hg Heq Hgs.
  assert (Hf : ∀ l : list plugin_context_t,
            Forall (λ g, worker_joined g = 0) l ↔
            Forall (λ o : option Z * Z, o.2 = 0) (ctx_flags <$> l)).
  { intros l. by rewrite Forall_fmap. }
  apply Hf. rewrite Heq. apply Forall_insert; [by apply Hf|]. cbn.
  rewrite Forall_forall in Hgs. apply Hgs. by eapply list_elem_of_lookup_2.
Qed.

Lemma flags_length (gs gs' : list plugin_context_t) :
  ctx_flags <$> gs' = ctx_flags <$> gs → length gs' = length gs.
Proof.
  intros Heq. apply (f_equal length) in Heq. by rewrite !length_fmap in Heq.
Qed.

Lemma worker_late i pc pc' (ws : list worker_pc) j :
  ws !! i = Some pc → (late pc = true → late pc' = true) →
  (∃ pc0, ws !! j = Some pc0 ∧ late pc0 = true) →
  ∃ pc0, <[i := pc']> ws !! j = Some pc0 ∧ late pc0 = true.
Proof.
  intros Hi Hmono (pc0 & Hj & Hp). destruct (decide (j = i)) as [->|Hne].
  - exists pc'. rewrite list_lookup_insert_eq by by eapply lookup_lt_Some.
    split; [done|]. apply Hmono. by simplify_eq.
  - exists pc0. by rewrite list_lookup_insert_ne.
Qed.

(** What a step of the pipeline does to the flags the shutdown reads. *)
Lemma pstep_flags a P :
  ctx_flags <$> ctxs (pstep a P) = ctx_flags <$> ctxs P ∧
  workers (pstep a P) = workers P ∨
  ∃ i pc pc' g,
    a = StepWorker i ∧ workers P !! i = Some pc ∧ ctxs P !! i = Some g ∧
    workers (pstep a P) = <[i := pc']> (workers P) ∧
    (late pc = true → late pc' = true) ∧
    (ctx_flags <$> ctxs (pstep a P) = ctx_flags <$> ctxs P ∨
     late pc' = true ∧
     ctx_flags <$> ctxs (pstep a P) =
       <[i := (Some 1, worker_joined g)]> (ctx_flags <$> ctxs P)).
Proof.
  destruct a as [k j str|k|i]; cbn [pstep].
  - left. by destruct (feeders P !! k).
  - left. destruct (feeders P !! k) as [[[j str] pc]|]; [|done].
    destruct (pw_run (Feeder k) j str pc P) as [[r P']|] eqn:Hpw; [|done].
    destruct (pw_run_flags _ _ _ _ _ _ _ Hpw) as (Hfl & Hws & _ & _).
    by destruct r.
  - destruct (worker_step i P) as [P'|] eqn:Hstep; [|by left].
    change (default P (Some P')) with P'.
    destruct (worker_step_flags _ _ _ Hstep)
      as (_ & _ & pc & pc' & Hpc & Hws & _ & Hmono & Hfl).
    assert (∃ g, ctxs P !! i = Some g) as [g Hg].
    { unfold worker_step in Hstep. rewrite Hpc in Hstep.
      destruct (ctxs P !! i); [by eexists|done]. }
    right. exists i, pc, pc', g. split_and!; try done.
    destruct Hfl as [?|(? & g' & Hg' & ?)]; [by left|right].
    by simplify_eq.
Qed.

Lemma live_pstep n a P : live n P → live n (pstep a P).
Proof.
  intros [Hp Hm Ho Hj Hc Hw Hl].
  pose proof (pstep_flags a P) as Hfl.
  split.
  - by apply pstep_inv.
  - apply pstep_mem; [done|apply (pi_ready _ Hp)].
  - by apply pstep_open.
  - destruct Hfl as [[Hfl _]|(i & pc & pc' & g & _ & _ & Hg & _ & _ & [Hfl|[_ Hfl]])].
    + by eapply joined_flags.
    + by eapply joined_flags.
    + by eapply joined_flags_insert.
  - rewrite <- Hc. symmetry.
    apply (Forall2_length same_wiring). by apply pstep_wiring.
  - destruct Hfl as [[_ ->]|(i & pc & pc' & g & _ & _ & _ & -> & _)]; [done|].
    by rewrite length_insert.
  - intros k. rewrite finished_flags_fst.
    destruct Hfl as [[Hfl ->]|(i & pc & pc' & g & _ & Hpc & Hg & -> & Hmono & Hfl)].
    + rewrite Hfl, <- finished_flags_fst. apply Hl.
    + destruct Hfl as [Hfl|[Hlate Hfl]]; rewrite Hfl.
      * rewrite <- finished_flags_fst. intros Hk.
        by eapply worker_late; [| |apply Hl].
      * destruct (decide (k = i)) as [->|Hne].
        -- intros _. exists pc'.
           by rewrite list_lookup_insert_eq by by eapply lookup_lt_Some.
        -- rewrite list_lookup_fmap, list_lookup_insert_ne by done.
           rewrite <- list_lookup_fmap, <- finished_flags_fst. intros Hk.
           by eapply worker_late; [| |apply Hl].
Qed.

(** A finished flag, once set, stays set. *)
Lemma pstep_flag_stays a P k :
  finished_flags P !! k = Some (Some 1) →
  finished_flags (pstep a P) !! k = Some (Some 1).
Proof.
  rewrite !finished_flags_fst.
  destruct (pstep_flags a P)
    as [[-> _]|(i & pc & pc' & g & _ & _ & Hg & _ & _ & [->|[_ ->]])]; try done.
  intros Hk. destruct (decide (k = i)) as [->|Hne].
  - rewrite list_lookup_fmap, list_lookup_insert_eq; [done|].
    rewrite length_fmap. by eapply lookup_lt_Some.
  - by rewrite list_lookup_fmap, list_lookup_insert_ne, <- list_lookup_fmap.
Qed.

Lemma live_prun n sched P : live n P → live n (prun sched P).
Proof.
  revert P. induction sched as [|a sched IH]; intros P HP; [done|].
  rewrite prun_cons. by apply IH, live_pstep.
Qed.

Lemma started_live fs c P0 :
  (consumer_producer_init ConsumerProducer.zeroed c).1 = None →
  started fs c = Some P0 → live (length fs) P0.
Proof.
  intros Hc Hst.
  destruct (started_mem fs c P0 Hc Hst) as [Hm Hp].
  pose proof (started_open fs c P0 Hc Hst) as Ho.
  destruct (started_parts fs c P0 Hc Hst) as (_ & Hw & _ & _ & _).
  assert (Hn : (1 ≤ length fs)%nat).
  { destruct fs; [done|cbn; lia]. }
  assert (Hlen3 : length (stage3_contexts fs c) = length fs).
  { unfold stage3_contexts. by rewrite length_fmap. }
  destruct (stage4_spec (stage3_contexts fs c))
    as (gs' & Hrun & Hlen & Hgs'); [lia|by apply stage3_fresh|].
  rewrite Hlen3 in Hrun, Hlen, Hgs'.
  assert (Hctxs : ctxs P0 = gs').
  { revert Hst. unfold started. rewrite Hrun. by intros [= <-]. }
  split; try done.
  - rewrite Hctxs. apply Forall_forall. intros g Hg.
    apply list_elem_of_lookup in Hg as [k Hk].
    assert (Hklt : (k < length fs)%nat) by (apply lookup_lt_Some in Hk; lia).
    destruct (lookup_lt_is_Some_2 fs k Hklt) as [f Hf].
    rewrite (Hgs' k _ (stage3_lookup fs c k f Hc Hf)) in Hk.
    injection Hk as <-. by case_bool_decide.
  - by rewrite Hctxs.
  - by rewrite Hw, length_replicate.
  - intros k Hk. destruct (oi_flag _ Ho k Hk) as (pc & Hpc & Hpast).
    rewrite Hw in Hpc. apply lookup_replicate in Hpc as [-> _]. done.
Qed.

End LivePipeline.

Section WaitForPlugins.
Import Monitor ConsumerProducer PluginCommon Main Shutdown.

(** [wait_finished] touches nothing but the finished monitor. *)
Lemma wf_step_same pc q :
  match wf_step pc q with
  | Blocked => True
  | Next _ q' _ | Return _ q' _ =>
      contents q' = contents q ∧ finished_flag q' = finished_flag q
  end.
Proof.
  destruct pc; cbn; unfold wf_wait, wf_phase1, wf_phase2;
    repeat case_match; simplify_eq; done.
Qed.

Lemma wf_step_moves pc q :
  wf q → pc_inv q (InWaitFinished pc) →
  match wf_step pc q with
  | Blocked => True
  | Next pc' q' _ =>
      wf q' ∧ contents q' = contents q ∧ finished_flag q' = finished_flag q ∧
      pc_inv q' (InWaitFinished pc')
  | Return rc q' _ => rc = 0 ∧ q' = q ∧ finished_flag q = 1
  end.
Proof.
  intros Hwf Hpc. pose proof (wf_step_ok pc q Hwf Hpc) as Hok.
  pose proof (wf_step_same pc q) as Hsame.
  destruct (wf_facts q pc Hwf Hpc) as (Hret & _ & _).
  destruct (wf_step pc q) as [|pc' q' evs|rc q' evs]; [done|..].
  - destruct Hok as [(Hwf' & _) Hpc']. by destruct Hsame.
  - by destruct (Hret rc q' evs eq_refl) as (-> & ? & _ & -> & _).
Qed.

(** A step of [plugin_wait_finished] on an initialised plugin: it changes
    the queue's finished monitor at most, and when it returns it returns
    NULL, from a queue that is marked finished. *)
Lemma wait_step_live i pc g q :
  PluginCommon.initialized g = 1 → PluginCommon.queue g = Some q → wf q →
  (in_phase2 pc = true → finished_flag q = 1) →
  match plugin_wait_finished_step i pc g with
  | CBlocked => True
  | CNext pc' g' evs =>
      evs = [] ∧
      ∃ q', g' = set_queue q' g ∧ wf q' ∧ contents q' = contents q ∧
            finished_flag q' = finished_flag q ∧
            (in_phase2 pc' = true → finished_flag q' = 1)
  | CReturn err g' evs =>
      err = None ∧ evs = [] ∧ g' = g ∧ finished_flag q = 1
  end.
Proof.
  intros Hi Hq Hwf Hph. destruct pc as [|wpc]; cbn [plugin_wait_finished_step].
  - rewrite Hi. cbn. split; [done|]. exists q.
    by rewrite (set_queue_id _ _ Hq).
  - rewrite Hq.
    assert (Hpc : pc_inv q (InWaitFinished wpc)).
    { destruct wpc; try done; by apply Hph. }
    pose proof (wf_step_moves wpc q Hwf Hpc) as Hmove.
    destruct (wf_step wpc q) as [|wpc' q' evs|rc q' evs]; [done|..].
    + destruct Hmove as (Hwf' & Hc & Hf & Hpc'). split; [done|]. exists q'.
      split_and!; try done. intros Hph'. by destruct wpc'.
    + destruct Hmove as (-> & -> & Hf). cbn.
      by rewrite (set_queue_id _ _ Hq).
Qed.

Lemma upd_ctx_insert P k g g' :
  ctxs P !! k = Some g → ctxs (upd_ctx k (λ _, g') P) = <[k := g']> (ctxs P).
Proof. intros Hg. cbn. by apply list_alter_at with (x := g). Qed.

Lemma same_wiring_queue q' g q :
  PluginCommon.queue g = Some q → same_wiring g (set_queue q' g).
Proof. intros Hq. apply same_wiring_set_queue. Qed.

Lemma pinv_update P k g g' :
  pinv P → ctxs P !! k = Some g → same_wiring g g' →
  pinv (upd_ctx k (λ _, g') P).
Proof.
  intros [Hready Hseen Hfwd Htr] Hg Hw.
  assert (Hwir : Forall2 same_wiring (ctxs P) (ctxs (upd_ctx k (λ _, g') P))).
  { cbn. apply wiring_const; [right|apply wiring_refl].
    intros g0 Hg0. by simplify_eq. }
  split.
  - by eapply ready_preserved.
  - done.
  - intros i pc gi Hpc Hgi.
    destruct (wired_preserved _ _ _ _ Hwir Hgi) as (g0 & Hg0 & ->).
    by apply Hfwd.
  - done.
Qed.

Lemma owned_update P k g g' :
  ctxs P !! k = Some g → queue_holds g' = queue_holds g →
  owned (upd_ctx k (λ _, g') P) = owned P.
Proof.
  intros Hg Hq. unfold owned. rewrite (upd_ctx_insert _ _ _ _ Hg).
  cbn [workers feeders upd_ctx].
  rewrite list_fmap_insert, Hq, list_insert_id; [done|].
  by rewrite list_lookup_fmap, Hg.
Qed.

Lemma mem_update P k g g' :
  mem_inv P → ctxs P !! k = Some g → queue_holds g' = queue_holds g →
  (∀ q', PluginCommon.queue g' = Some q' → wf q') →
  mem_inv (upd_ctx k (λ _, g') P).
Proof.
  intros Hm Hg Hq Hwf.
  apply (mem_inv_step P _ [] [] Hm).
  - rewrite (upd_ctx_insert _ _ _ _ Hg). apply queues_insert; [|done].
    apply (mi_queues _ Hm).
  - by left.
  - cbn. by rewrite app_nil_r.
  - by rewrite (owned_update _ _ _ _ Hg Hq), app_nil_r.
Qed.

Lemma flags_update P k g g' :
  ctxs P !! k = Some g → ctx_flags g' = ctx_flags g →
  ctx_flags <$> ctxs (upd_ctx k (λ _, g') P) = ctx_flags <$> ctxs P.
Proof.
  intros Hg Hf. rewrite (upd_ctx_insert _ _ _ _ Hg). by apply flags_insert with g.
Qed.

Lemma finished_flags_update P k g g' :
  ctxs P !! k = Some g → ctx_flags g' = ctx_flags g →
  finished_flags (upd_ctx k (λ _, g') P) = finished_flags P.
Proof.
  intros Hg Hf. by rewrite !finished_flags_fst, (flags_update _ _ _ _ Hg Hf).
Qed.

Lemma open_update P k g g' :
  open_inv P → ctxs P !! k = Some g → ctx_flags g' = ctx_flags g →
  PluginCommon.initialized g' = 1 →
  open_inv (upd_ctx k (λ _, g') P).
Proof.
  intros [Hi Hf Hp] Hg Hfl Hi'. split.
  - rewrite (upd_ctx_insert _ _ _ _ Hg). by apply Forall_insert.
  - intros i. rewrite (finished_flags_update _ _ _ _ Hg Hfl). apply Hf.
  - done.
Qed.

(** Replacing the queue of a plugin by one with the same items and the
    same finished flag. *)
Lemma live_update n P k g q q' :
  live n P → ctxs P !! k = Some g → PluginCommon.queue g = Some q →
  wf q' → contents q' = contents q → finished_flag q' = finished_flag q →
  live n (upd_ctx k (λ _, set_queue q' g) P).
Proof.
  intros [Hp Hm Ho Hj Hc Hw Hl] Hg Hq Hwf Hcont Hflag.
  assert (Hfl : ctx_flags (set_queue q' g) = ctx_flags g).
  { unfold ctx_flags. cbn. by rewrite Hq, Hflag. }
  assert (Hqh : queue_holds (set_queue q' g) = queue_holds g).
  { unfold queue_holds. cbn. by rewrite Hq. }
  split.
  - eapply pinv_update; [done..|]. apply same_wiring_set_queue.
  - eapply mem_update; [done..|]. by intros ? [= <-].
  - eapply open_update; [done..|]. cbn.
    pose proof (oi_init _ Ho) as Hi. rewrite Forall_forall in Hi.
    apply Hi. by eapply list_elem_of_lookup_2.
  - eapply joined_flags; [|done]. by eapply flags_update.
  - rewrite (upd_ctx_insert _ _ _ _ Hg). by rewrite length_insert.
  - done.
  - intros i. rewrite (finished_flags_update _ _ _ _ Hg Hfl). apply Hl.
Qed.

Lemma flag_lookup P k g q :
  ctxs P !! k = Some g → PluginCommon.queue g = Some q →
  finished_flags P !! k = Some (Some (finished_flag q)).
Proof.
  intros Hg Hq. unfold finished_flags. rewrite list_lookup_fmap, Hg. cbn.
  by rewrite Hq.
Qed.

Lemma pstep_worker_feeders i P : feeders (pstep (StepWorker i) P) = feeders P.
Proof.
  cbn. destruct (worker_step i P) as [P'|] eqn:Hstep; [|done].
  by destruct (worker_step_flags _ _ _ Hstep) as (_ & ? & _).
Qed.

End WaitForPlugins.

Section Stage6.
Import Monitor ConsumerProducer PluginCommon Main Shutdown.

Lemma upd_ctx_same P k g : ctxs P !! k = Some g → upd_ctx k (λ _, g) P = P.
Proof.
  intros Hg. destruct P as [cs ws fd h l]. unfold upd_ctx. cbn in *.
  f_equal. by apply list_alter_fix with g.
Qed.

Lemma live_ctx n P k g :
  live n P → ctxs P !! k = Some g →
  PluginCommon.initialized g = 1 ∧ worker_joined g = 0 ∧
  ∃ q, PluginCommon.queue g = Some q ∧ wf q.
Proof.
  intros [Hp Hm Ho Hj _ _ _] Hg.
  assert (Hin : g ∈ ctxs P) by by eapply list_elem_of_lookup_2.
  pose proof (oi_init _ Ho) as Hi. pose proof (pi_ready _ Hp) as Hr.
  pose proof (mi_queues _ Hm) as Hq.
  rewrite Forall_forall in Hi, Hr, Hq, Hj.
  split; [by apply Hi|]. split; [by apply Hj|].
  specialize (Hr g Hin). unfold ctx_ready in Hr.
  rewrite andb_true_iff, !bool_decide_eq_true in Hr. destruct Hr as [[q Hgq] _].
  exists q. split; [done|]. by eapply Hq.
Qed.

(** The workers' steps during stage 6. *)
Lemma wait_worker plugins n s i :
  wait_inv n s → wait_inv n (sstep plugins (StepStage i) s).
Proof.
  intros [Hl Hf Hr Hw Hat]. cbn [sstep].
  change (default (pipe s) (worker_step i (pipe s)))
    with (pstep (StepWorker i) (pipe s)).
  split; cbn [pipe at_main reported].
  - by apply live_pstep.
  - by rewrite pstep_worker_feeders.
  - done.
  - intros j Hj. by apply pstep_flag_stays, Hw.
  - destruct (at_main s) as [|j|j k pc|m|j k pc|]; try done.
    destruct Hat as (-> & Hlt & Hph). split_and!; try done.
    intros Hpc. by apply pstep_flag_stays, Hph.
Qed.

(** The controller's steps during stage 6; the last one enters stage 7. *)
Lemma wait_main n s s' :
  (1 ≤ n)%nat → wait_inv n s →
  main_step (loaded <$> seq 0 n) s = Some s' →
  wait_inv n s' ∨ fini_inv n s'.
Proof.
  intros Hn [Hl Hf Hr Hw Hat]. unfold main_step.
  destruct (at_main s) as [|i|i k pc|m|i k pc|] eqn:Hmain; try done.
  - (* entry *)
    rewrite length_fmap, length_seq.
    destruct (Nat.eqb_spec n 0) as [->|_]; [lia|]. intros [= <-]. left.
    split; cbn [pipe at_main reported]; try done; lia.
  - (* the loop test *)
    destruct (decide (i < n)%nat) as [Hlt|Hge].
    + rewrite loaded_lookup by done. cbn [wait_finished loaded].
      intros [= <-]. left. split; cbn [pipe at_main reported]; try done.
    + rewrite lookup_ge_None_2 by (rewrite length_fmap, length_seq; lia).
      rewrite length_fmap, length_seq. intros [= <-]. right.
      assert (i = n) as -> by lia.
      assert (Hset : ∀ k, (k < n)%nat → finished_flags (pipe s) !! k = Some (Some 1)).
      { intros k Hk. apply Hw. cbn. by case_bool_decide. }
      assert (Hlate : ∀ k pc, workers (pipe s) !! k = Some pc → late pc = true).
      { intros k pc Hpc.
        assert (Hk : (k < n)%nat).
        { apply lookup_lt_Some in Hpc. by rewrite (lv_workers _ _ Hl) in Hpc. }
        destruct (lv_late _ _ Hl k (Hset k Hk)) as (pc0 & Hpc0 & Hlt).
        by simplify_eq. }
      split; cbn [pipe at_main reported left_to_fini].
      * apply (lv_mem _ _ Hl).
      * done.
      * done.
      * apply (lv_ctxs _ _ Hl).
      * apply (lv_workers _ _ Hl).
      * done.
      * intros k Hk.
        destruct (lookup_lt_is_Some_2 (workers (pipe s)) k) as [pc Hpc].
        { by rewrite (lv_workers _ _ Hl). }
        rewrite (pi_sentinel _ (lv_pinv _ _ Hl) k pc Hpc).
        by rewrite (late_past_end _ (Hlate k pc Hpc)).
      * done.
      * intros k g Hk Hg.
        destruct (live_ctx _ _ _ _ Hl Hg) as (Hi & Hj & q & Hq & Hwf).
        pose proof (pi_ready _ (lv_pinv _ _ Hl)) as Hrd.
        rewrite Forall_forall in Hrd. split_and!.
        -- apply Hrd. by eapply list_elem_of_lookup_2.
        -- done.
        -- intros q0 Hq0. pose proof (Hset k Hk) as Hfl.
           rewrite (flag_lookup _ _ _ _ Hg Hq0) in Hfl. by simplify_eq.
        -- by left.
      * intros k g Hk Hg. apply lookup_lt_Some in Hg.
        rewrite (lv_ctxs _ _ Hl) in Hg. lia.
      * intros k Hk. lia.
      * done.
  - (* inside wait_finished *)
    destruct Hat as (-> & Hlt & Hph).
    destruct (lookup_lt_is_Some_2 (ctxs (pipe s)) i) as [g Hg].
    { by rewrite (lv_ctxs _ _ Hl). }
    rewrite Hg.
    destruct (live_ctx _ _ _ _ Hl Hg) as (Hi & Hj & q & Hq & Hwf).
    assert (Hph' : in_phase2 pc = true → finished_flag q = 1).
    { intros Hpc. specialize (Hph Hpc).
      rewrite (flag_lookup _ _ _ _ Hg Hq) in Hph. by simplify_eq. }
    pose proof (wait_step_live i pc g q Hi Hq Hwf Hph') as Hstep.
    destruct (plugin_wait_finished_step i pc g) as [|pc' g' evs|err g' evs]; [done|..].
    + destruct Hstep as (-> & q' & -> & Hwf' & Hc & Hfl & Hph2).
      intros [= <-]. left. rewrite emit_nil.
      assert (Hcf : ctx_flags (set_queue q' g) = ctx_flags g).
      { unfold ctx_flags. cbn. by rewrite Hq, Hfl. }
      split; cbn [pipe at_main reported].
      * by eapply live_update.
      * done.
      * done.
      * intros j Hj'. rewrite (finished_flags_update _ _ _ _ Hg Hcf).
        by apply Hw.
      * split_and!; try done. intros Hpc'.
        rewrite (flag_lookup _ i (set_queue q' g) q').
        -- by rewrite (Hph2 Hpc').
        -- rewrite (upd_ctx_insert _ _ _ _ Hg).
           apply list_lookup_insert_eq. by eapply lookup_lt_Some.
        -- done.
    + destruct Hstep as (-> & -> & -> & Hfl).
      intros [= <-]. left. rewrite emit_nil, (upd_ctx_same _ _ _ Hg).
      split; cbn [pipe at_main reported report]; try done.
      intros j. cbn. case_bool_decide as Hj'; [|done]. intros _.
      destruct (decide (j = i)) as [->|Hne].
      * by rewrite (flag_lookup _ _ _ _ Hg Hq), Hfl.
      * apply Hw. cbn. apply bool_decide_eq_true_2. lia.
Qed.

End Stage6.

Section Stage7.
Import Monitor ConsumerProducer PluginCommon Main Shutdown.

Lemma seen_quiet k (l evs : list pevent) :
  forallb quiet evs = true → sentinels_seen k (l ++ evs) = sentinels_seen k l.
Proof.
  intros Hq. unfold sentinels_seen.
  by rewrite count_ev_app, (count_ev_quiet _ evs (sentinel_quiet k) Hq), Nat.add_0_r.
Qed.

Lemma quiet_frees who (l : list Z) : forallb quiet (PFree who <$> l) = true.
Proof. by induction l. Qed.

Lemma frees_all (l : list Z) h :
  Forall (λ p, p ≠ NULL) l →
  freed (foldl (λ h p, free p h) h l) = freed h ++ l ∧
  next_addr (foldl (λ h p, free p h) h l) = next_addr h.
Proof.
  intros Hl. revert h. induction Hl as [|p l Hp _ IH]; intros h.
  - by rewrite app_nil_r.
  - cbn [foldl]. destruct (IH (free p h)) as [-> ->].
    rewrite free_freed by done. rewrite free_next. by rewrite <- app_assoc.
Qed.

(** A worker that has set its flag only signals the monitors of its own
    queue and exits. *)
Lemma late_step i P P' pc g q :
  worker_step i P = Some P' →
  workers P !! i = Some pc → late pc = true →
  ctxs P !! i = Some g → PluginCommon.queue g = Some q → wf q →
  ∃ pc' q' evs,
    P' = set_worker i pc' (emit evs (upd_ctx i (λ _, set_queue q' g) P)) ∧
    late pc' = true ∧ wf q' ∧ contents q' = contents q ∧
    finished_flag q' = finished_flag q ∧ forallb quiet evs = true.
Proof.
  intros Hstep Hpc Hlate Hg Hq Hwf. revert Hstep.
  unfold worker_step. rewrite Hpc, Hg.
  assert (Hupd : ∀ q', upd_ctx i (set_queue q') P = upd_ctx i (λ _, set_queue q' g) P).
  { intros q'. unfold upd_ctx. f_equal.
    by rewrite (list_alter_at _ _ _ _ Hg), (list_alter_at _ _ _ g Hg). }
  destruct pc as [| | | |[| |]| |]; try done; rewrite ?Hq.
  - pose proof (sf_step_moves SfSignalFinished q Hwf) as [Hwf' Hc].
    cbn [sf_step] in *. intros [= <-]. eexists _, _, [].
    rewrite emit_nil, Hupd. by split_and!.
  - pose proof (sf_step_moves SfSignalNotEmpty q Hwf) as [Hwf' Hc].
    cbn [sf_step] in *. intros [= <-]. eexists _, _, [PExit i].
    rewrite Hupd. by split_and!.
Qed.

Lemma fini_ctx n s k g :
  fini_inv n s → (k < left_to_fini (at_main s))%nat →
  ctxs (pipe s) !! k = Some g →
  PluginCommon.initialized g = 1 ∧
  (worker_joined g = 0 ∨ at_main s = InFini k k FiniDestroy) ∧
  ∃ q, PluginCommon.queue g = Some q ∧ wf q ∧ finished_flag q = 1.
Proof.
  intros Hs Hk Hg.
  destruct (fi_alive _ _ Hs k g Hk Hg) as (Hr & Hi & Hf & Hj).
  split; [done|]. split; [done|].
  unfold ctx_ready in Hr. rewrite andb_true_iff, !bool_decide_eq_true in Hr.
  destruct Hr as [[q Hq] _]. exists q. split; [done|].
  pose proof (mi_queues _ (fi_mem _ _ Hs)) as Hqs. rewrite Forall_forall in Hqs.
  split; [|by apply Hf]. eapply Hqs; [|done]. by eapply list_elem_of_lookup_2.
Qed.

(** The memory discipline when a worker's program point changes between two
    points at which it holds no buffer, and its queue keeps its items. *)
Lemma mem_late_update P i pc pc' g g' evs :
  mem_inv P → workers P !! i = Some pc → ctxs P !! i = Some g →
  worker_holds pc = [] → worker_holds pc' = [] →
  queue_holds g' = queue_holds g →
  (∀ q', PluginCommon.queue g' = Some q' → wf q') →
  mem_inv (set_worker i pc' (emit evs (upd_ctx i (λ _, g') P))).
Proof.
  intros Hm Hpc Hg Hh Hh' Hq Hwf.
  destruct (owned_frame_worker P i i g pc Hg Hpc) as (rest & Hsplit & Hframe).
  apply (mem_inv_step P _ [] [] Hm).
  - cbn [ctxs set_worker emit]. rewrite (upd_ctx_insert _ _ _ _ Hg).
    apply queues_insert; [apply (mi_queues _ Hm)|done].
  - by left.
  - cbn. by rewrite app_nil_r.
  - rewrite app_nil_l, app_nil_r. apply Permutation_submseteq.
    rewrite Hsplit, (Hframe _ g' pc').
    + by rewrite Hh, Hh', Hq.
    + cbn [ctxs set_worker emit]. by rewrite (upd_ctx_insert _ _ _ _ Hg).
    + done.
    + done.
Qed.

(** The workers' steps during stage 7. *)
Lemma fini_worker plugins n s i :
  fini_inv n s → fini_inv n (sstep plugins (StepStage i) s).
Proof.
  intros Hs. cbn [sstep].
  destruct (worker_step i (pipe s)) as [P'|] eqn:Hstep; [|by destruct s].
  change (default (pipe s) (Some P')) with P'.
  assert (∃ pc, workers (pipe s) !! i = Some pc) as [pc Hpc].
  { unfold worker_step in Hstep. destruct (workers (pipe s) !! i); [by eexists|done]. }
  pose proof (fi_late _ _ Hs i pc Hpc) as Hlate.
  assert (Hin : (i < n)%nat).
  { apply lookup_lt_Some in Hpc. by rewrite (fi_workers _ _ Hs) in Hpc. }
  assert (Hne : pc ≠ WExit).
  { intros ->. unfold worker_step in Hstep. rewrite Hpc in Hstep.
    by destruct (ctxs (pipe s) !! i). }
  assert (Hil : (i < left_to_fini (at_main s))%nat).
  { destruct (decide (i < left_to_fini (at_main s))%nat) as [|Hge]; [done|].
    rewrite (fi_exited _ _ Hs i) in Hpc by lia. by simplify_eq. }
  destruct (lookup_lt_is_Some_2 (ctxs (pipe s)) i) as [g Hg].
  { by rewrite (fi_ctxs _ _ Hs). }
  destruct (fini_ctx _ _ _ _ Hs Hil Hg) as (Hi & Hj & q & Hq & Hwf & Hfl).
  destruct (late_step _ _ _ _ _ _ Hstep Hpc Hlate Hg Hq Hwf)
    as (pc' & q' & evs & -> & Hlate' & Hwf' & Hc & Hfl' & Hquiet).
  destruct Hs as [Hm Hfd Hrep Hlc Hlw Hl Hseen Hleft Halive Hgone Hexit Hat].
  split; cbn [pipe at_main reported workers ctxs feeders log mem set_worker emit].
  - eapply mem_late_update; try done.
    + by destruct pc as [| | | |[| |]| |].
    + by destruct pc' as [| | | |[| |]| |].
    + unfold queue_holds. cbn. by rewrite Hq, Hc.
    + by intros ? [= <-].
  - done.
  - done.
  - rewrite (upd_ctx_insert _ _ _ _ Hg). by rewrite length_insert.
  - by rewrite length_insert.
  - intros k pck Hk. destruct (decide (k = i)) as [->|Hki].
    + rewrite list_lookup_insert_eq in Hk by by eapply lookup_lt_Some.
      by simplify_eq.
    + rewrite list_lookup_insert_ne in Hk by done. by eapply Hl.
  - intros k Hk. rewrite seen_quiet by done. by apply Hseen.
  - done.
  - intros k gk Hk. rewrite (upd_ctx_insert _ _ _ _ Hg).
    destruct (decide (k = i)) as [->|Hki].
    + rewrite list_lookup_insert_eq by by eapply lookup_lt_Some.
      intros [= <-]. destruct (Halive i g Hk Hg) as (Hr & _ & _ & _).
      split_and!; try done.
      * unfold ctx_ready in *. rewrite andb_true_iff, !bool_decide_eq_true in *.
        split; [by eexists|]. apply Hr.
      * intros q0 [= <-]. by rewrite Hfl'.
    + rewrite list_lookup_insert_ne by done. by apply Halive.
  - intros k gk Hk. rewrite (upd_ctx_insert _ _ _ _ Hg).
    rewrite list_lookup_insert_ne by lia. by apply Hgone.
  - intros k Hk. rewrite list_lookup_insert_ne by lia. by apply Hexit.
  - destruct (at_main s) as [|j|j k pc0|m|j k pc0|]; try done.
    destruct Hat as [-> Hd]. split; [done|]. intros Hpc0.
    destruct (decide (j = i)) as [->|Hji].
    + specialize (Hd Hpc0). by simplify_eq.
    + rewrite list_lookup_insert_ne by done. by apply Hd.
Qed.

End Stage7.

Section Stage7Main.
Import Monitor ConsumerProducer PluginCommon Main Shutdown.

Lemma upd_ctx_const P i h g :
  ctxs P !! i = Some g → upd_ctx i h P = upd_ctx i (λ _, h g) P.
Proof.
  intros Hg. unfold upd_ctx. f_equal.
  by rewrite (list_alter_at _ _ _ _ Hg), (list_alter_at _ _ _ g Hg).
Qed.

(** A step of the controller that replaces the context of the plugin being
    finalised by one with the same queue contents. *)
Lemma fini_update n P i pc pc' g g' rep :
  fini_inv n {| pipe := P; at_main := InFini i i pc; reported := rep |} →
  ctxs P !! i = Some g →
  queue_holds g' = queue_holds g →
  (∀ q', PluginCommon.queue g' = Some q' → wf q') →
  ctx_ready g' = true → PluginCommon.initialized g' = 1 →
  (∀ q, PluginCommon.queue g' = Some q → finished_flag q = 1) →
  (worker_joined g' = 0 ∨ pc' = FiniDestroy) →
  (pc' = FiniDestroy → workers P !! i = Some WExit) →
  fini_inv n {| pipe := upd_ctx i (λ _, g') P; at_main := InFini i i pc';
                reported := rep |}.
Proof.
  intros [Hm Hfd Hrep Hlc Hlw Hl Hseen Hleft Halive Hgone Hexit Hat]
    Hg Hq Hwf Hr Hi Hf Hj Hd.
  cbn [pipe at_main reported left_to_fini] in *.
  split; cbn [pipe at_main reported left_to_fini workers feeders log ctxs upd_ctx].
  - by eapply mem_update.
  - done.
  - done.
  - rewrite <- Hlc. by rewrite length_alter.
  - done.
  - done.
  - done.
  - done.
  - intros k gk Hk. change (alter (λ _, g') i (ctxs P)) with (ctxs (upd_ctx i (λ _, g') P)).
    rewrite (upd_ctx_insert _ _ _ _ Hg).
    destruct (decide (k = i)) as [->|Hki].
    + rewrite list_lookup_insert_eq by by eapply lookup_lt_Some.
      intros [= <-]. split_and!; try done.
      destruct Hj as [?|?]; [by left|right; by subst pc'].
    + rewrite list_lookup_insert_ne by done. intros Hgk.
      destruct (Halive k gk Hk Hgk) as (? & ? & ? & [?|?]); [|by simplify_eq].
      split_and!; try done. by left.
  - intros k gk Hk. change (alter (λ _, g') i (ctxs P)) with (ctxs (upd_ctx i (λ _, g') P)).
    rewrite (upd_ctx_insert _ _ _ _ Hg), list_lookup_insert_ne by lia.
    by apply Hgone.
  - done.
  - done.
Qed.

(** The controller's steps during stage 7. *)
Lemma fini_main n s s' :
  fini_inv n s → main_step (loaded <$> seq 0 n) s = Some s' → fini_inv n s'.
Proof.
  intros Hs. unfold main_step.
  destruct s as [P at_ rep]. cbn [pipe at_main reported].
  destruct at_ as [|i|i k pc|m|i k pc|];
    try (by destruct (fi_at _ _ Hs)).
  - (* the loop test *)
    destruct m as [|i].
    + intros [= <-].
      destruct Hs as [Hm Hfd Hrep Hlc Hlw Hl Hseen Hleft Halive Hgone Hexit Hat].
      cbn [pipe at_main reported left_to_fini] in *.
      split; cbn [pipe at_main reported left_to_fini]; try done.
      intros k g Hk. lia.
    + pose proof (fi_left _ _ Hs) as Hleft. cbn in Hleft.
      rewrite loaded_lookup by lia. cbn [fini loaded]. intros [= <-].
      destruct Hs as [Hm Hfd Hrep Hlc Hlw Hl Hseen _ Halive Hgone Hexit Hat].
      cbn [pipe at_main reported left_to_fini] in *.
      split; cbn [pipe at_main reported left_to_fini]; try done.
      intros k g Hk Hg.
      destruct (Halive k g Hk Hg) as (? & ? & ? & [?|?]); [|done].
      split_and!; try done. by left.
  - (* inside fini *)
    pose proof (fi_at _ _ Hs) as [-> Hd]. cbn [pipe at_main] in Hd.
    pose proof (fi_left _ _ Hs) as Hleft. cbn in Hleft.
    destruct (lookup_lt_is_Some_2 (ctxs P) i) as [g Hg].
    { pose proof (fi_ctxs _ _ Hs) as Hlc. cbn in Hlc. lia. }
    destruct (fini_ctx _ _ i g Hs) as (Hi & Hj & q & Hq & Hwf & Hfl);
      [cbn; lia|done|].
    cbn [at_main] in Hj.
    assert (Hready : ctx_ready g = true).
    { by destruct (fi_alive _ _ Hs i g) as (? & _); [cbn; lia|done|]. }
    unfold plugin_fini_step. rewrite Hg.
    destruct pc as [|wpc| |].
    + (* the checks on entry *)
      rewrite Hi. cbn. intros [= <-].
      rewrite <- (upd_ctx_same P i g Hg).
      eapply fini_update; try done.
      * intros q0 Hq0. by simplify_eq.
      * intros q0 Hq0. by simplify_eq.
      * destruct Hj as [?|?]; [by left|done].
    + (* plugin_wait_finished *)
      pose proof (wait_step_live i wpc g q Hi Hq Hwf (λ _, Hfl)) as Hstep.
      destruct (plugin_wait_finished_step i wpc g) as [|wpc' g' evs|err g' evs];
        [done|..].
      * destruct Hstep as (-> & q' & -> & Hwf' & Hc & Hfl' & _).
        intros [= <-]. rewrite emit_nil.
        eapply fini_update; try done.
        -- unfold queue_holds. cbn. by rewrite Hq, Hc.
        -- by intros ? [= <-].
        -- unfold ctx_ready in *.
           rewrite andb_true_iff, !bool_decide_eq_true in *.
           split; [by eexists|]. apply Hready.
        -- intros q0 [= <-]. by rewrite Hfl'.
        -- destruct Hj as [?|?]; [by left|done].
      * destruct Hstep as (-> & -> & -> & _). intros [= <-]. rewrite emit_nil.
        eapply fini_update; try done.
        -- intros q0 Hq0. by simplify_eq.
        -- intros q0 Hq0. by simplify_eq.
        -- destruct Hj as [?|?]; [by left|done].
    + (* pthread_join *)
      destruct Hj as [Hj|?]; [|done]. rewrite Hj. cbn [Z.eqb].
      destruct (lookup_lt_is_Some_2 (workers P) i) as [wpc Hwpc].
      { pose proof (fi_workers _ _ Hs) as Hlw. cbn in Hlw. lia. }
      rewrite Hwpc. destruct wpc; try done. intros [= <-].
      rewrite (upd_ctx_const _ _ _ _ Hg).
      eapply fini_update; try done.
      * intros q0. cbn. intros Hq0. by simplify_eq.
      * intros q0. cbn. intros Hq0. by simplify_eq.
      * by right.
    + (* destroy and reset *)
      specialize (Hd eq_refl). rewrite Hq, (destroy_spec q Hwf). cbn [snd].
      intros [= <-]. cbn [report].
      destruct Hs as [Hm Hfd Hrep Hlc Hlw Hl Hseen _ Halive Hgone Hexit Hat].
      cbn [pipe at_main reported left_to_fini] in *.
      destruct (frees_all (contents q) (mem P) (wf_live _ Hwf)) as [Hfreed Hnext].
      destruct (owned_frame_worker P i i g WExit Hg Hd) as (rest & Hsplit & Hframe).
      split; cbn [pipe at_main reported left_to_fini workers feeders log mem
                  ctxs emit set_mem upd_ctx].
      * apply (mem_inv_step P _ [] (contents q) Hm).
        -- cbn [ctxs emit set_mem].
           rewrite (upd_ctx_insert _ _ _ _ Hg). apply queues_insert; [|done].
           apply (mi_queues _ Hm).
        -- left. by split.
        -- done.
        -- rewrite app_nil_r. apply Permutation_submseteq.
           rewrite Hsplit, (Hframe _ (fini_reset g) WExit).
           ++ unfold queue_holds. cbn [PluginCommon.queue fini_reset from_option
                                        worker_holds].
              rewrite Hq. cbn [from_option]. solve_Permutation.
           ++ cbn [ctxs emit set_mem]. by rewrite (upd_ctx_insert _ _ _ _ Hg).
           ++ cbn. by rewrite list_insert_id.
           ++ done.
      * done.
      * done.
      * by rewrite length_alter.
      * done.
      * done.
      * intros k Hk. rewrite seen_quiet by apply quiet_frees. by apply Hseen.
      * lia.
      * intros k gk Hk.
        change (alter (λ _, fini_reset g) i (ctxs P))
          with (ctxs (upd_ctx i (λ _, fini_reset g) P)).
        rewrite (upd_ctx_insert _ _ _ _ Hg), list_lookup_insert_ne by lia.
        intros Hgk. destruct (Halive k gk) as (? & ? & ? & [?|?]);
          [lia|done| |simplify_eq; lia].
        split_and!; try done. by left.
      * intros k gk Hk.
        change (alter (λ _, fini_reset g) i (ctxs P))
          with (ctxs (upd_ctx i (λ _, fini_reset g) P)).
        rewrite (upd_ctx_insert _ _ _ _ Hg).
        destruct (decide (k = i)) as [->|Hki].
        -- rewrite list_lookup_insert_eq by by eapply lookup_lt_Some.
           by intros [= <-].
        -- rewrite list_lookup_insert_ne by done. apply Hgone. lia.
      * intros k Hk. destruct (decide (k = i)) as [->|Hki]; [done|].
        apply Hexit. lia.
      * done.
Qed.

End Stage7Main.

Section ShutdownRuns.
Import Monitor ConsumerProducer PluginCommon Main Shutdown.

Lemma sstep_inv n a s :
  (1 ≤ n)%nat → wait_inv n s ∨ fini_inv n s →
  wait_inv n (sstep (loaded <$> seq 0 n) a s) ∨
  fini_inv n (sstep (loaded <$> seq 0 n) a s).
Proof.
  intros Hn Hs. destruct a as [|i].
  - cbn [sstep].
    destruct (main_step (loaded <$> seq 0 n) s) as [s'|] eqn:Hstep; [|done].
    destruct Hs as [Hs|Hs].
    + by eapply wait_main.
    + right. by eapply fini_main.
  - destruct Hs as [Hs|Hs].
    + left. by apply wait_worker.
    + right. by apply fini_worker.
Qed.

Lemma srun_cons plugins a ss s :
  srun plugins (a :: ss) s = srun plugins ss (sstep plugins a s).
Proof. done. Qed.

Lemma srun_inv n ss s :
  (1 ≤ n)%nat → wait_inv n s ∨ fini_inv n s →
  wait_inv n (srun (loaded <$> seq 0 n) ss s) ∨
  fini_inv n (srun (loaded <$> seq 0 n) ss s).
Proof.
  intros Hn. revert s. induction ss as [|a ss IH]; intros s Hs; [done|].
  rewrite srun_cons. by apply IH, sstep_inv.
Qed.

(** Every state of the shutdown of a started chain, entered when no
    [plugin_place_work] call from the controller is in progress. *)
Lemma shutdown_inv fs c P0 sched ss :
  (consumer_producer_init ConsumerProducer.zeroed c).1 = None →
  started fs c = Some P0 →
  feeders (prun sched P0) = ∅ →
  wait_inv (length fs)
    (srun (loaded <$> seq 0 (length fs)) ss (enter_stage6 (prun sched P0))) ∨
  fini_inv (length fs)
    (srun (loaded <$> seq 0 (length fs)) ss (enter_stage6 (prun sched P0))).
Proof.
  intros Hc Hst Hfd.
  assert (Hn : (1 ≤ length fs)%nat).
  { destruct fs; [done|cbn; lia]. }
  apply srun_inv; [done|]. left.
  split; cbn [pipe at_main reported enter_stage6]; try done.
  by apply live_prun, (started_live fs c).
Qed.

(** X23: stage 6 returns only after every worker has met the sentinel.
    While the workers run on, the controller of a started chain calls
    [wait_finished] of each plugin in turn.  No call returns an error; and
    once the call for plugin [i] has returned, the worker of stage [i] has
    dequeued the sentinel and is past its last [plugin_place_work]: it has
    set the finished flag of its queue and only signals and exits. *)
Theorem stage6_returns_after_every_sentinel
    (fs : list transform) (c : Z) (P0 : pipeline)
    (sched : list paction) (ss : list saction) :
  (consumer_producer_init ConsumerProducer.zeroed c).1 = None →
  started fs c = Some P0 →
  feeders (prun sched P0) = ∅ →
  let s := srun (loaded <$> seq 0 (length fs)) ss
             (enter_stage6 (prun sched P0)) in
  (∀ i e, WaitError i e ∉ reported s) ∧
  (∀ i, waited (length fs) i (at_main s) = true →
        sentinels_seen i (log (pipe s)) = 1%nat ∧
        ∃ pc, workers (pipe s) !! i = Some pc ∧ late pc = true).
Proof.
  intros Hc Hst Hfd s.
  destruct (shutdown_inv fs c P0 sched ss Hc Hst Hfd) as [Hs|Hs]; fold s in Hs.
  - split.
    + intros i e. rewrite (wi_reported _ _ Hs). apply not_elem_of_nil.
    + intros i Hi.
      destruct (lv_late _ _ (wi_live _ _ Hs) i (wi_waited _ _ Hs i Hi))
        as (pc & Hpc & Hlate).
      split; [|by eauto].
      rewrite (pi_sentinel _ (lv_pinv _ _ (wi_live _ _ Hs)) i pc Hpc).
      by rewrite (late_past_end _ Hlate).
  - split.
    + intros i e. rewrite (fi_reported _ _ Hs). apply not_elem_of_nil.
    + intros i Hi.
      assert (Hlt : (i < length fs)%nat).
      { pose proof (fi_at _ _ Hs) as Hat. revert Hi.
        destruct (at_main s); try done; cbn; by intros ?%bool_decide_eq_true. }
      split; [by apply (fi_seen _ _ Hs)|].
      destruct (lookup_lt_is_Some_2 (workers (pipe s)) i) as [pc Hpc].
      { by rewrite (fi_workers _ _ Hs). }
      exists pc. split; [done|]. by apply (fi_late _ _ Hs i).
Qed.

Lemma stage6_returns_after_every_sentinel_witness :
  sentinels_seen 1
    (log (pipe (srun (loaded <$> seq 0 2) (replicate 9 StepMain)
                  (enter_stage6 (prun hello_end upper_log))))) = 1%nat.
Proof.
  refine (proj1 (proj2 (stage6_returns_after_every_sentinel
                          [uppercaser_transform; logger_transform] 8 upper_log
                          hello_end (replicate 9 StepMain) eq_refl eq_refl _)
                   1%nat _)); vm_compute; reflexivity.
Defined.

(** X24: shutdown frees nothing twice and leaves nothing behind.  In every
    state of stages 6 and 7 of a started chain, with the workers running on:
    nothing is reported on stderr, so every [wait_finished] and [fini]
    call that returned returned NULL; no buffer has been freed twice,
    counting the items that [consumer_producer_destroy] frees; the queue of
    a plugin has been destroyed only if its worker has exited and no worker
    will call [plugin_place_work] again; and when stage 7 is over every
    plugin is uninitialised with a null queue, every worker has exited and
    no buffer is referred to any more. *)
Theorem shutdown_frees_once_and_resets
    (fs : list transform) (c : Z) (P0 : pipeline)
    (sched : list paction) (ss : list saction) :
  (consumer_producer_init ConsumerProducer.zeroed c).1 = None →
  started fs c = Some P0 →
  feeders (prun sched P0) = ∅ →
  let s := srun (loaded <$> seq 0 (length fs)) ss
             (enter_stage6 (prun sched P0)) in
  reported s = [] ∧
  (∀ p, (times_freed p (mem (pipe s)) ≤ 1)%nat) ∧
  (∀ k g,
     ctxs (pipe s) !! k = Some g → PluginCommon.queue g = None →
     workers (pipe s) !! k = Some WExit ∧
     ∀ j pc, workers (pipe s) !! j = Some pc → late pc = true) ∧
  (at_main s = Stage8 →
   Forall (λ g, PluginCommon.initialized g = 0 ∧ PluginCommon.queue g = None)
     (ctxs (pipe s)) ∧
   Forall (λ pc, pc = WExit) (workers (pipe s)) ∧
   owned (pipe s) = []).
Proof.
  intros Hc Hst Hfd s.
  destruct (shutdown_inv fs c P0 sched ss Hc Hst Hfd) as [Hs|Hs]; fold s in Hs.
  - split_and!.
    + apply (wi_reported _ _ Hs).
    + intros p. apply times_freed_nodup.
      pose proof (mi_nodup _ (lv_mem _ _ (wi_live _ _ Hs))) as Hnd.
      by apply NoDup_app in Hnd as (_ & _ & ?).
    + intros k g Hg Hq.
      destruct (live_ctx _ _ _ _ (wi_live _ _ Hs) Hg) as (_ & _ & q & Hq' & _).
      congruence.
    + intros Hat. pose proof (wi_at _ _ Hs) as H. by rewrite Hat in H.
  - split_and!.
    + apply (fi_reported _ _ Hs).
    + intros p. apply times_freed_nodup.
      pose proof (mi_nodup _ (fi_mem _ _ Hs)) as Hnd.
      by apply NoDup_app in Hnd as (_ & _ & ?).
    + intros k g Hg Hq. split; [|apply (fi_late _ _ Hs)].
      apply (fi_exited _ _ Hs). split.
      * destruct (decide (left_to_fini (at_main s) ≤ k)%nat) as [|Hlt]; [done|].
        destruct (fini_ctx _ _ k g Hs) as (_ & _ & q & Hq' & _); [lia|done|].
        congruence.
      * apply lookup_lt_Some in Hg. by rewrite (fi_ctxs _ _ Hs) in Hg.
    + intros Hat.
      assert (Hgone : Forall (λ g, PluginCommon.initialized g = 0 ∧
                                   PluginCommon.queue g = None) (ctxs (pipe s))).
      { apply Forall_forall. intros g Hg. apply list_elem_of_lookup in Hg as [k Hk].
        destruct (fi_gone _ _ Hs k g) as [? ?]; [rewrite Hat; cbn; lia|done|done]. }
      assert (Hexit : Forall (λ pc, pc = WExit) (workers (pipe s))).
      { apply Forall_forall. intros pc Hpc.
        apply list_elem_of_lookup in Hpc as [k Hk].
        rewrite (fi_exited _ _ Hs k) in Hk; [by simplify_eq|].
        rewrite Hat. cbn. apply lookup_lt_Some in Hk.
        rewrite (fi_workers _ _ Hs) in Hk. lia. }
      split_and!; try done.
      unfold owned. rewrite (fi_feeders _ _ Hs), map_to_list_empty.
      rewrite (mjoin_nil queue_holds), (mjoin_nil worker_holds); [done|..].
      * eapply Forall_impl; [exact Hexit|]. by intros pc ->.
      * eapply Forall_impl; [exact Hgone|]. intros g [_ Hq].
        unfold queue_holds. by rewrite Hq.
Qed.

Lemma shutdown_frees_once_and_resets_witness :
  Forall (λ g, PluginCommon.initialized g = 0 ∧ PluginCommon.queue g = None)
    (ctxs (pipe (srun (loaded <$> seq 0 2) (replicate 24 StepMain)
                   (enter_stage6 (prun hello_end upper_log))))) ∧
  owned (pipe (srun (loaded <$> seq 0 2) (replicate 24 StepMain)
                 (enter_stage6 (prun hello_end upper_log)))) = [].
Proof.
  assert (Hend : at_main (srun (loaded <$> seq 0 2) (replicate 24 StepMain)
                            (enter_stage6 (prun hello_end upper_log))) = Stage8)
    by (vm_compute; reflexivity).
  assert (Hfd : feeders (prun hello_end upper_log) = ∅) by (vm_compute; reflexivity).
  pose proof (proj2 (proj2 (proj2 (shutdown_frees_once_and_resets
                [uppercaser_transform; logger_transform] 8 upper_log
                hello_end (replicate 24 StepMain) eq_refl eq_refl Hfd))) Hend)
    as (H1 & _ & H3).
  exact (conj H1 H3).
Defined.

End ShutdownRuns.

Section InitFailure.
Import Monitor ConsumerProducer PluginCommon Main Shutdown.

Lemma empty_count q : wf q → contents q = [] → count q = 0.
Proof.
  intros Hwf Hc. pose proof (contents_length q) as Hl. rewrite Hc in Hl.
  pose proof (wf_count _ Hwf). cbn in Hl. lia.
Qed.

(** [get] on an empty open queue goes to sleep and back. *)
Lemma get_step_idle pc q :
  wf q → contents q = [] → finished_flag q = 0 →
  pc = GetEntry ∨ pc = GetWait ∨ pc = GetRelock →
  match get_step pc q with
  | Blocked => True
  | Next pc' q' _ =>
      (pc' = GetWait ∨ pc' = GetRelock) ∧
      wf q' ∧ contents q' = [] ∧ finished_flag q' = 0
  | Return _ _ _ => False
  end.
Proof.
  intros Hwf Hc Hf Hpc. pose proof (empty_count q Hwf Hc) as Hz.
  destruct (get_facts q Hwf) as (Hloop & Hb & Hn & _).
  pose proof (get_step_ok pc q Hwf) as Hok.
  pose proof (get_step_flag pc q) as Hflag.
  destruct Hpc as [->|[->| ->]].
  - destruct (Hloop GetEntry (or_introl eq_refl)) as (_ & _ & Hgo & _).
    rewrite (Hgo Hz Hf) in *. destruct Hok as [(Hwf' & _) _]; [done|].
    split_and!; [by left|done|done|by rewrite Hflag].
  - destruct (decide (signaled (not_empty_monitor q) = 0)) as [Hs|Hs].
    + by rewrite (Hb Hs).
    + rewrite (Hn Hs). split_and!; [by right|done..].
  - destruct (Hloop GetRelock (or_intror eq_refl)) as (_ & _ & Hgo & _).
    rewrite (Hgo Hz Hf) in *. destruct Hok as [(Hwf' & _) _]; [done|].
    split_and!; [by left|done|done|by rewrite Hflag].
Qed.

Lemma unfed_set_queue g q' :
  unfed g → wf q' → contents q' = [] → finished_flag q' = 0 →
  unfed (set_queue q' g).
Proof.
  intros (Hi & Hp & _) Hwf Hc Hf. split_and!; [done|done|]. by exists q'.
Qed.

Lemma idle_worker_step n s i plugins :
  idle_inv n s → idle_inv n (sstep plugins (StepStage i) s).
Proof.
  intros [Hc Hw Hl Hat]. cbn [sstep].
  destruct (worker_step i (pipe s)) as [P'|] eqn:Hstep; [|by destruct s].
  change (default (pipe s) (Some P')) with P'.
  revert Hstep. unfold worker_step.
  destruct (workers (pipe s) !! i) as [pc|] eqn:Hpc; [|done].
  destruct (ctxs (pipe s) !! i) as [g|] eqn:Hg; [|done].
  assert (Hidle : idle_worker pc = true).
  { rewrite Forall_forall in Hw. apply Hw. by eapply list_elem_of_lookup_2. }
  assert (Hu : unfed g).
  { rewrite Forall_forall in Hc. apply Hc. by eapply list_elem_of_lookup_2. }
  pose proof Hu as (Hi & [f Hf] & q & Hq & Hwf & Hcont & Hflag).
  destruct pc as [|gpc| | | | |]; try done.
  - rewrite Hq, Hf. intros [= <-].
    split; cbn [pipe at_main workers ctxs set_worker]; try done.
    by apply Forall_insert.
  - rewrite Hq.
    assert (Hgpc : gpc = GetEntry ∨ gpc = GetWait ∨ gpc = GetRelock).
    { destruct gpc; try done; auto. }
    pose proof (get_step_idle gpc q Hwf Hcont Hflag Hgpc) as Hget.
    destruct (get_step gpc q) as [|gpc' q' evs|x q' evs]; [done| |done].
    destruct Hget as (Hpc' & Hwf' & Hc' & Hf'). intros [= <-].
    split; cbn [pipe at_main workers ctxs set_worker upd_ctx]; try done.
    + apply Forall_alter; [done|]. intros g0 Hg0 _.
      assert (g0 = g) as -> by congruence. by apply unfed_set_queue.
    + apply Forall_insert; [done|]. by destruct Hpc' as [-> | ->].
    + by rewrite length_alter.
Qed.

Lemma idle_main_step n s s' :
  (1 ≤ n)%nat → idle_inv n s →
  main_step (loaded <$> seq 0 n) s = Some s' → idle_inv n s'.
Proof.
  intros Hn [Hc Hw Hl Hat]. unfold main_step.
  destruct Hat as [Hat|(pc & Hat & Hwait)]; rewrite Hat.
  - destruct n as [|i]; [lia|]. rewrite loaded_lookup by lia.
    cbn [fini loaded]. intros [= <-].
    split; cbn [pipe at_main]; try done. right. exists FiniEntry.
    split; [|done]. do 2 f_equal; lia.
  - destruct (lookup_lt_is_Some_2 (ctxs (pipe s)) (n - 1)) as [g Hg]; [lia|].
    assert (Hu : unfed g).
    { rewrite Forall_forall in Hc. apply Hc. by eapply list_elem_of_lookup_2. }
    pose proof Hu as (Hi & Hp & q & Hq & Hwf & Hcont & Hflag).
    unfold plugin_fini_step. rewrite Hg.
    destruct pc as [|[|wpc]| |]; try done.
    + rewrite Hi. cbn. intros [= <-].
      split; cbn [pipe at_main]; try done. right. by exists (FiniWait PwfEntry).
    + cbn [plugin_wait_finished_step]. rewrite Hi. cbn. intros [= <-].
      rewrite emit_nil, (upd_ctx_same _ _ _ Hg).
      split; cbn [pipe at_main]; try done. right.
      by exists (FiniWait (PwfWait WfEntry)).
    + cbn [plugin_wait_finished_step]. rewrite Hq.
      assert (Hpc : pc_inv q (InWaitFinished wpc)) by by destruct wpc.
      pose proof (wf_step_moves wpc q Hwf Hpc) as Hmove.
      destruct (wf_step wpc q) as [|wpc' q' evs|rc q' evs]; [done|..].
      * destruct Hmove as (Hwf' & Hc' & Hf' & Hpc'). intros [= <-].
        rewrite emit_nil.
        split; cbn [pipe at_main ctxs upd_ctx]; try done.
        -- apply Forall_alter; [done|]. intros g0 Hg0 _.
           apply unfed_set_queue; [done|done|congruence|congruence].
        -- by rewrite length_alter.
        -- right. exists (FiniWait (PwfWait wpc')). split; [done|].
           destruct wpc'; try done; cbn in Hpc'; congruence.
      * destruct Hmove as (_ & _ & Hf1). congruence.
Qed.

Lemma idle_sstep n a s :
  (1 ≤ n)%nat → idle_inv n s → idle_inv n (sstep (loaded <$> seq 0 n) a s).
Proof.
  intros Hn Hs. destruct a as [|i].
  - cbn [sstep].
    destruct (main_step (loaded <$> seq 0 n) s) as [s'|] eqn:Hstep; [|done].
    by eapply idle_main_step.
  - by apply idle_worker_step.
Qed.

Lemma idle_srun n ss s :
  (1 ≤ n)%nat → idle_inv n s → idle_inv n (srun (loaded <$> seq 0 n) ss s).
Proof.
  intros Hn. revert s. induction ss as [|a ss IH]; intros s Hs; [done|].
  rewrite srun_cons. by apply IH, idle_sstep.
Qed.

Lemma initialised_unfed fs c :
  (consumer_producer_init ConsumerProducer.zeroed c).1 = None →
  Forall unfed (stage3_contexts fs c).
Proof.
  intros Hc. destruct (init_ok _ _ Hc) as (Hwf & _ & Hcont & Hfin).
  apply Forall_forall. intros g Hg. apply list_elem_of_lookup in Hg as [k Hk].
  assert (Hklt : (k < length fs)%nat).
  { apply lookup_lt_Some in Hk. unfold stage3_contexts in Hk.
    by rewrite length_fmap in Hk. }
  destruct (lookup_lt_is_Some_2 fs k Hklt) as [f Hf].
  rewrite (stage3_lookup fs c k f Hc Hf) in Hk. injection Hk as <-.
  split_and!; [done|by eexists|]. by eexists.
Qed.

(** X25: cleaning up after a failed [init] never finishes.  When stage 3
    has initialised one plugin or more and the [init] of a later one fails,
    the cleanup calls [fini] of the plugins initialised so far, last one
    first.  Whatever the schedule of the workers and of the controller,
    that first [plugin_fini] call never gets past phase 1 of its wait: no
    queue is ever marked finished, every worker stays in [get] on its empty
    queue, and the controller never reaches the unloading loop and
    [exit(2)]. *)
Theorem init_failure_cleanup_never_returns
    (fs : list transform) (c : Z) (ss : list saction) :
  (consumer_producer_init ConsumerProducer.zeroed c).1 = None →
  (1 ≤ length fs)%nat →
  let n := length fs in
  let s := srun (loaded <$> seq 0 n) ss
             (cleanup_after_init_failure n (initialised_only fs c)) in
  (at_main s = FiniLoop n ∨
   ∃ pc, at_main s = InFini (n - 1) (n - 1) pc ∧ waiting_fini pc = true) ∧
  at_main s ≠ Stage8 ∧
  Forall (λ g, ∃ q, PluginCommon.queue g = Some q ∧ finished_flag q = 0 ∧
                    contents q = []) (ctxs (pipe s)) ∧
  Forall (λ pc, idle_worker pc = true) (workers (pipe s)).
Proof.
  intros Hc Hn n s.
  assert (Hs : idle_inv n s).
  { apply idle_srun; [done|].
    split; cbn [pipe at_main cleanup_after_init_failure initialised_only
                ctxs workers].
    - by apply initialised_unfed.
    - apply Forall_forall. intros pc Hpc.
      by apply elem_of_replicate in Hpc as [-> _].
    - unfold stage3_contexts. by rewrite length_fmap.
    - by left. }
  destruct Hs as [Hctx Hw Hl Hat]. split_and!; try done.
  - destruct Hat as [->|(pc & -> & _)]; done.
  - eapply Forall_impl; [exact Hctx|].
    intros g (_ & _ & q & Hq & _ & Hcont & Hf). by exists q.
Qed.

Lemma init_failure_cleanup_never_returns_witness :
  at_main (srun (loaded <$> seq 0 2)
             (replicate 5 StepMain ++ [StepStage 0; StepStage 1; StepMain])
             (cleanup_after_init_failure 2
                (initialised_only [uppercaser_transform; logger_transform] 8)))
    ≠ Stage8.
Proof.
  refine (proj1 (proj2 (init_failure_cleanup_never_returns
                   [uppercaser_transform; logger_transform] 8
                   (replicate 5 StepMain ++ [StepStage 0; StepStage 1; StepMain])
                   eq_refl _))).
  cbn. lia.
Defined.

End InitFailure.

(** ** Stage 3 *)

Section Stage3.
Import Monitor ConsumerProducer PluginCommon Main Startup.

Lemma plugin_init_fresh im c fresh :
  im.1 ≠ ""%string → 1 ≤ c ≤ 268435455 → no_flag_set fresh →
  plugin_init im c fresh zeroed_ctx = (None, initialised_as im c).
Proof.
  intros Hnm Hc (Hq & H1 & H2 & H3). destruct im as [nm f]. cbn in Hnm.
  unfold plugin_init, common_plugin_init, initialised_as. cbn [fst snd].
  destruct nm as [|ch nm]; [done|].
  destruct (Z.leb_spec c 0); [lia|]. cbn [zeroed_ctx PluginCommon.initialized Z.eqb].
  rewrite (init_succeeds fresh c) by done.
  reflexivity.
Qed.

Lemma plugin_init_again im c fresh :
  im.1 ≠ ""%string → 1 ≤ c →
  plugin_init im c fresh (initialised_as im c) =
    (Some "plugin already initialized"%string, initialised_as im c).
Proof.
  intros Hnm Hc. destruct im as [nm f]. cbn in Hnm.
  unfold plugin_init, common_plugin_init. cbn [fst snd].
  destruct nm as [|ch nm]; [done|].
  destruct (Z.leb_spec c 0); [lia|]. reflexivity.
Qed.

Lemma plugin_init_queue_error im c fresh g e :
  im.1 ≠ ""%string → 1 ≤ c → PluginCommon.initialized g ≠ 1 →
  (consumer_producer_init fresh c).1 = Some e →
  ∃ g', plugin_init im c fresh g = (Some e, g').
Proof.
  intros Hnm Hc Hi He. destruct im as [nm f]. cbn in Hnm.
  unfold plugin_init, common_plugin_init. cbn [fst snd].
  destruct nm as [|ch nm]; [done|].
  destruct (Z.leb_spec c 0); [lia|].
  destruct (Z.eqb_spec (PluginCommon.initialized g) 1); [done|].
  destruct (consumer_producer_init fresh c) as [qerr q]. cbn in He. subst qerr.
  by eexists.
Qed.

Lemma init_monitors_refused q c :
  1 ≤ c ≤ 268435455 → ConsumerProducer.initialized q ≠ 1 →
  Monitor.initialized (not_full_monitor q) = 1 ∨
  Monitor.initialized (not_empty_monitor q) = 1 ∨
  Monitor.initialized (finished_monitor q) = 1 →
  (consumer_producer_init q c).1 = Some "Failed to initialize monitors"%string.
Proof.
  intros Hc Hq Hm. unfold consumer_producer_init, monitor_init.
  rewrite cap_max.
  destruct (Z.leb_spec c 0); [lia|].
  rewrite (proj2 (Z.eqb_neq _ _) Hq).
  destruct (Z.gtb_spec c 268435455); [lia|].
  destruct (Z.eqb_spec (Monitor.initialized (not_full_monitor q)) 1); [done|].
  destruct (Z.eqb_spec (Monitor.initialized (not_empty_monitor q)) 1); [done|].
  destruct (Z.eqb_spec (Monitor.initialized (finished_monitor q)) 1); [done|].
  by destruct Hm as [?|[?|?]].
Qed.

Section Loop.
Variable impl : list (string * transform).
Variable c : Z.
Variable fresh : nat → consumer_producer_t.
Variable ks : list nat.
Hypothesis Hks : Forall (λ k, (k < length impl)%nat) ks.
Hypothesis Hnames : Forall (λ im : string * transform, im.1 ≠ ""%string) impl.
Hypothesis Hc : 1 ≤ c ≤ 268435455.
Hypothesis Hfresh : ∀ i, no_flag_set (fresh i).

Lemma contexts_after_init i k gs :
  ks !! i = Some k → k ∉ take i ks →
  contexts_after impl c (take i ks) gs →
  ∃ im, impl !! k = Some im ∧ gs !! k = Some zeroed_ctx ∧
        contexts_after impl c (take (S i) ks) (<[k := initialised_as im c]> gs).
Proof.
  intros Hk Hnew [Hlen Hgs].
  assert (Hlt : (k < length impl)%nat).
  { rewrite Forall_forall in Hks. apply Hks. by eapply list_elem_of_lookup_2. }
  destruct (lookup_lt_is_Some_2 impl k Hlt) as [im Him].
  exists im. split; [done|]. split.
  { rewrite (Hgs k im Him). by rewrite bool_decide_eq_false_2. }
  split; [by rewrite length_insert|].
  intros k' im' Him'. rewrite (take_S_r _ _ _ Hk).
  destruct (decide (k' = k)) as [->|Hne].
  - rewrite list_lookup_insert_eq by lia.
    rewrite bool_decide_eq_true_2 by (apply elem_of_app; right; by left).
    by simplify_eq.
  - rewrite list_lookup_insert_ne by done. rewrite (Hgs k' im' Him').
    replace (bool_decide (k' ∈ take i ks ++ [k]))
      with (bool_decide (k' ∈ take i ks)); [done|].
    apply bool_decide_ext. rewrite elem_of_app, list_elem_of_singleton.
    split; [by left|]. by intros [?|?].
Qed.

Lemma init_loop_done fuel i gs :
  NoDup ks → (fuel + i = length ks)%nat →
  contexts_after impl c (take i ks) gs →
  ∃ gs', init_loop impl c fresh (loaded <$> ks) fuel i gs = Some (Stage3Done gs') ∧
         contexts_after impl c ks gs'.
Proof.
  intros Hnd. revert i gs. induction fuel as [|fuel IH]; intros i gs Hi Hgs.
  - exists gs. split; [done|]. by rewrite take_ge in Hgs by lia.
  - cbn [init_loop]. destruct (lookup_lt_is_Some_2 ks i) as [k Hk]; [lia|].
    rewrite list_lookup_fmap, Hk. cbn [fmap option_fmap option_map init loaded].
    assert (Hnew : k ∉ take i ks).
    { intros Hin. apply list_elem_of_lookup in Hin as [j Hj].
      apply lookup_take_Some in Hj as [Hj Hlt].
      pose proof (NoDup_lookup _ _ _ _ Hnd Hj Hk). lia. }
    destruct (contexts_after_init i k gs Hk Hnew Hgs) as (im & Him & Hg & Hnext).
    rewrite Him, Hg, plugin_init_fresh;
      [|by eapply Forall_lookup_1 in Hnames|done|done].
    apply IH; [lia|done].
Qed.

Lemma init_loop_repeated ks1 k ks2 fuel i gs :
  ks = ks1 ++ k :: ks2 → NoDup ks1 → k ∈ ks1 →
  (fuel + i = length ks)%nat → (i ≤ length ks1)%nat →
  contexts_after impl c (take i ks) gs →
  ∃ gs', init_loop impl c fresh (loaded <$> ks) fuel i gs =
           Some (Stage3Cleanup (length ks1)
                   (Some "plugin already initialized"%string) gs') ∧
         contexts_after impl c ks1 gs'.
Proof.
  intros Heq Hnd Hin. revert i gs.
  induction fuel as [|fuel IH]; intros i gs Hi Hle Hgs.
  { rewrite Heq, length_app in Hi. cbn in Hi. lia. }
  cbn [init_loop]. destruct (lookup_lt_is_Some_2 ks i) as [k' Hk']; [lia|].
  rewrite list_lookup_fmap, Hk'. cbn [fmap option_fmap option_map init loaded].
  destruct (decide (i = length ks1)) as [->|Hne].
  - (* the repeated plugin *)
    assert (k' = k) as ->.
    { rewrite Heq, lookup_app_r, Nat.sub_diag in Hk' by lia. by injection Hk'. }
    assert (Htake : take (length ks1) ks = ks1).
    { by rewrite Heq, take_app_length. }
    rewrite Htake in Hgs. destruct Hgs as [Hlen Hgs].
    assert (Hlt : (k < length impl)%nat).
    { rewrite Forall_forall in Hks. apply Hks. by eapply list_elem_of_lookup_2. }
    destruct (lookup_lt_is_Some_2 impl k Hlt) as [im Him].
    rewrite Him, (Hgs k im Him), bool_decide_eq_true_2 by done.
    rewrite plugin_init_again; [|by eapply Forall_lookup_1 in Hnames|lia].
    eexists. split; [done|]. split; [by rewrite length_insert|].
    intros k' im' Him'. destruct (decide (k' = k)) as [->|Hk].
    + rewrite list_lookup_insert_eq by lia.
      rewrite bool_decide_eq_true_2 by done. by simplify_eq.
    + rewrite list_lookup_insert_ne by done. by apply Hgs.
  - (* a plugin seen for the first time *)
    assert (Hk1 : ks1 !! i = Some k').
    { rewrite Heq, lookup_app_l in Hk' by lia. done. }
    assert (Htake : take i ks = take i ks1).
    { rewrite Heq, take_app_le by lia. done. }
    assert (Hnew : k' ∉ take i ks).
    { rewrite Htake. intros Hin'. apply list_elem_of_lookup in Hin' as [j Hj].
      apply lookup_take_Some in Hj as [Hj Hlt].
      pose proof (NoDup_lookup _ _ _ _ Hnd Hj Hk1). lia. }
    destruct (contexts_after_init i k' gs Hk' Hnew Hgs) as (im & Him & Hg & Hnext).
    rewrite Him, Hg, plugin_init_fresh;
      [|by eapply Forall_lookup_1 in Hnames|done|done].
    apply IH; [lia|lia|done].
Qed.

End Loop.

Lemma contexts_zeroed impl c :
  contexts_after impl c [] (replicate (length impl) zeroed_ctx).
Proof.
  split; [by rewrite length_replicate|]. intros k im Him.
  rewrite bool_decide_eq_false_2 by apply not_elem_of_nil.
  apply lookup_replicate_2. by eapply lookup_lt_Some.
Qed.

(** The first [init] of stage 3 fails inside [consumer_producer_init]. *)
Lemma first_init_refused impl c fresh k ks e :
  (k < length impl)%nat →
  Forall (λ im : string * transform, im.1 ≠ ""%string) impl →
  1 ≤ c → e ≠ ""%string →
  (consumer_producer_init (fresh 0%nat) c).1 = Some e →
  ∃ gs, stage3_initialize_plugins impl c fresh (loaded <$> k :: ks)
          (replicate (length impl) zeroed_ctx)
        = Some (Stage3Cleanup 0 (Some e) gs).
Proof.
  intros Hk Hnames Hc He Herr. unfold stage3_initialize_plugins.
  cbn [fmap list_fmap length Nat.eqb init_loop lookup list_lookup init loaded].
  destruct (lookup_lt_is_Some_2 impl k Hk) as [im Him]. rewrite Him.
  rewrite lookup_replicate_2 by done.
  destruct (plugin_init_queue_error im c (fresh 0%nat) zeroed_ctx e)
    as [g' ->]; [by eapply Forall_lookup_1 in Hnames|done|done|done|].
  destruct e as [|ch e]; [done|]. by eexists.
Qed.

(** X26: the outcomes of stage 3.  The plugin array holds the functions of
    the plugins [ks], each plugin with a non-empty name and starting from
    its zeroed context; [fresh i] is what the storage holds that [malloc]
    returns for the queue in the [init] call of iteration [i].  With a
    queue size of at most 268435455 and storage in which no [initialized]
    flag happens to be 1: if no plugin occurs twice, stage 3 returns with
    exactly these plugins initialised; if a plugin occurs again, stage 3
    stops at its second occurrence with "plugin already initialized" and
    calls the cleanup for the plugins before it, which are at least one
    and all initialised.  With a larger size (stage 1 accepts sizes up to
    INT_MAX), the first [init] fails and the cleanup is called for no
    plugin.  The storage is not cleared before its flags are read: when the
    queue flag of the first storage happens to be 1 the first [init] fails
    with "Queue already initialized", and when a monitor flag does, with
    "Failed to initialize monitors"; the cleanup is called for no plugin. *)
Theorem stage3_outcomes
    (impl : list (string * transform)) (c : Z)
    (fresh : nat → consumer_producer_t) (ks : list nat) :
  Forall (λ k, (k < length impl)%nat) ks →
  Forall (λ im : string * transform, im.1 ≠ ""%string) impl →
  ks ≠ [] →
  let run := stage3_initialize_plugins impl c fresh (loaded <$> ks)
               (replicate (length impl) zeroed_ctx) in
  (1 ≤ c ≤ 268435455 → (∀ i, no_flag_set (fresh i)) → NoDup ks →
   ∃ gs, run = Some (Stage3Done gs) ∧ contexts_after impl c ks gs) ∧
  (1 ≤ c ≤ 268435455 → (∀ i, no_flag_set (fresh i)) →
   ∀ ks1 k ks2, ks = ks1 ++ k :: ks2 → NoDup ks1 → k ∈ ks1 →
     (1 ≤ length ks1)%nat ∧
     ∃ gs, run = Some (Stage3Cleanup (length ks1)
                         (Some "plugin already initialized"%string) gs) ∧
           contexts_after impl c ks1 gs) ∧
  (268435455 < c → ConsumerProducer.initialized (fresh 0%nat) ≠ 1 →
   ∃ gs, run = Some (Stage3Cleanup 0 (Some "Queue capacity too large"%string) gs)) ∧
  (1 ≤ c → ConsumerProducer.initialized (fresh 0%nat) = 1 →
   ∃ gs, run = Some (Stage3Cleanup 0 (Some "Queue already initialized"%string) gs)) ∧
  (1 ≤ c ≤ 268435455 → ConsumerProducer.initialized (fresh 0%nat) ≠ 1 →
   Monitor.initialized (not_full_monitor (fresh 0%nat)) = 1 ∨
   Monitor.initialized (not_empty_monitor (fresh 0%nat)) = 1 ∨
   Monitor.initialized (finished_monitor (fresh 0%nat)) = 1 →
   ∃ gs, run = Some (Stage3Cleanup 0
                       (Some "Failed to initialize monitors"%string) gs)).
Proof.
  intros Hks Hnames Hne run. subst run.
  assert (Hfirst : ∀ e, 1 ≤ c → e ≠ ""%string →
            (consumer_producer_init (fresh 0%nat) c).1 = Some e →
            ∃ gs, stage3_initialize_plugins impl c fresh (loaded <$> ks)
                    (replicate (length impl) zeroed_ctx)
                  = Some (Stage3Cleanup 0 (Some e) gs)).
  { intros e Hc He Herr. destruct ks as [|k ks']; [done|].
    apply Forall_cons in Hks as [Hk _]. by apply first_init_refused. }
  split_and!.
  - intros Hc Hfresh Hnd. unfold stage3_initialize_plugins. rewrite length_fmap.
    destruct (Nat.eqb_spec (length ks) 0) as [Hz|_]; [by destruct ks|].
    apply (init_loop_done impl c fresh ks Hks Hnames Hc Hfresh); [done|lia|].
    rewrite take_0. apply contexts_zeroed.
  - intros Hc Hfresh ks1 k ks2 Heq Hnd Hin. split.
    { destruct ks1; [by apply elem_of_nil in Hin|cbn; lia]. }
    unfold stage3_initialize_plugins. rewrite length_fmap.
    destruct (Nat.eqb_spec (length ks) 0) as [Hz|_]; [by destruct ks|].
    apply (init_loop_repeated impl c fresh ks Hks Hnames Hc Hfresh ks1 k ks2);
      try done; try lia.
    rewrite take_0. apply contexts_zeroed.
  - intros Hc Hq. apply Hfirst; [lia|done|].
    by rewrite (proj1 (proj2 (proj2 (init_outcomes_facts (fresh 0%nat) c))) Hc Hq).
  - intros Hc Hq. apply Hfirst; [lia|done|].
    by rewrite (proj1 (proj2 (init_outcomes_facts (fresh 0%nat) c))) by (done || lia).
  - intros Hc Hq Hm. apply Hfirst; [lia|done|].
    by apply init_monitors_refused.
Qed.

Lemma stage3_outcomes_witness :
  (∃ gs, stage3_initialize_plugins
          [("logger"%string, logger_transform);
           ("uppercaser"%string, uppercaser_transform)] 8
          (λ _, ConsumerProducer.zeroed)
          (loaded <$> [1; 0; 1]%nat) (replicate 2 zeroed_ctx)
        = Some (Stage3Cleanup 2 (Some "plugin already initialized"%string) gs)) ∧
  (∃ gs, stage3_initialize_plugins
          [("logger"%string, logger_transform);
           ("uppercaser"%string, uppercaser_transform)] 8
          (λ _, stale_storage)
          (loaded <$> [1; 0; 1]%nat) (replicate 2 zeroed_ctx)
        = Some (Stage3Cleanup 0 (Some "Queue already initialized"%string) gs)).
Proof.
  assert (H1 : Forall (λ k, (k < 2)%nat) [1; 0; 1]%nat)
    by (repeat constructor).
  assert (H2 : Forall (λ im : string * transform, im.1 ≠ ""%string)
                 [("logger"%string, logger_transform);
                  ("uppercaser"%string, uppercaser_transform)])
    by (repeat constructor; done).
  assert (H3 : [1; 0; 1]%nat ≠ []) by done.
  assert (H4 : 1 ≤ 8 ≤ 268435455) by lia.
  assert (H5 : NoDup [1; 0]%nat).
  { apply NoDup_cons. split; [|apply NoDup_singleton].
    intros Hin. by apply list_elem_of_singleton in Hin. }
  assert (H6 : (1 : nat) ∈ [1; 0]%nat) by (by left).
  assert (H7 : ∀ i : nat, no_flag_set ((λ _, ConsumerProducer.zeroed) i))
    by (intros _; repeat split; discriminate).
  split.
  - destruct (proj2 (proj1 (proj2 (stage3_outcomes
                     [("logger"%string, logger_transform);
                      ("uppercaser"%string, uppercaser_transform)]
                     8 (λ _, ConsumerProducer.zeroed) [1; 0; 1]%nat H1 H2 H3))
                     H4 H7 [1; 0]%nat 1%nat [] eq_refl H5 H6))
      as (gs & Hrun & _).
    by exists gs.
  - refine (proj1 (proj2 (proj2 (proj2 (stage3_outcomes
                     [("logger"%string, logger_transform);
                      ("uppercaser"%string, uppercaser_transform)]
                     8 (λ _, stale_storage) [1; 0; 1]%nat H1 H2 H3)))) _ _).
    + lia.
    + reflexivity.
Defined.

End Stage3.

(** ** From one stage to the next *)

Section FlowSteps.
Import Monitor ConsumerProducer PluginCommon Main Shutdown Flow.

(** [put] appends its item to the queue. *)
Lemma put_step_order dup pc q :
  wf q → dup ≠ NULL →
  match put_step dup pc q with
  | Blocked => True
  | Next pc' q' _ =>
      contents q' ++ put_holds dup pc' = contents q ++ put_holds dup pc
  | Return None q' _ => contents q' = contents q ∧ put_holds dup pc = []
  | Return (Some _) q' _ => True
  end.
Proof.
  intros Hwf Hdup.
  assert (Hpc : pc_inv q (InPut dup pc)) by by destruct pc.
  pose proof (put_step_ok dup pc q Hwf Hpc) as Hok.
  pose proof (op_step_link 0%nat (InPut dup pc) q Hwf Hpc) as Hlink.
  pose proof (put_step_moves dup pc q Hwf Hdup) as Hmove.
  cbn [op_step] in Hlink.
  destruct (put_step dup pc q) as [|pc' q' evs|[e|] q' evs] eqn:Hstep; try done;
    cbn [outcome_ok] in Hok; cbn [link_ok lift] in Hlink.
  - destruct Hok as [(Hwf' & _ & _ & Hc) _]. destruct Hlink as [He Hd].
    assert (Hdq : ev_deq evs = []) by exact Hd.
    rewrite Hdq, app_nil_l in Hc. rewrite <- Hc.
    assert (Hns : pc ≠ PutSignal) by (intros ->; done).
    generalize dependent (ev_enq evs). intros e Hc He.
    destruct pc, pc'; try done; cbn [pending_enq put_holds] in He |- *;
      simplify_list_eq; by rewrite ?app_nil_r.
  - by destruct Hmove as (_ & ? & ?).
Qed.

Lemma classified_app k l1 l2 :
  classified k (l1 ++ l2) = classified k l1 ++ classified k l2.
Proof. apply omap_app. Qed.

Lemma load_alloc_old s h p : p < next_addr h → load p (alloc s h).2 = load p h.
Proof.
  intros Hp. unfold load, alloc. cbn. by rewrite lookup_insert_ne by lia.
Qed.

Lemma load_alloc_new s h : load (next_addr h) (alloc s h).2 = s.
Proof. unfold load, alloc. cbn. by rewrite lookup_insert_eq. Qed.

Lemma load_free x h p : load p (free x h) = load p h.
Proof. unfold load, free. by destruct (x =? NULL). Qed.

Lemma strings_stable P P' (l : list Z) :
  Forall (λ p, p < next_addr (mem P)) l →
  (∀ p, p < next_addr (mem P) → load p (mem P') = load p (mem P)) →
  strings P' l = strings P l.
Proof.
  intros Hl Hst. unfold strings. apply list_fmap_ext.
  intros i p Hp. apply Hst. rewrite Forall_forall in Hl.
  apply Hl. by eapply list_elem_of_lookup_2.
Qed.

Lemma strings_app P l1 l2 : strings P (l1 ++ l2) = strings P l1 ++ strings P l2.
Proof. apply fmap_app. Qed.

Lemma queue_at_lookup P j g :
  ctxs P !! j = Some g → queue_at j P = queue_holds g.
Proof. intros Hg. unfold queue_at. by rewrite Hg. Qed.

Lemma queue_below P j :
  mem_inv P → Forall (λ p, p < next_addr (mem P)) (queue_at j P).
Proof.
  intros Hm. unfold queue_at. destruct (ctxs P !! j) as [g|] eqn:Hg; [|done].
  cbn. apply Forall_forall. intros p Hp.
  apply (held_below P p Hm). unfold owned. rewrite !elem_of_app. left.
  rewrite (mjoin_split queue_holds _ j g Hg). rewrite elem_of_app. by left.
Qed.

(** One step of [plugin_place_work(x)] of stage [j]: the strings in the
    queue of [j] followed by the one still to enqueue stay the same, as
    long as the queue is not marked finished. *)
Lemma pw_run_flow who j x ppc P r P' :
  mem_inv P → Forall (λ g, ctx_ready g = true) (ctxs P) →
  Forall (λ g, PluginCommon.initialized g = 1) (ctxs P) →
  (∀ p, p ∈ to_enqueue x ppc → p ≠ NULL ∧ p < next_addr (mem P)) →
  pw_run who j (Some (load x (mem P))) ppc P = Some (r, P') →
  (∀ k, k ≠ j → ctxs P' !! k = ctxs P !! k) ∧
  (∀ k, classified k (log P') = classified k (log P)) ∧
  (∀ p, p < next_addr (mem P) → load p (mem P') = load p (mem P)) ∧
  (finished_flags P !! j = Some (Some 0) →
   match r with
   | inl ppc' =>
       strings P' (queue_at j P' ++ to_enqueue x ppc') =
       strings P (queue_at j P ++ to_enqueue x ppc)
   | inr None =>
       strings P' (queue_at j P') =
       strings P (queue_at j P ++ to_enqueue x ppc)
   | inr (Some _) => False
   end).
Proof.
  intros Hm Hready Hinit Hx. unfold pw_run.
  destruct (ctxs P !! j) as [g|] eqn:Hg; [|done].
  assert (Hin : g ∈ ctxs P) by by eapply list_elem_of_lookup_2.
  rewrite Forall_forall in Hready, Hinit.
  pose proof (Hinit g Hin) as Hi. pose proof (Hready g Hin) as Hrg.
  unfold ctx_ready in Hrg. rewrite andb_true_iff, !bool_decide_eq_true in Hrg.
  destruct Hrg as [[q Hq] _].
  assert (Hwf : wf q).
  { pose proof (mi_queues _ Hm) as Hqs. rewrite Forall_forall in Hqs.
    by eapply Hqs. }
  assert (Halter : ∀ g', alter (λ _, g') j (ctxs P) = <[j := g']> (ctxs P)).
  { intros g'. by apply list_alter_at with (x := g). }
  assert (Hlen : (j < length (ctxs P))%nat) by by eapply lookup_lt_Some.
  assert (Hother : ∀ g' k, k ≠ j → alter (λ _, g') j (ctxs P) !! k = ctxs P !! k).
  { intros g' k Hk. by rewrite Halter, list_lookup_insert_ne. }
  assert (Hqb : Forall (λ p, p < next_addr (mem P)) (contents q)).
  { pose proof (queue_below P j Hm) as Hb.
    by rewrite (queue_at_lookup _ _ _ Hg) in Hb; unfold queue_holds in Hb;
      rewrite Hq in Hb. }
  assert (Hflag : finished_flags P !! j = Some (Some 0) → finished_flag q = 0).
  { rewrite (flag_lookup _ _ _ _ Hg Hq). by intros [= ->]. }
  assert (Hqat : queue_at j P = contents q).
  { rewrite (queue_at_lookup _ _ _ Hg). unfold queue_holds. by rewrite Hq. }
  assert (Hqat' : ∀ (q' : consumer_producer_t) h (l : list pevent),
            queue_at j (emit l (set_mem h (upd_ctx j (λ _, set_queue q' g) P)))
            = contents q').
  { intros q' h l. unfold queue_at.
    cbn [ctxs emit set_mem upd_ctx]. by rewrite Halter, list_lookup_insert_eq. }
  assert (Hqsame : ∀ h (l : list pevent),
            queue_at j (emit l (set_mem h (upd_ctx j (λ _, g) P))) = contents q).
  { intros h l. unfold queue_at. cbn [ctxs emit set_mem upd_ctx].
    rewrite Halter, list_lookup_insert_eq by done. cbn. unfold queue_holds.
    by rewrite Hq. }
  destruct ppc as [|dup pc]; cbn [plugin_place_work_step].
  - rewrite Hi. cbn [Z.eqb Pos.eqb negb].
    destruct (alloc (load x (mem P)) (mem P)) as [dup h'] eqn:Halloc.
    assert (Hdup : dup = next_addr (mem P)) by (by injection Halloc).
    assert (Hh' : h' = (alloc (load x (mem P)) (mem P)).2) by (by rewrite Halloc).
    intros [= <- <-]. cbn [ctxs log mem emit set_mem upd_ctx].
    split_and!.
    + apply Hother.
    + intros k. by rewrite app_nil_r.
    + intros p Hp. rewrite Hh'. by apply load_alloc_old.
    + intros _. rewrite Hqsame, Hqat, !strings_app. f_equal.
      * apply strings_stable; [done|]. cbn [mem emit set_mem].
        intros p Hp. rewrite Hh'. by apply load_alloc_old.
      * unfold strings. cbn [to_enqueue put_holds fmap list_fmap mem emit set_mem].
        by rewrite Hdup, Hh', load_alloc_new.
  - rewrite Hq.
    assert (Hcase : pc = PutSignal ∨ pc ≠ PutSignal) by (destruct pc; auto).
    destruct Hcase as [->|Hns].
    { cbn [put_step]. intros [= <- <-]. cbn [ctxs log mem emit set_mem upd_ctx].
      split_and!.
      - apply Hother.
      - intros k. by rewrite app_nil_r.
      - done.
      - intros _. rewrite Hqat', Hqat. cbn [to_enqueue put_holds].
        rewrite app_nil_r, contents_set_not_empty. done. }
    assert (Hd : dup ≠ NULL ∧ dup < next_addr (mem P)).
    { apply Hx. cbn. destruct pc; try done; by left. }
    pose proof (put_step_order dup pc q Hwf (proj1 Hd)) as Hord.
    pose proof (put_refused dup pc q) as Href.
    destruct (put_step dup pc q) as [|pc' q' evs|[e|] q' evs]; [done|..];
      intros [= <- <-]; cbn [ctxs log mem emit set_mem upd_ctx].
    + split_and!.
      * apply Hother.
      * intros k. by rewrite app_nil_r.
      * done.
      * intros _. rewrite Hqat', Hqat. cbn [to_enqueue]. unfold strings.
        cbn [mem emit set_mem]. by rewrite Hord.
    + split_and!.
      * apply Hother.
      * intros k. rewrite classified_app. cbn. by rewrite app_nil_r.
      * intros p Hp. apply load_free.
      * intros Hf. specialize (Hflag Hf).
        rewrite (Href e q' evs Hwf) in Hflag; [done| |done].
        intros _. apply Hd.
    + destruct Hord as [Hc Hh]. split_and!.
      * apply Hother.
      * intros k. by rewrite app_nil_r.
      * done.
      * intros _. rewrite Hqat', Hqat. cbn [to_enqueue]. rewrite Hh, app_nil_r.
        unfold strings. cbn [mem emit set_mem]. by rewrite Hc.
Qed.

End FlowSteps.

Section FlowWorker.
Import Monitor ConsumerProducer PluginCommon Main Shutdown Flow.

(** What a step of [plugin_place_work] leaves alone, whatever its string. *)
Lemma pw_run_frame who j str ppc P r P' :
  pw_run who j str ppc P = Some (r, P') →
  (∀ k, k ≠ j → ctxs P' !! k = ctxs P !! k) ∧
  (∀ k, classified k (log P') = classified k (log P)) ∧
  (∀ p, p < next_addr (mem P) → load p (mem P') = load p (mem P)).
Proof.
  unfold pw_run. destruct (ctxs P !! j) as [g|] eqn:Hg; [|done].
  assert (Hother : ∀ g' k, k ≠ j → alter (λ _, g') j (ctxs P) !! k = ctxs P !! k).
  { intros g' k Hk. by rewrite list_lookup_alter_ne. }
  assert (Hlog : ∀ who' dup j' e k (l : list pevent),
            classified k (l ++ [PFree who' dup; PLogError j' e]) = classified k l).
  { intros. rewrite classified_app. cbn. by rewrite app_nil_r. }
  destruct ppc as [|dup pc]; cbn [plugin_place_work_step].
  - destruct str as [s|]; [destruct (negb _)|]; intros [= <- <-];
      cbn [ctxs log mem emit set_mem upd_ctx alloc fst snd];
      (split_and!; [apply Hother| |]);
      try (intros k; rewrite classified_app; cbn; by rewrite app_nil_r);
      try done.
    intros p Hp. by apply (load_alloc_old s).
  - destruct (PluginCommon.queue g) as [q|].
    + destruct (put_step dup pc q) as [|pc' q' evs|[e|] q' evs]; [done|..];
        intros [= <- <-]; cbn [ctxs log mem emit set_mem upd_ctx];
        (split_and!; [apply Hother| |]);
        try (intros k; rewrite classified_app; cbn; by rewrite app_nil_r);
        try done.
      intros p Hp. apply load_free.
    + intros [= <- <-]; cbn [ctxs log mem emit set_mem upd_ctx].
      split_and!; [apply Hother|intros k; apply Hlog|]. intros p Hp. apply load_free.
Qed.

End FlowWorker.

Section FlowWorkerStep.
Import Monitor ConsumerProducer PluginCommon Main Shutdown Flow.

Lemma classified_printed k i (l : list string) :
  classified k (PPrinted i <$> l) = [].
Proof. by induction l. Qed.

Lemma classified_other k (l : list pevent) e :
  classify k e = None → classified k (l ++ [e]) = classified k l.
Proof. intros He. rewrite classified_app. cbn. by rewrite He, app_nil_r. Qed.

Lemma made_of_end f : made_of f END_SENTINEL = Some END_SENTINEL.
Proof. done. Qed.

Lemma made_of_other f s :
  s ≠ END_SENTINEL →
  made_of f s = match (f s).1 with
                | Same => Some s
                | Fresh s' => Some s'
                | Failed => None
                end.
Proof.
  intros Hs. unfold made_of. destruct (String.eqb_spec s END_SENTINEL); done.
Qed.

Lemma fmap_stable (h h' : heap) (n : Z) (l : list Z) :
  Forall (λ p, p < n) l →
  (∀ p, p < n → load p h' = load p h) →
  (λ p, load p h') <$> l = (λ p, load p h) <$> l.
Proof.
  intros Hl Hst. apply list_fmap_ext. intros i p Hp. apply Hst.
  rewrite Forall_forall in Hl. apply Hl. by eapply list_elem_of_lookup_2.
Qed.

Ltac psimpl :=
  cbn [workers feeders log ctxs mem set_worker upd_ctx set_mem emit do_free].

Ltac flat := unfold queue_at, strings; psimpl.

Ltac bd k i :=
  let H := fresh in
  destruct (decide (k = i)) as [H|H];
  [rewrite !bool_decide_eq_true_2 by done
  |rewrite !bool_decide_eq_false_2 by congruence]; done.

(** What one step of the worker of stage [i] does to the strings on their
    way: the string it looks at moves from its queue's side to the side of
    the next stage, changed by its transform; everything else stays. *)
Lemma worker_step_flow fs i P P' pc :
  chain_inv fs P → workers P !! i = Some pc → worker_step i P = Some P' →
  ∃ pc',
    workers P' = <[i := pc']> (workers P) ∧
    (∀ p, p < next_addr (mem P) → load p (mem P') = load p (mem P)) ∧
    (∀ k, classified k (log P') =
          classified k (log P) ++
          (if bool_decide (k = i) then strings P (looked_at pc) else [])) ∧
    strings P (looked_at pc) ++ strings P' (held_in pc' ++ queue_at i P') =
      strings P (held_in pc ++ queue_at i P) ∧
    (∀ k, k ≠ i → k ≠ S i → ctxs P' !! k = ctxs P !! k) ∧
    (∀ f, (S i < length fs)%nat → fs !! i = Some f →
          finished_flags P !! S i = Some (Some 0) →
          strings P' (queue_at (S i) P' ++ in_flight pc') =
            strings P (queue_at (S i) P ++ in_flight pc) ++
            omap (made_of f) (strings P (looked_at pc))).
Proof.
  intros [Hlive Hctx Hfd _ _] Hpc. unfold worker_step. rewrite Hpc.
  destruct (ctxs P !! i) as [g|] eqn:Hg; [|done].
  pose proof (lv_pinv _ _ Hlive) as Hp. pose proof (lv_mem _ _ Hlive) as Hm.
  pose proof (pi_ready _ Hp) as Hready.
  pose proof (oi_init _ (lv_open _ _ Hlive)) as Hinit.
  destruct (live_ctx _ _ _ _ Hlive Hg) as (Hi & _ & q & Hq & Hwf).
  destruct (Hctx i g Hg) as (Hfun & Hnext & Hwired).
  assert (∃ f0, process_function g = Some f0) as [f0 Hf0].
  { rewrite Forall_forall in Hready.
    pose proof (Hready g (list_elem_of_lookup_2 _ _ _ Hg)) as Hr.
    unfold ctx_ready in Hr. rewrite andb_true_iff, !bool_decide_eq_true in Hr.
    by destruct Hr as [_ [f0 ?]]; exists f0. }
  assert (Hheld : ∀ p, p ∈ worker_holds pc → p ≠ NULL ∧ p < next_addr (mem P)).
  { intros p Hin. pose proof (worker_held P i pc p Hpc Hin).
    split; [by eapply held_nonnull|by eapply held_below]. }
  assert (Hqat : queue_at i P = contents q).
  { rewrite (queue_at_lookup _ _ _ Hg). unfold queue_holds. by rewrite Hq. }
  pose proof (queue_below P i Hm) as Hqb. rewrite Hqat in Hqb.
  pose proof (queue_below P (S i) Hm) as Hqn.
  pose proof (queue_below P i Hm) as Hqb0. unfold queue_at in Hqb0.
  pose proof Hqn as Hqn0. unfold queue_at in Hqn0.
  assert (Hqi : ∀ h, default [] (queue_holds <$> alter h i (ctxs P) !! i) =
                     queue_holds (h g)).
  { intros h. by rewrite list_lookup_alter_eq, Hg. }
  assert (Hqs : ∀ h, alter h i (ctxs P) !! S i = ctxs P !! S i).
  { intros h. apply list_lookup_alter_ne. lia. }
  assert (Hfr : ∀ h k, k ≠ i → alter h i (ctxs P) !! k = ctxs P !! k).
  { intros h k Hk. by apply list_lookup_alter_ne. }
  assert (Hnil : ∀ k, (if bool_decide (k = i) then @nil string else []) = []).
  { intros k. by destruct (bool_decide (k = i)). }
  destruct pc as [|gpc|in_|in_ ppc|spc|in_ out ppc|].
  - (* WStart *)
    rewrite Hq, Hf0. intros [= <-]. eexists. split; [done|].
    split; [done|]. split; [intros k; flat; cbn; by rewrite Hnil, app_nil_r|].
    split; [done|]. split; [done|]. intros f _ _ _. flat. cbn.
    by rewrite !app_nil_r.
  - (* WGet *)
    rewrite Hq.
    pose proof (get_step_moves gpc q Hwf (λ p Hin, proj1 (Hheld p Hin))) as Hmove.
    destruct (get_step gpc q) as [|gpc' q' evs|x q' evs]; [done|..];
      destruct Hmove as [Hwf' Heq]; intros [= <-]; eexists;
      (split; [done|]); (split; [done|]).
    + split; [intros k; flat; cbn; by rewrite Hnil, app_nil_r|].
      split.
      { cbn [looked_at held_in]. rewrite Hqat. flat. rewrite list_lookup_alter_eq, Hg.
        cbn. unfold queue_holds. cbn. by rewrite Heq. }
      split; [intros k Hk _; by apply Hfr|].
      intros f _ _ _. flat. cbn. by rewrite Hqs, !app_nil_r.
    + split.
      { intros k. psimpl. rewrite classified_other by done. cbn.
        by rewrite Hnil, app_nil_r. }
      split.
      { cbn [looked_at held_in]. rewrite Hqat. flat. rewrite list_lookup_alter_eq, Hg.
        cbn. unfold queue_holds. cbn. by rewrite Heq. }
      split; [intros k Hk _; by apply Hfr|].
      intros f _ _ _. flat. cbn. by rewrite Hqs, !app_nil_r.
  - (* WGot *)
    cbn [looked_at held_in in_flight].
    destruct (in_ =? NULL) eqn:Hnull.
    { intros [= <-]. eexists. split; [done|]. split; [done|].
      split; [intros k; flat; cbn; by rewrite Hnil, app_nil_r|].
      split; [done|]. split; [done|]. intros f _ _ _. flat. cbn.
      by rewrite !app_nil_r. }
    assert (Hin : in_ ≠ NULL ∧ in_ < next_addr (mem P)).
    { apply Hheld. cbn. rewrite Hnull. by left. }
    destruct (is_end (mem P) in_) eqn:Hend.
    { destruct (is_end_load _ _ Hend) as [_ Hload].
      destruct (wired g) eqn:Hw; intros [= <-]; eexists; (split; [done|]).
      - split; [done|]. split.
        { intros k. psimpl. rewrite classified_app. cbn. flat. cbn.
          rewrite Hload. bd k i. }
        split; [done|]. split; [done|].
        intros f _ _ _. flat. cbn. rewrite !fmap_app, app_nil_r. cbn.
        by rewrite Hload.
      - split; [intros p Hpn; psimpl; apply load_free|]. split.
        { intros k. psimpl. rewrite !classified_app. cbn. flat. cbn.
          rewrite Hload, app_nil_r.
          bd k i. }
        split.
        { rewrite Hqat. flat. rewrite list_lookup_alter_eq, Hg. cbn.
          unfold queue_holds. cbn. rewrite Hq. cbn. f_equal.
          apply list_fmap_ext. intros ? ? _. apply load_free. }
        split; [intros k Hk _; by apply Hfr|].
        intros f Hlt. symmetry in Hwired.
        apply bool_decide_eq_false in Hwired. lia. }
    assert (Hs : load in_ (mem P) ≠ END_SENTINEL) by by apply not_end_load.
    rewrite Hf0. unfold apply_transform.
    assert (Hmade : ∀ f, fs !! i = Some f →
              made_of f (load in_ (mem P)) =
                match (f0 (load in_ (mem P))).1 with
                | Same => Some (load in_ (mem P))
                | Fresh s' => Some s'
                | Failed => None
                end).
    { intros f Hf. rewrite <- Hfun, Hf0 in Hf. injection Hf as ->.
      by apply made_of_other. }
    assert (Hlog : ∀ k (l1 l2 : list pevent) printed,
              (∀ e, e ∈ l2 → classify k e = None) →
              classified k ((log P ++ PTransform i in_ (load in_ (mem P))
                               :: (PPrinted i <$> printed)) ++ l2) =
              classified k (log P) ++
              (if bool_decide (k = i) then strings P [in_] else [])).
    { intros k l1 l2 printed Hl2. rewrite !classified_app.
      assert (classified k l2 = []) as ->.
      { clear -Hl2. induction l2 as [|e l2 IH]; [done|]. cbn.
        rewrite (Hl2 e) by by left. apply IH. intros e' He'. apply Hl2. by right. }
      rewrite app_nil_r. f_equal. cbn.
      change (omap (classify k) (PPrinted i <$> printed))
        with (classified k (PPrinted i <$> printed)).
      rewrite classified_printed. flat. cbn. bd k i. }
    destruct (f0 (load in_ (mem P))) as [[|s'|] printed] eqn:Hf0s; cbn [fst] in Hmade.
    + (* the same buffer *)
      rewrite Hnull. destruct (wired g) eqn:Hw.
      * intros [= <-]. eexists. split; [done|]. split; [done|]. split.
        { intros k. psimpl.
          apply (Hlog k [] [PForward i in_] printed).
          intros e ->%list_elem_of_singleton. done. }
        split; [done|]. split; [done|].
        intros f _ Hf _. flat. cbn. rewrite !fmap_app, app_nil_r. cbn.
        by rewrite (Hmade f Hf).
      * rewrite Z.eqb_refl. cbn [negb]. intros [= <-]. eexists.
        split; [done|]. split; [intros p Hpn; psimpl; apply load_free|]. split.
        { intros k. psimpl.
          apply (Hlog k [] [PFree (Worker i) in_] printed).
          intros e ->%list_elem_of_singleton. done. }
        split.
        { flat. cbn. f_equal. apply list_fmap_ext. intros ? ? _. apply load_free. }
        split; [done|].
        intros f Hlt. symmetry in Hwired.
        apply bool_decide_eq_false in Hwired. lia.
    + (* a new buffer *)
      pose proof (mi_next _ Hm) as Hnext1. cbn [alloc fst snd].
      assert (Hout : (next_addr (mem P) =? 0) = false) by (apply Z.eqb_neq; lia).
      assert (Hne : (next_addr (mem P) =? in_) = false) by (apply Z.eqb_neq; lia).
      rewrite Hout.
      assert (Hold : ∀ p, p < next_addr (mem P) →
                load p {| cells := <[next_addr (mem P) := s']> (cells (mem P));
                          next_addr := next_addr (mem P) + 1;
                          freed := freed (mem P) |} = load p (mem P)).
      { intros p Hpn. apply (load_alloc_old s' (mem P) p Hpn). }
      destruct (wired g) eqn:Hw.
      * intros [= <-]. eexists. split; [done|]. split; [done|]. split.
        { intros k. psimpl.
          apply (Hlog k [] [PForward i (next_addr (mem P))] printed).
          intros e ->%list_elem_of_singleton. done. }
        split.
        { flat. cbn. f_equal. by apply (fmap_stable _ _ _ _ Hqb0). }
        split; [done|].
        intros f _ Hf _. flat. cbn. rewrite !fmap_app, app_nil_r. cbn.
        rewrite (Hmade f Hf). f_equal.
        -- by apply (fmap_stable _ _ _ _ Hqn0).
        -- f_equal. apply (load_alloc_new s' (mem P)).
      * rewrite Hne. cbn [negb]. intros [= <-]. eexists.
        split; [done|]. split.
        { intros p Hpn. psimpl. rewrite !load_free. by apply Hold. }
        split.
        { intros k. psimpl. rewrite <- app_assoc.
          apply (Hlog k [] [PFree (Worker i) (next_addr (mem P));
                            PFree (Worker i) in_] printed).
          intros e He. apply elem_of_cons in He as [->|He]; [done|].
          by apply list_elem_of_singleton in He as ->. }
        split.
        { flat. cbn. f_equal. apply (fmap_stable _ _ _ _ Hqb0).
          intros p Hpn. rewrite !load_free. by apply Hold. }
        split; [done|].
        intros f Hlt. symmetry in Hwired.
        apply bool_decide_eq_false in Hwired. lia.
    + (* NULL *)
      cbn [Z.eqb]. intros [= <-]. eexists.
      split; [done|]. split; [intros p Hpn; psimpl; apply load_free|]. split.
      { intros k. psimpl. rewrite <- app_assoc.
        apply (Hlog k [] [PLogError i "transform failed"; PFree (Worker i) in_]
                 printed).
        intros e He. apply elem_of_cons in He as [->|He]; [done|].
        by apply list_elem_of_singleton in He as ->. }
      split.
      { flat. cbn. f_equal. apply list_fmap_ext. intros ? ? _. apply load_free. }
      split; [done|].
      intros f _ Hf _. flat. cbn. rewrite (Hmade f Hf). rewrite !app_nil_r.
      apply list_fmap_ext. intros ? ? _. apply load_free.
  - (* WForwardEnd *)
    destruct (next_place_work g) as [j|] eqn:Hj; [|done].
    assert (j = S i ∧ (S i < length fs)%nat) as [-> Hlt].
    { case_bool_decide; [by simplify_eq|done]. }
    destruct (pw_run (Worker i) (S i) (Some (load in_ (mem P))) ppc P)
      as [[r P1]|] eqn:Hpw; [|done].
    assert (Hx : ∀ p, p ∈ to_enqueue in_ ppc → p ≠ NULL ∧ p < next_addr (mem P)).
    { intros p Hin. apply Hheld. cbn [worker_holds].
      destruct ppc; cbn in Hin |- *.
      - apply list_elem_of_singleton in Hin as ->. by left.
      - by right. }
    destruct (pw_run_flow _ _ _ _ _ _ _ Hm Hready Hinit Hx Hpw)
      as (Hframe & Hcl & Hload & Hflow).
    destruct (pw_run_spec _ _ _ _ _ _ _ Hpw) as (Hws & _ & _ & _).
    assert (Hqi1 : queue_at i P1 = queue_at i P).
    { unfold queue_at. by rewrite Hframe by lia. }
    cbn [looked_at held_in in_flight].
    destruct r as [ppc'|[e|]]; intros [= <-]; eexists.
    + split; [psimpl; by rewrite Hws|]. split; [done|].
      split; [intros k; psimpl; by rewrite Hcl, Hnil, app_nil_r|].
      split.
      { cbn. change (queue_at i (set_worker i (WForwardEnd in_ ppc') P1))
          with (queue_at i P1). rewrite Hqi1.
        apply (strings_stable P); [by rewrite Hqat|done]. }
      split; [intros k Hk1 Hk2; psimpl; by apply Hframe|].
      intros f _ _ Hflag. cbn. rewrite app_nil_r. by apply Hflow.
    + split; [psimpl; by rewrite Hws|].
      split; [intros p Hpn; psimpl; rewrite load_free; by apply Hload|].
      split.
      { intros k. psimpl. rewrite !classified_app, Hcl. cbn.
        by rewrite Hnil, !app_nil_r. }
      split.
      { cbn. flat. rewrite list_lookup_alter_eq. rewrite (Hframe i) by lia.
        rewrite Hg. cbn. unfold queue_holds. cbn. rewrite Hq. cbn.
        apply list_fmap_ext. intros j p Hjp. rewrite load_free. apply Hload.
        rewrite Forall_forall in Hqb. apply Hqb. by eapply list_elem_of_lookup_2. }
      split.
      { intros k Hk1 Hk2. psimpl. rewrite list_lookup_alter_ne by done.
        by apply Hframe. }
      intros f _ _ Hflag. by destruct (Hflow Hflag).
    + split; [psimpl; by rewrite Hws|]. split; [done|].
      split; [intros k; psimpl; by rewrite Hcl, Hnil, app_nil_r|].
      split.
      { cbn. flat. rewrite list_lookup_alter_eq. rewrite (Hframe i) by lia.
        rewrite Hg. cbn. unfold queue_holds. cbn. rewrite Hq. cbn.
        apply list_fmap_ext. intros j p Hjp. apply Hload.
        rewrite Forall_forall in Hqb. apply Hqb. by eapply list_elem_of_lookup_2. }
      split.
      { intros k Hk1 Hk2. psimpl. rewrite list_lookup_alter_ne by done.
        by apply Hframe. }
      intros f _ _ Hflag. cbn. rewrite !app_nil_r. rewrite <- (Hflow Hflag).
      flat. by rewrite list_lookup_alter_ne by lia.
  - (* WSignalFinished *)
    rewrite Hq. pose proof (sf_step_moves spc q Hwf) as Hmove.
    cbn [looked_at held_in in_flight].
    destruct (sf_step spc q) as [|spc' q' evs|r q' evs]; [done|..];
      destruct Hmove as [Hwf' Hcont]; intros [= <-]; eexists;
      (split; [done|]); (split; [done|]).
    + split; [intros k; flat; cbn; by rewrite Hnil, app_nil_r|].
      split.
      { rewrite Hqat. flat. rewrite list_lookup_alter_eq, Hg.
        cbn. unfold queue_holds. cbn. by rewrite Hcont. }
      split; [intros k Hk _; by apply Hfr|].
      intros f _ _ _. flat. cbn. by rewrite Hqs, !app_nil_r.
    + split.
      { intros k. psimpl. rewrite classified_other by done. cbn.
        by rewrite Hnil, app_nil_r. }
      split.
      { rewrite Hqat. flat. rewrite list_lookup_alter_eq, Hg.
        cbn. unfold queue_holds. cbn. by rewrite Hcont. }
      split; [intros k Hk _; by apply Hfr|].
      intros f _ _ _. flat. cbn. by rewrite Hqs, !app_nil_r.
  - (* WForward *)
    destruct (next_place_work g) as [j|] eqn:Hj; [|done].
    assert (j = S i ∧ (S i < length fs)%nat) as [-> Hlt].
    { case_bool_decide; [by simplify_eq|done]. }
    destruct (pw_run (Worker i) (S i) (Some (load out (mem P))) ppc P)
      as [[r P1]|] eqn:Hpw; [|done].
    assert (Hx : ∀ p, p ∈ to_enqueue out ppc → p ≠ NULL ∧ p < next_addr (mem P)).
    { intros p Hin. apply Hheld. cbn [worker_holds]. rewrite elem_of_app.
      destruct ppc; cbn in Hin |- *.
      - apply list_elem_of_singleton in Hin as ->. left.
        destruct (Z.eqb_spec out in_) as [->|_]; [by left|]. right. by left.
      - by right. }
    destruct (pw_run_flow _ _ _ _ _ _ _ Hm Hready Hinit Hx Hpw)
      as (Hframe & Hcl & Hload & Hflow).
    destruct (pw_run_spec _ _ _ _ _ _ _ Hpw) as (Hws & _ & _ & _).
    assert (Hqi1 : queue_at i P1 = queue_at i P).
    { unfold queue_at. by rewrite Hframe by lia. }
    cbn [looked_at held_in in_flight].
    destruct r as [ppc'|[e|]]; intros [= <-]; eexists.
    + split; [psimpl; by rewrite Hws|]. split; [done|].
      split; [intros k; psimpl; by rewrite Hcl, Hnil, app_nil_r|].
      split.
      { cbn. change (queue_at i (set_worker i (WForward in_ out ppc') P1))
          with (queue_at i P1). rewrite Hqi1.
        apply (strings_stable P); [by rewrite Hqat|done]. }
      split; [intros k Hk1 Hk2; psimpl; by apply Hframe|].
      intros f _ _ Hflag. cbn. rewrite app_nil_r. by apply Hflow.
    + split; [destruct (negb (out =? in_)); psimpl; by rewrite Hws|].
      split.
      { intros p Hpn. destruct (negb (out =? in_)); psimpl;
          rewrite ?load_free; by apply Hload. }
      split.
      { intros k. destruct (negb (out =? in_)); psimpl;
          rewrite !classified_app, Hcl; cbn; by rewrite Hnil, !app_nil_r. }
      split.
      { cbn. destruct (negb (out =? in_)); flat; rewrite (Hframe i) by lia;
          rewrite Hg; cbn; unfold queue_holds; rewrite Hq; cbn;
          apply list_fmap_ext; intros j p Hjp; rewrite ?load_free; apply Hload;
          rewrite Forall_forall in Hqb; apply Hqb; by eapply list_elem_of_lookup_2. }
      split.
      { intros k Hk1 Hk2. destruct (negb (out =? in_)); psimpl; by apply Hframe. }
      intros f _ _ Hflag. by destruct (Hflow Hflag).
    + split; [destruct (negb (out =? in_)); psimpl; by rewrite Hws|].
      split.
      { intros p Hpn. destruct (negb (out =? in_)); psimpl;
          rewrite ?load_free; by apply Hload. }
      split.
      { intros k. destruct (negb (out =? in_)); psimpl;
          rewrite ?classified_app, Hcl; cbn; by rewrite Hnil, ?app_nil_r. }
      split.
      { cbn. destruct (negb (out =? in_)); flat; rewrite (Hframe i) by lia;
          rewrite Hg; cbn; unfold queue_holds; rewrite Hq; cbn;
          apply list_fmap_ext; intros j p Hjp; rewrite ?load_free; apply Hload;
          rewrite Forall_forall in Hqb; apply Hqb; by eapply list_elem_of_lookup_2. }
      split.
      { intros k Hk1 Hk2. destruct (negb (out =? in_)); psimpl; by apply Hframe. }
      intros f _ _ Hflag. cbn. rewrite !app_nil_r. rewrite <- (Hflow Hflag).
      destruct (negb (out =? in_)); flat; [|done].
      apply list_fmap_ext. intros j p Hjp. apply load_free.
  - done.
Qed.

End FlowWorkerStep.

Section FlowRuns.
Import Monitor ConsumerProducer PluginCommon Main Shutdown Flow.

(** The bookkeeping of one step on one link of the chain: the consumer has
    classified [la] more, the producer's classified strings make [lb] more,
    and what is on the way changed accordingly. *)
Lemma flow_step {A} (a b pend a' b' pend' la lb : list A) (open open' : Prop) :
  a `prefix_of` b → (open → b = a ++ pend) →
  a' = a ++ la → b' = b ++ lb →
  open ∨ ¬ open → (open' → open) →
  (¬ open → la = []) →
  (open → la ++ pend' = pend ++ lb) →
  a' `prefix_of` b' ∧ (open' → b' = a' ++ pend').
Proof.
  intros Hpre Hex -> -> [Ho|Hno] Hmono Hla Hmove.
  - assert (b ++ lb = (a ++ la) ++ pend') as Heq.
    { rewrite (Hex Ho), <- !app_assoc. f_equal. symmetry. by apply Hmove. }
    split; [|done]. rewrite Heq. by apply prefix_app_r.
  - rewrite (Hla Hno), app_nil_r. split; [by apply prefix_app_r|].
    intros Ho'. by destruct Hno; apply Hmono.
Qed.

Lemma held_parts_below P i :
  mem_inv P →
  Forall (λ p, p < next_addr (mem P)) (held_in (worker_at i P)) ∧
  Forall (λ p, p < next_addr (mem P)) (in_flight (worker_at i P)).
Proof.
  intros Hm. unfold worker_at.
  destruct (workers P !! i) as [pc|] eqn:Hpc; [|done]. cbn [default].
  assert (Hsub : ∀ p, p ∈ worker_holds pc → p < next_addr (mem P)).
  { intros p Hp. apply (held_below P p Hm). by eapply worker_held. }
  split; apply Forall_forall; intros p Hp; apply Hsub.
  - destruct pc; try done; by apply elem_of_nil in Hp.
  - destruct pc as [| | |in_ ppc| |in_ out ppc|]; try by apply elem_of_nil in Hp.
    + cbn in Hp |- *. destruct ppc; cbn in Hp |- *.
      * apply list_elem_of_singleton in Hp as ->. by left.
      * by right.
    + cbn in Hp |- *. rewrite elem_of_app. destruct ppc; cbn in Hp |- *.
      * apply list_elem_of_singleton in Hp as ->. left.
        destruct (Z.eqb_spec out in_) as [->|_]; [by left|]. right. by left.
      * by right.
Qed.

Lemma late_looks_at_nothing pc : late pc = true → looked_at pc = [].
Proof. by destruct pc. Qed.

Lemma pending_frame i P P' :
  mem_inv P →
  worker_at i P' = worker_at i P → worker_at (S i) P' = worker_at (S i) P →
  ctxs P' !! S i = ctxs P !! S i →
  (∀ p, p < next_addr (mem P) → load p (mem P') = load p (mem P)) →
  pending i (S i) P' = pending i (S i) P.
Proof.
  intros Hm Hwi Hws Hc Hload. unfold pending.
  assert (queue_at (S i) P' = queue_at (S i) P) as Hq.
  { unfold queue_at. by rewrite Hc. }
  rewrite Hwi, Hws, Hq. apply strings_stable; [|done].
  destruct (held_parts_below P (S i) Hm) as [Hh _].
  destruct (held_parts_below P i Hm) as [_ Hf].
  rewrite !Forall_app. split_and!; [done| |done]. by apply queue_below.
Qed.

Lemma flag_open_before a P k :
  finished_flags (pstep a P) !! k = Some (Some 0) →
  finished_flags P !! k = Some (Some 0).
Proof.
  rewrite !finished_flags_fst.
  destruct (pstep_flags a P)
    as [[-> _]|(i & pc & pc' & g & _ & _ & Hg & _ & _ & [->|[_ ->]])]; try done.
  destruct (decide (k = i)) as [->|Hne].
  - rewrite list_lookup_fmap, list_lookup_insert_eq; [done|].
    rewrite length_fmap. by eapply lookup_lt_Some.
  - by rewrite list_lookup_fmap, list_lookup_insert_ne, <- list_lookup_fmap.
Qed.

Lemma flag_range_pstep a P :
  (∀ k o, finished_flags P !! k = Some o → o = Some 0 ∨ o = Some 1) →
  ∀ k o, finished_flags (pstep a P) !! k = Some o → o = Some 0 ∨ o = Some 1.
Proof.
  intros Hr k o. rewrite finished_flags_fst.
  destruct (pstep_flags a P)
    as [[-> _]|(i & pc & pc' & g & _ & _ & Hg & _ & _ & [->|[_ ->]])];
    rewrite <- ?finished_flags_fst; try apply Hr.
  destruct (decide (k = i)) as [->|Hne].
  - rewrite list_lookup_fmap, list_lookup_insert_eq.
    + intros [= <-]. by right.
    + rewrite length_fmap. by eapply lookup_lt_Some.
  - rewrite list_lookup_fmap, list_lookup_insert_ne, <- list_lookup_fmap by done.
    rewrite <- finished_flags_fst. apply Hr.
Qed.

Lemma worker_at_insert i j pc P P' :
  workers P' = <[i := pc]> (workers P) → j ≠ i → worker_at j P' = worker_at j P.
Proof. intros Hw Hne. unfold worker_at. by rewrite Hw, list_lookup_insert_ne. Qed.

Lemma worker_at_insert_eq i pc0 pc P P' :
  workers P !! i = Some pc0 →
  workers P' = <[i := pc]> (workers P) → worker_at i P' = pc.
Proof.
  intros Hpc Hw. unfold worker_at.
  rewrite Hw, list_lookup_insert_eq; [done|]. by eapply lookup_lt_Some.
Qed.

Lemma worker_at_lookup i pc P : workers P !! i = Some pc → worker_at i P = pc.
Proof. intros Hpc. unfold worker_at. by rewrite Hpc. Qed.

(** A step keeps the chain invariant, when a new [plugin_place_work] from
    outside goes to the first stage. *)
Lemma chain_pstep fs a P :
  chain_inv fs P → (∀ k j str, a = Place k j str → j = 0%nat) →
  chain_inv fs (pstep a P).
Proof.
  intros Hch Ha. pose proof Hch as [Hlive Hctx Hfd Hfl Hflow].
  pose proof (lv_pinv _ _ Hlive) as Hp. pose proof (lv_mem _ _ Hlive) as Hm.
  split.
  - by apply live_pstep.
  - intros i g' Hg'.
    destruct (Forall2_lookup_r _ _ _ _ _ (pstep_wiring a P Hp) Hg')
      as (g & Hg & Hw).
    destruct (Hctx i g Hg) as (Hf & Hn & Hwd).
    rewrite (same_wiring_wired _ _ Hw).
    destruct Hw as (_ & -> & -> & _). done.
  - clear Hflow. intros k j str pc. destruct a as [k0 j0 str0|k0|i]; cbn [pstep].
    + destruct (feeders P !! k0) eqn:Hk0; [apply Hfd|]. cbn [feeders].
      destruct (decide (k = k0)) as [->|Hne].
      * rewrite lookup_insert_eq. intros [= <- <- <-]. by eapply Ha.
      * rewrite lookup_insert_ne by done. apply Hfd.
    + destruct (feeders P !! k0) as [[[j1 str1] pc1]|] eqn:Hk0; [|apply Hfd].
      destruct (pw_run _ _ _ _ _) as [[[pc'|err] P1]|] eqn:Hrun; [| |apply Hfd];
        destruct (pw_run_spec _ _ _ _ _ _ _ Hrun) as (_ & Hfs & _); cbn [feeders];
        rewrite Hfs.
      * destruct (decide (k = k0)) as [->|Hne].
        -- rewrite lookup_insert_eq. intros [= <- <- <-]. by eapply Hfd.
        -- rewrite lookup_insert_ne by done. apply Hfd.
      * intros Hk. apply lookup_delete_Some in Hk as [_ Hk]. by eapply Hfd.
    + change (default P (worker_step i P)) with (pstep (StepWorker i) P).
      rewrite pstep_worker_feeders. apply Hfd.
  - by apply flag_range_pstep.
  - intros i f Hlt Hf. destruct (Hflow i f Hlt Hf) as [Hpre Hex].
    assert (Hdec : finished_flags P !! S i = Some (Some 0) ∨
                   ¬ finished_flags P !! S i = Some (Some 0)).
    { destruct (decide (finished_flags P !! S i = Some (Some 0))); auto. }
    assert (Hkeep : ∀ P',
              (∀ k, classified k (log P') = classified k (log P)) →
              pending i (S i) P' = pending i (S i) P →
              (finished_flags P' !! S i = Some (Some 0) →
               finished_flags P !! S i = Some (Some 0)) →
              classified (S i) (log P') `prefix_of`
                omap (made_of f) (classified i (log P')) ∧
              (finished_flags P' !! S i = Some (Some 0) →
               omap (made_of f) (classified i (log P')) =
                 classified (S i) (log P') ++ pending i (S i) P')).
    { intros P' Hcl Hpend Hmono. rewrite !Hcl, Hpend.
      split; [done|]. intros Ho. by apply Hex, Hmono. }
    destruct a as [k0 j0 str0|k0|w].
    + apply Hkeep; [| |apply flag_open_before].
      * cbn [pstep]. by destruct (feeders P !! k0).
      * cbn [pstep]. by destruct (feeders P !! k0).
    + apply Hkeep; [| |apply flag_open_before]; cbn [pstep];
        (destruct (feeders P !! k0) as [[[j1 str1] pc1]|] eqn:Hk0; [|done]);
        pose proof (Hfd _ _ _ _ Hk0) as ->;
        (destruct (pw_run _ _ _ _ _) as [[[pc'|err] P1]|] eqn:Hrun; [| |done]);
        destruct (pw_run_frame _ _ _ _ _ _ _ Hrun) as (Hfr & Hcl & Hload);
        destruct (pw_run_spec _ _ _ _ _ _ _ Hrun) as (Hws & _).
      * done.
      * intros k. cbn [log]. by rewrite classified_other.
      * apply pending_frame; try done.
        -- unfold worker_at. cbn [workers]. by rewrite Hws.
        -- unfold worker_at. cbn [workers]. by rewrite Hws.
        -- cbn [ctxs]. by apply Hfr.
      * apply pending_frame; try done.
        -- unfold worker_at. cbn [workers]. by rewrite Hws.
        -- unfold worker_at. cbn [workers]. by rewrite Hws.
        -- cbn [ctxs]. by apply Hfr.
    + cbn [pstep].
      destruct (worker_step w P) as [P'|] eqn:Hstep; [|by apply Hkeep].
      change (default P (Some P')) with P'.
      assert (∃ pc, workers P !! w = Some pc) as [pc Hpc].
      { unfold worker_step in Hstep. destruct (workers P !! w); [eauto|done]. }
      destruct (worker_step_flow fs w P P' pc Hch Hpc Hstep)
        as (pc' & Hws & Hload & Hcl & Hcons & Hfr & Hprod).
      destruct (held_parts_below P (S i) Hm) as [Hhs _].
      destruct (held_parts_below P i Hm) as [_ Hfi].
      pose proof (queue_below P (S i) Hm) as Hqs.
      eapply (flow_step _ _ (pending i (S i) P) _ _ (pending i (S i) P')
                (if bool_decide (S i = w) then strings P (looked_at pc) else [])
                (omap (made_of f)
                   (if bool_decide (i = w) then strings P (looked_at pc) else [])));
        [exact Hpre|exact Hex|apply Hcl| |exact Hdec| | |].
      * rewrite Hcl. unfold classified. by rewrite omap_app.
      * intros Ho'. apply (flag_open_before (StepWorker w) P). cbn [pstep].
        by rewrite Hstep.
      * intros Hno. case_bool_decide as Hw; [subst w|done].
        assert (finished_flags P !! S i = Some (Some 1)) as Hone.
        { destruct (finished_flags P !! S i) as [o|] eqn:Ho.
          - destruct (Hfl _ _ Ho) as [->| ->]; done.
          - apply lookup_ge_None in Ho. unfold finished_flags in Ho.
            rewrite length_fmap, (lv_ctxs _ _ Hlive) in Ho. lia. }
        destruct (lv_late _ _ Hlive _ Hone) as (pc0 & Hpc0 & Hlate).
        rewrite Hpc in Hpc0. injection Hpc0 as <-.
        by rewrite late_looks_at_nothing.
      * intros Ho. unfold pending. rewrite !strings_app.
        destruct (decide (w = i)) as [->|Hwi];
          [|destruct (decide (w = S i)) as [->|Hws']].
        -- (* the producer of this link *)
           rewrite bool_decide_eq_false_2 by lia.
           rewrite bool_decide_eq_true_2 by done. cbn [app].
           rewrite (worker_at_insert _ (S i) _ _ _ Hws) by lia.
           rewrite (worker_at_insert_eq _ _ _ _ _ Hpc Hws).
           rewrite (worker_at_lookup _ _ _ Hpc).
           rewrite (strings_stable P P' _ Hhs Hload).
           rewrite <- !strings_app, (Hprod f Hlt Hf Ho), !strings_app.
           by rewrite <- !app_assoc.
        -- (* the consumer of this link *)
           rewrite bool_decide_eq_true_2 by done.
           rewrite bool_decide_eq_false_2 by lia. cbn [omap].
           rewrite (worker_at_insert _ i _ _ _ Hws) by lia.
           rewrite (worker_at_insert_eq _ _ _ _ _ Hpc Hws).
           rewrite (worker_at_lookup _ _ _ Hpc).
           rewrite (strings_stable P P' _ Hfi Hload).
           rewrite app_nil_r, !app_assoc. f_equal.
           rewrite !strings_app in Hcons. by rewrite <- app_assoc.
        -- (* another worker *)
           rewrite !bool_decide_eq_false_2 by lia. cbn [omap app].
           rewrite app_nil_r, <- !strings_app.
           apply (pending_frame i P P' Hm).
           ++ by apply (worker_at_insert _ _ _ _ _ Hws).
           ++ by apply (worker_at_insert _ _ _ _ _ Hws).
           ++ apply Hfr; lia.
           ++ done.
Qed.

End FlowRuns.

Section FlowTheorem.
Import Monitor ConsumerProducer PluginCommon Main Shutdown Flow.

Lemma chain_prun fs sched P :
  chain_inv fs P → forallb feeds_first sched = true →
  chain_inv fs (prun sched P).
Proof.
  revert P. induction sched as [|a sched IH]; intros P HP Hs; [done|].
  cbn [forallb] in Hs. apply andb_true_iff in Hs as [Ha Hs].
  rewrite prun_cons. apply IH; [|done]. apply chain_pstep; [done|].
  intros k j str ->. cbn in Ha. by apply bool_decide_eq_true in Ha.
Qed.

Lemma started_chain_inv fs c P0 :
  (consumer_producer_init ConsumerProducer.zeroed c).1 = None →
  started fs c = Some P0 → chain_inv fs P0.
Proof.
  intros Hc Hst.
  destruct (started_parts fs c P0 Hc Hst) as (Hfresh & Hw & Hfd & Hmem & Hqs).
  destruct (init_ok _ _ Hc) as (_ & _ & Hcont & Hfin).
  assert (Hn : (1 ≤ length fs)%nat).
  { destruct fs; [done|cbn; lia]. }
  assert (Hlen3 : length (stage3_contexts fs c) = length fs).
  { unfold stage3_contexts. by rewrite length_fmap. }
  destruct (stage4_spec (stage3_contexts fs c))
    as (gs' & Hrun & Hlen & Hgs'); [lia|by apply stage3_fresh|].
  rewrite Hlen3 in Hrun, Hlen, Hgs'.
  assert (Hctxs : ctxs P0 = gs').
  { revert Hst. unfold started. rewrite Hrun. by intros [= <-]. }
  assert (Hlog : log P0 = []).
  { revert Hst. unfold started. rewrite Hrun. by intros [= <-]. }
  rewrite Forall_forall in Hqs.
  split.
  - by eapply started_live.
  - intros i g Hg. rewrite Hctxs in Hg.
    assert (Hilt : (i < length fs)%nat) by (apply lookup_lt_Some in Hg; lia).
    destruct (lookup_lt_is_Some_2 fs i Hilt) as [f Hf].
    rewrite (Hgs' i _ (stage3_lookup fs c i f Hc Hf)) in Hg.
    injection Hg as <-. rewrite Hf. by case_bool_decide.
  - intros k j str pc. by rewrite Hfd, lookup_empty.
  - intros k o. unfold finished_flags. rewrite list_lookup_fmap.
    destruct (ctxs P0 !! k) as [g|] eqn:Hg; [|done]. cbn.
    destruct (Hqs g (list_elem_of_lookup_2 _ _ _ Hg)) as [-> _]. cbn.
    rewrite Hfin. intros [= <-]. by left.
  - intros i f Hlt Hf. rewrite Hlog. cbn. split; [done|]. intros _.
    unfold pending, worker_at. rewrite Hw, !lookup_replicate_2 by lia. cbn.
    unfold queue_at.
    destruct (ctxs P0 !! S i) as [g|] eqn:Hg; [|done]. cbn.
    destruct (Hqs g (list_elem_of_lookup_2 _ _ _ Hg)) as [Hq _].
    unfold queue_holds. rewrite Hq. cbn. by rewrite Hcont.
Qed.

(** X27: a stage processes what the stage before it hands over, in order.
    In every state that a started chain fed at its first stage reaches, for
    a stage [i] with a next stage: the strings the next stage has dequeued
    and looked at are, in order, a prefix of what stage [i] made of the
    strings it looked at (the sentinel as it is, otherwise the result of its
    transform, nothing where the transform returned NULL); and as long as
    the queue of the next stage is not marked finished, the rest is exactly
    what is on the way between the two: held by the next worker, in its
    queue, or being handed over by the worker of stage [i]. *)
Theorem stages_hand_over_in_order
    (fs : list transform) (c : Z) (P0 : pipeline) (sched : list paction)
    (i : nat) (f : transform) :
  (consumer_producer_init ConsumerProducer.zeroed c).1 = None →
  started fs c = Some P0 →
  forallb feeds_first sched = true →
  (S i < length fs)%nat → fs !! i = Some f →
  let P := prun sched P0 in
  classified (S i) (log P) `prefix_of` omap (made_of f) (classified i (log P)) ∧
  (finished_flags P !! S i = Some (Some 0) →
   omap (made_of f) (classified i (log P)) =
     classified (S i) (log P) ++ pending i (S i) P).
Proof.
  intros Hc Hst Hs Hlt Hf P.
  apply (ch_flow fs P); [|done|done].
  apply chain_prun; [|done]. by eapply started_chain_inv.
Qed.

Lemma stages_hand_over_in_order_witness :
  classified 1 (log (prun hello_end upper_log)) `prefix_of`
    omap (made_of uppercaser_transform)
      (classified 0 (log (prun hello_end upper_log))).
Proof.
  exact (proj1 (stages_hand_over_in_order
                  [uppercaser_transform; logger_transform] 8 upper_log
                  hello_end 0 uppercaser_transform
                  eq_refl eq_refl eq_refl (le_n 2) eq_refl)).
Defined.

End FlowTheorem.
